(** * Task execution orchestrator: model and verification

    Shallow embedding of
    - [app/api/tasks/[taskId]/execute/route.ts] (trigger endpoint, deadline
      race, cancellation checkpoints, branch-name wait, the [processTask]
      pipeline),
    - the stop request of the task route ([stopTaskExecution]),
    - [lib/crypto.ts] ([encrypt] / [decrypt]),
    - [lib/utils/rate-limit.ts] ([checkRateLimit]),
    - the lookups of a user's keys and GitHub token in
      [unnamed/part_005] ([getApiKeysByUserId], [getGitHubTokenByUserId]),
    - the task route and the repository listing in [unnamed/part_001]
      ([GET], [PATCH], [DELETE] of a task; [GET] of the user's
      repositories),
    - [lib/github/client.ts] ([parseGitHubUrl], the pull-request
      operations and their error mapping, and the command line of
      [runInProject] that the same file carries).

    Part I holds the definitions, Part II the lemmas and theorems. *)

From Stdlib Require Import ZArith NArith List String Ascii Bool Lia.
From Stdlib.Strings Require Import Byte.
From Stdlib Require Import DecimalString.
Import ListNotations.

(* ================================================================== *)
(** * Part I. Definitions                                              *)
(* ================================================================== *)

(** ** JavaScript strings

    A JavaScript string is a sequence of UTF-16 code units; the regular
    expressions of the source carry no [u] flag and so work unit by unit.
    A code unit is a number below 65536. *)
Module Js.

Local Open Scope N_scope.

Definition jsstring := list N.

(** What [throw] carries: an [Error] with its message, or another value. *)
Inductive Exn : Type :=
| JsError (message : string)
| JsValue (text : string).

(** What a call does: it returns a value or throws. *)
Inductive result (A : Type) : Type :=
| Returns (a : A)
| Throws (e : Exn).
Arguments Returns {A} a.
Arguments Throws {A} e.

(** The code units of an ASCII literal. *)
Definition lit (s : string) : jsstring :=
  map N_of_ascii (list_ascii_of_string s).

(** [!s] is true exactly for the empty string. *)
Definition falsy (s : jsstring) : bool :=
  match s with [] => true | _ :: _ => false end.

Definition BACKTICK : N := 96.
Definition APOSTROPHE : N := 39.
Definition DOLLAR : N := 36.
Definition BACKSLASH : N := 92.
Definition HYPHEN : N := 45.
Definition SPACE : N := 32.
Definition COLON : N := 58.

(** ECMAScript LineTerminator: LF, CR, LS (U+2028), PS (U+2029).  With the
    [m] flag, [^] matches at index 0 and right after one of these. *)
Definition LineTerminator (c : N) : bool :=
  (c =? 10) || (c =? 13) || (c =? 8232) || (c =? 8233).

(** [s.replace(/c/g, r)] for a pattern that is one literal code unit. *)
Definition replaceAll (c : N) (r : jsstring) (s : jsstring) : jsstring :=
  flat_map (fun u => if u =? c then r else [u]) s.

(** [s.replace(/^c/gm, r)]: [atStart] says whether the position in front
    of the head of [s] is the start of the input or follows a line
    terminator of the input. *)
Fixpoint replaceAtLineStart_from (atStart : bool) (c : N) (r : jsstring)
    (s : jsstring) : jsstring :=
  match s with
  | [] => []
  | u :: t =>
      (if atStart && (u =? c) then r else [u])
        ++ replaceAtLineStart_from (LineTerminator u) c r t
  end.

Definition replaceAtLineStart (c : N) (r s : jsstring) : jsstring :=
  replaceAtLineStart_from true c r s.

(** [s.includes(c)] for a one-unit needle. *)
Definition includesUnit (c : N) (s : jsstring) : bool :=
  existsb (N.eqb c) s.

(** [s.split(c)] for a one-unit separator: the pieces between separators,
    [['']] for the empty string. *)
Fixpoint split (c : N) (s : jsstring) : list jsstring :=
  match s with
  | [] => [[]]
  | u :: t =>
      if u =? c then [] :: split c t
      else match split c t with
           | [] => [[u]]
           | p :: ps => (u :: p) :: ps
           end
  end.

(** The lines of a string: the pieces between line terminators. *)
Fixpoint lines (s : jsstring) : list jsstring :=
  match s with
  | [] => [[]]
  | u :: t =>
      if LineTerminator u then [] :: lines t
      else match lines t with
           | [] => [[u]]
           | p :: ps => (u :: p) :: ps
           end
  end.

(** A line begins with [c]. *)
Definition beginsWith (c : N) (l : jsstring) : bool :=
  match l with
  | [] => false
  | u :: _ => u =? c
  end.

End Js.

(** ** Prompt sanitisation (route.ts, line 483)

    [prompt.replace(/`/g, "'").replace(/\$/g, '').replace(/\\/g, '')
           .replace(/^-/gm, ' -')] *)
Module Sanitize.
Import Js.

Definition sanitizePrompt (prompt : jsstring) : jsstring :=
  replaceAtLineStart HYPHEN [SPACE; HYPHEN]
    (replaceAll BACKSLASH []
       (replaceAll DOLLAR []
          (replaceAll BACKTICK [APOSTROPHE] prompt))).

End Sanitize.

(** ** Node buffers: the [hex] and [utf8] codecs

    [lib/crypto.ts] converts between strings and byte buffers through
    Node's [Buffer]; the codecs are written out here as Node defines
    them.  A buffer is a list of bytes. *)
Module Buffer.
Import Js.
Local Open Scope N_scope.

Definition buffer := list byte.

(** The byte with value [n]; callers pass values below 256. *)
Definition byteOf (n : N) : byte :=
  match Byte.of_N n with
  | Some b => b
  | None => x00
  end.

(** *** [buf.toString('hex')] and [Buffer.from(str, 'hex')] *)

(** Lower-case hexadecimal digit of a value below 16. *)
Definition hexDigit (n : N) : N :=
  if n <? 10 then 48 + n else 87 + n.

(** Value of a hexadecimal digit, either case. *)
Definition unhex (c : N) : option N :=
  if (48 <=? c) && (c <=? 57) then Some (c - 48)
  else if (97 <=? c) && (c <=? 102) then Some (c - 87)
  else if (65 <=? c) && (c <=? 70) then Some (c - 55)
  else None.

Definition toHex (b : buffer) : jsstring :=
  flat_map (fun x => [hexDigit (to_N x / 16); hexDigit (to_N x mod 16)]) b.

(** Decoding reads two digits per byte and stops at the first pair that is
    not hexadecimal (or at a trailing single unit).  Node's decoder looks
    at the low byte of a code unit only, so a unit of 256 or more is read
    as the unit that has its low eight bits. *)
Fixpoint fromHex (s : jsstring) : buffer :=
  match s with
  | a :: b :: t =>
      match unhex (a mod 256), unhex (b mod 256) with
      | Some h, Some l => byteOf (16 * h + l) :: fromHex t
      | _, _ => []
      end
  | _ => []
  end.

(** *** [Buffer.from(str, 'utf8')] and [buf.toString('utf8')] *)

Definition isHighSurrogate (u : N) : bool := (0xD800 <=? u) && (u <=? 0xDBFF).
Definition isLowSurrogate (u : N) : bool := (0xDC00 <=? u) && (u <=? 0xDFFF).
Definition isSurrogate (u : N) : bool := (0xD800 <=? u) && (u <=? 0xDFFF).

(** U+FFFD, written for whatever cannot be encoded or decoded. *)
Definition REPLACEMENT : N := 0xFFFD.

Definition encodeCodePoint (c : N) : buffer :=
  if c <? 0x80 then [byteOf c]
  else if c <? 0x800 then
    [byteOf (0xC0 + c / 0x40); byteOf (0x80 + c mod 0x40)]
  else if c <? 0x10000 then
    [byteOf (0xE0 + c / 0x1000); byteOf (0x80 + (c / 0x40) mod 0x40);
     byteOf (0x80 + c mod 0x40)]
  else
    [byteOf (0xF0 + c / 0x40000); byteOf (0x80 + (c / 0x1000) mod 0x40);
     byteOf (0x80 + (c / 0x40) mod 0x40); byteOf (0x80 + c mod 0x40)].

(** A high surrogate followed by a low one is one code point; a surrogate
    on its own is written as U+FFFD. *)
Fixpoint utf8Encode (s : jsstring) : buffer :=
  match s with
  | [] => []
  | u :: t =>
      if isHighSurrogate u then
        match t with
        | v :: t' =>
            if isLowSurrogate v then
              encodeCodePoint (0x10000 + (u - 0xD800) * 0x400 + (v - 0xDC00))
                ++ utf8Encode t'
            else encodeCodePoint REPLACEMENT ++ utf8Encode t
        | [] => encodeCodePoint REPLACEMENT
        end
      else if isLowSurrogate u then encodeCodePoint REPLACEMENT ++ utf8Encode t
      else encodeCodePoint u ++ utf8Encode t
  end.

Definition unitsOfCodePoint (c : N) : jsstring :=
  if c <? 0x10000 then [c]
  else [0xD800 + (c - 0x10000) / 0x400; 0xDC00 + (c - 0x10000) mod 0x400].

(** The decoder between two bytes of one sequence: the code point read
    so far, how many continuation bytes are still to come, and the range
    the next byte must lie in. *)
Record Pending : Type := {
  codePoint : N;
  needed : nat;
  lower : N;
  upper : N
}.

(** A byte read while no sequence is pending: an ASCII byte stands for
    itself; a lead byte opens a sequence, and E0, ED, F0 and F4 narrow
    the range of the byte that follows, which rules out overlong forms,
    surrogates and code points above U+10FFFF; any other byte is
    ill-formed. *)
Definition lead (n : N) : jsstring * option Pending :=
  if n <? 0x80 then ([n], None)
  else if (0xC2 <=? n) && (n <=? 0xDF) then
    ([], Some {| codePoint := n - 0xC0; needed := 1;
                 lower := 0x80; upper := 0xBF |})
  else if (0xE0 <=? n) && (n <=? 0xEF) then
    ([], Some {| codePoint := n - 0xE0; needed := 2;
                 lower := if n =? 0xE0 then 0xA0 else 0x80;
                 upper := if n =? 0xED then 0x9F else 0xBF |})
  else if (0xF0 <=? n) && (n <=? 0xF4) then
    ([], Some {| codePoint := n - 0xF0; needed := 3;
                 lower := if n =? 0xF0 then 0x90 else 0x80;
                 upper := if n =? 0xF4 then 0x8F else 0xBF |})
  else ([REPLACEMENT], None).

(** [buf.toString('utf8')]: well-formed sequences decode to their code
    points, and every maximal ill-formed run that could still begin a
    sequence is read as one U+FFFD.  A byte that does not continue the
    pending sequence ends it with U+FFFD and is then read afresh; input
    that ends within a sequence ends with U+FFFD. *)
Fixpoint decodeFrom (p : option Pending) (b : buffer) : jsstring :=
  match b with
  | [] =>
      match p with
      | None => []
      | Some _ => [REPLACEMENT]
      end
  | x :: r =>
      let n := to_N x in
      match p with
      | None => let (out, p') := lead n in out ++ decodeFrom p' r
      | Some s =>
          if (lower s <=? n) && (n <=? upper s) then
            let c := codePoint s * 0x40 + (n - 0x80) in
            match needed s with
            | S (S k) =>
                decodeFrom (Some {| codePoint := c; needed := S k;
                                    lower := 0x80; upper := 0xBF |}) r
            | _ => unitsOfCodePoint c ++ decodeFrom None r
            end
          else
            let (out, p') := lead n in
            REPLACEMENT :: out ++ decodeFrom p' r
      end
  end.

Definition utf8Decode (b : buffer) : jsstring := decodeFrom None b.

(** A string is well formed when every unit is below 65536 and surrogates
    only occur as a high one immediately followed by a low one. *)
Fixpoint wellFormed (s : jsstring) : bool :=
  match s with
  | [] => true
  | u :: t =>
      if isHighSurrogate u then
        match t with
        | v :: t' => isLowSurrogate v && wellFormed t'
        | [] => false
        end
      else negb (isLowSurrogate u) && (u <? 0x10000) && wellFormed t
  end.

End Buffer.

(** ** [lib/crypto.ts] *)
Module Crypto.
Import Js Buffer.

(** Node's [crypto] ciphers, as the module uses them.  [gcmEncrypt key iv
    plaintext] is [createCipheriv('aes-256-gcm', key, iv)] followed by
    [update], [final] and [getAuthTag]: the ciphertext and the tag.
    [gcmDecrypt key iv tag ciphertext] is [createDecipheriv], [setAuthTag],
    [update] and [final]; [None] stands for any of them throwing (bad
    lengths, failed authentication).  [cbcDecrypt key iv ciphertext] is
    the legacy [aes-256-cbc] path. *)
Class Cipher : Type := {
  gcmEncrypt : buffer -> buffer -> buffer -> buffer * buffer;
  gcmDecrypt : buffer -> buffer -> buffer -> buffer -> option buffer;
  cbcDecrypt : buffer -> buffer -> buffer -> option buffer
}.

(** Correctness of AES-256-GCM for a 32-byte key and a 12-byte nonce:
    decrypting a ciphertext under the key, nonce and tag it was produced
    with gives the plaintext back. *)
Definition gcmCorrect (C : Cipher) : Prop :=
  forall key iv plaintext,
    List.length key = 32%nat -> List.length iv = 12%nat ->
    gcmDecrypt key iv (snd (gcmEncrypt key iv plaintext))
               (fst (gcmEncrypt key iv plaintext)) = Some plaintext.

Definition IV_LENGTH_GCM : nat := 12.
Definition IV_LENGTH_CBC : nat := 16.
Definition TAG_LENGTH : nat := 16.

Section WithCipher.
Context {C : Cipher}.

(** [process.env.ENCRYPTION_KEY], unset or a string. *)
Variable ENCRYPTION_KEY : option jsstring.

Definition getEncryptionKey : result (option buffer) :=
  match ENCRYPTION_KEY with
  | None => Returns None
  | Some key =>
      if falsy key then Returns None
      else
        let keyBuffer := fromHex key in
        if Nat.eqb (List.length keyBuffer) 32 then Returns (Some keyBuffer)
        else Throws (JsError "ENCRYPTION_KEY must be a 32-byte hex string (64 characters). Generate one with: openssl rand -hex 32")
  end.

(** [iv] is what [crypto.randomBytes(IV_LENGTH_GCM)] returned. *)
Definition encrypt (iv : buffer) (text : jsstring) : result jsstring :=
  if falsy text then Returns text
  else
    match getEncryptionKey with
    | Throws m => Throws m
    | Returns None =>
        Throws (JsError "ENCRYPTION_KEY environment variable is required for MCP encryption. Generate one with: openssl rand -hex 32")
    | Returns (Some key) =>
        let (encrypted, tag) := gcmEncrypt key iv (utf8Encode text) in
        Returns (toHex iv ++ [COLON] ++ toHex encrypted ++ [COLON] ++ toHex tag)
    end.

(** [null] is [None]. *)
Definition decrypt (encryptedText : jsstring) : result (option jsstring) :=
  if falsy encryptedText then Returns None
  else
    match getEncryptionKey with
    | Throws m => Throws m
    | Returns None => Returns None
    | Returns (Some key) =>
        if negb (includesUnit COLON encryptedText) then Returns None
        else
          (* try ... catch { return null } *)
          match split COLON encryptedText with
          | [ivHex; encryptedHex; tagHex] =>
              match gcmDecrypt key (fromHex ivHex) (fromHex tagHex)
                               (fromHex encryptedHex) with
              | Some decrypted => Returns (Some (utf8Decode decrypted))
              | None => Returns None
              end
          | [ivHex; encryptedHex] =>
              match cbcDecrypt key (fromHex ivHex) (fromHex encryptedHex) with
              | Some decrypted => Returns (Some (utf8Decode decrypted))
              | None => Returns None
              end
          | _ => Returns None
          end
    end.

End WithCipher.

(** A key setting is valid when it decodes to 32 bytes. *)
Definition validKey (ENCRYPTION_KEY : option jsstring) : bool :=
  match ENCRYPTION_KEY with
  | Some key => Nat.eqb (List.length (fromHex key)) 32
  | None => false
  end.

(** A cipher to run the definitions on: a keyed byte rotation with a
    length tag.  It stands in for AES only where a concrete run is
    wanted. *)
Definition rotate (k : N) (x : byte) : byte := byteOf ((to_N x + k) mod 256).
Definition keyShift (key : buffer) : N :=
  match key with
  | [] => 0%N
  | b :: _ => to_N b
  end.

#[local] Instance CaesarCipher : Cipher := {
  gcmEncrypt key iv p :=
    (map (rotate (keyShift key)) p, [byteOf (N.of_nat (List.length p) mod 256)]);
  gcmDecrypt key iv tag c :=
    if list_eq_dec byte_eq_dec tag [byteOf (N.of_nat (List.length c) mod 256)]
    then Some (map (rotate (256 - keyShift key)) c)
    else None;
  cbcDecrypt key iv c := Some c
}.

End Crypto.

(** ** The task row and what is written to it *)
Module TaskStore.
Import Js.
Local Open Scope string_scope.
Local Open Scope Z_scope.

Inductive Status : Type := pending | processing | completed | error | stopped.

Definition Status_eqb (a b : Status) : bool :=
  match a, b with
  | pending, pending | processing, processing | completed, completed
  | error, error | stopped, stopped => true
  | _, _ => false
  end.

(** [completed], [error] and [stopped] are the terminal statuses. *)
Definition terminal (s : Status) : bool :=
  match s with
  | completed | error | stopped => true
  | pending | processing => false
  end.

(** A string used as a condition: [''] is false. *)
Definition truthy (s : string) : bool := negb (String.eqb s "").

(** A nullable string used as a condition. *)
Definition truthy' (o : option string) : bool :=
  match o with
  | Some s => truthy s
  | None => false
  end.

(** [a || b] on nullable strings. *)
Definition orElse (a b : option string) : option string :=
  if truthy' a then a else b.

(** The columns of a task row that the orchestrator reads or writes. *)
Record Task : Type := mkTask {
  id : string;
  userId : string;
  prompt : jsstring;
  repoUrl : option string;
  selectedAgent : option string;
  selectedModel : option string;
  maxDuration : option Z;
  installDependencies : bool;
  keepAlive : bool;
  status : Status;
  progress : Z;
  branchName : option string;
  sandboxId : option string;
  sandboxUrl : option string;
  error_ : option string
}.

Definition setStatus (s : Status) (t : Task) : Task :=
  mkTask (id t) (userId t) (prompt t) (repoUrl t) (selectedAgent t)
         (selectedModel t) (maxDuration t) (installDependencies t)
         (keepAlive t) s (progress t) (branchName t) (sandboxId t)
         (sandboxUrl t) (error_ t).

Definition setProgress (p : Z) (t : Task) : Task :=
  mkTask (id t) (userId t) (prompt t) (repoUrl t) (selectedAgent t)
         (selectedModel t) (maxDuration t) (installDependencies t)
         (keepAlive t) (status t) p (branchName t) (sandboxId t)
         (sandboxUrl t) (error_ t).

Definition setBranchName (b : option string) (t : Task) : Task :=
  mkTask (id t) (userId t) (prompt t) (repoUrl t) (selectedAgent t)
         (selectedModel t) (maxDuration t) (installDependencies t)
         (keepAlive t) (status t) (progress t) b (sandboxId t)
         (sandboxUrl t) (error_ t).

Definition setSandbox (sid url : option string) (t : Task) : Task :=
  mkTask (id t) (userId t) (prompt t) (repoUrl t) (selectedAgent t)
         (selectedModel t) (maxDuration t) (installDependencies t)
         (keepAlive t) (status t) (progress t) (branchName t) sid url
         (error_ t).

Definition setError (e : option string) (t : Task) : Task :=
  mkTask (id t) (userId t) (prompt t) (repoUrl t) (selectedAgent t)
         (selectedModel t) (maxDuration t) (installDependencies t)
         (keepAlive t) (status t) (progress t) (branchName t) (sandboxId t)
         (sandboxUrl t) e.

(** [.set({ f: v })] leaves a column alone when [v] is [undefined]. *)
Definition unlessUndefined {A : Type} (v : option A) (old : option A)
  : option A :=
  match v with
  | Some _ => v
  | None => old
  end.

End TaskStore.

(** ** The trigger endpoint: [POST] of route.ts (lines 29-204) *)
Module Trigger.
Import Js TaskStore.
Local Open Scope string_scope.
Local Open Scope Z_scope.

(** The body of the request; [userId] may be missing. *)
Record Body : Type := { body_userId : option string }.

(** [X-Internal-Secret], the parsed body ([None] when [request.json()]
    throws) and the [taskId] of the path. *)
Record Request : Type := {
  internalSecretHeader : option string;
  body : option Body;
  params_taskId : string
}.

Record ApiKeys : Type := {
  OPENAI_API_KEY : option string;
  GEMINI_API_KEY : option string;
  CURSOR_API_KEY : option string;
  ANTHROPIC_API_KEY : option string;
  AI_GATEWAY_API_KEY : option string
}.

(** What the handler reads besides the request: the environment variable
    and the answers of the store and of the per-user look-ups. *)
Record Backend : Type := {
  INTERNAL_API_SECRET : option string;
  selectTask : string -> result (option Task);
  getApiKeysByUserId : string -> result ApiKeys;
  getGitHubTokenByUserId : string -> result (option string);
  getMaxSandboxDuration : string -> result Z
}.

(** The arguments of [processTaskWithTimeout]. *)
Record Args : Type := {
  taskId : string;
  arg_prompt : jsstring;
  arg_repoUrl : string;
  arg_maxDuration : Z;
  arg_selectedAgent : string;
  arg_selectedModel : option string;
  arg_installDependencies : bool;
  arg_keepAlive : bool;
  arg_apiKeys : ApiKeys;
  arg_githubToken : option string;
  arg_userId : option string
}.

(** The callback handed to [after]: it first derives the branch name and
    the title for [job_task] and then calls [processTaskWithTimeout] with
    [job_args] (see [afterCallback] below). *)
Record Job : Type := { job_task : Task; job_args : Args }.

Record Response : Type := { httpStatus : Z; responseError : option string }.

Definition json (code : Z) (err : option string) : Response :=
  {| httpStatus := code; responseError := err |}.

Definition verifyInternalCall (B : Backend) (request : Request) : bool :=
  match internalSecretHeader request with
  | Some internalSecret =>
      truthy internalSecret
      && match INTERNAL_API_SECRET B with
         | Some secret => String.eqb internalSecret secret
         | None => false
         end
  | None => false
  end.

Definition orDefault {A : Type} (o : option A) (falsy : A -> bool) (d : A) : A :=
  match o with
  | Some a => if falsy a then d else a
  | None => d
  end.

(** The request gets as far as the check of the task's status: its body
    parses, it carries the internal secret or a user id, and a user id it
    carries is the owner's. *)
Definition reachesStatusCheck (B : Backend) (request : Request) (task : Task)
  : bool :=
  match body request with
  | None => false
  | Some b =>
      (verifyInternalCall B request || truthy' (body_userId b))
      && match body_userId b with
         | Some u => negb (truthy u) || String.eqb (TaskStore.userId task) u
         | None => true
         end
  end.

(** The response and, when the request is accepted, the callback that was
    scheduled. *)
Definition POST (B : Backend) (request : Request) : Response * option Job :=
  let failed := (json 500 (Some "Failed to start task execution"), None) in
  let taskId := params_taskId request in
  match body request with
  | None => failed
  | Some body =>
      let userId := body_userId body in
      let isInternal := verifyInternalCall B request in
      if negb isInternal && negb (truthy' userId) then
        (json 401 (Some "Unauthorized"), None)
      else
        match selectTask B taskId with
        | Throws _ => failed
        | Returns None => (json 404 (Some "Task not found"), None)
        | Returns (Some task) =>
            if truthy' userId
               && negb (match userId with
                        | Some u => String.eqb (TaskStore.userId task) u
                        | None => false
                        end)
            then (json 401 (Some "Unauthorized"), None)
            else if negb (Status_eqb (status task) pending) then
              (json 400 (Some "Task is already being processed or completed"),
               None)
            else
              match getApiKeysByUserId B (TaskStore.userId task),
                    getGitHubTokenByUserId B (TaskStore.userId task),
                    getMaxSandboxDuration B (TaskStore.userId task) with
              | Returns userApiKeys, Returns userGithubToken,
                Returns maxSandboxDuration =>
                  (json 200 None,
                   Some {| job_task := task;
                           job_args :=
                             {| taskId := taskId;
                                arg_prompt := prompt task;
                                arg_repoUrl :=
                                  orDefault (repoUrl task)
                                            (fun s => negb (truthy s)) "";
                                arg_maxDuration :=
                                  orDefault (maxDuration task)
                                            (Z.eqb 0) maxSandboxDuration;
                                arg_selectedAgent :=
                                  orDefault (selectedAgent task)
                                            (fun s => negb (truthy s)) "claude";
                                arg_selectedModel :=
                                  if truthy' (selectedModel task)
                                  then selectedModel task else None;
                                arg_installDependencies :=
                                  installDependencies task;
                                arg_keepAlive := keepAlive task;
                                arg_apiKeys := userApiKeys;
                                arg_githubToken := userGithubToken;
                                arg_userId := Some (TaskStore.userId task) |}
                        |})
              | _, _, _ => failed
              end
        end
  end.

End Trigger.

(** ** The orchestrator: route.ts, lines 206-564, and the stop request *)
Module Orchestrator.
Import Js TaskStore Trigger.
Local Open Scope string_scope.
Local Open Scope Z_scope.

(** *** Collaborators *)

Record Sandbox : Type := { sandbox_sandboxId : option string }.

(** The result of [createSandbox]. *)
Record SandboxResult : Type := {
  sr_success : bool;
  sr_cancelled : bool;
  sr_error : option string;
  sr_sandbox : option Sandbox;
  sr_domain : option string;
  sr_branchName : option string
}.

(** The result of [executeAgentInSandbox]. *)
Record AgentResult : Type := {
  ar_success : bool;
  ar_error : option string;
  ar_output : option jsstring;
  ar_agentResponse : option jsstring
}.

(** The result of [pushChangesToBranch]. *)
Record PushResult : Type := { pr_success : bool; pr_pushFailed : bool }.

(** A request of another handler that the store serves while the pipeline
    is suspended: the stop request ([PATCH] with [action: 'stop']), or a
    writer that sets the branch name. *)
Inductive Arrival : Type :=
| StopRequest
| BranchNameWrite (name : string).

(** Everything outside the pipeline, fixed for one run.  Suspension points
    (each [await]) are numbered from 0 in the order the run reaches them. *)
Record Env : Type := {
  (** milliseconds the n-th suspension lasts (a negative value counts as 0) *)
  latency : nat -> Z;
  (** requests of other handlers served during the n-th suspension *)
  arrivals : nat -> list Arrival;
  (** the store call awaited at the n-th suspension is rejected *)
  dbThrows : nat -> bool;
  insertMessageThrows : bool;
  detectPortFromRepo : result Z;
  (** the [onProgress] calls [createSandbox] makes, then its outcome *)
  createSandbox_progress : list (Z * string);
  createSandbox : result SandboxResult;
  (** the connected connectors of the user, decrypted (their ids) *)
  connectedServers : result (list string);
  executeAgentInSandbox : result AgentResult;
  generateCommitMessage : result string;
  createFallbackCommitMessage : jsstring -> string;
  pushChangesToBranch : result PushResult;
  shutdownSandbox : result unit;
  (** [process.env.AI_GATEWAY_API_KEY] and the name and title generators,
      used by the callback before the pipeline starts *)
  env_AI_GATEWAY_API_KEY : option string;
  generateBranchName : result string;
  createFallbackBranchName : string -> string;
  generateTaskTitle : result string;
  createFallbackTitle : jsstring -> string
}.

(** *** The world: store, clock, timers, and the log of what happened *)

Inductive Origin : Type :=
| Pipeline          (* processTask *)
| Adapter           (* the onProgress callback, called by createSandbox *)
| RaceHandler       (* the catch block of processTaskWithTimeout *)
| WarningTimer      (* the advisory timer's callback *)
| StopHandler       (* stopTaskExecution *)
| Callback.         (* the callback handed to [after] *)

Inductive Level : Type := info | success | failure.

Inductive Event : Type :=
| EStatus (o : Origin) (s : Status) (message : string)
| EProgress (o : Origin) (p : Z) (message : string)
| ELog (o : Origin) (l : Level) (message : string)
| EInsertMessage
| EPoll (elapsed : Z) (seen : option string)
| EBranchName (o : option Origin) (name : string)
| ETitle (title : string)
| EDetectPort
| ECreateSandbox (port : Z) (preDeterminedBranchName : option string)
| EUpdateTask (sandboxId sandboxUrl branchName : option string)
| EUpdateMcpServerIds
| EExecuteAgent (sanitizedPrompt : jsstring)
| EGenerateCommitMessage (description : jsstring)
| EPush (branch message : string)
| EShutdown
| EStopRejected
| ETimerFired (timer : nat).

Inductive TimerAction : Type :=
| Warn
| Reject (message : string).

Inductive TimerState : Type := Scheduled | Cleared | Fired.

Record Timer : Type := {
  due : Z;
  action : TimerAction;
  tstate : TimerState
}.

(** The race of [processTaskWithTimeout]: not started, pending (with the
    handle of the warning timer the catch block closes over), or settled. *)
Inductive RaceOutcome : Type :=
| PipelineFinished
| DeadlineFired
| Rethrown (e : Exn).

Inductive Race : Type :=
| NoRace
| Racing (warningTimeout : nat)
| Settled (o : RaceOutcome).

Record World : Type := mkWorld {
  store : Task;                 (* the row of the task being run *)
  clock : Z;                    (* Date.now(), milliseconds *)
  ticks : nat;                  (* suspension points passed so far *)
  timers : list Timer;          (* a timer's handle is its index *)
  race : Race;
  sandboxVar : option Sandbox;  (* [let sandbox] of processTask *)
  trace : list Event            (* oldest first *)
}.

Definition withStore (f : Task -> Task) (w : World) : World :=
  mkWorld (f (store w)) (clock w) (ticks w) (timers w) (race w)
          (sandboxVar w) (trace w).
Definition withClock (c : Z) (w : World) : World :=
  mkWorld (store w) c (ticks w) (timers w) (race w) (sandboxVar w) (trace w).
Definition withTicks (n : nat) (w : World) : World :=
  mkWorld (store w) (clock w) n (timers w) (race w) (sandboxVar w) (trace w).
Definition withTimers (ts : list Timer) (w : World) : World :=
  mkWorld (store w) (clock w) (ticks w) ts (race w) (sandboxVar w) (trace w).
Definition withRace (r : Race) (w : World) : World :=
  mkWorld (store w) (clock w) (ticks w) (timers w) r (sandboxVar w) (trace w).
Definition withSandboxVar (s : option Sandbox) (w : World) : World :=
  mkWorld (store w) (clock w) (ticks w) (timers w) (race w) s (trace w).
Definition emit (e : Event) (w : World) : World :=
  mkWorld (store w) (clock w) (ticks w) (timers w) (race w) (sandboxVar w)
          (trace w ++ [e]).

Definition initial (t : Task) : World :=
  mkWorld t 0 0 [] NoRace None [].

(** *** Writes to the row *)

(** Modelled from the spec: the task logger ([lib/utils/task-logger]) is
    not among the sources.  [updateStatus] persists the status (with the
    message attached to an [error], section 4.1), [updateProgress] the
    progress percentage, and the other methods append a log line. *)
Definition logger_updateStatus (o : Origin) (s : Status) (message : string)
    (w : World) : World :=
  emit (EStatus o s message)
    (withStore (fun t =>
       setStatus s (match s with
                    | error => setError (Some message) t
                    | _ => t
                    end)) w).

Definition logger_updateProgress (o : Origin) (p : Z) (message : string)
    (w : World) : World :=
  emit (EProgress o p message) (withStore (setProgress p) w).

Definition logger_log (o : Origin) (l : Level) (message : string)
    (w : World) : World :=
  emit (ELog o l message) w.

(** [stopTaskExecution] of the task route, behind the check of [PATCH]
    that the task is [processing]: the row gets [status: 'stopped'] and
    [error: 'Task was stopped by user']. *)
Definition stopTaskExecution (w : World) : World :=
  let w := logger_log StopHandler info
             "Stop request received - terminating task execution..." w in
  let w := emit (EStatus StopHandler stopped "Task was stopped by user")
             (withStore (fun t => setStatus stopped
                                    (setError (Some "Task was stopped by user") t))
                        w) in
  logger_log StopHandler failure "Task execution stopped by user" w.

Definition PATCH_stop (w : World) : World :=
  if Status_eqb (status (store w)) processing then stopTaskExecution w
  else emit EStopRejected w.

Definition serve (w : World) (a : Arrival) : World :=
  match a with
  | StopRequest => PATCH_stop w
  | BranchNameWrite name =>
      emit (EBranchName None name) (withStore (setBranchName (Some name)) w)
  end.

(** *** Timers *)

(** Node runs a timer whose delay is not within 1 .. 2^31-1 after 1 ms. *)
Definition TIMEOUT_MAX : Z := 2147483647.
Definition nodeDelay (ms : Z) : Z :=
  if (1 <=? ms) && (ms <=? TIMEOUT_MAX) then ms else 1.

Definition setTimeout (a : TimerAction) (ms : Z) (w : World) : nat * World :=
  (List.length (timers w),
   withTimers (timers w ++ [{| due := clock w + nodeDelay ms;
                               action := a; tstate := Scheduled |}]) w).

Fixpoint setState (i : nat) (s : TimerState) (ts : list Timer) : list Timer :=
  match ts, i with
  | [], _ => []
  | t :: r, O => {| due := due t; action := action t; tstate := s |} :: r
  | t :: r, S j => t :: setState j s r
  end.

Definition isScheduled (t : Timer) : bool :=
  match tstate t with
  | Scheduled => true
  | _ => false
  end.

(** [clearTimeout] cancels a timer that has not run yet. *)
Definition clearTimeout (handle : nat) (w : World) : World :=
  match nth_error (timers w) handle with
  | Some t =>
      if isScheduled t then withTimers (setState handle Cleared (timers w)) w
      else w
  | None => w
  end.

(** The scheduled timer that is due at [now] and was due first (the one
    set first among equals), scanning from handle [i]. *)
Fixpoint nextDue (i : nat) (now : Z) (ts : list Timer)
    (best : option (nat * Z)) : option (nat * Z) :=
  match ts with
  | [] => best
  | t :: r =>
      nextDue (S i) now r
        (if isScheduled t && (due t <=? now) then
           match best with
           | Some (_, d) => if due t <? d then Some (i, due t) else best
           | None => Some (i, due t)
           end
         else best)
  end.

(** [s.includes(needle)] on messages. *)
Fixpoint includes (needle s : string) : bool :=
  if String.prefix needle s then true
  else match s with
       | EmptyString => false
       | String _ s' => includes needle s'
       end.

Definition TIMEOUT_STATUS_MESSAGE : string :=
  "Task execution timed out. The operation took too long to complete.".

(** The catch block of [processTaskWithTimeout] (lines 262-271), run when
    the race rejects with [e]; the result says whether it rethrows. *)
Definition raceCatch (warningTimeout : nat) (e : Exn) (w : World)
    : RaceOutcome * World :=
  let w := clearTimeout warningTimeout w in
  match e with
  | JsError message =>
      if includes "timed out after" message then
        let w := logger_log RaceHandler failure "Task execution timed out" w in
        (DeadlineFired,
         logger_updateStatus RaceHandler error TIMEOUT_STATUS_MESSAGE w)
      else (Rethrown e, w)
  | JsValue _ => (Rethrown e, w)
  end.

(** A rejection of the race: the first one settles it and runs the catch
    block; a promise already settled ignores it. *)
Definition rejectRace (e : Exn) (w : World) : World :=
  match race w with
  | Racing warningTimeout =>
      let (o, w') := raceCatch warningTimeout e w in
      withRace (Settled o) w'
  | _ => w
  end.

Definition runTimer (a : TimerAction) (w : World) : World :=
  match a with
  | Warn =>
      logger_log WarningTimer info
                 "Task is approaching timeout, will complete soon" w
  | Reject message => rejectRace (JsError message) w
  end.

(** Runs the timers that are due, earliest first. *)
Fixpoint fireDue (fuel : nat) (w : World) : World :=
  match fuel with
  | O => w
  | S fuel' =>
      match nextDue 0 (clock w) (timers w) None with
      | None => w
      | Some (i, _) =>
          match nth_error (timers w) i with
          | None => w
          | Some t =>
              let w := withTimers (setState i Fired (timers w)) w in
              let w := emit (ETimerFired i) w in
              fireDue fuel' (runTimer (action t) w)
          end
      end
  end.

(** *** The pipeline monad: state, exceptions, and bounded loops *)

Inductive Res (A : Type) : Type :=
| Ok (a : A)
| Raise (e : Exn)
| Starved.            (* a loop used up its iteration bound *)
Arguments Ok {A} a.
Arguments Raise {A} e.
Arguments Starved {A}.

Definition M (A : Type) : Type := World -> Res A * World.

Definition ret {A} (a : A) : M A := fun w => (Ok a, w).
Definition throw {A} (e : Exn) : M A := fun w => (Raise e, w).
Definition starve {A} : M A := fun w => (Starved, w).

Definition bind {A B} (m : M A) (k : A -> M B) : M B :=
  fun w =>
    match m w with
    | (Ok a, w') => k a w'
    | (Raise e, w') => (Raise e, w')
    | (Starved, w') => (Starved, w')
    end.

(** [try { m } catch (e) { h e }] *)
Definition tryCatch {A} (m : M A) (h : Exn -> M A) : M A :=
  fun w =>
    match m w with
    | (Raise e, w') => h e w'
    | r => r
    end.

Definition act (f : World -> World) : M unit := fun w => (Ok tt, f w).
Definition gets {A} (f : World -> A) : M A := fun w => (Ok (f w), w).

Declare Scope pipeline_scope.
Delimit Scope pipeline_scope with pipeline.
Notation "x <- m ;; k" := (bind m (fun x => k))
  (at level 61, m at next level, right associativity) : pipeline_scope.
Notation "m ;;; k" := (bind m (fun _ => k))
  (at level 61, right associativity) : pipeline_scope.
Local Open Scope pipeline_scope.

Definition when (b : bool) (m : M unit) : M unit :=
  if b then m else ret tt.

Fixpoint forEach {A} (l : list A) (f : A -> M unit) : M unit :=
  match l with
  | [] => ret tt
  | a :: r => f a ;;; forEach r f
  end.

Section Run.
Variable env : Env.

(** An [await]: other handlers' requests are served, at least [atLeast]
    milliseconds pass, and the timers that came due run. *)
Definition suspend (atLeast : Z) : M unit :=
  fun w =>
    let n := ticks w in
    let w := fold_left serve (arrivals env n) w in
    let w := withClock (clock w + atLeast + Z.max 0 (latency env n)) w in
    let w := fireDue (List.length (timers w)) w in
    (Ok tt, withTicks (S n) w).

(** An awaited call to a collaborator with outcome [r]. *)
Definition await {A} (r : result A) : M A :=
  suspend 0 ;;;
  match r with
  | Returns a => ret a
  | Throws e => throw e
  end.

(** An awaited store call: it is rejected when [dbThrows] says so for the
    suspension it occupies, and otherwise applies [f]. *)
Definition awaitDb {A} (f : World -> A * World) : M A :=
  fun w =>
    let n := ticks w in
    match suspend 0 w with
    | (Ok _, w') =>
        if dbThrows env n then (Raise (JsError "store call failed"), w')
        else let (a, w'') := f w' in (Ok a, w'')
    | (Raise e, w') => (Raise e, w')
    | (Starved, w') => (Starved, w')
    end.

(** [db.select().from(tasks).where(eq(tasks.id, taskId))] *)
Definition selectTaskRow : M Task := awaitDb (fun w => (store w, w)).

Definition logger (o : Origin) (l : Level) (message : string) : M unit :=
  suspend 0 ;;; act (logger_log o l message).
Definition updateStatus (s : Status) (message : string) : M unit :=
  suspend 0 ;;; act (logger_updateStatus Pipeline s message).
Definition updateProgress (p : Z) (message : string) : M unit :=
  suspend 0 ;;; act (logger_updateProgress Pipeline p message).
(** [onProgress] of the options handed to [createSandbox] (lines 393-395). *)
Definition onProgress (p : Z) (message : string) : M unit :=
  suspend 0 ;;; act (logger_updateProgress Adapter p message).

(** Lines 275-282. *)
Definition isTaskStopped : M bool :=
  tryCatch
    (task <- selectTaskRow ;;
     ret (Status_eqb (status task) stopped))
    (fun _ => ret false).

(** Lines 285-302.  The loop runs while [Date.now() - startTime <
    maxWaitMs]; every round sleeps 500 ms, so [fuel] rounds suffice when
    [maxWaitMs <= 500 * fuel]. *)
Fixpoint waitForBranchName_loop (fuel : nat) (startTime maxWaitMs : Z)
    : M (option string) :=
  now <- gets clock ;;
  if now - startTime <? maxWaitMs then
    match fuel with
    | O => starve
    | S fuel' =>
        found <- tryCatch
                   (task <- selectTaskRow ;;
                    ret (if truthy' (branchName task) then branchName task
                         else None))
                   (fun _ => ret None) ;;
        act (emit (EPoll (now - startTime) found)) ;;;
        match found with
        | Some name => ret (Some name)
        | None =>
            suspend 500 ;;;
            waitForBranchName_loop fuel' startTime maxWaitMs
        end
    end
  else ret None.

Definition rounds (maxWaitMs : Z) : nat := Z.to_nat ((maxWaitMs + 499) / 500).

Definition waitForBranchName (maxWaitMs : Z) : M (option string) :=
  startTime <- gets clock ;;
  waitForBranchName_loop (rounds maxWaitMs) startTime maxWaitMs.

Definition shutdown : M unit :=
  act (emit EShutdown) ;;;
  tryCatch (await (shutdownSandbox env)) (fun _ => ret tt).

Definition errorMessage (e : Exn) : string :=
  match e with
  | JsError message => message
  | JsValue _ => "An unexpected error occurred"
  end.

Definition orString (o : option string) (d : string) : string :=
  match o with
  | Some s => if truthy s then s else d
  | None => d
  end.

(** [a || b || c] on optional texts. *)
Definition firstText (a b : option jsstring) (c : jsstring) : jsstring :=
  match a with
  | Some ((_ :: _) as s) => s
  | _ => match b with
         | Some ((_ :: _) as s) => s
         | _ => c
         end
  end.

(** Lines 452-481: the connected servers of the user. *)
Definition loadMcpServers (a : Args) : M (list string) :=
  if truthy' (arg_userId a) then
    tryCatch
      (mcpServers <- await (connectedServers env) ;;
       tryCatch
         (when (negb (Nat.eqb (List.length mcpServers) 0))
            (logger Pipeline info "Found connected MCP servers" ;;;
             awaitDb (fun w => (tt, emit EUpdateMcpServerIds w))) ;;;
          ret mcpServers)
         (fun _ =>
            logger Pipeline info
              "Warning: Could not fetch MCP servers, continuing without them" ;;;
            ret mcpServers))
      (fun _ =>
         logger Pipeline info
           "Warning: Could not fetch MCP servers, continuing without them" ;;;
         ret [])
  else ret [].

(** Lines 517-538: commit message and push. *)
Definition publish (a : Args) (agentResult : AgentResult)
    (finalBranchName : string) : M unit :=
  let commitDescription :=
    firstText (ar_agentResponse agentResult) (ar_output agentResult)
              (arg_prompt a) in
  commitMessage <-
    tryCatch
      (act (emit (EGenerateCommitMessage commitDescription)) ;;;
       await (generateCommitMessage env))
      (fun _ => ret (createFallbackCommitMessage env commitDescription)) ;;
  act (emit (EPush finalBranchName commitMessage)) ;;;
  pushResult <- await (pushChangesToBranch env) ;;
  if pr_success pushResult && negb (pr_pushFailed pushResult) then
    logger Pipeline success "Changes pushed to branch"
  else if pr_pushFailed pushResult then
    logger Pipeline info
      "Changes committed locally but could not be pushed to remote"
  else ret tt.

(** Lines 510-551: what follows a successful agent run. *)
Definition finish (a : Args) (sandbox : Sandbox) (branchName : option string)
    (agentResult : AgentResult) : M unit :=
  logger Pipeline success "Agent completed work" ;;;
  updateProgress 90 "Committing and pushing changes" ;;;
  currentTask <- selectTaskRow ;;
  let finalBranchName :=
    orString (orElse (TaskStore.branchName currentTask) branchName)
             ("ai-agent-" ++ taskId a) in
  when (truthy (arg_repoUrl a) && truthy' (arg_githubToken a))
       (publish a agentResult finalBranchName) ;;;
  updateProgress 100 "Task completed" ;;;
  updateStatus completed "Task completed successfully" ;;;
  when (negb (arg_keepAlive a))
       (logger Pipeline info "Shutting down sandbox" ;;; shutdown).

(** Lines 438-508: from the checkpoint before the agent to its result. *)
Definition runAgent (a : Args) (branchName : option string) : M unit :=
  stopped <- isTaskStopped ;;
  if stopped then logger Pipeline info "Task was stopped before agent execution"
  else
    updateProgress 50 "Installing and executing agent" ;;;
    sandbox <- gets sandboxVar ;;
    match sandbox with
    | None => throw (JsError "Sandbox is not available for agent execution")
    | Some sandbox =>
        mcpServers <- loadMcpServers a ;;
        let sanitizedPrompt := Sanitize.sanitizePrompt (arg_prompt a) in
        act (emit (EExecuteAgent sanitizedPrompt)) ;;;
        agentResult <- await (executeAgentInSandbox env) ;;
        if negb (ar_success agentResult) then
          stopped <- isTaskStopped ;;
          if stopped then logger Pipeline info "Agent execution was stopped"
          else throw (JsError (orString (ar_error agentResult)
                                        "Agent execution failed"))
        else finish a sandbox branchName agentResult
    end.

(** Lines 369-436: sandbox creation and the update of the row. *)
Definition provision (a : Args) (aiBranchName : option string) : M unit :=
  updateProgress 15 "Creating sandbox environment" ;;;
  port <- (if truthy (arg_repoUrl a)
           then act (emit EDetectPort) ;;; await (detectPortFromRepo env)
           else ret 3000) ;;
  act (emit (ECreateSandbox port aiBranchName)) ;;;
  forEach (createSandbox_progress env)
          (fun pm => onProgress (fst pm) (snd pm)) ;;;
  sandboxResult <- await (createSandbox env) ;;
  if negb (sr_success sandboxResult) then
    if sr_cancelled sandboxResult then
      logger Pipeline info "Task was cancelled during sandbox creation"
    else throw (JsError (orString (sr_error sandboxResult)
                                  "Failed to create sandbox"))
  else
    stopped <- isTaskStopped ;;
    if stopped then
      logger Pipeline info "Task was stopped during sandbox creation" ;;;
      match sr_sandbox sandboxResult with
      | Some _ => shutdown
      | None => ret tt
      end
    else
      let branchName := sr_branchName sandboxResult in
      act (withSandboxVar (sr_sandbox sandboxResult)) ;;;
      let sandboxId :=
        match sr_sandbox sandboxResult with
        | Some s => if truthy' (sandbox_sandboxId s) then sandbox_sandboxId s
                    else None
        | None => None
        end in
      let sandboxUrl :=
        if truthy' (sr_domain sandboxResult) then sr_domain sandboxResult
        else None in
      let updateBranch :=
        match aiBranchName with
        | None => branchName
        | Some _ => None
        end in
      awaitDb (fun w =>
        (tt, emit (EUpdateTask sandboxId sandboxUrl updateBranch)
               (withStore (fun t =>
                  setBranchName
                    (unlessUndefined updateBranch (TaskStore.branchName t))
                    (setSandbox
                       (unlessUndefined sandboxId (TaskStore.sandboxId t))
                       (unlessUndefined sandboxUrl (TaskStore.sandboxUrl t))
                       t)) w))) ;;;
      runAgent a branchName.

(** Lines 326-367: start-up, the first checkpoints and the branch-name
    wait. *)
Definition start (a : Args) : M unit :=
  updateStatus processing "Task created, preparing to start..." ;;;
  updateProgress 10 "Initializing task execution..." ;;;
  tryCatch
    (act (emit EInsertMessage) ;;;
     await (if insertMessageThrows env
            then Throws (JsError "insert failed") else Returns tt))
    (fun _ => ret tt) ;;;
  (if truthy' (arg_githubToken a) then
     logger Pipeline info "Using authenticated GitHub access"
   else if truthy (arg_repoUrl a) then
     logger Pipeline info
       "No GitHub token available, attempting unauthenticated access"
   else logger Pipeline info "Running in standalone mode (no repository)") ;;;
  logger Pipeline info "API keys configured for selected agent" ;;;
  stopped <- isTaskStopped ;;
  if stopped then logger Pipeline info "Task was stopped before execution began"
  else
    aiBranchName <- waitForBranchName 10000 ;;
    stopped <- isTaskStopped ;;
    if stopped then
      logger Pipeline info "Task was stopped during branch name generation"
    else
      (match aiBranchName with
       | Some _ => logger Pipeline info "Using AI-generated branch name"
       | None =>
           logger Pipeline info
             "AI branch name not ready, will use fallback during sandbox creation"
       end) ;;;
      provision a aiBranchName.

(** Lines 304-564: the body above inside [try], and the catch block. *)
Definition processTask (a : Args) : M unit :=
  act (withSandboxVar None) ;;;
  tryCatch (start a)
    (fun e =>
       logger Pipeline failure "Task failed" ;;;
       updateStatus error (errorMessage e) ;;;
       sandbox <- gets sandboxVar ;;
       match sandbox with
       | Some _ => shutdown
       | None => ret tt
       end).

Definition showMinutes (maxDuration : Z) : string :=
  NilZero.string_of_int (Z.to_int maxDuration).

Definition timeoutError (maxDuration : Z) : string :=
  "Task execution timed out after " ++ showMinutes maxDuration ++ " minutes".

(** [setTimeout] as a step of a program: the handle of the new timer. *)
Definition schedule (a : TimerAction) (ms : Z) : M nat :=
  fun w => let (h, w') := setTimeout a ms w in (Ok h, w').

(** The pipeline has come to its end with result [r].  If the race is
    still pending it is settled now: line 261 on success, the catch block
    otherwise.  If the deadline settled it before, nothing awaits the
    pipeline's result any more. *)
Definition settleByPipeline (warningTimeout : nat) (r : Res unit) (w : World)
    : Res unit * World :=
  match race w with
  | Racing _ =>
      match r with
      | Ok _ =>
          (Ok tt, withRace (Settled PipelineFinished)
                    (clearTimeout warningTimeout w))
      | Raise e =>
          let (o, w') := raceCatch warningTimeout e w in
          (match o with
           | Rethrown e' => Raise e'
           | _ => Ok tt
           end, withRace (Settled o) w')
      | Starved => (Starved, w)
      end
  | Settled (Rethrown e) => (Raise e, w)
  | _ => (match r with Starved => Starved | _ => Ok tt end, w)
  end.

(** Lines 206-272.  [Promise.race] settles with whichever of the pipeline
    and the deadline comes first; it does not stop the other, so the
    pipeline is run to its end here whether or not the deadline has
    already settled the race. *)
Definition processTaskWithTimeout (a : Args) : M unit :=
  let maxDuration := arg_maxDuration a in
  let TASK_TIMEOUT_MS := maxDuration * 60 * 1000 in
  let warningTimeMs := Z.max (TASK_TIMEOUT_MS - 60 * 1000) 0 in
  warningTimeout <- schedule Warn warningTimeMs ;;
  _ <- schedule (Reject (timeoutError maxDuration)) TASK_TIMEOUT_MS ;;
  act (withRace (Racing warningTimeout)) ;;;
  fun w =>
    let (r, w') := processTask a w in
    settleByPipeline warningTimeout r w'.

(** The callback handed to [after] (lines 84-193): the branch name and
    the title are derived and written first, then the pipeline runs; a
    failure is only logged to the console. *)
Definition afterCallback (j : Job) : M unit :=
  let writeBranchName name :=
    awaitDb (fun w => (tt, emit (EBranchName (Some Callback) name)
                             (withStore (setBranchName (Some name)) w))) in
  let writeTitle title := awaitDb (fun w => (tt, emit (ETitle title) w)) in
  tryCatch
    (when (truthy' (env_AI_GATEWAY_API_KEY env))
       (tryCatch
          (logger Callback info "Generating AI-powered branch name..." ;;;
           aiBranchName <- await (generateBranchName env) ;;
           writeBranchName aiBranchName ;;;
           logger Callback success "Generated AI branch name")
          (fun _ =>
             writeBranchName
               (createFallbackBranchName env (taskId (job_args j))))) ;;;
     when (truthy' (env_AI_GATEWAY_API_KEY env))
       (tryCatch
          (aiTitle <- await (generateTaskTitle env) ;;
           writeTitle aiTitle)
          (fun _ =>
             writeTitle (createFallbackTitle env (prompt (job_task j))))) ;;;
     processTaskWithTimeout (job_args j))
    (fun _ => ret tt).

(** After the run: time passes and whatever timers are still scheduled
    come due. *)
Definition drain (ms : Z) (w : World) : World :=
  let w := withClock (clock w + Z.max 0 ms) w in
  fireDue (List.length (timers w)) w.

End Run.

(** *** Reading a trace *)

(** The status values written, in order, by anyone. *)
Fixpoint statusWrites (tr : list Event) : list (Origin * Status) :=
  match tr with
  | [] => []
  | EStatus o s _ :: r => (o, s) :: statusWrites r
  | _ :: r => statusWrites r
  end.

Definition Origin_eqb (a b : Origin) : bool :=
  match a, b with
  | Pipeline, Pipeline | Adapter, Adapter | RaceHandler, RaceHandler
  | WarningTimer, WarningTimer | StopHandler, StopHandler
  | Callback, Callback => true
  | _, _ => false
  end.

(** The status values written by one writer. *)
Definition statusesBy (o : Origin) (tr : list Event) : list Status :=
  map snd (filter (fun p => Origin_eqb (fst p) o) (statusWrites tr)).

(** The sequence of values the status column takes. *)
Definition statusHistory (tr : list Event) : list Status :=
  map snd (statusWrites tr).

End Orchestrator.

(** ** Vocabulary for stating properties of runs *)
Module Spec.
Import Js TaskStore Trigger Orchestrator.
Local Open Scope Z_scope.

(** What [processTask] itself does, log lines apart; the other events
    come from the adapter's progress callback, from the stop handler,
    from timers, or from other writers. *)
Definition isOwn (e : Event) : bool :=
  match e with
  | EStatus Pipeline _ _ | EProgress Pipeline _ _
  | EInsertMessage | EPoll _ _ | EDetectPort | ECreateSandbox _ _
  | EUpdateTask _ _ _ | EUpdateMcpServerIds | EExecuteAgent _
  | EGenerateCommitMessage _ | EPush _ _ | EShutdown => true
  | _ => false
  end.

Definition own (tr : list Event) : list Event := filter isOwn tr.

(** [m] run from [w]: its result, the world it leaves, and the events it
    added. *)
Definition added (w w' : World) (d : list Event) : Prop :=
  trace w' = trace w ++ d.

(** Whatever world [m] starts in, its result [r] and the pipeline's own
    events [l] among those it adds satisfy [Q r l]. *)
Definition emits {A} (m : M A) (Q : Res A -> list Event -> Prop) : Prop :=
  forall w, exists d,
    added w (snd (m w)) d /\ Q (fst (m w)) (own d).

(** [w'] comes from [w] by events that are not the pipeline's. *)
Definition ambient (w w' : World) : Prop :=
  exists d, added w w' d /\ own d = [].

(** What one poll of the branch-name wait finds when it starts in [w]:
    the row is read after the suspension; a rejected read and a row
    without a name both count as nothing found. *)
Definition pollResult (env : Env) (w : World) : option string :=
  if dbThrows env (ticks w) then None
  else
    let row := store (snd (suspend env 0 w)) in
    if truthy' (branchName row) then branchName row else None.

(** [m] keeps the invariant [I]. *)
Definition preserves {A} (I : World -> Prop) (m : M A) : Prop :=
  forall w, I w -> I (snd (m w)).

(** The steps of one kind among events: [f] picks them. *)
Definition steps {X : Type} (f : Event -> list X) (l : list Event) : list X :=
  flat_map f l.

(** What a block may leave behind: it returns having taken the steps
    [ok], or it throws having taken the steps [thrown]; it never runs out
    of rounds. *)
Definition yields {X A : Type} (f : Event -> list X)
    (ok thrown : list (list X)) (r : Res A) (l : list Event) : Prop :=
  match r with
  | Ok _ => In (steps f l) ok
  | Raise _ => In (steps f l) thrown
  | Starved => False
  end.

(** The status values the pipeline writes. *)
Definition ownStatus (e : Event) : list Status :=
  match e with
  | EStatus Pipeline s _ => [s]
  | _ => []
  end.

Definition statuses (l : list Event) : list Status := steps ownStatus l.

(** What the polls of the branch-name wait saw: the time since the wait
    began and the name found, if any. *)
Definition poll (p : Z * option string) : Event := EPoll (fst p) (snd p).

(** The name the wait returns: the one its last poll found. *)
Fixpoint found (ps : list (Z * option string)) : option string :=
  match ps with
  | [] => None
  | (_, Some name) :: _ => Some name
  | (_, None) :: r => found r
  end.

(** Polls from [lo] on: each starts before [maxWaitMs] have passed, a
    poll that finds a name is the last one, and after one that finds
    none the next starts at least 500 ms later. *)
Fixpoint pollsFrom (lo maxWaitMs : Z) (ps : list (Z * option string)) : Prop :=
  match ps with
  | [] => True
  | (t, seen) :: r =>
      lo <= t < maxWaitMs
      /\ match seen with
         | Some name => r = [] /\ truthy name = true
         | None => pollsFrom (t + 500) maxWaitMs r
         end
  end.

(** The steps that concern the branch name: a poll of the wait, the call
    of [createSandbox] with its [preDeterminedBranchName], and the update
    of the row with the [branchName] it sets, if any. *)
Inductive BranchStep : Type :=
| Polled (elapsed : Z) (seen : option string)
| Created (preDeterminedBranchName : option string)
| Persisted (branchName : option string).

Definition branchStep (e : Event) : list BranchStep :=
  match e with
  | EPoll t s => [Polled t s]
  | ECreateSandbox _ pre => [Created pre]
  | EUpdateTask _ _ b => [Persisted b]
  | _ => []
  end.

Definition polled (p : Z * option string) : BranchStep :=
  Polled (fst p) (snd p).

(** The branch name the adapter reports. *)
Definition adapterBranch (env : Env) : option string :=
  match createSandbox env with
  | Returns r => sr_branchName r
  | Throws _ => None
  end.

(** What the update of the row sets [branchName] to, given what the wait
    returned: the adapter's branch when the wait found no name, nothing
    otherwise. *)
Definition persistedBranch (env : Env) (aiBranchName : option string)
  : option string :=
  match aiBranchName with
  | None => adapterBranch env
  | Some _ => None
  end.

(** The branch steps of a run: the polls [ps] of the wait, then possibly
    the creation with the name the wait returned, then possibly the
    update of the row. *)
Definition branchSteps (env : Env) (ps : list (Z * option string))
    (l : list BranchStep) : Prop :=
  exists tail,
    l = map polled ps ++ tail
    /\ In tail [ [];
                 [Created (found ps)];
                 [Created (found ps);
                  Persisted (persistedBranch env (found ps))] ].

(** A run does not run out of rounds, and its branch steps have that
    shape for polls that start within 10 s of the wait's beginning. *)
Definition branchShape (env : Env) (r : Res unit) (l : list Event) : Prop :=
  r <> Starved
  /\ exists ps, pollsFrom 0 10000 ps
                /\ branchSteps env ps (steps branchStep l).

(** Writes of the row's branch name: by another writer, or by the
    pipeline's update after sandbox creation. *)
Definition isBranchWrite (e : Event) : bool :=
  match e with
  | EBranchName _ _ | EUpdateTask _ _ _ => true
  | _ => false
  end.

(** The prompts handed to the agent. *)
Definition agentPrompt (e : Event) : list jsstring :=
  match e with
  | EExecuteAgent p => [p]
  | _ => []
  end.

(** The steps that concern completion: a status write, the progress
    written once the agent has done its work (90) and at the end (100),
    and the two steps of publication. *)
Inductive Milestone : Type :=
| Wrote (s : Status)
| AgentDone
| Progress100
| CommitMessage
| Push.

Definition milestone (e : Event) : list Milestone :=
  match e with
  | EStatus Pipeline s _ => [Wrote s]
  | EProgress Pipeline 90 _ => [AgentDone]
  | EProgress Pipeline 100 _ => [Progress100]
  | EGenerateCommitMessage _ => [CommitMessage]
  | EPush _ _ => [Push]
  | _ => []
  end.

(** Publication is possible: lines 517-518. *)
Definition canPublish (a : Args) : bool :=
  truthy (arg_repoUrl a) && truthy' (arg_githubToken a).

(** The status writes of the catch block of [processTaskWithTimeout]. *)
Definition isRaceWrite (e : Event) : bool :=
  match e with
  | EStatus RaceHandler _ _ => true
  | _ => false
  end.

(** Status writes by anyone but the pipeline, the race handler and the
    stop handler (there are none). *)
Definition isStrayWrite (e : Event) : bool :=
  match e with
  | EStatus WarningTimer _ _ | EStatus Callback _ _
  | EStatus Adapter _ _ => true
  | _ => false
  end.

Definition timeoutWrite : Event :=
  EStatus RaceHandler error TIMEOUT_STATUS_MESSAGE.

(** The state of the race while and after the pipeline runs, for a run
    that began with trace [tr0] and no timers: the two timers are the
    warning (handle 0) and the deadline (handle 1); either the race is
    pending, the deadline is still scheduled and the handler has written
    nothing, or the deadline has fired, the race is settled by it and the
    handler has written its one [error]. *)
Definition raceInv (tr0 : list Event) (maxDuration : Z) (w : World) : Prop :=
  exists d dw dd sw sd,
    trace w = tr0 ++ d
    /\ timers w = [ {| due := dw; action := Warn; tstate := sw |};
                    {| due := dd; action := Reject (timeoutError maxDuration);
                       tstate := sd |} ]
    /\ filter isStrayWrite d = []
    /\ ((race w = Racing 0 /\ sd = Scheduled /\ filter isRaceWrite d = [])
        \/ (race w = Settled DeadlineFired /\ sd = Fired
            /\ filter isRaceWrite d = [timeoutWrite])).

(** [w'] comes from [w] without touching the timers or the race and
    without a status write of the race handler. *)
Definition quiet (w w' : World) : Prop :=
  timers w' = timers w
  /\ race w' = race w
  /\ exists l, trace w' = trace w ++ l
               /\ filter isRaceWrite l = []
               /\ filter isStrayWrite l = [].

(** The world in which the pipeline starts when [processTaskWithTimeout]
    is entered with no timers set: warning and deadline scheduled (handles
    0 and 1), race pending. *)
Definition armed (a : Args) (w : World) : World :=
  let TASK_TIMEOUT_MS := arg_maxDuration a * 60 * 1000 in
  withRace (Racing 0)
    (withTimers
       [ {| due := clock w + nodeDelay (Z.max (TASK_TIMEOUT_MS - 60 * 1000) 0);
            action := Warn; tstate := Scheduled |};
         {| due := clock w + nodeDelay TASK_TIMEOUT_MS;
            action := Reject (timeoutError (arg_maxDuration a));
            tstate := Scheduled |} ] w).

(** A deadline timer of the registry has fired. *)
Definition deadlineFired (w : World) : bool :=
  existsb (fun t => match action t, tstate t with
                    | Reject _, Fired => true
                    | _, _ => false
                    end) (timers w).

(** A deadline timer of the registry is still scheduled. *)
Definition deadlinePending (w : World) : bool :=
  existsb (fun t => match action t, tstate t with
                    | Reject _, Scheduled => true
                    | _, _ => false
                    end) (timers w).

(** *** The branch name in the row *)

(** The branch name the row holds after an event, when it held [b]
    before: another writer's name, or the one the pipeline's update of
    the row sets. *)
Definition branchWrite (b : option string) (e : Event) : option string :=
  match e with
  | EBranchName _ name => Some name
  | EUpdateTask _ _ (Some name) => Some name
  | _ => b
  end.

Definition branchAfter (b : option string) (l : list Event) : option string :=
  fold_left branchWrite l b.

(** What a poll makes of the row's branch name: a name that is not
    empty, or nothing. *)
Definition named (b : option string) : option string :=
  if truthy' b then b else None.

Definition isPoll (e : Event) : bool :=
  match e with
  | EPoll _ _ => true
  | _ => false
  end.

(** Every poll among the events [d], which follow a moment at which the
    row held [b]: the poll read the row at one of the suspensions from
    [t0] up to [t1], and it saw the name the row held when it read it,
    or nothing if that read was rejected. *)
Definition pollsSeeRow (env : Env) (t0 t1 : nat) (b : option string)
    (d : list Event) : Prop :=
  forall pre elapsed seen post,
    d = pre ++ EPoll elapsed seen :: post ->
    exists n,
      (t0 <= n < t1)%nat
      /\ seen = if dbThrows env n then None
                else named (branchAfter b pre).

(** The row and the trace agree on the branch name, for events that
    follow the trace [tr0] and a moment at which the row held [b], and
    every poll among them saw the row. *)
Definition rowAt (env : Env) (tr0 : list Event) (t0 t1 : nat)
    (b : option string) (w : World) : Prop :=
  exists d,
    trace w = tr0 ++ d
    /\ branchName (store w) = branchAfter b d
    /\ pollsSeeRow env t0 t1 b d.

(** The same for a run that began at suspension [t0], up to the
    suspension it has reached. *)
Definition rowInv (env : Env) (tr0 : list Event) (t0 : nat)
    (b : option string) (w : World) : Prop :=
  (t0 <= ticks w)%nat /\ rowAt env tr0 t0 (ticks w) b w.

(** [w'] comes from [w] by events that are not polls and that account
    for what has become of the row's branch name. *)
Definition sync (w w' : World) : Prop :=
  exists l,
    trace w' = trace w ++ l
    /\ branchName (store w') = branchAfter (branchName (store w)) l
    /\ filter isPoll l = [].

(** *** Runs that nothing stands in the way of *)

(** Nobody asks to stop the task, no store call is rejected, the port is
    detected when there is a repository to detect it from, the sandbox
    is created, and the agent succeeds. *)
Definition benign (env : Env) (a : Args) : Prop :=
  (forall n, ~ In StopRequest (arrivals env n))
  /\ (forall n, dbThrows env n = false)
  /\ (truthy (arg_repoUrl a) = true ->
      exists port, detectPortFromRepo env = Returns port)
  /\ (exists r s, createSandbox env = Returns r
                  /\ sr_success r = true /\ sr_sandbox r = Some s)
  /\ (exists r, executeAgentInSandbox env = Returns r
                /\ ar_success r = true).

(** The row does not say [stopped], and the variable [sandbox] of
    [processTask] holds [v]. *)
Definition steady (v : option Sandbox) (w : World) : Prop :=
  sandboxVar w = v /\ status (store w) <> stopped.

(** [m], started in a steady world: it ends in one, and its result, the
    pipeline's own events among those it adds, and what the variable
    holds afterwards satisfy [Q]. *)
Definition proceeds {A} (v : option Sandbox) (m : M A)
    (Q : Res A -> list Event -> option Sandbox -> Prop) : Prop :=
  forall w, steady v w ->
    exists d,
      added w (snd (m w)) d
      /\ steady (sandboxVar (snd (m w))) (snd (m w))
      /\ Q (fst (m w)) (own d) (sandboxVar (snd (m w))).

End Spec.

(** ** Sample runs *)
Module Scenarios.
Import Js TaskStore Trigger Orchestrator.
Local Open Scope string_scope.
Local Open Scope Z_scope.

Definition noKeys : ApiKeys :=
  {| OPENAI_API_KEY := None; GEMINI_API_KEY := None; CURSOR_API_KEY := None;
     ANTHROPIC_API_KEY := None; AI_GATEWAY_API_KEY := None |}.

Definition okSandbox : SandboxResult :=
  {| sr_success := true; sr_cancelled := false; sr_error := None;
     sr_sandbox := Some {| sandbox_sandboxId := Some "sbx_1" |};
     sr_domain := Some "sbx-1.example.dev";
     sr_branchName := Some "agent/fallback-T2" |}.

Definition okAgent : AgentResult :=
  {| ar_success := true; ar_error := None; ar_output := None;
     ar_agentResponse := Some (lit "Fixed the login bug") |}.

(** Surroundings in which every collaborator but those given succeeds. *)
Definition surroundings (latency : nat -> Z) (arrivals : nat -> list Arrival)
    (dbThrows : nat -> bool) (sandbox : result SandboxResult)
    (agent : result AgentResult) : Env :=
  {| Orchestrator.latency := latency;
     Orchestrator.arrivals := arrivals;
     Orchestrator.dbThrows := dbThrows;
     insertMessageThrows := false;
     detectPortFromRepo := Returns 3000;
     createSandbox_progress := [];
     createSandbox := sandbox;
     connectedServers := Returns [];
     executeAgentInSandbox := agent;
     generateCommitMessage := Returns "fix: login bug";
     createFallbackCommitMessage := fun _ => "chore: agent changes";
     pushChangesToBranch := Returns {| pr_success := true; pr_pushFailed := false |};
     shutdownSandbox := Returns tt;
     env_AI_GATEWAY_API_KEY := None;
     generateBranchName := Returns "feature/fix-login";
     createFallbackBranchName := fun _ => "agent/fallback-T2";
     generateTaskTitle := Returns "Fix login";
     createFallbackTitle := fun _ => "Task" |}.

(** [x] at suspension [n], [d] elsewhere. *)
Definition only {A : Type} (n : nat) (x d : A) : nat -> A :=
  fun k => if Nat.eqb k n then x else d.

(** A task on a repository, with a token, and a budget in minutes. *)
Definition repoArgs (maxDuration : Z) : Args :=
  {| taskId := "T2"; arg_prompt := lit "fix the login bug";
     arg_repoUrl := "https://github.com/acme/app";
     arg_maxDuration := maxDuration; arg_selectedAgent := "claude";
     arg_selectedModel := None; arg_installDependencies := false;
     arg_keepAlive := false; arg_apiKeys := noKeys;
     arg_githubToken := Some "ghp_token"; arg_userId := Some "user-1" |}.

(** A standalone task: no repository, no token. *)
Definition standaloneArgs : Args :=
  {| taskId := "T1"; arg_prompt := lit "say hi"; arg_repoUrl := "";
     arg_maxDuration := 5; arg_selectedAgent := "claude";
     arg_selectedModel := None; arg_installDependencies := false;
     arg_keepAlive := false; arg_apiKeys := noKeys;
     arg_githubToken := None; arg_userId := Some "user-1" |}.

(** The row of the task when the pipeline starts: [pending], with or
    without a branch name. *)
Definition row (branchName : option string) : Task :=
  {| id := "T2"; userId := "user-1"; prompt := lit "fix the login bug";
     repoUrl := Some "https://github.com/acme/app"; selectedAgent := None;
     selectedModel := None; maxDuration := None; installDependencies := false;
     keepAlive := false; status := pending; progress := 0;
     branchName := branchName; sandboxId := None; sandboxUrl := None;
     error_ := None |}.

(** Nothing interferes and every call takes 10 ms. *)
Definition calm : Env :=
  surroundings (fun _ => 10) (fun _ => []) (fun _ => false)
               (Returns okSandbox) (Returns okAgent).

(** The stop request is served while the agent call (suspension 17) is
    in flight, and the call then throws. *)
Definition stopDuringAgent : Env :=
  surroundings (fun _ => 10) (only 17 [StopRequest] []) (fun _ => false)
               (Returns okSandbox)
               (Throws (JsError "Sandbox was terminated")).

(** The agent call (suspension 17) takes two minutes and succeeds. *)
Definition slowAgent : Env :=
  surroundings (only 17 120000 10) (fun _ => []) (fun _ => false)
               (Returns okSandbox) (Returns okAgent).

(** No branch name is in the row during the wait; another writer sets
    one while [createSandbox] (suspension 50) is in flight. *)
Definition lateBranchName : Env :=
  surroundings (fun _ => 10) (only 50 [BranchNameWrite "feature/fix-login"] [])
               (fun _ => false) (Returns okSandbox) (Returns okAgent).

(** No branch name is in the row at first; another writer sets one two
    seconds after the wait began (suspension 13 is the sleep that follows
    the fourth poll). *)
Definition nameAfterTwoSeconds : Env :=
  surroundings (fun _ => 0) (only 13 [BranchNameWrite "feature/fix-login"] [])
               (fun _ => false) (Returns okSandbox) (Returns okAgent).

(** No branch name is in the row at any of the twenty polls; another
    writer sets one right after the last poll, 9.5 s after the wait
    began (suspension 45 is the sleep that follows that poll). *)
Definition nameAfterLastPoll : Env :=
  surroundings (fun _ => 0) (only 45 [BranchNameWrite "feature/fix-login"] [])
               (fun _ => false) (Returns okSandbox) (Returns okAgent).

(** The stop request is served before the first checkpoint (suspension
    5), whose read of the row is rejected. *)
Definition stoppedButUnreadable : Env :=
  surroundings (fun _ => 10) (only 4 [StopRequest] [])
               (only 5 true false) (Returns okSandbox) (Returns okAgent).

(** A backend with one task, owned by [user-1], whose look-ups succeed. *)
Definition backend (t : Task) : Backend :=
  {| INTERNAL_API_SECRET := Some "s3cret";
     selectTask := fun i => Returns (if String.eqb i (id t) then Some t
                                     else None);
     getApiKeysByUserId := fun _ => Returns noKeys;
     getGitHubTokenByUserId := fun _ => Returns (Some "ghp_token");
     getMaxSandboxDuration := fun _ => Returns 300 |}.

(** A start request for task T2 on behalf of [user]. *)
Definition startRequest (user : string) : Request :=
  {| internalSecretHeader := None;
     body := Some {| body_userId := Some user |};
     params_taskId := "T2" |}.

(** A 32-byte key in hexadecimal, a 12-byte nonce, and a secret. *)
Definition sampleKey : option jsstring :=
  Some (lit "2a0102030405060708090a0b0c0d0e0f101112131415161718191a1b1c1d1e1f").
Definition sampleIv : Buffer.buffer :=
  map Buffer.byteOf [1; 2; 3; 4; 5; 6; 7; 8; 9; 10; 11; 12]%N.

End Scenarios.

(** ** Vocabulary for statements about [lib/crypto.ts] *)
Module CryptoSpec.
Import Js Buffer Crypto.
Local Open Scope N_scope.

(** The two messages [getEncryptionKey] and [encrypt] throw. *)
Definition KEY_MALFORMED : string :=
  "ENCRYPTION_KEY must be a 32-byte hex string (64 characters). Generate one with: openssl rand -hex 32".
Definition KEY_REQUIRED : string :=
  "ENCRYPTION_KEY environment variable is required for MCP encryption. Generate one with: openssl rand -hex 32".

(** The number of colons in a text. *)
Definition colons (s : jsstring) : nat := count_occ N.eq_dec s COLON.

(** [0-9a-f] *)
Definition isLowerHexDigit (u : N) : bool :=
  ((48 <=? u) && (u <=? 57)) || ((97 <=? u) && (u <=? 102)).

(** The variable is set, not empty, and does not decode to 32 bytes. *)
Definition malformedKey (ENCRYPTION_KEY : option jsstring) : bool :=
  match ENCRYPTION_KEY with
  | Some key => negb (falsy key) && negb (validKey ENCRYPTION_KEY)
  | None => false
  end.

End CryptoSpec.

(** ** Vocabulary for further statements about the pipeline *)
Module PipelineSpec.
Import Js TaskStore Trigger Orchestrator Spec.
Local Open Scope string_scope.
Local Open Scope Z_scope.

(** The pipeline's writes of the status and of the progress. *)
Inductive Mark : Type :=
| StatusIs (s : Status)
| ProgressIs (p : Z).

Definition mark (e : Event) : list Mark :=
  match e with
  | EStatus Pipeline s _ => [StatusIs s]
  | EProgress Pipeline p _ => [ProgressIs p]
  | _ => []
  end.

(** The branches handed to [pushChangesToBranch]. *)
Definition pushedBranch (e : Event) : list string :=
  match e with
  | EPush branch _ => [branch]
  | _ => []
  end.

(** At most one push, to a branch whose name is not empty. *)
Definition pushesNamedBranch (l : list Event) : Prop :=
  steps pushedBranch l = []
  \/ exists branch, steps pushedBranch l = [branch] /\ truthy branch = true.

(** The calls that concern the sandbox, and the terminal status the
    pipeline writes. *)
Inductive Call : Type :=
| Create        (* createSandbox *)
| Update        (* the update of the row with the sandbox id and URL *)
| Agent         (* executeAgentInSandbox *)
| Shut          (* shutdownSandbox *)
| Done          (* status completed *)
| Failed.       (* status error *)

Definition call (e : Event) : list Call :=
  match e with
  | ECreateSandbox _ _ => [Create]
  | EUpdateTask _ _ _ => [Update]
  | EExecuteAgent _ => [Agent]
  | EShutdown => [Shut]
  | EStatus Pipeline completed _ => [Done]
  | EStatus Pipeline error _ => [Failed]
  | _ => []
  end.

(** [m] leaves the variable [sandbox] of [processTask] alone. *)
Definition keepsVar {A} (m : M A) : Prop :=
  forall w, sandboxVar (snd (m w)) = sandboxVar w.

(** [m], started with the variable [sandbox] holding [v]: its result,
    the pipeline's own events among those it adds, and what the variable
    holds afterwards satisfy [Q]. *)
Definition tracks {A} (v : option Sandbox) (m : M A)
    (Q : Res A -> list Event -> option Sandbox -> Prop) : Prop :=
  forall w, sandboxVar w = v ->
    exists d, added w (snd (m w)) d
              /\ Q (fst (m w)) (own d) (sandboxVar (snd (m w))).

(** What a block may leave behind: it returns having made the calls
    [ok]; or it throws, with the variable empty and the calls [bare]
    made, or with the variable holding a sandbox and the calls [held]
    made. *)
Definition ends {A : Type} (ok bare held : list (list Call))
    (r : Res A) (l : list Event) (v : option Sandbox) : Prop :=
  match r with
  | Ok _ => In (steps call l) ok
  | Raise _ =>
      match v with
      | None => In (steps call l) bare
      | Some _ => In (steps call l) held
      end
  | Starved => False
  end.

(** The calls after [completed]: the sandbox is shut down unless it is
    to be kept alive. *)
Definition afterDone (a : Args) : list Call :=
  if arg_keepAlive a then [] else [Shut].

End PipelineSpec.

(** ** Vocabulary for statements about the two timers *)
Module TimerSpec.
Import Js TaskStore Trigger Orchestrator Spec.
Local Open Scope string_scope.
Local Open Scope list_scope.
Local Open Scope Z_scope.

(** The line the advisory timer logs. *)
Definition WARNING_LINE : Event :=
  ELog WarningTimer info "Task is approaching timeout, will complete soon".

Definition isWarning (e : Event) : bool :=
  match e with
  | ELog WarningTimer _ _ => true
  | _ => false
  end.

(** [w'] comes from [w] without touching the timers, the race or the
    clock and without a line of the advisory timer. *)
Definition plain (w w' : World) : Prop :=
  timers w' = timers w
  /\ race w' = race w
  /\ clock w' = clock w
  /\ exists l, trace w' = trace w ++ l /\ filter isWarning l = [].

(** The warnings logged so far, given the state of the advisory timer:
    one once it has fired, none before. *)
Definition warningsFor (sw : TimerState) : list Event :=
  match sw with
  | Fired => [WARNING_LINE]
  | _ => []
  end.

(** The two timers while and after the pipeline runs, for a run that
    began with trace [tr0] and no timers: the advisory timer (handle 0)
    has logged its line exactly if it has fired; while the race is
    pending it has not been cleared and the deadline (handle 1) is
    scheduled; once the deadline has settled the race the advisory timer
    is no longer scheduled. *)
Definition timersInv (tr0 : list Event) (maxDuration : Z) (w : World) : Prop :=
  exists d dw dd sw sd,
    trace w = tr0 ++ d
    /\ timers w = [ {| due := dw; action := Warn; tstate := sw |};
                    {| due := dd; action := Reject (timeoutError maxDuration);
                       tstate := sd |} ]
    /\ filter isWarning d = warningsFor sw
    /\ ((race w = Racing 0 /\ sd = Scheduled /\ sw <> Cleared)
        \/ (race w = Settled DeadlineFired /\ sd = Fired
            /\ sw <> Scheduled)).

(** The deadline timer of a run that began at [start] with no timers:
    it is due when Node lets the budget of [timeout] milliseconds end,
    and it has not fired before. *)
Definition deadlineInv (start timeout : Z) (w : World) : Prop :=
  exists advisory message sd,
    timers w = [ advisory;
                 {| due := start + nodeDelay timeout;
                    action := Reject message; tstate := sd |} ]
    /\ action advisory = Warn
    /\ (sd = Fired -> start + nodeDelay timeout <= clock w).

End TimerSpec.

(** ** The daily limit: [lib/utils/rate-limit.ts] *)
Module RateLimit.
Import Js.
Local Open Scope string_scope.
Local Open Scope list_scope.
Local Open Scope Z_scope.

(** The columns of [tasks] and [task_messages] that the limit reads.
    Times are [Date] time values: milliseconds since the epoch, UTC. *)
Record TaskRow : Type := {
  task_id : string;
  task_userId : string;
  task_createdAt : Z;
  task_deletedAt : option Z
}.

Record MessageRow : Type := {
  message_taskId : string;
  message_role : string;
  message_createdAt : Z
}.

Record Db : Type := {
  tasks : list TaskRow;
  taskMessages : list MessageRow
}.

Record RateLimitUser : Type := { user_id : string; user_email : option string }.

(** What the function reads besides the two tables: the admin check and
    the constant of [lib/constants], the per-user setting, the clock, and
    whether each of the two queries is rejected. *)
Record Surroundings : Type := {
  isAdminUser : RateLimitUser -> bool;
  ADMIN_MAX_MESSAGES_PER_DAY : Z;
  getMaxMessagesPerDay : string -> result Z;
  now : Z;
  taskQueryThrows : bool;
  messageQueryThrows : bool
}.

Record RateLimit : Type := {
  allowed : bool;
  remaining : Z;
  total : Z;
  resetAt : Z
}.

Definition msPerDay : Z := 86400000.

(** [d.setUTCHours(0, 0, 0, 0)]: the time value becomes
    [Day(t) * msPerDay], with [Day(t) = floor(t / msPerDay)]. *)
Definition setUTCHours0 (t : Z) : Z := (t / msPerDay) * msPerDay.

(** [d.setUTCDate(d.getUTCDate() + 1)]: the day number goes up by one and
    the time within the day stays. *)
Definition setUTCDateNext (t : Z) : Z := t + msPerDay.

Definition isNull {A : Type} (o : option A) : bool :=
  match o with
  | None => true
  | Some _ => false
  end.

(** [select count() from tasks where userId = id and createdAt >= today
    and deletedAt is null] *)
Definition countTasks (db : Db) (id : string) (today : Z) : Z :=
  Z.of_nat
    (List.length
       (filter (fun t => String.eqb (task_userId t) id
                         && (today <=? task_createdAt t)
                         && isNull (task_deletedAt t))
               (tasks db))).

(** [select count() from task_messages inner join tasks on
    task_messages.taskId = tasks.id where tasks.userId = id and
    task_messages.role = 'user' and task_messages.createdAt >= today and
    tasks.deletedAt is null]: the pairs of a message and a task that
    meet the conditions. *)
Definition countMessages (db : Db) (id : string) (today : Z) : Z :=
  Z.of_nat
    (List.length
       (flat_map
          (fun m =>
             filter (fun t => String.eqb (message_taskId m) (task_id t)
                              && String.eqb (task_userId t) id
                              && String.eqb (message_role m) "user"
                              && (today <=? message_createdAt m)
                              && isNull (task_deletedAt t))
                    (tasks db))
          (taskMessages db))).

(** [count_total] of the source: tasks created today plus user messages
    sent today. *)
Definition count_total (db : Db) (id : string) (today : Z) : Z :=
  countTasks db id today + countMessages db id today.

Definition checkRateLimit (S : Surroundings) (db : Db) (user : RateLimitUser)
  : result RateLimit :=
  match (if isAdminUser S user then Returns (ADMIN_MAX_MESSAGES_PER_DAY S)
         else getMaxMessagesPerDay S (user_id user)) with
  | Throws e => Throws e
  | Returns maxMessagesPerDay =>
      let today := setUTCHours0 (now S) in
      let tomorrow := setUTCDateNext today in
      if taskQueryThrows S then Throws (JsError "store call failed")
      else if messageQueryThrows S then Throws (JsError "store call failed")
      else
        let total_ := count_total db (user_id user) today in
        Returns {| allowed := total_ <? maxMessagesPerDay;
                   remaining := Z.max 0 (maxMessagesPerDay - total_);
                   total := maxMessagesPerDay;
                   resetAt := tomorrow |}
  end.

(** *** For statements *)

(** The user's own tasks that are not deleted. *)
Definition ownLive (id : string) (db : Db) : Db :=
  {| tasks := filter (fun t => String.eqb (task_userId t) id
                               && isNull (task_deletedAt t)) (tasks db);
     taskMessages := taskMessages db |}.

(** The store after a task and the user message that carries its prompt
    have been inserted. *)
Definition withTaskAndMessage (t : TaskRow) (m : MessageRow) (db : Db) : Db :=
  {| tasks := tasks db ++ [t]; taskMessages := taskMessages db ++ [m] |}.

(** A sample: a limit of 5 a day, one task of today with its message. *)
Definition sampleSurroundings : Surroundings :=
  {| isAdminUser := fun _ => false;
     ADMIN_MAX_MESSAGES_PER_DAY := 1000;
     getMaxMessagesPerDay := fun _ => Returns 5;
     now := 1772323200000 + 3600000;
     taskQueryThrows := false;
     messageQueryThrows := false |}.

Definition sampleUser : RateLimitUser :=
  {| user_id := "user-1"; user_email := None |}.

Definition sampleDb : Db :=
  {| tasks := [ {| task_id := "T1"; task_userId := "user-1";
                   task_createdAt := 1772323200000 + 60000;
                   task_deletedAt := None |} ];
     taskMessages := [ {| message_taskId := "T1"; message_role := "user";
                          message_createdAt := 1772323200000 + 61000 |} ] |}.

End RateLimit.

(** ** Keys and tokens of a user: [unnamed/part_005], lines 194-297

    [getApiKeysByUserId] and [getGitHubTokenByUserId], which the trigger
    endpoint calls, read rows that hold values encrypted with
    [lib/crypto.ts]. *)
Module UserKeys.
Import Js Buffer Crypto.
Local Open Scope string_scope.
Local Open Scope list_scope.

Record KeyRow : Type := {
  keys_userId : string;
  keys_provider : string;
  keys_value : jsstring
}.

Record AccountRow : Type := {
  accounts_userId : string;
  accounts_provider : string;
  accounts_accessToken : option jsstring
}.

Record UserRow : Type := {
  users_id : string;
  users_provider : string;
  users_accessToken : option jsstring
}.

(** The three tables, and whether a query on each is rejected. *)
Record Store : Type := {
  keys : list KeyRow;
  accounts : list AccountRow;
  users : list UserRow;
  keysQueryThrows : bool;
  accountsQueryThrows : bool;
  usersQueryThrows : bool
}.

(** The object both the defaults and the result are; [None] stands for
    [undefined] and for [null]. *)
Record ApiKeys : Type := {
  OPENAI_API_KEY : option jsstring;
  GEMINI_API_KEY : option jsstring;
  CURSOR_API_KEY : option jsstring;
  ANTHROPIC_API_KEY : option jsstring;
  AI_GATEWAY_API_KEY : option jsstring;
  GITHUB_TOKEN : option jsstring
}.

Section WithCipher.
Context {C : Cipher}.

(** [process.env]: the encryption key and the system keys. *)
Variable ENCRYPTION_KEY : option jsstring.
Variable env_OPENAI_API_KEY : option jsstring.
Variable env_GEMINI_API_KEY : option jsstring.
Variable env_CURSOR_API_KEY : option jsstring.
Variable env_ANTHROPIC_API_KEY : option jsstring.
Variable env_AI_GATEWAY_API_KEY : option jsstring.

(** The [switch] on [key.provider]. *)
Definition assign (provider : string) (decryptedValue : option jsstring)
    (apiKeys : ApiKeys) : ApiKeys :=
  if String.eqb provider "openai" then
    {| OPENAI_API_KEY := decryptedValue;
       GEMINI_API_KEY := GEMINI_API_KEY apiKeys;
       CURSOR_API_KEY := CURSOR_API_KEY apiKeys;
       ANTHROPIC_API_KEY := ANTHROPIC_API_KEY apiKeys;
       AI_GATEWAY_API_KEY := AI_GATEWAY_API_KEY apiKeys;
       GITHUB_TOKEN := GITHUB_TOKEN apiKeys |}
  else if String.eqb provider "gemini" then
    {| OPENAI_API_KEY := OPENAI_API_KEY apiKeys;
       GEMINI_API_KEY := decryptedValue;
       CURSOR_API_KEY := CURSOR_API_KEY apiKeys;
       ANTHROPIC_API_KEY := ANTHROPIC_API_KEY apiKeys;
       AI_GATEWAY_API_KEY := AI_GATEWAY_API_KEY apiKeys;
       GITHUB_TOKEN := GITHUB_TOKEN apiKeys |}
  else if String.eqb provider "cursor" then
    {| OPENAI_API_KEY := OPENAI_API_KEY apiKeys;
       GEMINI_API_KEY := GEMINI_API_KEY apiKeys;
       CURSOR_API_KEY := decryptedValue;
       ANTHROPIC_API_KEY := ANTHROPIC_API_KEY apiKeys;
       AI_GATEWAY_API_KEY := AI_GATEWAY_API_KEY apiKeys;
       GITHUB_TOKEN := GITHUB_TOKEN apiKeys |}
  else if String.eqb provider "anthropic" then
    {| OPENAI_API_KEY := OPENAI_API_KEY apiKeys;
       GEMINI_API_KEY := GEMINI_API_KEY apiKeys;
       CURSOR_API_KEY := CURSOR_API_KEY apiKeys;
       ANTHROPIC_API_KEY := decryptedValue;
       AI_GATEWAY_API_KEY := AI_GATEWAY_API_KEY apiKeys;
       GITHUB_TOKEN := GITHUB_TOKEN apiKeys |}
  else if String.eqb provider "aigateway" then
    {| OPENAI_API_KEY := OPENAI_API_KEY apiKeys;
       GEMINI_API_KEY := GEMINI_API_KEY apiKeys;
       CURSOR_API_KEY := CURSOR_API_KEY apiKeys;
       ANTHROPIC_API_KEY := ANTHROPIC_API_KEY apiKeys;
       AI_GATEWAY_API_KEY := decryptedValue;
       GITHUB_TOKEN := GITHUB_TOKEN apiKeys |}
  else if String.eqb provider "github" then
    {| OPENAI_API_KEY := OPENAI_API_KEY apiKeys;
       GEMINI_API_KEY := GEMINI_API_KEY apiKeys;
       CURSOR_API_KEY := CURSOR_API_KEY apiKeys;
       ANTHROPIC_API_KEY := ANTHROPIC_API_KEY apiKeys;
       AI_GATEWAY_API_KEY := AI_GATEWAY_API_KEY apiKeys;
       GITHUB_TOKEN := decryptedValue |}
  else apiKeys.

(** [userKeys.forEach(...)] inside [try]: the object is updated row by
    row; when [decrypt] throws the loop ends and the object is returned
    as it is by then. *)
Fixpoint forEachKey (userKeys : list KeyRow) (apiKeys : ApiKeys) : ApiKeys :=
  match userKeys with
  | [] => apiKeys
  | key :: rest =>
      match decrypt ENCRYPTION_KEY (keys_value key) with
      | Returns decryptedValue =>
          forEachKey rest (assign (keys_provider key) decryptedValue apiKeys)
      | Throws _ => apiKeys
      end
  end.

(** The system keys. *)
Definition systemKeys : ApiKeys :=
  {| OPENAI_API_KEY := env_OPENAI_API_KEY;
     GEMINI_API_KEY := env_GEMINI_API_KEY;
     CURSOR_API_KEY := env_CURSOR_API_KEY;
     ANTHROPIC_API_KEY := env_ANTHROPIC_API_KEY;
     AI_GATEWAY_API_KEY := env_AI_GATEWAY_API_KEY;
     GITHUB_TOKEN := None |}.

Definition getApiKeysByUserId (db : Store) (userId : string) : ApiKeys :=
  let apiKeys := systemKeys in
  if keysQueryThrows db then apiKeys
  else
    forEachKey (filter (fun k => String.eqb (keys_userId k) userId) (keys db))
               apiKeys.

(** [row[0]?.f] used as a condition and then decrypted; a [decrypt] that
    throws is caught by the function's [try]. *)
Definition decryptOrNull (value : jsstring) : option jsstring :=
  match decrypt ENCRYPTION_KEY value with
  | Returns r => r
  | Throws _ => None
  end.

Definition nonEmpty (o : option jsstring) : option jsstring :=
  match o with
  | Some ((_ :: _) as s) => Some s
  | _ => None
  end.

Definition getGitHubTokenByUserId (db : Store) (userId : string)
  : option jsstring :=
  if keysQueryThrows db then None
  else
    let githubKey :=
      filter (fun k => String.eqb (keys_userId k) userId
                       && String.eqb (keys_provider k) "github") (keys db) in
    match nonEmpty (option_map keys_value (hd_error githubKey)) with
    | Some value => decryptOrNull value
    | None =>
        if accountsQueryThrows db then None
        else
          let account :=
            filter (fun r => String.eqb (accounts_userId r) userId
                             && String.eqb (accounts_provider r) "github")
                   (accounts db) in
          match nonEmpty (match hd_error account with
                          | Some r => accounts_accessToken r
                          | None => None
                          end) with
          | Some accessToken => decryptOrNull accessToken
          | None =>
              if usersQueryThrows db then None
              else
                let user :=
                  filter (fun r => String.eqb (users_id r) userId
                                   && String.eqb (users_provider r) "github")
                         (users db) in
                match nonEmpty (match hd_error user with
                                | Some r => users_accessToken r
                                | None => None
                                end) with
                | Some accessToken => decryptOrNull accessToken
                | None => None
                end
          end
    end.

End WithCipher.

(** *** For statements *)

(** The field of the object that the [switch] sets for a provider. *)
Definition field (provider : string) (k : ApiKeys)
  : option (option jsstring) :=
  if String.eqb provider "openai" then Some (OPENAI_API_KEY k)
  else if String.eqb provider "gemini" then Some (GEMINI_API_KEY k)
  else if String.eqb provider "cursor" then Some (CURSOR_API_KEY k)
  else if String.eqb provider "anthropic" then Some (ANTHROPIC_API_KEY k)
  else if String.eqb provider "aigateway" then Some (AI_GATEWAY_API_KEY k)
  else if String.eqb provider "github" then Some (GITHUB_TOKEN k)
  else None.

(** The value of the last of the rows that is for a provider. *)
Fixpoint lastOf (provider : string) (rows : list KeyRow) : option jsstring :=
  match rows with
  | [] => None
  | key :: rest =>
      match lastOf provider rest with
      | Some value => Some value
      | None =>
          if String.eqb (keys_provider key) provider
          then Some (keys_value key) else None
      end
  end.

(** The value of the last row of a user for a provider. *)
Definition lastValue (db : Store) (userId provider : string)
  : option jsstring :=
  lastOf provider
    (filter (fun k => String.eqb (keys_userId k) userId) (keys db)).

(** A store with one key row, given its provider and value, and one
    connected account. *)
Definition sampleStore (provider : string) (value : jsstring) : Store :=
  {| keys := [ {| keys_userId := "user-1"; keys_provider := provider;
                  keys_value := value |} ];
     accounts := [ {| accounts_userId := "user-1";
                      accounts_provider := "github";
                      accounts_accessToken := Some (lit "00:00:00") |} ];
     users := [];
     keysQueryThrows := false;
     accountsQueryThrows := false;
     usersQueryThrows := false |}.

End UserKeys.

(** ** The task route: [GET], [PATCH] and [DELETE] of
    [unnamed/part_001], lines 424-554 *)
Module TaskRoute.
Import Js TaskStore.
Local Open Scope string_scope.
Local Open Scope list_scope.
Local Open Scope Z_scope.

(** The columns of [tasks] that the route reads or writes; times are
    [Date] time values. *)
Record Row : Type := {
  row_id : string;
  row_userId : string;
  row_status : Status;
  row_error : option string;
  row_updatedAt : Z;
  row_completedAt : option Z;
  row_deletedAt : option Z
}.

(** What a handler reads besides the table: the user of the request
    ([getAuthFromRequest], [None] for no user), the [taskId] of the path,
    [body.action] of the parsed body, the clock, whether a query or an
    update is rejected, and what the two ways of terminating the sandbox
    answer ([success]). *)
Record Surroundings : Type := {
  getAuthFromRequest : result (option string);
  params_taskId : string;
  request_json_action : result (option string);
  now : Z;
  selectThrows : bool;
  updateThrows : bool;
  stopSandboxFromDB : result bool;
  killSandbox : result bool
}.

(** [NextResponse.json(...)]: the status, and [error], [message] and
    [task] of the body. *)
Record Reply : Type := {
  httpStatus : Z;
  reply_error : option string;
  reply_message : option string;
  reply_task : option Row
}.

Definition jsonError (error : string) (status : Z) : Reply :=
  {| httpStatus := status; reply_error := Some error;
     reply_message := None; reply_task := None |}.

(** [getAuthenticatedUser]: the user, or [null] when there is none or it
    has no id. *)
Definition getAuthenticatedUser (S : Surroundings) : result (option string) :=
  match getAuthFromRequest S with
  | Throws e => Throws e
  | Returns (Some id) => Returns (if truthy id then Some id else None)
  | Returns None => Returns None
  end.

Definition isLive (r : Row) : bool :=
  match row_deletedAt r with
  | None => true
  | Some _ => false
  end.

(** [getUserTask]: the first row with that id that the user owns and
    that is not deleted. *)
Definition getUserTask (S : Surroundings) (rows : list Row)
    (taskId userId : string) : result (option Row) :=
  if selectThrows S then Throws (JsError "store call failed")
  else
    Returns (hd_error
               (filter (fun r => String.eqb (row_id r) taskId
                                 && String.eqb (row_userId r) userId
                                 && isLive r) rows)).

Definition GET (S : Surroundings) (rows : list Row) : Reply :=
  let failed := jsonError "Failed to fetch task" 500 in
  match getAuthenticatedUser S with
  | Throws _ => failed
  | Returns None => jsonError "Unauthorized" 401
  | Returns (Some user) =>
      match getUserTask S rows (params_taskId S) user with
      | Throws _ => failed
      | Returns None => jsonError "Task not found" 404
      | Returns (Some task) =>
          {| httpStatus := 200; reply_error := None; reply_message := None;
             reply_task := Some task |}
      end
  end.

(** The update of [stopTaskExecution]: every row with that id. *)
Definition markStopped (S : Surroundings) (taskId : string) (r : Row) : Row :=
  if String.eqb (row_id r) taskId then
    {| row_id := row_id r; row_userId := row_userId r;
       row_status := stopped;
       row_error := Some "Task was stopped by user";
       row_updatedAt := now S;
       row_completedAt := Some (now S);
       row_deletedAt := row_deletedAt r |}
  else r.

(** [terminateSandbox]: the calls it makes and the line it logs.  The
    sandbox is killed only when stopping it through the store answered
    without success; whatever is thrown is caught. *)
Inductive SandboxCall : Type := StopSandboxFromDB | KillSandbox.

Definition terminateSandbox (S : Surroundings) : list SandboxCall * string :=
  match stopSandboxFromDB S with
  | Returns true => ([StopSandboxFromDB], "Sandbox terminated successfully")
  | Returns false =>
      match killSandbox S with
      | Returns true =>
          ([StopSandboxFromDB; KillSandbox], "Sandbox terminated successfully")
      | Returns false =>
          ([StopSandboxFromDB; KillSandbox], "Failed to terminate sandbox")
      | Throws _ =>
          ([StopSandboxFromDB; KillSandbox], "Failed to terminate sandbox")
      end
  | Throws _ => ([StopSandboxFromDB], "Failed to terminate sandbox")
  end.

(** What [stopTaskExecution] returns and leaves behind: [success], the
    first of the rows it updated, the table, and the calls made to
    terminate the sandbox (none when the update is rejected). *)
Record Stopped : Type := {
  stop_success : bool;
  stop_task : option Row;
  stop_rows : list Row;
  stop_calls : list SandboxCall
}.

Definition stopTaskExecution (S : Surroundings) (rows : list Row)
    (taskId : string) : Stopped :=
  if updateThrows S then
    {| stop_success := false; stop_task := None; stop_rows := rows;
       stop_calls := [] |}
  else
    let rows' := map (markStopped S taskId) rows in
    {| stop_success := true;
       stop_task :=
         hd_error (filter (fun r => String.eqb (row_id r) taskId) rows');
       stop_rows := rows';
       stop_calls := fst (terminateSandbox S) |}.

Definition PATCH (S : Surroundings) (rows : list Row) : Reply * list Row :=
  let failed := (jsonError "Failed to update task" 500, rows) in
  match getAuthenticatedUser S with
  | Throws _ => failed
  | Returns None => (jsonError "Unauthorized" 401, rows)
  | Returns (Some user) =>
      match getUserTask S rows (params_taskId S) user with
      | Throws _ => failed
      | Returns None => (jsonError "Task not found" 404, rows)
      | Returns (Some existingTask) =>
          match request_json_action S with
          | Throws _ => failed
          | Returns action =>
              if negb (match action with
                       | Some a => String.eqb a "stop"
                       | None => false
                       end)
              then (jsonError "Invalid action" 400, rows)
              else if negb (Status_eqb (row_status existingTask) processing)
              then (jsonError
                      "Task can only be stopped when it is in progress" 400,
                    rows)
              else
                let result := stopTaskExecution S rows (params_taskId S) in
                if negb (stop_success result)
                then (jsonError "Failed to stop task" 500, stop_rows result)
                else
                  ({| httpStatus := 200; reply_error := None;
                      reply_message := Some "Task stopped successfully";
                      reply_task := stop_task result |}, stop_rows result)
          end
      end
  end.

(** The update of [DELETE]: every row with that id that the user owns. *)
Definition markDeleted (S : Surroundings) (taskId userId : string) (r : Row)
  : Row :=
  if String.eqb (row_id r) taskId && String.eqb (row_userId r) userId then
    {| row_id := row_id r; row_userId := row_userId r;
       row_status := row_status r; row_error := row_error r;
       row_updatedAt := row_updatedAt r;
       row_completedAt := row_completedAt r;
       row_deletedAt := Some (now S) |}
  else r.

Definition DELETE (S : Surroundings) (rows : list Row) : Reply * list Row :=
  let failed := (jsonError "Failed to delete task" 500, rows) in
  match getAuthenticatedUser S with
  | Throws _ => failed
  | Returns None => (jsonError "Unauthorized" 401, rows)
  | Returns (Some user) =>
      match getUserTask S rows (params_taskId S) user with
      | Throws _ => failed
      | Returns None => (jsonError "Task not found" 404, rows)
      | Returns (Some existingTask) =>
          if updateThrows S then failed
          else
            ({| httpStatus := 200; reply_error := None;
                reply_message := Some "Task deleted successfully";
                reply_task := None |},
             map (markDeleted S (params_taskId S) user) rows)
      end
  end.

(** *** For statements *)

(** The rows a user can reach under an id: their own, not deleted. *)
Definition reachable (rows : list Row) (taskId userId : string) : list Row :=
  filter (fun r => String.eqb (row_id r) taskId
                   && String.eqb (row_userId r) userId
                   && isLive r) rows.

(** A request of [user] on task T2, with [action] in its body. *)
Definition sampleRequest (user : string) (action : option string)
  : Surroundings :=
  {| getAuthFromRequest := Returns (Some user);
     params_taskId := "T2";
     request_json_action := Returns action;
     now := 1772323200000;
     selectThrows := false;
     updateThrows := false;
     stopSandboxFromDB := Returns true;
     killSandbox := Returns true |}.

(** A table with task T2 of [user-1] in a given status. *)
Definition sampleRows (s : Status) : list Row :=
  [ {| row_id := "T1"; row_userId := "user-2"; row_status := completed;
       row_error := None; row_updatedAt := 0; row_completedAt := None;
       row_deletedAt := None |};
    {| row_id := "T2"; row_userId := "user-1"; row_status := s;
       row_error := None; row_updatedAt := 0; row_completedAt := None;
       row_deletedAt := None |} ].

End TaskRoute.

(** ** Regular expressions, as far as [parseGitHubUrl] needs them

    A backtracking matcher with the priorities of ECMAScript: a greedy
    quantifier tries the longest repetition first, a lazy one the
    shortest, an optional group is tried before it is skipped, and the
    search tries the start positions from left to right.  The patterns
    carry no flag, so they work unit by unit and [$] is the end of the
    input. *)
Module Regex.
Import Js.
Local Open Scope N_scope.

Inductive Re : Type :=
| Lit (s : jsstring)                  (* a literal sequence *)
| OneOf (p : N -> bool)               (* one unit of a class *)
| Plus (greedy : bool) (p : N -> bool) (* [c+] and [c+?] for a class [c] *)
| Group (n : nat) (r : Re)            (* the n-th capturing group *)
| Opt (r : Re)                        (* [r?] *)
| Seq (r1 r2 : Re)
| EndOfInput.                         (* [$] *)

(** The captures: [None] is [undefined]. *)
Definition Captures : Type := nat -> option jsstring.

Definition noCaptures : Captures := fun _ => None.

Definition setCapture (n : nat) (s : jsstring) (caps : Captures) : Captures :=
  fun i => if Nat.eqb i n then Some s else caps i.

Fixpoint stripPrefix (p s : jsstring) : option jsstring :=
  match p, s with
  | [], _ => Some s
  | a :: p', b :: s' => if a =? b then stripPrefix p' s' else None
  | _ :: _, [] => None
  end.

Section Matcher.
Context {A : Type}.

(** One or more units of [p], the longest run first; [k] continues with
    what is left. *)
Fixpoint plusGreedy (p : N -> bool) (s : jsstring)
    (k : jsstring -> option A) : option A :=
  match s with
  | c :: t =>
      if p c then
        match plusGreedy p t k with
        | Some r => Some r
        | None => k t
        end
      else None
  | [] => None
  end.

(** One or more units of [p], the shortest run first. *)
Fixpoint plusLazy (p : N -> bool) (s : jsstring)
    (k : jsstring -> option A) : option A :=
  match s with
  | c :: t =>
      if p c then
        match k t with
        | Some r => Some r
        | None => plusLazy p t k
        end
      else None
  | [] => None
  end.

End Matcher.

(** [matchRe r s caps k]: match [r] at the head of [s], then continue
    with [k] on what is left and the captures; the first way that makes
    [k] succeed is taken. *)
Fixpoint matchRe (r : Re) (s : jsstring) (caps : Captures)
    (k : jsstring -> Captures -> option Captures) : option Captures :=
  match r with
  | Lit l =>
      match stripPrefix l s with
      | Some s' => k s' caps
      | None => None
      end
  | OneOf p =>
      match s with
      | c :: s' => if p c then k s' caps else None
      | [] => None
      end
  | Plus true p => plusGreedy p s (fun s' => k s' caps)
  | Plus false p => plusLazy p s (fun s' => k s' caps)
  | Group n r' =>
      matchRe r' s caps
        (fun s' caps' =>
           k s' (setCapture n (firstn (List.length s - List.length s') s)
                            caps'))
  | Opt r' =>
      match matchRe r' s caps k with
      | Some c => Some c
      | None => k s caps
      end
  | Seq r1 r2 => matchRe r1 s caps (fun s' caps' => matchRe r2 s' caps' k)
  | EndOfInput =>
      match s with
      | [] => k s caps
      | _ :: _ => None
      end
  end.

(** [re.exec(s)] for a pattern without flags: the first start position
    at which the pattern matches. *)
Fixpoint exec (r : Re) (s : jsstring) : option Captures :=
  match matchRe r s noCaptures (fun _ caps => Some caps) with
  | Some caps => Some caps
  | None =>
      match s with
      | [] => None
      | _ :: t => exec r t
      end
  end.

(** [\w] *)
Definition isWord (c : N) : bool :=
  ((48 <=? c) && (c <=? 57)) || ((65 <=? c) && (c <=? 90))
  || ((97 <=? c) && (c <=? 122)) || (c =? 95).

End Regex.

(** ** [lib/github/client.ts] *)
Module GitHubClient.
Import Js Regex.
Local Open Scope string_scope.
Local Open Scope list_scope.

(** *** [parseGitHubUrl] *)

(** [[\w-]] and [[/:]] *)
Definition wordOrHyphen (c : N) : bool := isWord c || N.eqb c 45.
Definition slashOrColon (c : N) : bool := N.eqb c 47 || N.eqb c 58.

(** [/github\.com[/:]([\w-]+)\/([\w-]+?)(\.git)?$/] *)
Definition GITHUB_URL : Re :=
  Seq (Lit (lit "github.com"))
 (Seq (OneOf slashOrColon)
 (Seq (Group 1 (Plus true wordOrHyphen))
 (Seq (Lit (lit "/"))
 (Seq (Group 2 (Plus false wordOrHyphen))
 (Seq (Opt (Group 3 (Lit (lit ".git"))))
      EndOfInput))))).

Record OwnerRepo : Type := { owner : option jsstring; repo : option jsstring }.

(** [match[1]] and [match[2]] of the first match, or [null]. *)
Definition parseGitHubUrl (repoUrl : jsstring) : option OwnerRepo :=
  match exec GITHUB_URL repoUrl with
  | Some caps => Some {| owner := caps 1%nat; repo := caps 2%nat |}
  | None => None
  end.

(** *** Errors *)

Record GitHubErrorResult : Type := { success : bool; error : string }.

Definition createErrorResult (error : string) : GitHubErrorResult :=
  {| success := false; error := error |}.

(** [messages[status] || `Failed to ${context}`], for a numeric status. *)
Definition getErrorMessageFromStatus (status : Z) (context : string) : string :=
  if Z.eqb status 403 then "Permission denied. Check repository access"
  else if Z.eqb status 404 then
    (if String.eqb context "pr" then "Pull request not found"
     else "Repository not found or no access")
  else if Z.eqb status 405 then "Pull request is not mergeable"
  else if Z.eqb status 409 then "Merge conflict - cannot auto-merge"
  else if Z.eqb status 422 then
    "Pull request already exists or branch does not exist"
  else "Failed to " ++ context.

(** What is thrown: an object with a numeric [status], or anything
    else. *)
Inductive Thrown : Type :=
| WithStatus (status : Z)
| Other.

Definition handleGitHubError (error : Thrown) (context : string)
  : GitHubErrorResult :=
  match error with
  | WithStatus status =>
      createErrorResult (getErrorMessageFromStatus status context)
  | Other => createErrorResult ("Failed to " ++ context)
  end.

(** *** The operations on pull requests *)

(** An awaited call: it resolves, or rejects with what was thrown. *)
Inductive Attempt (A : Type) : Type :=
| Resolved (a : A)
| Rejected (e : Thrown).
Arguments Resolved {A} a.
Arguments Rejected {A} e.

(** The client: whether [octokit.auth] is set. *)
Record Octokit : Type := { auth : bool }.

(** [response.data] of the three calls. *)
Record PullCreated : Type := { html_url : string; number : Z }.
Record PullMerged : Type := {
  data_merged : bool; data_message : string; data_sha : string
}.
Record PullData : Type := {
  merged_at : option string;
  state : string;
  merge_commit_sha : option string
}.

(** What the operations read: the client, and the answers of the API to
    a call for an owner and a repository (the other parameters of a call
    are fixed for a run). *)
Record Surroundings : Type := {
  getOctokit : Attempt Octokit;
  pulls_create : OwnerRepo -> Attempt PullCreated;
  pulls_merge : OwnerRepo -> Attempt PullMerged;
  pulls_get : OwnerRepo -> Attempt PullData
}.

(** A result is an error result or the result of a success. *)
Inductive Result (A : Type) : Type :=
| Failure (r : GitHubErrorResult)
| Success (a : A).
Arguments Failure {A} r.
Arguments Success {A} a.

Record CreatePullRequestResult : Type := { prUrl : string; prNumber : Z }.

Definition createPullRequest (S : Surroundings) (repoUrl : jsstring)
  : Result CreatePullRequestResult :=
  match getOctokit S with
  | Rejected e => Failure (handleGitHubError e "create pull request")
  | Resolved octokit =>
      if negb (auth octokit) then
        Failure (createErrorResult "GitHub account not connected")
      else
        match parseGitHubUrl repoUrl with
        | None => Failure (createErrorResult "Invalid GitHub repository URL")
        | Some parsed =>
            match pulls_create S parsed with
            | Rejected e =>
                Failure (handleGitHubError e "create pull request")
            | Resolved data =>
                Success {| prUrl := html_url data; prNumber := number data |}
            end
        end
  end.

Record MergePullRequestResult : Type := {
  merged : bool; message : string; sha : string
}.

Definition mergePullRequest (S : Surroundings) (repoUrl : jsstring)
  : Result MergePullRequestResult :=
  match getOctokit S with
  | Rejected e => Failure (handleGitHubError e "merge pull request")
  | Resolved octokit =>
      if negb (auth octokit) then
        Failure (createErrorResult "GitHub account not connected")
      else
        match parseGitHubUrl repoUrl with
        | None => Failure (createErrorResult "Invalid GitHub repository URL")
        | Some parsed =>
            match pulls_merge S parsed with
            | Rejected e => Failure (handleGitHubError e "merge pull request")
            | Resolved data =>
                Success {| merged := data_merged data;
                           message := data_message data;
                           sha := data_sha data |}
            end
        end
  end.

Inductive PrStatus : Type := open | closed | merged_.

Definition getPrStatusFromResponse (data : PullData) : PrStatus :=
  match merged_at data with
  | Some (String _ _) => merged_
  | _ => if String.eqb (state data) "closed" then closed else open
  end.

Record GetPullRequestStatusResult : Type := {
  status : PrStatus;
  mergeCommitSha : option string
}.

Definition getPullRequestStatus (S : Surroundings) (repoUrl : jsstring)
  : Result GetPullRequestStatusResult :=
  match getOctokit S with
  | Rejected e => Failure (handleGitHubError e "get pull request status")
  | Resolved octokit =>
      if negb (auth octokit) then
        Failure (createErrorResult "GitHub account not connected")
      else
        match parseGitHubUrl repoUrl with
        | None => Failure (createErrorResult "Invalid GitHub repository URL")
        | Some parsed =>
            match pulls_get S parsed with
            | Rejected e =>
                Failure (handleGitHubError e "get pull request status")
            | Resolved data =>
                Success {| status := getPrStatusFromResponse data;
                           mergeCommitSha :=
                             match merge_commit_sha data with
                             | Some ((String _ _) as sha) => Some sha
                             | _ => None
                             end |}
            end
        end
  end.

(** *** For statements *)

(** The failure of a result, if it is one. *)
Definition failure {A : Type} (r : Result A) : option GitHubErrorResult :=
  match r with
  | Failure e => Some e
  | Success _ => None
  end.

(** A name of an owner or of a repository that the pattern can
    capture: not empty, and made of letters, digits, underscores and
    hyphens. *)
Definition plainName (s : jsstring) : bool :=
  negb (falsy s) && forallb wordOrHyphen s.

(** A connected client whose every call the API rejects with [status]. *)
Definition rejecting (status : Z) : Surroundings :=
  {| getOctokit := Resolved {| auth := true |};
     pulls_create := fun _ => Rejected (WithStatus status);
     pulls_merge := fun _ => Rejected (WithStatus status);
     pulls_get := fun _ => Rejected (WithStatus status) |}.

End GitHubClient.

(** ** Commands run in the sandbox: [runInProject], in the second
    file that [lib/github/client.ts] carries (lines 281-358) *)
Module Commands.
Import Js.
Local Open Scope string_scope.
Local Open Scope list_scope.
Local Open Scope N_scope.

Definition PROJECT_DIR : jsstring := lit "/vercel/sandbox/project".

Definition QUOTE : N := 39.

(** [`'${arg.replace(/'/g, "'\\''")}'`]: every single quote becomes the
    four units ['\''], and the whole is put between single quotes. *)
Definition escapeArg (arg : jsstring) : jsstring :=
  [QUOTE] ++ replaceAll QUOTE [QUOTE; BACKSLASH; QUOTE; QUOTE] arg ++ [QUOTE].

(** [parts.join(sep)] *)
Fixpoint join (sep : jsstring) (parts : list jsstring) : jsstring :=
  match parts with
  | [] => []
  | [a] => a
  | a :: rest => a ++ sep ++ join sep rest
  end.

Definition fullCommand (command : jsstring) (args : list jsstring)
  : jsstring :=
  match args with
  | [] => command
  | _ :: _ => command ++ [SPACE] ++ join [SPACE] (map escapeArg args)
  end.

(** The line handed to [sh -c]. *)
Definition cdCommand (command : jsstring) (args : list jsstring) : jsstring :=
  lit "cd " ++ PROJECT_DIR ++ lit " && " ++ fullCommand command args.

(** *** How the shell reads a line

    The quoting rules of the POSIX shell, for lines made of plain units,
    blanks, single-quoted text and backslash-escaped units: between
    single quotes every unit stands for itself up to the next single
    quote; outside, a backslash makes the next unit stand for itself
    (and vanishes with a newline that follows it), a blank ends a word,
    and quoted and unquoted pieces that touch form one word.  A line
    with an unquoted unit of another kind (an operator, a dollar sign, a
    double quote, ...), an open quote or a trailing backslash is not
    read here: [None].  The line is read unit by unit; how it is encoded
    for the shell is left out. *)

Definition isBlank (c : N) : bool := (c =? 32) || (c =? 9) || (c =? 10).

(** Letters, digits and [_ - . /]. *)
Definition isPlain (c : N) : bool :=
  ((48 <=? c) && (c <=? 57)) || ((65 <=? c) && (c <=? 90))
  || ((97 <=? c) && (c <=? 122))
  || (c =? 95) || (c =? 45) || (c =? 46) || (c =? 47).

Definition extend (word : option jsstring) (c : N) : option jsstring :=
  match word with
  | Some w => Some (w ++ [c])
  | None => Some [c]
  end.

(** [word] is the word in progress, if any; [inQuote] says whether a
    single quote is open. *)
Fixpoint shWords (inQuote : bool) (word : option jsstring) (line : jsstring)
  : option (list jsstring) :=
  match line with
  | [] =>
      if inQuote then None
      else Some (match word with Some w => [w] | None => [] end)
  | c :: t =>
      if inQuote then
        if c =? QUOTE then shWords false word t
        else shWords true (extend word c) t
      else if c =? QUOTE then
        shWords true (match word with Some w => Some w | None => Some [] end) t
      else if c =? BACKSLASH then
        match t with
        | [] => None
        | d :: t' =>
            if d =? 10 then shWords false word t'
            else shWords false (extend word d) t'
        end
      else if isBlank c then
        match word with
        | Some w => option_map (cons w) (shWords false None t)
        | None => shWords false None t
        end
      else if isPlain c then shWords false (extend word c) t
      else None
  end.

(** A command name that needs no quoting. *)
Definition plainWord (s : jsstring) : bool :=
  negb (falsy s) && forallb isPlain s.

End Commands.

(** ** The list of a user's repositories: [GET] of
    [unnamed/part_001], lines 118-247 *)
Module UserRepos.
Import Js.
Local Open Scope string_scope.
Local Open Scope list_scope.
Local Open Scope Z_scope.

(** *** Numbers and arrays *)

(** What [parseInt(s, 10)] returns: an integer, or [NaN] ([None]).
    Arithmetic with [NaN] gives [NaN]. *)
Definition number : Type := option Z.

Definition lift2 (f : Z -> Z -> Z) (a b : number) : number :=
  match a, b with
  | Some x, Some y => Some (f x y)
  | _, _ => None
  end.

(** [Math.ceil(a / b)] for integers [a] and [b > 0]. *)
Definition ceilDiv (a b : Z) : Z := - ((- a) / b).

(** [a % b]: the remainder has the sign of [a]. *)
Definition remainder (a b : Z) : Z := Z.rem a b.

(** [ToIntegerOrInfinity], which reads [NaN] as 0. *)
Definition toInteger (n : number) : Z :=
  match n with
  | Some x => x
  | None => 0
  end.

(** [l.slice(start, end)]: a negative index counts from the end. *)
Definition slice {A : Type} (l : list A) (start end_ : number) : list A :=
  let len := Z.of_nat (List.length l) in
  let relative (i : Z) := if i <? 0 then Z.max (len + i) 0 else Z.min i len in
  let k := relative (toInteger start) in
  let final := relative (toInteger end_) in
  firstn (Z.to_nat (final - k)) (skipn (Z.to_nat k) l).

(** [a === b] and [a > b] on numbers: false when one is [NaN]. *)
Definition strictEq (a b : number) : bool :=
  match a, b with
  | Some x, Some y => x =? y
  | _, _ => false
  end.

Definition greater (a b : number) : bool :=
  match a, b with
  | Some x, Some y => y <? x
  | _, _ => false
  end.

(** *** The handler *)

Record GitHubRepo : Type := {
  name : string;
  full_name : string;
  owner_login : string
}.

(** An awaited call that may throw. *)
Inductive Attempt (A : Type) : Type :=
| Resolved (a : A)
| Rejected.
Arguments Resolved {A} a.
Arguments Rejected {A}.

(** A response of [fetch]: its body when [ok], [None] otherwise. *)
Definition Response (A : Type) : Type := option A.

Record GitHubSearchResult : Type := {
  total_count : Z;
  items : list GitHubRepo
}.

(** What the handler reads: the token, the query parameters ([page] and
    [per_page] after [parseInt], and whether [search] holds more than
    white space), and GitHub's answers: the user, the search for a page,
    and the page of the user's repositories asked for with
    [per_page=100]. *)
Record Surroundings : Type := {
  getUserGitHubToken : Attempt (option string);
  page : number;
  perPage : number;
  searching : bool;
  fetchUser : Attempt (Response string);
  fetchSearch : number -> number -> Attempt (Response GitHubSearchResult);
  fetchRepos : number -> Attempt (Response (list GitHubRepo))
}.

Inductive Reply : Type :=
| Error (status : Z) (error : string)
| Repos (repos : list GitHubRepo) (page per_page : number) (has_more : bool)
        (total_count : option Z) (username : string).

Definition githubPerPage : Z := 100.

(** The page of GitHub's listing that holds the slice asked for, and
    where the slice begins in it. *)
Definition githubPage (S : Surroundings) : number :=
  option_map (fun x => ceilDiv x githubPerPage)
             (lift2 Z.mul (page S) (perPage S)).

Definition offsetInGithubPage (S : Surroundings) : number :=
  option_map (fun x => remainder x githubPerPage)
             (lift2 Z.mul (lift2 Z.sub (page S) (Some 1)) (perPage S)).

Definition GET (S : Surroundings) : Reply :=
  let failed := Error 500 "Failed to fetch repositories" in
  match getUserGitHubToken S with
  | Rejected => failed
  | Resolved None => Error 401 "GitHub not connected"
  | Resolved (Some "") => Error 401 "GitHub not connected"
  | Resolved (Some _) =>
      if searching S then
        match fetchUser S with
        | Rejected => failed
        | Resolved None => Error 401 "Failed to fetch user"
        | Resolved (Some username) =>
            match fetchSearch S (page S) (perPage S) with
            | Rejected => failed
            | Resolved None => failed
            | Resolved (Some searchResult) =>
                Repos (items searchResult) (page S) (perPage S)
                      (greater (Some (total_count searchResult))
                               (lift2 Z.mul (page S) (perPage S)))
                      (Some (total_count searchResult)) username
            end
        end
      else
        match fetchUser S, fetchRepos S (githubPage S) with
        | Rejected, _ => failed
        | _, Rejected => failed
        | Resolved None, _ => Error 401 "Failed to fetch user"
        | Resolved (Some _), Resolved None => failed
        | Resolved (Some username), Resolved (Some repos) =>
            let slicedRepos :=
              slice repos (offsetInGithubPage S)
                    (lift2 Z.add (offsetInGithubPage S) (perPage S)) in
            let hasMore :=
              strictEq (Some (Z.of_nat (List.length repos)))
                       (Some githubPerPage)
              || strictEq (Some (Z.of_nat (List.length slicedRepos)))
                          (perPage S) in
            Repos slicedRepos (page S) (perPage S) hasMore None username
        end
  end.

(** *** For statements *)

(** GitHub serves the listing [all] in pages of 100, numbered from 1. *)
Definition servesInPages (S : Surroundings) (all : list GitHubRepo) : Prop :=
  forall g, 1 <= g ->
    fetchRepos S (Some g)
    = Resolved (Some (firstn 100 (skipn (Z.to_nat (100 * (g - 1))) all))).

(** The items from [(page - 1) * perPage] up to [page * perPage] of a
    listing. *)
Definition pageOf {A : Type} (all : list A) (page perPage : Z) : list A :=
  firstn (Z.to_nat perPage) (skipn (Z.to_nat ((page - 1) * perPage)) all).

(** A connected user with 230 repositories named by their position,
    asking for a page. *)
Definition numbered (n : nat) : list GitHubRepo :=
  map (fun i => {| name := "repo"; full_name := "acme/repo";
                   owner_login := String (Ascii.ascii_of_nat i) "" |})
      (seq 0 n).

Definition sampleQuery (page perPage : Z) : Surroundings :=
  {| getUserGitHubToken := Resolved (Some "ghp_token");
     UserRepos.page := Some page;
     UserRepos.perPage := Some perPage;
     searching := false;
     fetchUser := Resolved (Some "acme");
     fetchSearch := fun _ _ => Rejected;
     fetchRepos := fun g =>
       match g with
       | Some g =>
           Resolved (Some (firstn 100 (skipn (Z.to_nat (100 * (g - 1)))
                                             (numbered 230))))
       | None => Rejected
       end |}.

End UserRepos.
(* ================================================================== *)
(** * Part II. Lemmas and theorems                                     *)
(* ================================================================== *)

(** ** Prompt sanitisation *)
Module SanitizeFacts.
Import Js Sanitize.
Local Open Scope N_scope.

Example sanitize_sample :
  sanitizePrompt (lit "-rf `id` $HOME \n") = lit " -rf 'id' HOME n".
Proof. vm_compute. reflexivity. Qed.

(** A hyphen after a line feed, a carriage return or U+2028 is padded;
    one inside a line is kept. *)
Example sanitize_lines :
  sanitizePrompt ([45; 97; 45; 10; 45; 13; 45; 8232; 45])
  = [32; 45; 97; 45; 10; 32; 45; 13; 32; 45; 8232; 32; 45].
Proof. vm_compute. reflexivity. Qed.

(** A unit that the replacement text does not contain and that differs
    from [c] survives [replaceAll c r] only if it was there before. *)
Lemma replaceAll_absent (x c : N) (r s : jsstring) :
  Forall (fun u => u <> x) r ->
  Forall (fun u => u <> x) s ->
  Forall (fun u => u <> x) (replaceAll c r s).
Proof.
  intros Hr Hs. unfold replaceAll.
  induction Hs as [|u t Hu _ IH]; simpl.
  - constructor.
  - apply Forall_app. split; [|exact IH].
    destruct (u =? c); [exact Hr | constructor; [exact Hu | constructor]].
Qed.

(** [replaceAll c r] removes every [c] when [r] has none. *)
Lemma replaceAll_removes (c : N) (r s : jsstring) :
  Forall (fun u => u <> c) r ->
  Forall (fun u => u <> c) (replaceAll c r s).
Proof.
  intros Hr. unfold replaceAll.
  induction s as [|u t IH]; simpl.
  - constructor.
  - apply Forall_app. split; [|exact IH].
    destruct (N.eqb_spec u c) as [E|E]; [exact Hr|].
    constructor; [exact E | constructor].
Qed.

Lemma replaceAtLineStart_from_absent (x c : N) (r s : jsstring) (b : bool) :
  Forall (fun u => u <> x) r ->
  Forall (fun u => u <> x) s ->
  Forall (fun u => u <> x) (replaceAtLineStart_from b c r s).
Proof.
  intros Hr Hs. revert b.
  induction Hs as [|u t Hu _ IH]; intros b; simpl.
  - constructor.
  - apply Forall_app. split; [|apply IH].
    destruct (b && (u =? c))%bool; [exact Hr|].
    constructor; [exact Hu | constructor].
Qed.

(** The first line of the rewritten text begins with a hyphen only when
    the text was entered in the middle of a line; no later line does. *)
Lemma replaceAtLineStart_from_lines (s : jsstring) (b : bool) :
  match lines (replaceAtLineStart_from b HYPHEN [SPACE; HYPHEN] s) with
  | [] => False
  | l :: ls =>
      (b = true -> beginsWith HYPHEN l = false)
      /\ Forall (fun l' => beginsWith HYPHEN l' = false) ls
  end.
Proof.
  revert b. induction s as [|u t IH]; intros b.
  - simpl. split; [reflexivity | constructor].
  - cbn [replaceAtLineStart_from].
    destruct (b && (u =? HYPHEN))%bool eqn:Hhit.
    + (* a hyphen at a line start becomes " -" *)
      specialize (IH (LineTerminator u)).
      apply andb_prop in Hhit. destruct Hhit as [_ Hu].
      apply N.eqb_eq in Hu. subst u.
      change (LineTerminator HYPHEN) with false in IH.
      simpl. change (LineTerminator HYPHEN) with false.
      destruct (lines (replaceAtLineStart_from false HYPHEN [SPACE; HYPHEN] t))
        as [|l ls]; [contradiction|].
      destruct IH as [_ IH]. split; [reflexivity | exact IH].
    + specialize (IH (LineTerminator u)).
      cbn [app lines].
      destruct (LineTerminator u) eqn:Hlt.
      * destruct (lines (replaceAtLineStart_from true HYPHEN [SPACE; HYPHEN] t))
          as [|l ls]; [contradiction|].
        destruct IH as [IH1 IH2].
        split; [reflexivity|]. constructor; [apply IH1; reflexivity | exact IH2].
      * destruct (lines (replaceAtLineStart_from false HYPHEN [SPACE; HYPHEN] t))
          as [|l ls]; [contradiction|].
        destruct IH as [_ IH2]. split; [|exact IH2].
        intros ->. simpl in Hhit. simpl. exact Hhit.
Qed.

(** The sanitised prompt has no backtick, no dollar sign, no backslash,
    and none of its lines (the pieces between LF, CR, U+2028 and U+2029)
    begins with a hyphen. *)
Lemma sanitizePrompt_safe (prompt : jsstring) :
  Forall (fun u => u <> BACKTICK) (sanitizePrompt prompt)
  /\ Forall (fun u => u <> DOLLAR) (sanitizePrompt prompt)
  /\ Forall (fun u => u <> BACKSLASH) (sanitizePrompt prompt)
  /\ Forall (fun l => beginsWith HYPHEN l = false)
            (lines (sanitizePrompt prompt)).
Proof.
  unfold sanitizePrompt, replaceAtLineStart.
  assert (Hne : forall x y : N, (x =? y) = false -> Forall (fun u => u <> x) [y]).
  { intros x y H. constructor; [|constructor].
    intros ->. rewrite N.eqb_refl in H. discriminate. }
  assert (Hpad : forall x, (x =? SPACE) = false -> (x =? HYPHEN) = false ->
                           Forall (fun u => u <> x) [SPACE; HYPHEN]).
  { intros x H1 H2. constructor; [|apply Hne; exact H2].
    intros E. rewrite <- E in H1. discriminate. }
  repeat split.
  - apply replaceAtLineStart_from_absent; [apply Hpad; reflexivity|].
    do 2 (apply replaceAll_absent; [constructor|]).
    apply replaceAll_removes. apply Hne. reflexivity.
  - apply replaceAtLineStart_from_absent; [apply Hpad; reflexivity|].
    apply replaceAll_absent; [constructor|].
    apply replaceAll_removes. constructor.
  - apply replaceAtLineStart_from_absent; [apply Hpad; reflexivity|].
    apply replaceAll_removes. constructor.
  - pose proof (replaceAtLineStart_from_lines
                  (replaceAll BACKSLASH []
                     (replaceAll DOLLAR []
                        (replaceAll BACKTICK [APOSTROPHE] prompt))) true) as H.
    destruct (lines _) as [|l ls]; [contradiction|].
    destruct H as [H1 H2]. constructor; [apply H1; reflexivity | exact H2].
Qed.

End SanitizeFacts.

(** ** Buffers: hexadecimal and UTF-8 round trips *)
Module BufferFacts.
Import Js Buffer.
Local Open Scope N_scope.

Lemma to_N_byteOf (n : N) : n < 256 -> to_N (byteOf n) = n.
Proof.
  intros H. unfold byteOf. destruct (Byte.of_N n) as [b|] eqn:E.
  - apply Byte.to_of_N. exact E.
  - apply Byte.of_N_None_iff in E. lia.
Qed.

Lemma byteOf_to_N (b : byte) : byteOf (to_N b) = b.
Proof. unfold byteOf. rewrite Byte.of_to_N. reflexivity. Qed.

Lemma to_N_lt (b : byte) : to_N b < 256.
Proof. pose proof (Byte.to_N_bounded b). lia. Qed.

(** Decides the comparisons of a goal from the arithmetic facts at hand. *)
Ltac cmp :=
  repeat match goal with
         | |- context [?x <? ?y] =>
             destruct (N.ltb_spec x y); try lia
         | |- context [?x <=? ?y] =>
             destruct (N.leb_spec x y); try lia
         | |- context [?x =? ?y] =>
             destruct (N.eqb_spec x y); try lia
         end.

Lemma unhex_hexDigit (n : N) : n < 16 -> unhex (hexDigit n) = Some n.
Proof.
  intros H. unfold unhex, hexDigit.
  destruct (N.ltb_spec n 10).
  - cmp. cbn [andb]. f_equal. lia.
  - cmp; cbn [andb]; f_equal; lia.
Qed.

Lemma hexDigit_not_colon (n : N) : n < 16 -> hexDigit n <> COLON.
Proof.
  intros H. unfold hexDigit, COLON. destruct (N.ltb_spec n 10); lia.
Qed.

Lemma hexDigit_low (n : N) : n < 16 -> hexDigit n mod 256 = hexDigit n.
Proof.
  intros H. apply N.mod_small. unfold hexDigit.
  destruct (N.ltb_spec n 10); lia.
Qed.

Lemma fromHex_toHex (b : buffer) : fromHex (toHex b) = b.
Proof.
  induction b as [|x t IH]; [reflexivity|].
  pose proof (to_N_lt x) as Hx.
  assert (Hhi : to_N x / 16 < 16) by (apply N.Div0.div_lt_upper_bound; lia).
  assert (Hlo : to_N x mod 16 < 16) by (apply N.mod_lt; lia).
  change (toHex (x :: t))
    with (hexDigit (to_N x / 16) :: hexDigit (to_N x mod 16) :: toHex t).
  cbn [fromHex].
  rewrite !hexDigit_low by assumption.
  rewrite !unhex_hexDigit.
  - rewrite IH. f_equal.
    rewrite <- (N.div_mod' (to_N x) 16). apply byteOf_to_N.
  - apply N.mod_lt. lia.
  - apply N.Div0.div_lt_upper_bound. lia.
Qed.

Lemma toHex_no_colon (b : buffer) : Forall (fun u => u <> COLON) (toHex b).
Proof.
  induction b as [|x t IH]; [constructor|].
  pose proof (to_N_lt x) as Hx.
  change (toHex (x :: t))
    with (hexDigit (to_N x / 16) :: hexDigit (to_N x mod 16) :: toHex t).
  constructor; [|constructor; [|exact IH]].
  - apply hexDigit_not_colon. apply N.Div0.div_lt_upper_bound. lia.
  - apply hexDigit_not_colon. apply N.mod_lt. lia.
Qed.

(** Splitting at a separator that the first piece does not contain. *)
Lemma split_piece (c : N) (a rest : jsstring) :
  Forall (fun u => u <> c) a ->
  split c (a ++ c :: rest) = a :: split c rest.
Proof.
  induction 1 as [|u t Hu _ IH]; simpl.
  - rewrite N.eqb_refl. reflexivity.
  - destruct (N.eqb_spec u c); [contradiction|]. rewrite IH. reflexivity.
Qed.

Lemma split_last (c : N) (a : jsstring) :
  Forall (fun u => u <> c) a -> split c a = [a].
Proof.
  induction 1 as [|u t Hu _ IH]; simpl.
  - reflexivity.
  - destruct (N.eqb_spec u c); [contradiction|]. rewrite IH. reflexivity.
Qed.

Lemma includesUnit_app (c : N) (a rest : jsstring) :
  includesUnit c (a ++ c :: rest) = true.
Proof.
  unfold includesUnit. rewrite existsb_app. simpl.
  rewrite N.eqb_refl. apply orb_true_r.
Qed.

(** Linear arithmetic with division and remainder by constants. *)
Ltac dlia := zify; Z.to_euclidean_division_equations; lia.

(** Rewrites every comparison that the hypotheses decide. *)
Ltac settle :=
  repeat match goal with
    | |- context [?x <? ?y] =>
        first [ replace (x <? y) with true by (symmetry; apply N.ltb_lt; dlia)
              | replace (x <? y) with false by (symmetry; apply N.ltb_ge; dlia) ]
    | |- context [?x <=? ?y] =>
        first [ replace (x <=? y) with true by (symmetry; apply N.leb_le; dlia)
              | replace (x <=? y) with false by (symmetry; apply N.leb_gt; dlia) ]
    end;
  cbn [andb orb negb].

(** One round of the decoder with no sequence pending, and with one. *)
Lemma decodeFrom_lead (x : byte) (r : buffer) :
  decodeFrom None (x :: r)
  = fst (lead (to_N x)) ++ decodeFrom (snd (lead (to_N x))) r.
Proof. cbn [decodeFrom]. destruct (lead (to_N x)). reflexivity. Qed.

Lemma decodeFrom_more (c lo hi : N) (k : nat) (x : byte) (r : buffer) :
  lo <= to_N x <= hi ->
  decodeFrom (Some {| codePoint := c; needed := S (S k);
                      lower := lo; upper := hi |}) (x :: r)
  = decodeFrom (Some {| codePoint := c * 0x40 + (to_N x - 0x80);
                        needed := S k; lower := 0x80; upper := 0xBF |}) r.
Proof.
  intros H. cbn [decodeFrom lower upper codePoint needed].
  replace ((lo <=? to_N x) && (to_N x <=? hi)) with true; [reflexivity|].
  symmetry. apply andb_true_intro. split; apply N.leb_le; lia.
Qed.

Lemma decodeFrom_last (c lo hi : N) (x : byte) (r : buffer) :
  lo <= to_N x <= hi ->
  decodeFrom (Some {| codePoint := c; needed := 1;
                      lower := lo; upper := hi |}) (x :: r)
  = unitsOfCodePoint (c * 0x40 + (to_N x - 0x80)) ++ decodeFrom None r.
Proof.
  intros H. cbn [decodeFrom lower upper codePoint needed].
  replace ((lo <=? to_N x) && (to_N x <=? hi)) with true; [reflexivity|].
  symmetry. apply andb_true_intro. split; apply N.leb_le; lia.
Qed.

(** One to four bytes of a well-formed sequence, decoded. *)
Lemma decode_1 (a : N) (r : buffer) :
  a < 0x80 -> utf8Decode (byteOf a :: r) = a :: utf8Decode r.
Proof.
  intros H. unfold utf8Decode. rewrite decodeFrom_lead.
  rewrite to_N_byteOf by lia. unfold lead. settle. reflexivity.
Qed.

Lemma decode_2 (a b : N) (r : buffer) :
  0xC2 <= a <= 0xDF -> 0x80 <= b <= 0xBF ->
  utf8Decode (byteOf a :: byteOf b :: r)
  = unitsOfCodePoint ((a - 0xC0) * 0x40 + (b - 0x80)) ++ utf8Decode r.
Proof.
  intros Ha Hb. unfold utf8Decode. rewrite decodeFrom_lead.
  rewrite to_N_byteOf by lia. unfold lead. settle. cbn [fst snd app].
  rewrite decodeFrom_last by (rewrite to_N_byteOf by lia; lia).
  rewrite to_N_byteOf by lia. reflexivity.
Qed.

Lemma decode_3 (a b c : N) (r : buffer) :
  0xE0 <= a <= 0xEF -> 0x80 <= b <= 0xBF -> 0x80 <= c <= 0xBF ->
  0x800 <= (a - 0xE0) * 0x1000 + (b - 0x80) * 0x40 + (c - 0x80) ->
  isSurrogate ((a - 0xE0) * 0x1000 + (b - 0x80) * 0x40 + (c - 0x80)) = false ->
  utf8Decode (byteOf a :: byteOf b :: byteOf c :: r)
  = unitsOfCodePoint ((a - 0xE0) * 0x1000 + (b - 0x80) * 0x40 + (c - 0x80))
      ++ utf8Decode r.
Proof.
  intros Ha Hb Hc Hlo Hs. unfold utf8Decode. rewrite decodeFrom_lead.
  rewrite to_N_byteOf by lia. unfold lead. settle. cbn [fst snd app].
  unfold isSurrogate in Hs. apply andb_false_iff in Hs.
  rewrite !N.leb_gt in Hs.
  rewrite decodeFrom_more.
  2:{ rewrite to_N_byteOf by lia.
      destruct (N.eqb_spec a 0xE0); destruct (N.eqb_spec a 0xED); lia. }
  rewrite decodeFrom_last by (rewrite to_N_byteOf by lia; lia).
  rewrite !to_N_byteOf by lia.
  f_equal. f_equal. lia.
Qed.

Lemma decode_4 (a b c d : N) (r : buffer) :
  0xF0 <= a <= 0xF4 -> 0x80 <= b <= 0xBF -> 0x80 <= c <= 0xBF ->
  0x80 <= d <= 0xBF ->
  0x10000 <= (a - 0xF0) * 0x40000 + (b - 0x80) * 0x1000
             + (c - 0x80) * 0x40 + (d - 0x80) <= 0x10FFFF ->
  utf8Decode (byteOf a :: byteOf b :: byteOf c :: byteOf d :: r)
  = unitsOfCodePoint ((a - 0xF0) * 0x40000 + (b - 0x80) * 0x1000
                      + (c - 0x80) * 0x40 + (d - 0x80)) ++ utf8Decode r.
Proof.
  intros Ha Hb Hc Hd Hcp. unfold utf8Decode. rewrite decodeFrom_lead.
  rewrite to_N_byteOf by lia. unfold lead. settle. cbn [fst snd app].
  rewrite decodeFrom_more.
  2:{ rewrite to_N_byteOf by lia.
      destruct (N.eqb_spec a 0xF0); destruct (N.eqb_spec a 0xF4); lia. }
  rewrite decodeFrom_more by (rewrite to_N_byteOf by lia; lia).
  rewrite decodeFrom_last by (rewrite to_N_byteOf by lia; lia).
  rewrite !to_N_byteOf by lia.
  f_equal. f_equal. lia.
Qed.

(** Every code point that is not a surrogate survives encoding and
    decoding. *)
Lemma decode_encodeCodePoint (c : N) (r : buffer) :
  c < 0x110000 -> isSurrogate c = false ->
  utf8Decode (encodeCodePoint c ++ r) = unitsOfCodePoint c ++ utf8Decode r.
Proof.
  intros Hc Hs. unfold encodeCodePoint.
  destruct (N.ltb_spec c 0x80) as [H1|H1].
  - cbn [app]. rewrite decode_1 by exact H1.
    unfold unitsOfCodePoint. settle. reflexivity.
  - destruct (N.ltb_spec c 0x800) as [H2|H2].
    + cbn [app]. rewrite decode_2 by dlia.
      f_equal. f_equal. dlia.
    + destruct (N.ltb_spec c 0x10000) as [H3|H3].
      * cbn [app].
        assert (E : (0xE0 + c / 0x1000 - 0xE0) * 0x1000
                    + (0x80 + (c / 0x40) mod 0x40 - 0x80) * 0x40
                    + (0x80 + c mod 0x40 - 0x80) = c) by dlia.
        rewrite decode_3; rewrite ?E; try dlia; try exact Hs.
        reflexivity.
      * cbn [app].
        assert (E : (0xF0 + c / 0x40000 - 0xF0) * 0x40000
                    + (0x80 + (c / 0x1000) mod 0x40 - 0x80) * 0x1000
                    + (0x80 + (c / 0x40) mod 0x40 - 0x80) * 0x40
                    + (0x80 + c mod 0x40 - 0x80) = c) by dlia.
        rewrite decode_4; rewrite ?E; try dlia. reflexivity.
Qed.

Lemma utf8_roundtrip_bounded (n : nat) (s : jsstring) :
  (List.length s <= n)%nat -> wellFormed s = true ->
  utf8Decode (utf8Encode s) = s.
Proof.
  revert s. induction n as [|n IH]; intros s Hlen Hwf.
  - destruct s; [reflexivity | simpl in Hlen; lia].
  - destruct s as [|u t]; [reflexivity|].
    cbn [utf8Encode wellFormed] in *.
    destruct (isHighSurrogate u) eqn:Hhi.
    + destruct t as [|v t']; [discriminate|].
      apply andb_prop in Hwf. destruct Hwf as [Hlo Hwf].
      rewrite Hlo.
      unfold isHighSurrogate in Hhi. unfold isLowSurrogate in Hlo.
      apply andb_prop in Hhi. destruct Hhi as [Hu1 Hu2].
      apply andb_prop in Hlo. destruct Hlo as [Hv1 Hv2].
      apply N.leb_le in Hu1, Hu2, Hv1, Hv2.
      rewrite decode_encodeCodePoint.
      * rewrite IH by (try exact Hwf; simpl in Hlen; lia).
        unfold unitsOfCodePoint. settle. cbn [app].
        f_equal; [dlia | f_equal; dlia].
      * lia.
      * unfold isSurrogate. settle. reflexivity.
    + apply andb_prop in Hwf. destruct Hwf as [Hwf Hrest].
      apply andb_prop in Hwf. destruct Hwf as [Hlo Hlt].
      apply negb_true_iff in Hlo. rewrite Hlo.
      apply N.ltb_lt in Hlt.
      rewrite decode_encodeCodePoint.
      * rewrite IH by (try exact Hrest; simpl in Hlen; lia).
        unfold unitsOfCodePoint. settle. reflexivity.
      * lia.
      * unfold isHighSurrogate in Hhi. unfold isLowSurrogate in Hlo.
        unfold isSurrogate.
        apply andb_false_iff in Hhi. apply andb_false_iff in Hlo.
        rewrite N.leb_gt in Hhi, Hlo. rewrite N.leb_gt in Hhi, Hlo.
        apply andb_false_iff. rewrite !N.leb_gt. lia.
Qed.

(** Encoding a well-formed string as UTF-8 and decoding it gives the
    string back. *)
Lemma utf8_roundtrip (s : jsstring) :
  wellFormed s = true -> utf8Decode (utf8Encode s) = s.
Proof. apply (utf8_roundtrip_bounded (List.length s)). lia. Qed.

(** A surrogate on its own does not survive: it comes back as U+FFFD. *)
Example utf8_lone_surrogate :
  utf8Decode (utf8Encode [0xD83D]) = [REPLACEMENT].
Proof. vm_compute. reflexivity. Qed.

(** A sequence cut short is read as one U+FFFD, and so is each byte
    that cannot begin or continue a sequence. *)
Example utf8_truncated_sequence :
  utf8Decode [xe2; x82] = [REPLACEMENT]
  /\ utf8Decode [xe2; x82; x41] = [REPLACEMENT; 0x41]
  /\ utf8Decode [xed; xa0; x80] = [REPLACEMENT; REPLACEMENT; REPLACEMENT]
  /\ utf8Decode [xf0; x9f; x98; x80] = [0xD83D; 0xDE00].
Proof. vm_compute. repeat split. Qed.

(** Units of 256 or more are read by their low byte: sixty-four times
    U+0130 decodes as sixty-four zeros do. *)
Example fromHex_low_byte :
  fromHex (repeat 0x130 64) = repeat x00 32.
Proof. vm_compute. reflexivity. Qed.

Example utf8_pair : utf8Decode (utf8Encode [0xD83D; 0xDE00; 0xE9; 0x20AC])
                    = [0xD83D; 0xDE00; 0xE9; 0x20AC].
Proof. vm_compute. reflexivity. Qed.

End BufferFacts.

(** ** [lib/crypto.ts]: encrypt then decrypt *)
Module CryptoFacts.
Import Js Buffer Crypto BufferFacts.

Section RoundTrip.
Context {C : Cipher}.
Hypothesis gcm_ok : gcmCorrect C.
Variable ENCRYPTION_KEY : option jsstring.
Hypothesis key_ok : validKey ENCRYPTION_KEY = true.
Variable iv : buffer.
Hypothesis iv_ok : List.length iv = IV_LENGTH_GCM.

Lemma getEncryptionKey_valid :
  exists key, getEncryptionKey ENCRYPTION_KEY = Returns (Some key)
              /\ List.length key = 32%nat.
Proof.
  unfold validKey in key_ok. unfold getEncryptionKey.
  destruct ENCRYPTION_KEY as [k|]; [|discriminate].
  destruct k as [|u t]; [discriminate|].
  cbn [falsy]. rewrite key_ok.
  eexists. split; [reflexivity|]. apply Nat.eqb_eq. exact key_ok.
Qed.

(** With a valid key, [decrypt (encrypt text)] is [text] sent through the
    UTF-8 encoder and decoder. *)
Lemma decrypt_encrypt_utf8 (text : jsstring) :
  falsy text = false ->
  exists encrypted,
    encrypt ENCRYPTION_KEY iv text = Returns encrypted
    /\ decrypt ENCRYPTION_KEY encrypted
       = Returns (Some (utf8Decode (utf8Encode text))).
Proof.
  intros Hne.
  destruct getEncryptionKey_valid as [key [Hkey Hlen]].
  unfold encrypt. rewrite Hne, Hkey.
  pose proof (gcm_ok key iv (utf8Encode text) Hlen iv_ok) as Hgcm.
  destruct (gcmEncrypt key iv (utf8Encode text)) as [enc tag].
  cbn [fst snd] in Hgcm.
  eexists. split; [reflexivity|].
  unfold decrypt. rewrite Hkey.
  replace (falsy (toHex iv ++ [COLON] ++ toHex enc ++ [COLON] ++ toHex tag))
    with false.
  2:{ destruct (toHex iv); reflexivity. }
  cbn [app].
  rewrite includesUnit_app. cbn [negb].
  rewrite split_piece by apply toHex_no_colon.
  rewrite split_piece by apply toHex_no_colon.
  rewrite split_last by apply toHex_no_colon.
  rewrite !fromHex_toHex, Hgcm. reflexivity.
Qed.

End RoundTrip.

(** The stand-in cipher meets the contract. *)
Lemma rotate_back (k : N) (x : byte) :
  (k <= 255)%N -> rotate (256 - k) (rotate k x) = x.
Proof.
  intros Hk. unfold rotate.
  pose proof (to_N_lt x) as Hx.
  rewrite to_N_byteOf by (apply N.mod_lt; lia).
  replace (((to_N x + k) mod 256 + (256 - k)) mod 256)%N with (to_N x) by dlia.
  apply byteOf_to_N.
Qed.

Lemma CaesarCipher_correct : gcmCorrect CaesarCipher.
Proof.
  intros key iv p _ _. cbn [gcmDecrypt gcmEncrypt CaesarCipher fst snd].
  rewrite length_map.
  destruct (list_eq_dec _ _ _) as [_|Hne]; [|contradiction Hne; reflexivity].
  f_equal. rewrite map_map.
  rewrite <- (map_id p) at 2. apply map_ext. intros x.
  apply rotate_back.
  unfold keyShift. destruct key as [|b ?]; [lia|].
  pose proof (to_N_lt b). lia.
Qed.

End CryptoFacts.

(** ** The orchestrator: how a run extends the trace *)
Module RunFacts.
Import Js TaskStore Trigger Orchestrator Spec.
Local Open Scope Z_scope.
Local Open Scope pipeline_scope.

Lemma own_app (a b : list Event) : own (a ++ b) = own a ++ own b.
Proof. apply filter_app. Qed.

(** *** Steps that add nothing of the pipeline's own *)

Lemma ambient_refl (w : World) : ambient w w.
Proof. exists []. split; [unfold added; rewrite app_nil_r|]; reflexivity. Qed.

Lemma ambient_trans (a b c : World) : ambient a b -> ambient b c -> ambient a c.
Proof.
  intros [d1 [E1 O1]] [d2 [E2 O2]]. exists (d1 ++ d2). split.
  - unfold added in *. rewrite E2, E1, app_assoc. reflexivity.
  - rewrite own_app, O1, O2. reflexivity.
Qed.

Lemma ambient_emit (e : Event) (w : World) :
  isOwn e = false -> ambient w (emit e w).
Proof.
  intros H. exists [e]. split; [reflexivity|].
  unfold own. simpl. rewrite H. reflexivity.
Qed.

Lemma ambient_same_trace (w w' : World) : trace w' = trace w -> ambient w w'.
Proof.
  intros H. exists []. split; [unfold added; rewrite app_nil_r; exact H|].
  reflexivity.
Qed.

Lemma ambient_then_emit (e : Event) (w w1 : World) :
  isOwn e = false -> ambient w w1 -> ambient w (emit e w1).
Proof.
  intros H H1. eapply ambient_trans; [exact H1 | apply ambient_emit, H].
Qed.

Lemma ambient_then_same (w w1 w2 : World) :
  trace w2 = trace w1 -> ambient w w1 -> ambient w w2.
Proof.
  intros H H1. eapply ambient_trans; [exact H1 | apply ambient_same_trace, H].
Qed.

Lemma ambient_clearTimeout (h : nat) (w : World) : ambient w (clearTimeout h w).
Proof.
  apply ambient_same_trace. unfold clearTimeout.
  destruct (nth_error (timers w) h) as [t|]; [|reflexivity].
  destruct (isScheduled t); reflexivity.
Qed.

Lemma ambient_raceCatch (h : nat) (e : Exn) (w : World) :
  ambient w (snd (raceCatch h e w)).
Proof.
  unfold raceCatch.
  destruct e as [m|v]; [|apply ambient_clearTimeout].
  destruct (includes _ m); [|apply ambient_clearTimeout]. cbn [snd].
  unfold logger_updateStatus, logger_log.
  apply ambient_then_emit; [reflexivity|].
  eapply ambient_then_same; [reflexivity|].
  apply ambient_then_emit; [reflexivity|].
  apply ambient_clearTimeout.
Qed.

Lemma ambient_runTimer (a : TimerAction) (w : World) : ambient w (runTimer a w).
Proof.
  destruct a as [|m]; cbn [runTimer].
  - apply ambient_emit. reflexivity.
  - unfold rejectRace. destruct (race w) as [|h|o]; try apply ambient_refl.
    pose proof (ambient_raceCatch h (JsError m) w) as H.
    destruct (raceCatch h (JsError m) w) as [o w']. cbn [snd] in H.
    eapply ambient_then_same; [reflexivity | exact H].
Qed.

Lemma ambient_fireDue (fuel : nat) (w : World) : ambient w (fireDue fuel w).
Proof.
  revert w. induction fuel as [|fuel IH]; intros w; cbn [fireDue].
  - apply ambient_refl.
  - destruct (nextDue 0 (clock w) (timers w) None) as [[i d]|];
      [|apply ambient_refl].
    destruct (nth_error (timers w) i) as [t|]; [|apply ambient_refl].
    eapply ambient_trans; [|apply IH].
    eapply ambient_trans; [|apply ambient_runTimer].
    apply ambient_then_emit; [reflexivity|].
    apply ambient_same_trace. reflexivity.
Qed.

Lemma ambient_serve (w : World) (a : Arrival) : ambient w (serve w a).
Proof.
  destruct a as [|name]; cbn [serve].
  - unfold PATCH_stop. destruct (Status_eqb _ _).
    + unfold stopTaskExecution, logger_log.
      apply ambient_then_emit; [reflexivity|].
      apply ambient_then_emit; [reflexivity|].
      eapply ambient_then_same; [reflexivity|].
      apply ambient_emit. reflexivity.
    + apply ambient_emit. reflexivity.
  - apply ambient_then_emit; [reflexivity|].
    apply ambient_same_trace. reflexivity.
Qed.

Lemma ambient_serve_all (l : list Arrival) (w : World) :
  ambient w (fold_left serve l w).
Proof.
  revert w. induction l as [|a l IH]; intros w; cbn [fold_left].
  - apply ambient_refl.
  - eapply ambient_trans; [apply ambient_serve | apply IH].
Qed.

Lemma suspend_result (env : Env) (d : Z) (w : World) :
  fst (suspend env d w) = Ok tt.
Proof. reflexivity. Qed.

Lemma ambient_suspend (env : Env) (d : Z) (w : World) :
  ambient w (snd (suspend env d w)).
Proof.
  unfold suspend. cbn [snd].
  eapply ambient_then_same; [reflexivity|].
  eapply ambient_trans; [|apply ambient_fireDue].
  eapply ambient_then_same; [reflexivity|].
  apply ambient_serve_all.
Qed.

(** *** Rules for [emits] *)

Section Emits.
Context {A : Type}.

Lemma emits_weaken (m : M A) (Q Q' : Res A -> list Event -> Prop) :
  emits m Q -> (forall r l, Q r l -> Q' r l) -> emits m Q'.
Proof.
  intros H HQ w. destruct (H w) as [d [E HQd]].
  exists d. split; [exact E | apply HQ; exact HQd].
Qed.

Lemma emits_ret (a : A) (Q : Res A -> list Event -> Prop) :
  Q (Ok a) [] -> emits (ret a) Q.
Proof.
  intros H w. exists []. split; [|exact H].
  unfold added. cbn. rewrite app_nil_r. reflexivity.
Qed.

Lemma emits_throw (e : Exn) (Q : Res A -> list Event -> Prop) :
  Q (Raise e) [] -> emits (throw e) Q.
Proof.
  intros H w. exists []. split; [|exact H].
  unfold added. cbn. rewrite app_nil_r. reflexivity.
Qed.

Lemma emits_starve (Q : Res A -> list Event -> Prop) :
  Q Starved [] -> emits starve Q.
Proof.
  intros H w. exists []. split; [|exact H].
  unfold added. cbn. rewrite app_nil_r. reflexivity.
Qed.

Lemma emits_gets (f : World -> A) (Q : Res A -> list Event -> Prop) :
  (forall a, Q (Ok a) []) -> emits (gets f) Q.
Proof.
  intros H w. exists []. split; [|apply H].
  unfold added. cbn. rewrite app_nil_r. reflexivity.
Qed.

Lemma emits_bind {B : Type} (m : M B) (k : B -> M A)
    (Q : Res A -> list Event -> Prop) :
  emits m (fun r l =>
             match r with
             | Ok b => emits (k b) (fun r' l' => Q r' (l ++ l'))
             | Raise e => Q (Raise e) l
             | Starved => Q Starved l
             end) ->
  emits (bind m k) Q.
Proof.
  intros H w. destruct (H w) as [d1 [E1 H1]]. unfold bind.
  destruct (m w) as [[b|e|] w1]; cbn [fst snd] in *.
  - destruct (H1 w1) as [d2 [E2 H2]]. exists (d1 ++ d2). split.
    + unfold added in *. rewrite E2, E1, app_assoc. reflexivity.
    + rewrite own_app. exact H2.
  - exists d1. split; assumption.
  - exists d1. split; assumption.
Qed.

Lemma emits_tryCatch (m : M A) (h : Exn -> M A)
    (Q : Res A -> list Event -> Prop) :
  emits m (fun r l =>
             match r with
             | Raise e => emits (h e) (fun r' l' => Q r' (l ++ l'))
             | _ => Q r l
             end) ->
  emits (tryCatch m h) Q.
Proof.
  intros H w. destruct (H w) as [d1 [E1 H1]]. unfold tryCatch.
  destruct (m w) as [[b|e|] w1]; cbn [fst snd] in *.
  - exists d1. split; assumption.
  - destruct (H1 w1) as [d2 [E2 H2]]. exists (d1 ++ d2). split.
    + unfold added in *. rewrite E2, E1, app_assoc. reflexivity.
    + rewrite own_app. exact H2.
  - exists d1. split; assumption.
Qed.

End Emits.

Lemma emits_act (f : World -> World) (d : list Event)
    (Q : Res unit -> list Event -> Prop) :
  (forall w, trace (f w) = trace w ++ d) ->
  Q (Ok tt) (own d) -> emits (act f) Q.
Proof.
  intros Hf H w. exists d. split; [apply Hf | exact H].
Qed.

Lemma emits_emit (e : Event) (Q : Res unit -> list Event -> Prop) :
  Q (Ok tt) (own [e]) -> emits (act (emit e)) Q.
Proof. apply emits_act. reflexivity. Qed.

Lemma emits_withSandboxVar (s : option Sandbox)
    (Q : Res unit -> list Event -> Prop) :
  Q (Ok tt) [] -> emits (act (withSandboxVar s)) Q.
Proof.
  apply (emits_act _ []). intros w. cbn. rewrite app_nil_r. reflexivity.
Qed.

Section WithEnv.
Variable env : Env.

Lemma emits_suspend (d : Z) (Q : Res unit -> list Event -> Prop) :
  Q (Ok tt) [] -> emits (suspend env d) Q.
Proof.
  intros H w. destruct (ambient_suspend env d w) as [dl [E O]].
  exists dl. split; [exact E|]. rewrite O, suspend_result. exact H.
Qed.

Lemma emits_await {A} (r : result A) (Q : Res A -> list Event -> Prop) :
  match r with
  | Returns a => Q (Ok a) []
  | Throws e => Q (Raise e) []
  end ->
  emits (await env r) Q.
Proof.
  intros H. unfold await. apply emits_bind. apply emits_suspend.
  destruct r; [apply emits_ret | apply emits_throw]; exact H.
Qed.

Lemma emits_awaitDb {A} (f : World -> A * World) (d : list Event)
    (Q : Res A -> list Event -> Prop) :
  (forall w, trace (snd (f w)) = trace w ++ d) ->
  Q (Raise (JsError "store call failed")) [] ->
  (forall a, Q (Ok a) (own d)) ->
  emits (awaitDb env f) Q.
Proof.
  intros Hf Hthrow Hok w.
  destruct (ambient_suspend env 0 w) as [dl [E O]].
  unfold awaitDb.
  destruct (suspend env 0 w) as [[[]|e|] w1] eqn:Es;
    try (pose proof (suspend_result env 0 w) as R; rewrite Es in R;
         discriminate R).
  cbn [snd] in E.
  destruct (dbThrows env (ticks w)).
  - exists dl. split; [exact E|]. rewrite O. exact Hthrow.
  - specialize (Hf w1). destruct (f w1) as [a w2]. cbn [fst snd] in *.
    exists (dl ++ d). split.
    + unfold added in *. rewrite Hf, E, app_assoc. reflexivity.
    + rewrite own_app, O. apply Hok.
Qed.

Lemma emits_selectTaskRow (Q : Res Task -> list Event -> Prop) :
  Q (Raise (JsError "store call failed")) [] ->
  (forall t, Q (Ok t) []) ->
  emits (selectTaskRow env) Q.
Proof.
  intros H1 H2. unfold selectTaskRow. apply (emits_awaitDb _ []).
  - intros w. cbn. rewrite app_nil_r. reflexivity.
  - exact H1.
  - exact H2.
Qed.

Lemma emits_logger (o : Origin) (l : Level) (msg : string)
    (Q : Res unit -> list Event -> Prop) :
  Q (Ok tt) [] -> emits (logger env o l msg) Q.
Proof.
  intros H. unfold logger. apply emits_bind. apply emits_suspend.
  apply (emits_act _ [ELog o l msg]); [reflexivity | exact H].
Qed.

Lemma emits_updateStatus (s : Status) (msg : string)
    (Q : Res unit -> list Event -> Prop) :
  Q (Ok tt) [EStatus Pipeline s msg] -> emits (updateStatus env s msg) Q.
Proof.
  intros H. unfold updateStatus. apply emits_bind. apply emits_suspend.
  apply (emits_act _ [EStatus Pipeline s msg]); [reflexivity | exact H].
Qed.

Lemma emits_updateProgress (p : Z) (msg : string)
    (Q : Res unit -> list Event -> Prop) :
  Q (Ok tt) [EProgress Pipeline p msg] -> emits (updateProgress env p msg) Q.
Proof.
  intros H. unfold updateProgress. apply emits_bind. apply emits_suspend.
  apply (emits_act _ [EProgress Pipeline p msg]); [reflexivity | exact H].
Qed.

(** The cancellation check adds nothing and returns a boolean. *)
Lemma emits_isTaskStopped (Q : Res bool -> list Event -> Prop) :
  (forall b, Q (Ok b) []) -> emits (isTaskStopped env) Q.
Proof.
  intros H. unfold isTaskStopped. apply emits_tryCatch. apply emits_bind.
  apply emits_selectTaskRow.
  - apply emits_ret. apply H.
  - intros t. apply emits_ret. apply H.
Qed.

Lemma emits_shutdown (Q : Res unit -> list Event -> Prop) :
  Q (Ok tt) [EShutdown] -> emits (shutdown env) Q.
Proof.
  intros H. unfold shutdown. apply emits_bind. apply emits_emit.
  apply emits_tryCatch. apply emits_await.
  destruct (shutdownSandbox env) as [[]|e].
  - exact H.
  - apply emits_ret. exact H.
Qed.

End WithEnv.

End RunFacts.

(** ** The clock, and the branch-name wait *)
Module WaitFacts.
Import Js TaskStore Trigger Orchestrator Spec RunFacts.
Local Open Scope Z_scope.
Local Open Scope pipeline_scope.

Lemma clock_clearTimeout (h : nat) (w : World) :
  clock (clearTimeout h w) = clock w.
Proof.
  unfold clearTimeout. destruct (nth_error (timers w) h) as [t|]; [|reflexivity].
  destruct (isScheduled t); reflexivity.
Qed.

Lemma clock_raceCatch (h : nat) (e : Exn) (w : World) :
  clock (snd (raceCatch h e w)) = clock w.
Proof.
  unfold raceCatch. destruct e as [m|v]; [|apply clock_clearTimeout].
  destruct (includes _ m); apply clock_clearTimeout.
Qed.

Lemma clock_runTimer (a : TimerAction) (w : World) :
  clock (runTimer a w) = clock w.
Proof.
  destruct a as [|m]; [reflexivity|]. cbn [runTimer]. unfold rejectRace.
  destruct (race w) as [|h|o]; try reflexivity.
  pose proof (clock_raceCatch h (JsError m) w) as H.
  destruct (raceCatch h (JsError m) w) as [o w']. exact H.
Qed.

Lemma clock_fireDue (fuel : nat) (w : World) : clock (fireDue fuel w) = clock w.
Proof.
  revert w. induction fuel as [|fuel IH]; intros w; cbn [fireDue];
    [reflexivity|].
  destruct (nextDue 0 (clock w) (timers w) None) as [[i d]|]; [|reflexivity].
  destruct (nth_error (timers w) i) as [t|]; [|reflexivity].
  rewrite IH, clock_runTimer. reflexivity.
Qed.

Lemma clock_serve (w : World) (a : Arrival) : clock (serve w a) = clock w.
Proof.
  destruct a; cbn [serve]; [|reflexivity].
  unfold PATCH_stop. destruct (Status_eqb _ _); reflexivity.
Qed.

Lemma clock_serve_all (l : list Arrival) (w : World) :
  clock (fold_left serve l w) = clock w.
Proof.
  revert w. induction l as [|a l IH]; intros w; cbn [fold_left];
    [reflexivity|].
  rewrite IH. apply clock_serve.
Qed.

(** A suspension lasts exactly the time asked for plus its latency. *)
Lemma clock_suspend (env : Env) (d : Z) (w : World) :
  clock (snd (suspend env d w))
  = clock w + d + Z.max 0 (latency env (ticks w)).
Proof.
  unfold suspend. cbn [snd]. cbn [withTicks clock].
  rewrite clock_fireDue. cbn [withClock clock].
  rewrite clock_serve_all. reflexivity.
Qed.

Section Wait.
Variable env : Env.

Lemma poll_run (w : World) :
  tryCatch
    (task <- selectTaskRow env ;;
     ret (if truthy' (branchName task) then branchName task else None))
    (fun _ => ret None) w
  = (Ok (pollResult env w), snd (suspend env 0 w)).
Proof.
  unfold tryCatch, bind, selectTaskRow, awaitDb, pollResult.
  change (suspend env 0 w) with (Ok tt, snd (suspend env 0 w)).
  cbn [snd]. destruct (dbThrows env (ticks w)); reflexivity.
Qed.

Lemma pollResult_truthy (w : World) (name : string) :
  pollResult env w = Some name ->
  branchName (store (snd (suspend env 0 w))) = Some name
  /\ truthy name = true.
Proof.
  unfold pollResult. destruct (dbThrows env (ticks w)); [discriminate|].
  cbv zeta.
  destruct (truthy' (branchName (store (snd (suspend env 0 w))))) eqn:T;
    [|discriminate].
  intros E. rewrite E in T. split; [exact E | exact T].
Qed.

(** One round of the loop, unfolded. *)
Lemma waitForBranchName_loop_unfold (fuel : nat) (startTime maxWaitMs : Z)
    (w : World) :
  waitForBranchName_loop env fuel startTime maxWaitMs w
  = if clock w - startTime <? maxWaitMs then
      match fuel with
      | O => (Starved, w)
      | S fuel' =>
          let w1 := emit (EPoll (clock w - startTime) (pollResult env w))
                         (snd (suspend env 0 w)) in
          match pollResult env w with
          | Some name => (Ok (Some name), w1)
          | None =>
              waitForBranchName_loop env fuel' startTime maxWaitMs
                (snd (suspend env 500 w1))
          end
      end
    else (Ok None, w).
Proof.
  destruct fuel as [|fuel]; cbn [waitForBranchName_loop].
  - unfold bind, gets. cbv beta iota.
    destruct (clock w - startTime <? maxWaitMs); reflexivity.
  - unfold bind at 1. unfold gets at 1. cbv beta iota.
    destruct (clock w - startTime <? maxWaitMs); [|reflexivity].
    unfold bind at 1. rewrite poll_run. cbv beta iota.
    unfold bind at 1. unfold act at 1. cbv beta iota zeta.
    destruct (pollResult env w) as [name|]; [reflexivity|].
    unfold bind at 1.
    change (suspend env 500 ?x) with (Ok tt, snd (suspend env 500 x)).
    reflexivity.
Qed.

(** The loop, given enough rounds for the time that is left: it never
    runs out of rounds, it returns what its last poll found, and when it
    returns a name the row holds that name at that moment. *)
Lemma waitForBranchName_loop_spec (fuel : nat) (startTime maxWaitMs : Z) :
  forall w,
    maxWaitMs <= clock w - startTime + 500 * Z.of_nat fuel ->
    exists d ps,
      added w (snd (waitForBranchName_loop env fuel startTime maxWaitMs w)) d
      /\ own d = map poll ps
      /\ fst (waitForBranchName_loop env fuel startTime maxWaitMs w)
         = Ok (found ps)
      /\ pollsFrom (clock w - startTime) maxWaitMs ps
      /\ (forall name, found ps = Some name ->
            branchName
              (store (snd (waitForBranchName_loop env fuel startTime
                             maxWaitMs w))) = Some name).
Proof.
  induction fuel as [|fuel IH]; intros w Hfuel;
    rewrite waitForBranchName_loop_unfold;
    destruct (Z.ltb_spec (clock w - startTime) maxWaitMs) as [Hlt|Hge].
  - cbn in Hfuel. lia.
  - exists [], []. cbn. unfold added. rewrite app_nil_r.
    repeat split; try reflexivity. intros name H. discriminate H.
  - cbv zeta.
    destruct (ambient_suspend env 0 w) as [d1 [E1 O1]].
    destruct (pollResult env w) as [name|] eqn:Hp.
    + (* a name was found *)
      exists (d1 ++ [EPoll (clock w - startTime) (Some name)]),
             [(clock w - startTime, Some name)].
      apply pollResult_truthy in Hp. destruct Hp as [Hrow Htruthy].
      cbn [fst snd]. split; [|split; [|split; [|split]]].
      * unfold added in *. cbn [emit trace]. rewrite E1, app_assoc.
        reflexivity.
      * rewrite own_app, O1. reflexivity.
      * reflexivity.
      * cbn. repeat split; try lia. exact Htruthy.
      * intros name' H. cbn in H. injection H as <-. exact Hrow.
    + (* nothing found: sleep and go round again *)
      set (w1 := emit (EPoll (clock w - startTime) None)
                      (snd (suspend env 0 w))).
      set (w2 := snd (suspend env 500 w1)).
      destruct (ambient_suspend env 500 w1) as [d2 [E2 O2]]. fold w2 in E2.
      assert (Hc : clock w + 500 <= clock w2).
      { unfold w2. rewrite clock_suspend. unfold w1. cbn [emit clock].
        rewrite clock_suspend. lia. }
      destruct (IH w2) as [d3 [ps [E3 [O3 [R3 [P3 S3]]]]]]; [lia|].
      exists (d1 ++ [EPoll (clock w - startTime) None] ++ d2 ++ d3),
             ((clock w - startTime, None) :: ps).
      split; [|split; [|split; [|split]]].
      * unfold added in *. rewrite E3, E2. unfold w1. cbn [emit trace].
        rewrite E1, <- !app_assoc. reflexivity.
      * rewrite !own_app, O1, O2, O3. reflexivity.
      * rewrite R3. reflexivity.
      * cbn [pollsFrom]. split; [lia|].
        clear - P3 Hc. revert P3.
        assert (Hlo : clock w - startTime + 500 <= clock w2 - startTime) by lia.
        revert Hlo. generalize (clock w2 - startTime).
        generalize (clock w - startTime + 500).
        intros lo lo' Hlo P3. destruct ps as [|[t s] r]; [exact I|].
        cbn [pollsFrom] in *. destruct P3 as [Ht Hrest].
        split; [lia | exact Hrest].
      * exact S3.
  - exists [], []. cbn. unfold added. rewrite app_nil_r.
    repeat split; try reflexivity. intros name H. discriminate H.
Qed.

Lemma rounds_enough (maxWaitMs : Z) :
  maxWaitMs <= 500 * Z.of_nat (rounds maxWaitMs).
Proof.
  unfold rounds. destruct (Z.leb_spec 0 maxWaitMs) as [H|H].
  - rewrite Z2Nat.id by (apply Z.div_pos; lia).
    pose proof (Z.mul_div_le (maxWaitMs + 499) 500).
    pose proof (Z.mod_pos_bound (maxWaitMs + 499) 500).
    pose proof (Z.div_mod (maxWaitMs + 499) 500). lia.
  - lia.
Qed.

(** Lines 285-302: the wait always returns; its polls start within
    [maxWaitMs] of its beginning, at least 500 ms apart; it returns the
    name its last poll found, and the row holds that name when it
    returns. *)
Lemma waitForBranchName_spec (maxWaitMs : Z) (w : World) :
  exists d ps,
    added w (snd (waitForBranchName env maxWaitMs w)) d
    /\ own d = map poll ps
    /\ fst (waitForBranchName env maxWaitMs w) = Ok (found ps)
    /\ pollsFrom 0 maxWaitMs ps
    /\ (forall name, found ps = Some name ->
          branchName (store (snd (waitForBranchName env maxWaitMs w)))
          = Some name).
Proof.
  unfold waitForBranchName, bind, gets. cbv beta iota.
  destruct (waitForBranchName_loop_spec (rounds maxWaitMs) (clock w)
              maxWaitMs w) as [d [ps H]].
  - pose proof (rounds_enough maxWaitMs). lia.
  - exists d, ps. rewrite Z.sub_diag in H. exact H.
Qed.

Lemma emits_waitForBranchName (maxWaitMs : Z)
    (Q : Res (option string) -> list Event -> Prop) :
  (forall ps, pollsFrom 0 maxWaitMs ps -> Q (Ok (found ps)) (map poll ps)) ->
  emits (waitForBranchName env maxWaitMs) Q.
Proof.
  intros H w.
  destruct (waitForBranchName_spec maxWaitMs w) as [d [ps [E [O [R [P _]]]]]].
  exists d. split; [exact E|]. rewrite O, R. apply H, P.
Qed.

(** The adapter's progress reports are not steps of the pipeline. *)
Lemma emits_forEach_onProgress (l : list (Z * string))
    (Q : Res unit -> list Event -> Prop) :
  Q (Ok tt) [] ->
  emits (forEach l (fun pm => onProgress env (fst pm) (snd pm))) Q.
Proof.
  revert Q. induction l as [|pm l IH]; intros Q H; cbn [forEach].
  - apply emits_ret. exact H.
  - apply emits_bind. unfold onProgress. apply emits_bind.
    apply emits_suspend.
    apply (emits_act _ [EProgress Adapter (fst pm) (snd pm)]);
      [reflexivity|].
    apply IH. exact H.
Qed.

End Wait.

(** At most [n] polls fit when each starts below [maxWaitMs] and 500 ms
    after the one before. *)
Lemma pollsFrom_length (maxWaitMs : Z) (ps : list (Z * option string)) :
  forall lo, pollsFrom lo maxWaitMs ps ->
             ps = [] \/ lo + 500 * (Z.of_nat (List.length ps) - 1) < maxWaitMs.
Proof.
  induction ps as [|[t s] r IH]; intros lo H; [left; reflexivity|].
  right. cbn [pollsFrom] in H. destruct H as [Ht Hs].
  destruct s as [name|].
  - destruct Hs as [-> _]. cbn. lia.
  - destruct (IH _ Hs) as [->|Hr]; [cbn; lia|].
    cbn [List.length]. lia.
Qed.

Lemma polls_at_most_20 (ps : list (Z * option string)) :
  pollsFrom 0 10000 ps -> (List.length ps <= 20)%nat.
Proof.
  intros H. destruct (pollsFrom_length _ _ _ H) as [->|Hl]; [cbn; lia|].
  lia.
Qed.

End WaitFacts.

(** ** The steps the pipeline takes *)
Module StepFacts.
Import Js TaskStore Trigger Orchestrator Spec RunFacts WaitFacts.
Local Open Scope Z_scope.
Local Open Scope pipeline_scope.

(** Applies the rule of [emits] that fits the head of the program. *)
Ltac run_step :=
  cbv beta iota;
  lazymatch goal with
  | |- emits (bind _ _) _ => apply emits_bind
  | |- emits (tryCatch _ _) _ => apply emits_tryCatch
  | |- emits (ret _) _ => apply emits_ret
  | |- emits (throw _) _ => apply emits_throw
  | |- emits (gets _) _ => apply emits_gets; intros ?
  | |- emits (act (emit _)) _ => apply emits_emit
  | |- emits (act (withSandboxVar _)) _ => apply emits_withSandboxVar
  | |- emits (await _ ?r) _ => apply emits_await; destruct r as [?|?]
  | |- emits (selectTaskRow _) _ => apply emits_selectTaskRow; [|intros ?]
  | |- emits (logger _ _ _ _) _ => apply emits_logger
  | |- emits (updateStatus _ _ _) _ => apply emits_updateStatus
  | |- emits (updateProgress _ _ _) _ => apply emits_updateProgress
  | |- emits (isTaskStopped _) _ => apply emits_isTaskStopped; intros [|]
  | |- emits (shutdown _) _ => apply emits_shutdown
  | |- emits (forEach _ (fun pm => onProgress _ _ _)) _ =>
      apply emits_forEach_onProgress
  | |- emits (awaitDb _ _) _ =>
      eapply emits_awaitDb; [intros ?; reflexivity | | intros ?]
  | |- emits (when ?b _) _ => unfold when at 1; destruct b eqn:?
  | |- emits (if ?b then _ else _) _ => destruct b eqn:?
  | |- emits (match ?x with _ => _ end) _ => destruct x eqn:?
  end.

Ltac run := repeat run_step.

Lemma steps_app {X} (f : Event -> list X) (a b : list Event) :
  steps f (a ++ b) = steps f a ++ steps f b.
Proof. apply flat_map_app. Qed.

Lemma emits_after_yields {X A} (f : Event -> list X) (m : M A)
    (ok thrown : list (list X)) (Q : Res A -> list Event -> Prop) :
  emits m (yields f ok thrown) ->
  (forall b l, In (steps f l) ok -> Q (Ok b) l) ->
  (forall e l, In (steps f l) thrown -> Q (Raise e) l) ->
  emits m Q.
Proof.
  intros H Hok Hthrown. apply (emits_weaken _ _ _ H).
  intros [b|e|] l; cbn [yields]; [apply Hok | apply Hthrown | contradiction].
Qed.

Lemma steps_polls_none {X} (f : Event -> list X)
    (ps : list (Z * option string)) :
  (forall t s, f (EPoll t s) = []) -> steps f (map poll ps) = [].
Proof.
  intros H. induction ps as [|[t s] r IH]; [reflexivity|].
  unfold steps in *. cbn [map flat_map]. unfold poll at 1. cbn [fst snd].
  rewrite H. exact IH.
Qed.

(** Settles a leaf: the steps among the events gathered on the way. *)
Ltac close :=
  solve
    [ unfold yields, statuses; cbv beta iota;
      rewrite ?steps_app;
      rewrite ?steps_polls_none by (intros; reflexivity);
      repeat match goal with
             | H : In _ (_ :: _) |- _ =>
                 destruct H as [H|H]; [rewrite <- H in * |]
             | H : In _ [] |- _ => destruct H
             end;
      cbn; auto 8 ].

(** Continues after a block whose steps are known. *)
Ltac after lemma :=
  cbv beta iota;
  eapply emits_after_yields; [apply lemma | intros ? ? ? | intros ? ? ?].


(** Steps that are the pipeline's own are found among its own events. *)
Lemma steps_own {X} (f : Event -> list X) (d : list Event) :
  (forall e, isOwn e = false -> f e = []) -> steps f (own d) = steps f d.
Proof.
  intros H. unfold steps, own. induction d as [|e d IH]; [reflexivity|].
  cbn [filter flat_map]. destruct (isOwn e) eqn:O.
  - cbn [flat_map]. rewrite IH. reflexivity.
  - rewrite (H e O), IH. reflexivity.
Qed.

(** *** The prompt handed to the agent *)
Section Prompt.
Variable env : Env.
Variable a : Args.

Local Notation "'runs'" := (yields agentPrompt).
Local Notation "'sanitized'" := (Sanitize.sanitizePrompt (arg_prompt a)).

Lemma loadMcpServers_prompt : emits (loadMcpServers env a) (runs [[]] [[]]).
Proof. unfold loadMcpServers. run; close. Qed.

Lemma publish_prompt (agentResult : AgentResult) (branch : string) :
  emits (publish env a agentResult branch) (runs [[]] [[]]).
Proof. unfold publish. run; close. Qed.

Lemma finish_prompt (sandbox : Sandbox) (branch : option string)
    (agentResult : AgentResult) :
  emits (finish env a sandbox branch agentResult) (runs [[]] [[]]).
Proof.
  unfold finish. run; try close.
  all: after publish_prompt; run; close.
Qed.

Lemma runAgent_prompt (branch : option string) :
  emits (runAgent env a branch)
        (runs [[]; [sanitized]] [[]; [sanitized]]).
Proof.
  unfold runAgent. run; try close.
  all: after loadMcpServers_prompt; run; try close.
  all: after finish_prompt; run; close.
Qed.

Lemma provision_prompt (aiBranchName : option string) :
  emits (provision env a aiBranchName)
        (runs [[]; [sanitized]] [[]; [sanitized]]).
Proof.
  unfold provision. run; try close.
  all: after runAgent_prompt; run; close.
Qed.

Lemma start_prompt :
  emits (start env a) (runs [[]; [sanitized]] [[]; [sanitized]]).
Proof.
  unfold start. run; try close.
  all: apply emits_waitForBranchName; intros ps Hps; run; try close.
  all: after provision_prompt; run; close.
Qed.

(** The agent is called at most once, with the sanitised prompt. *)
Lemma processTask_prompt :
  emits (processTask env a)
        (fun r l => In (steps agentPrompt l) [[]; [sanitized]]).
Proof.
  unfold processTask. run.
  after start_prompt; run; close.
Qed.

End Prompt.

(** *** The status values the pipeline writes *)
Section Statuses.
Variable env : Env.
Variable a : Args.

Local Notation "'writes'" := (yields ownStatus).

Lemma loadMcpServers_statuses :
  emits (loadMcpServers env a) (writes [[]] []).
Proof. unfold loadMcpServers. run; close. Qed.

Lemma publish_statuses (agentResult : AgentResult) (branch : string) :
  emits (publish env a agentResult branch) (writes [[]] [[]]).
Proof. unfold publish. run; close. Qed.

Lemma finish_statuses (sandbox : Sandbox) (branch : option string)
    (agentResult : AgentResult) :
  emits (finish env a sandbox branch agentResult)
        (writes [[completed]] [[]]).
Proof.
  unfold finish. run; try close.
  all: after publish_statuses; run; close.
Qed.

Lemma runAgent_statuses (branch : option string) :
  emits (runAgent env a branch) (writes [[]; [completed]] [[]]).
Proof.
  unfold runAgent. run; try close.
  all: after loadMcpServers_statuses; run; try close.
  all: after finish_statuses; run; close.
Qed.

Lemma provision_statuses (aiBranchName : option string) :
  emits (provision env a aiBranchName) (writes [[]; [completed]] [[]]).
Proof.
  unfold provision. run; try close.
  all: after runAgent_statuses; run; close.
Qed.

Lemma start_statuses :
  emits (start env a)
        (writes [[processing]; [processing; completed]] [[processing]]).
Proof.
  unfold start. run; try close.
  all: apply emits_waitForBranchName; intros ps Hps; run; try close.
  all: after provision_statuses; run; close.
Qed.

(** The pipeline writes [processing] first and then at most one terminal
    status, [completed] or [error]; it neither throws nor loops. *)
Lemma processTask_statuses :
  emits (processTask env a)
        (fun r l => r = Ok tt
                    /\ In (statuses l)
                          [[processing]; [processing; completed];
                           [processing; error]]).
Proof.
  unfold processTask. run.
  after start_statuses; run; try close.
  destruct b. split; [reflexivity|]. close.
Qed.

End Statuses.

(** *** Completion without publication *)
Section Standalone.
Variable env : Env.
Variable a : Args.
Hypothesis standalone : canPublish a = false.

Local Notation "'reaches'" := (yields milestone).

Lemma loadMcpServers_milestones :
  emits (loadMcpServers env a) (reaches [[]] []).
Proof. unfold loadMcpServers. run; close. Qed.

Lemma finish_milestones (sandbox : Sandbox) (branch : option string)
    (agentResult : AgentResult) :
  emits (finish env a sandbox branch agentResult)
        (reaches [[AgentDone; Progress100; Wrote completed]] [[AgentDone]]).
Proof.
  unfold finish. fold (canPublish a). rewrite standalone. run; close.
Qed.

Lemma runAgent_milestones (branch : option string) :
  emits (runAgent env a branch)
        (reaches [[]; [AgentDone; Progress100; Wrote completed]]
                 [[]; [AgentDone]]).
Proof.
  unfold runAgent. run; try close.
  all: after loadMcpServers_milestones; run; try close.
  all: after finish_milestones; run; close.
Qed.

Lemma provision_milestones (aiBranchName : option string) :
  emits (provision env a aiBranchName)
        (reaches [[]; [AgentDone; Progress100; Wrote completed]]
                 [[]; [AgentDone]]).
Proof.
  unfold provision. run; try close.
  all: after runAgent_milestones; run; close.
Qed.

Lemma start_milestones :
  emits (start env a)
        (reaches [[Wrote processing];
                  [Wrote processing; AgentDone; Progress100; Wrote completed]]
                 [[Wrote processing]; [Wrote processing; AgentDone]]).
Proof.
  unfold start. run; try close.
  all: apply emits_waitForBranchName; intros ps Hps; run; try close.
  all: after provision_milestones; run; close.
Qed.

(** Without a repository URL or without a token, the pipeline never
    derives a commit message nor pushes; once the agent has done its work
    it writes progress 100 and [completed], unless the read of the row
    that follows fails. *)
Lemma processTask_milestones :
  emits (processTask env a)
        (fun r l =>
           In (steps milestone l)
              [ [Wrote processing];
                [Wrote processing; AgentDone; Progress100; Wrote completed];
                [Wrote processing; Wrote error];
                [Wrote processing; AgentDone; Wrote error] ]).
Proof.
  unfold processTask. run.
  after start_milestones; run; close.
Qed.

End Standalone.

(** *** The branch name *)
Section Branch.
Variable env : Env.
Variable a : Args.

Local Notation "'does'" := (yields branchStep).

Lemma steps_polls (ps : list (Z * option string)) :
  steps branchStep (map poll ps) = map polled ps.
Proof.
  induction ps as [|[t s] r IH]; [reflexivity|].
  unfold steps in *. cbn [map flat_map]. rewrite IH. reflexivity.
Qed.

Lemma loadMcpServers_branch : emits (loadMcpServers env a) (does [[]] [[]]).
Proof. unfold loadMcpServers. run; close. Qed.

Lemma publish_branch (agentResult : AgentResult) (branch : string) :
  emits (publish env a agentResult branch) (does [[]] [[]]).
Proof. unfold publish. run; close. Qed.

Lemma finish_branch (sandbox : Sandbox) (branch : option string)
    (agentResult : AgentResult) :
  emits (finish env a sandbox branch agentResult) (does [[]] [[]]).
Proof.
  unfold finish. run; try close.
  all: after publish_branch; run; close.
Qed.

Lemma runAgent_branch (branch : option string) :
  emits (runAgent env a branch) (does [[]] [[]]).
Proof.
  unfold runAgent. run; try close.
  all: after loadMcpServers_branch; run; try close.
  all: after finish_branch; run; close.
Qed.

(** Sandbox creation is called with the name the wait returned, and the
    update of the row that follows sets the adapter's branch exactly when
    the wait returned none. *)
Lemma provision_branch (aiBranchName : option string) :
  emits (provision env a aiBranchName)
        (does [ [Created aiBranchName];
                [Created aiBranchName;
                 Persisted (persistedBranch env aiBranchName)] ]
              [ [];
                [Created aiBranchName];
                [Created aiBranchName;
                 Persisted (persistedBranch env aiBranchName)] ]).
Proof.
  unfold provision, persistedBranch, adapterBranch. run; try close.
  all: after runAgent_branch; run; close.
Qed.

Lemma start_branch : emits (start env a) (branchShape env).
Proof.
  unfold start, branchShape, branchSteps. run.
  all: try (split; [discriminate|]; exists []; split; [exact I|];
            exists []; split; [reflexivity | cbn; auto]).
  all: apply emits_waitForBranchName; intros ps Hps; run.
  all: try (split; [discriminate|]; exists ps; split; [exact Hps|];
            exists []; rewrite !steps_app, steps_polls;
            split; [reflexivity | cbn; auto]).
  all: after provision_branch; run.
  all: split; [discriminate|]; exists ps; split; [exact Hps|].
  all: rewrite !steps_app, steps_polls.
  all: repeat match goal with
              | H : In _ (_ :: _) |- _ =>
                  destruct H as [H|H]; [rewrite <- H in * |]
              | H : In _ [] |- _ => destruct H
              end.
  all: match goal with
       | H : found _ = _ |- _ => rewrite H
       end.
  all: eexists; (split; [cbn; reflexivity | cbn; auto]).
Qed.

Lemma processTask_branch : emits (processTask env a) (branchShape env).
Proof.
  unfold processTask. run.
  eapply emits_weaken; [apply start_branch|].
  intros [[]|e|] l [Hr [ps [Hps [tail [E Ht]]]]]; cbv beta iota.
  - split; [discriminate|]. exists ps. split; [exact Hps|].
    exists tail. split; assumption.
  - assert (Hdone : forall l', steps branchStep l' = [] ->
                      branchShape env (Ok tt) ([] ++ l ++ l')).
    { intros l' Hl'. split; [discriminate|]. exists ps. split; [exact Hps|].
      exists tail. cbn [app]. rewrite steps_app, Hl', app_nil_r.
      split; assumption. }
    run; apply Hdone; reflexivity.
  - contradiction Hr. reflexivity.
Qed.

End Branch.

End StepFacts.

(** ** The deadline race *)
Module RaceFacts.
Import Js TaskStore Trigger Orchestrator Spec RunFacts WaitFacts.
Local Open Scope pipeline_scope.
Local Open Scope string_scope.
Local Open Scope list_scope.
Local Open Scope Z_scope.

Lemma prefix_app (n s t : string) :
  String.prefix n s = true -> String.prefix n (s ++ t)%string = true.
Proof.
  revert s. induction n as [|c n IH]; intros s H;
    [destruct (s ++ t)%string; reflexivity|].
  destruct s as [|c' s]; [discriminate|]. cbn in *.
  destruct (Ascii.ascii_dec c c'); [apply IH; exact H | discriminate].
Qed.

Lemma includes_app (n s t : string) :
  includes n s = true -> includes n (s ++ t)%string = true.
Proof.
  induction s as [|c s IH]; intros H.
  - destruct n as [|c n]; [|cbn in H; discriminate].
    cbn [append]. destruct t; reflexivity.
  - cbn [includes] in H. cbn [append includes].
    destruct (String.prefix n (String c s)) eqn:P.
    + change (String c (s ++ t)%string) with (String c s ++ t)%string.
      rewrite (prefix_app _ _ _ P). reflexivity.
    + rewrite (IH H). destruct (String.prefix n (String c (s ++ t)%string));
        reflexivity.
Qed.

(** Whatever the budget, the deadline's error is recognised by the catch
    block. *)
Lemma timeoutError_recognised (maxDuration : Z) :
  includes "timed out after" (timeoutError maxDuration) = true.
Proof. unfold timeoutError. apply includes_app. reflexivity. Qed.

(** *** Steps that leave the race alone *)

Lemma quiet_refl (w : World) : quiet w w.
Proof.
  repeat split. exists []. rewrite app_nil_r. repeat split.
Qed.

Lemma quiet_trans (a b c : World) : quiet a b -> quiet b c -> quiet a c.
Proof.
  intros [T1 [R1 [l1 [E1 [A1 B1]]]]] [T2 [R2 [l2 [E2 [A2 B2]]]]].
  split; [congruence|]. split; [congruence|].
  exists (l1 ++ l2). rewrite !filter_app, A1, A2, B1, B2.
  repeat split. rewrite E2, E1, app_assoc. reflexivity.
Qed.

Lemma quiet_emit (e : Event) (w : World) :
  isRaceWrite e = false -> isStrayWrite e = false -> quiet w (emit e w).
Proof.
  intros A B. repeat split. exists [e]. cbn. rewrite A, B. repeat split.
Qed.

Lemma quiet_same (w w' : World) :
  timers w' = timers w -> race w' = race w -> trace w' = trace w -> quiet w w'.
Proof.
  intros T R E. repeat split; try assumption.
  exists []. rewrite app_nil_r. repeat split. exact E.
Qed.

Lemma quiet_then_emit (e : Event) (w w1 : World) :
  isRaceWrite e = false -> isStrayWrite e = false ->
  quiet w w1 -> quiet w (emit e w1).
Proof.
  intros A B H. eapply quiet_trans; [exact H | apply quiet_emit; assumption].
Qed.

Lemma quiet_then_same (w w1 w2 : World) :
  timers w2 = timers w1 -> race w2 = race w1 -> trace w2 = trace w1 ->
  quiet w w1 -> quiet w w2.
Proof.
  intros T R E H. eapply quiet_trans; [exact H | apply quiet_same; assumption].
Qed.

Lemma quiet_serve (w : World) (a : Arrival) : quiet w (serve w a).
Proof.
  destruct a as [|name]; cbn [serve].
  - unfold PATCH_stop. destruct (Status_eqb _ _).
    + unfold stopTaskExecution, logger_log.
      apply quiet_then_emit; [reflexivity | reflexivity |].
      apply quiet_then_emit; [reflexivity | reflexivity |].
      eapply quiet_then_same; [reflexivity | reflexivity | reflexivity |].
      apply quiet_emit; reflexivity.
    + apply quiet_emit; reflexivity.
  - apply quiet_then_emit; [reflexivity | reflexivity |].
    apply quiet_same; reflexivity.
Qed.

Lemma quiet_serve_all (l : list Arrival) (w : World) :
  quiet w (fold_left serve l w).
Proof.
  revert w. induction l as [|a l IH]; intros w; cbn [fold_left].
  - apply quiet_refl.
  - eapply quiet_trans; [apply quiet_serve | apply IH].
Qed.

Section Invariant.
Variable tr0 : list Event.
Variable maxDuration : Z.

Lemma raceInv_quiet (w w' : World) :
  raceInv tr0 maxDuration w -> quiet w w' -> raceInv tr0 maxDuration w'.
Proof.
  intros [d [dw [dd [sw [sd [E [T [S H]]]]]]]] [T' [R' [l [E' [A B]]]]].
  exists (d ++ l), dw, dd, sw, sd.
  rewrite T', R', E', E, !filter_app, A, B, S, !app_nil_r, app_assoc.
  split; [reflexivity|]. split; [exact T|]. split; [reflexivity | exact H].
Qed.

(** One timer coming due keeps the invariant: the warning only logs; the
    deadline can fire only while the race is pending, and then the catch
    block recognises its error and writes the timeout status. *)
Lemma raceInv_fire (w : World) :
  raceInv tr0 maxDuration w ->
  match nextDue 0 (clock w) (timers w) None with
  | None => True
  | Some (i, _) =>
      match nth_error (timers w) i with
      | None => True
      | Some t =>
          raceInv tr0 maxDuration
            (runTimer (action t)
               (emit (ETimerFired i)
                  (withTimers (setState i Fired (timers w)) w)))
      end
  end.
Proof.
  intros [d [dw [dd [sw [sd [E [T [S H]]]]]]]].
  rewrite T. cbn [nextDue isScheduled tstate due].
  assert (Warn_fires :
    raceInv tr0 maxDuration
      (runTimer Warn
         (emit (ETimerFired 0)
            (withTimers
               (setState 0 Fired
                  [ {| due := dw; action := Warn; tstate := sw |};
                    {| due := dd; action := Reject (timeoutError maxDuration);
                       tstate := sd |} ]) w)))).
  { exists (d ++ [ETimerFired 0;
                  ELog WarningTimer info
                       "Task is approaching timeout, will complete soon"]),
           dw, dd, Fired, sd.
    cbn. rewrite E, !filter_app, S. cbn.
    split; [rewrite <- ?app_assoc; reflexivity|].
    split; [reflexivity|]. split; [reflexivity|].
    rewrite app_nil_r.
    destruct H as [[R [Hs Hr]]|[R [Hs Hr]]]; [left | right];
      repeat split; assumption. }
  assert (Deadline_fires : sd = Scheduled ->
    raceInv tr0 maxDuration
      (runTimer (Reject (timeoutError maxDuration))
         (emit (ETimerFired 1)
            (withTimers
               (setState 1 Fired
                  [ {| due := dw; action := Warn; tstate := sw |};
                    {| due := dd; action := Reject (timeoutError maxDuration);
                       tstate := sd |} ]) w)))).
  { intros ->. destruct H as [[R [_ Hr]]|[_ [Hs _]]]; [|discriminate].
    cbn [runTimer]. unfold rejectRace. cbn [race emit withTimers].
    rewrite R. unfold raceCatch. rewrite timeoutError_recognised.
    exists (d ++ [ETimerFired 1;
                  ELog RaceHandler failure "Task execution timed out";
                  timeoutWrite]),
           dw, dd, (match sw with Scheduled => Cleared | s => s end), Fired.
    destruct sw; cbn; rewrite E, !filter_app, S, Hr; cbn;
      (split; [rewrite <- ?app_assoc; reflexivity|]);
      (split; [reflexivity|]);
      (split; [reflexivity|]); right; repeat split. }
  destruct sw, sd; cbn [andb isScheduled tstate due];
    destruct (dw <=? clock w), (dd <=? clock w); try destruct (dd <? dw);
    cbn [nth_error action];
    try exact I; try exact Warn_fires; try (apply Deadline_fires; reflexivity).
Qed.

Lemma raceInv_fireDue (fuel : nat) (w : World) :
  raceInv tr0 maxDuration w -> raceInv tr0 maxDuration (fireDue fuel w).
Proof.
  revert w. induction fuel as [|fuel IH]; intros w H; cbn [fireDue];
    [exact H|].
  pose proof (raceInv_fire w H) as Hstep.
  destruct (nextDue 0 (clock w) (timers w) None) as [[i due]|]; [|exact H].
  destruct (nth_error (timers w) i) as [t|]; [|exact H].
  apply IH. exact Hstep.
Qed.

Lemma raceInv_suspend (env : Env) (ms : Z) (w : World) :
  raceInv tr0 maxDuration w ->
  raceInv tr0 maxDuration (snd (suspend env ms w)).
Proof.
  intros H. unfold suspend. cbn [snd].
  eapply raceInv_quiet; [|apply quiet_same; reflexivity].
  apply raceInv_fireDue.
  eapply raceInv_quiet; [|apply quiet_same; reflexivity].
  eapply raceInv_quiet; [exact H | apply quiet_serve_all].
Qed.

(** *** Every step of the pipeline keeps the invariant *)

Local Notation "'Inv'" := (raceInv tr0 maxDuration).

Section Preserves.
Context {A : Type}.

Lemma preserves_ret (a : A) : preserves Inv (ret a).
Proof. intros w H. exact H. Qed.

Lemma preserves_throw (e : Exn) : preserves Inv (@throw A e).
Proof. intros w H. exact H. Qed.

Lemma preserves_starve : preserves Inv (@starve A).
Proof. intros w H. exact H. Qed.

Lemma preserves_gets (f : World -> A) : preserves Inv (gets f).
Proof. intros w H. exact H. Qed.

Lemma preserves_bind {B : Type} (m : M B) (k : B -> M A) :
  preserves Inv m -> (forall b, preserves Inv (k b)) ->
  preserves Inv (bind m k).
Proof.
  intros Hm Hk w H. unfold bind. specialize (Hm w H).
  destruct (m w) as [[b|e|] w1]; cbn [snd] in *; try exact Hm.
  apply Hk. exact Hm.
Qed.

Lemma preserves_tryCatch (m : M A) (h : Exn -> M A) :
  preserves Inv m -> (forall e, preserves Inv (h e)) ->
  preserves Inv (tryCatch m h).
Proof.
  intros Hm Hh w H. unfold tryCatch. specialize (Hm w H).
  destruct (m w) as [[b|e|] w1]; cbn [snd] in *; try exact Hm.
  apply Hh. exact Hm.
Qed.

End Preserves.

Lemma preserves_act (f : World -> World) :
  (forall w, quiet w (f w)) -> preserves Inv (act f).
Proof. intros Hf w H. cbn. eapply raceInv_quiet; [exact H | apply Hf]. Qed.

Section WithEnv.
Variable env : Env.

Lemma preserves_suspend (ms : Z) : preserves Inv (suspend env ms).
Proof. intros w H. apply raceInv_suspend. exact H. Qed.

Lemma preserves_await {A} (r : result A) : preserves Inv (await env r).
Proof.
  unfold await. apply preserves_bind; [apply preserves_suspend|].
  intros _. destruct r; [apply preserves_ret | apply preserves_throw].
Qed.

Lemma preserves_awaitDb {A} (f : World -> A * World) :
  (forall w, quiet w (snd (f w))) -> preserves Inv (awaitDb env f).
Proof.
  intros Hf w H. unfold awaitDb.
  pose proof (raceInv_suspend env 0 w H) as H1.
  change (suspend env 0 w) with (Ok tt, snd (suspend env 0 w)).
  cbv iota beta. destruct (dbThrows env (ticks w)); [exact H1|].
  specialize (Hf (snd (suspend env 0 w))).
  destruct (f (snd (suspend env 0 w))) as [a w2]. cbn [snd] in *.
  eapply raceInv_quiet; [exact H1 | exact Hf].
Qed.

(** Settles that a plain update of the world is quiet. *)
Ltac quiet_solve :=
  intros ?; cbn [snd fst];
  unfold logger_updateStatus, logger_updateProgress, logger_log;
  repeat (apply quiet_then_emit; [reflexivity | reflexivity |]);
  first [ apply quiet_refl | apply quiet_same; reflexivity ].

(** Applies the rule of [preserves] that fits the head of the program. *)
Ltac keep_step :=
  cbv beta iota;
  lazymatch goal with
  | |- preserves _ (bind _ _) => apply preserves_bind; [|intros ?]
  | |- preserves _ (tryCatch _ _) => apply preserves_tryCatch; [|intros ?]
  | |- preserves _ (ret _) => apply preserves_ret
  | |- preserves _ (throw _) => apply preserves_throw
  | |- preserves _ starve => apply preserves_starve
  | |- preserves _ (gets _) => apply preserves_gets
  | |- preserves _ (act _) => apply preserves_act; quiet_solve
  | |- preserves _ (suspend _ _) => apply preserves_suspend
  | |- preserves _ (await _ _) => apply preserves_await
  | |- preserves _ (awaitDb _ _) => apply preserves_awaitDb; quiet_solve
  | |- preserves _ (when ?b _) => unfold when at 1; destruct b
  | |- preserves _ (if ?b then _ else _) => destruct b
  | |- preserves _ (match ?x with _ => _ end) => destruct x
  end.

Ltac keep := repeat keep_step.

Lemma preserves_selectTaskRow : preserves Inv (selectTaskRow env).
Proof. unfold selectTaskRow. keep. Qed.

Lemma preserves_logger (o : Origin) (l : Level) (msg : string) :
  preserves Inv (logger env o l msg).
Proof. unfold logger. keep. Qed.

Lemma preserves_updateStatus (s : Status) (msg : string) :
  preserves Inv (updateStatus env s msg).
Proof. unfold updateStatus. keep. Qed.

Lemma preserves_updateProgress (p : Z) (msg : string) :
  preserves Inv (updateProgress env p msg).
Proof. unfold updateProgress. keep. Qed.

Lemma preserves_isTaskStopped : preserves Inv (isTaskStopped env).
Proof. unfold isTaskStopped, selectTaskRow. keep. Qed.

Lemma preserves_shutdown : preserves Inv (shutdown env).
Proof. unfold shutdown. keep. Qed.

Lemma preserves_waitForBranchName_loop (fuel : nat) (startTime maxWaitMs : Z) :
  preserves Inv (waitForBranchName_loop env fuel startTime maxWaitMs).
Proof.
  induction fuel as [|fuel IH]; cbn [waitForBranchName_loop];
    unfold selectTaskRow; keep.
  exact IH.
Qed.

Lemma preserves_forEach_onProgress (l : list (Z * string)) :
  preserves Inv (forEach l (fun pm => onProgress env (fst pm) (snd pm))).
Proof.
  induction l as [|pm l IH]; cbn [forEach]; unfold onProgress; keep.
  exact IH.
Qed.

(** The pipeline, whatever its inputs and surroundings, keeps the
    invariant of the race. *)
Lemma preserves_processTask (a : Args) : preserves Inv (processTask env a).
Proof.
  unfold processTask, start, provision, runAgent, finish, publish,
    loadMcpServers, waitForBranchName, shutdown, isTaskStopped, selectTaskRow,
    logger, updateStatus, updateProgress.
  keep;
    try apply preserves_waitForBranchName_loop;
    try apply preserves_forEach_onProgress.
Qed.

End WithEnv.

End Invariant.

(** *** Reading the status writes of a run *)

Lemma statusesBy_Pipeline_own (d : list Event) :
  statusesBy Pipeline d = statuses (own d).
Proof.
  unfold statusesBy, statuses, own.
  induction d as [|e d IH]; [reflexivity|].
  destruct e as [o s m|o p m|o l m| | | | | | | | | | | | | |];
    try destruct o; cbn in *; rewrite ?IH; reflexivity.
Qed.

Lemma statusesBy_RaceHandler_filter (d : list Event) :
  statusesBy RaceHandler d = statusesBy RaceHandler (filter isRaceWrite d).
Proof.
  unfold statusesBy.
  induction d as [|e d IH]; [reflexivity|].
  destruct e as [o s m|o p m|o l m| | | | | | | | | | | | | |];
    try destruct o; cbn in *; rewrite ?IH; reflexivity.
Qed.

(** With no write of the race handler or the stop handler, the values
    the status column takes are those the pipeline writes. *)
Lemma statusHistory_pipeline_only (d : list Event) :
  filter isStrayWrite d = [] ->
  statusesBy RaceHandler d = [] ->
  statusesBy StopHandler d = [] ->
  statusHistory d = statusesBy Pipeline d.
Proof.
  unfold statusHistory, statusesBy.
  induction d as [|e d IH]; intros Hs Hr Hp; [reflexivity|].
  destruct e as [o s m|o p m|o l m| | | | | | | | | | | | | |];
    try destruct o; cbn in *; try discriminate;
    rewrite ?IH; auto.
Qed.

Section Run.
Variable env : Env.
Variable a : Args.

Lemma processTask_run (w : World) :
  exists d,
    trace (snd (processTask env a w)) = trace w ++ d
    /\ fst (processTask env a w) = Ok tt
    /\ In (statusesBy Pipeline d)
          [[processing]; [processing; completed]; [processing; error]].
Proof.
  destruct (StepFacts.processTask_statuses env a w) as [d [E [R H]]].
  exists d. rewrite statusesBy_Pipeline_own. repeat split; assumption.
Qed.

Lemma processTaskWithTimeout_unfold (w : World) :
  timers w = [] ->
  processTaskWithTimeout env a w
  = settleByPipeline 0 (fst (processTask env a (armed a w)))
                       (snd (processTask env a (armed a w))).
Proof.
  intros Ht.
  unfold processTaskWithTimeout. cbv zeta.
  unfold bind at 1. unfold schedule at 1. unfold setTimeout at 1.
  rewrite Ht. cbn [List.length app]. cbv beta iota.
  unfold bind at 1. unfold schedule at 1. unfold setTimeout at 1.
  cbn [withTimers timers List.length app clock]. cbv beta iota.
  unfold bind at 1. unfold act at 1. cbv beta iota.
  unfold armed. cbv zeta.
  match goal with
  | |- (let (_, _) := processTask env a ?x in _) = _ (fst (_ ?y)) _ =>
      replace x with y;
      [destruct (processTask env a y); reflexivity|]
  end.
  reflexivity.
Qed.

(** A run of [processTaskWithTimeout] that starts with no timers set:
    it returns normally; the pipeline wrote [processing] and at most one
    terminal status; and either the deadline fired while the pipeline was
    running, the race is settled by it and the handler wrote its one
    [error], or the pipeline settled the race, the handler wrote nothing,
    and the deadline timer is still scheduled. *)
Lemma processTaskWithTimeout_run (w : World) :
  timers w = [] ->
  exists d,
    trace (snd (processTaskWithTimeout env a w)) = trace w ++ d
    /\ fst (processTaskWithTimeout env a w) = Ok tt
    /\ In (statusesBy Pipeline d)
          [[processing]; [processing; completed]; [processing; error]]
    /\ filter isStrayWrite d = []
    /\ ((deadlineFired (snd (processTaskWithTimeout env a w)) = true
         /\ deadlinePending (snd (processTaskWithTimeout env a w)) = false
         /\ race (snd (processTaskWithTimeout env a w)) = Settled DeadlineFired
         /\ filter isRaceWrite d = [timeoutWrite])
        \/ (deadlineFired (snd (processTaskWithTimeout env a w)) = false
            /\ deadlinePending (snd (processTaskWithTimeout env a w)) = true
            /\ race (snd (processTaskWithTimeout env a w))
               = Settled PipelineFinished
            /\ filter isRaceWrite d = [])).
Proof.
  intros Ht. rewrite (processTaskWithTimeout_unfold w Ht).
  assert (H3 : raceInv (trace w) (arg_maxDuration a) (armed a w)).
  { unfold raceInv. do 5 eexists.
    split; [symmetry; apply app_nil_r|].
    split; [reflexivity|]. split; [reflexivity|].
    left. repeat split. }
  pose proof (preserves_processTask (trace w) (arg_maxDuration a) env a
                (armed a w) H3) as H'.
  destruct (processTask_run (armed a w)) as [d [E [R S]]].
  destruct (processTask env a (armed a w)) as [r w'].
  cbn [fst snd] in *. subst r.
  destruct H' as [d' [dw [dd [sw [sd [E' [T' [Stray Hrace]]]]]]]].
  change (trace (armed a w)) with (trace w) in E.
  assert (d' = d) by (apply (app_inv_head (trace w)); congruence). subst d'.
  exists d. unfold settleByPipeline.
  destruct Hrace as [[Hr [-> Hw]]|[Hr [-> Hw]]]; rewrite Hr.
  - (* the pipeline came first *)
    cbn [fst snd]. unfold deadlineFired, deadlinePending, clearTimeout.
    rewrite T'. cbn [nth_error].
    split; [destruct sw; exact E|]. split; [reflexivity|]. split; [exact S|].
    split; [exact Stray|]. right.
    destruct sw; cbn; rewrite ?T'; cbn; repeat split; assumption.
  - (* the deadline came first *)
    cbn [fst snd]. unfold deadlineFired, deadlinePending. rewrite T'.
    split; [exact E|]. split; [reflexivity|]. split; [exact S|].
    split; [exact Stray|]. left.
    cbn. repeat split; assumption.
Qed.

End Run.

End RaceFacts.

(** ** Invariants of a run *)
Module InvariantFacts.
Import Js TaskStore Trigger Orchestrator Spec.
Local Open Scope pipeline_scope.
Local Open Scope string_scope.
Local Open Scope list_scope.
Local Open Scope Z_scope.

(** *** What a suspension keeps

    An invariant that the requests served, the clock, the timer registry
    and the callbacks of the two timers keep is kept by a suspension. *)
Section Suspension.
Variable I : World -> Prop.
Variable env : Env.
Hypothesis I_serve :
  forall n a w, In a (arrivals env n) -> I w -> I (serve w a).
Hypothesis I_clock : forall c w, I w -> I (withClock c w).
Hypothesis I_ticks : forall n w, I w -> I (withTicks n w).
Hypothesis I_timers : forall ts w, I w -> I (withTimers ts w).
Hypothesis I_race : forall r w, I w -> I (withRace r w).
Hypothesis I_fired : forall i w, I w -> I (emit (ETimerFired i) w).
Hypothesis I_log : forall o l message w, I w -> I (logger_log o l message w).
Hypothesis I_timeout :
  forall w, I w ->
            I (logger_updateStatus RaceHandler error TIMEOUT_STATUS_MESSAGE w).

Lemma kept_by_clearTimeout (h : nat) (w : World) :
  I w -> I (clearTimeout h w).
Proof.
  intros H. unfold clearTimeout.
  destruct (nth_error (timers w) h) as [t|]; [|exact H].
  destruct (isScheduled t); [apply I_timers|]; exact H.
Qed.

Lemma kept_by_runTimer (a : TimerAction) (w : World) : I w -> I (runTimer a w).
Proof.
  intros H. destruct a as [|message]; cbn [runTimer]; [apply I_log, H|].
  unfold rejectRace. destruct (race w) as [|h|o]; try exact H.
  unfold raceCatch.
  destruct (includes "timed out after" message); apply I_race;
    [|apply kept_by_clearTimeout, H].
  apply I_timeout, I_log, kept_by_clearTimeout, H.
Qed.

Lemma kept_by_fireDue (fuel : nat) (w : World) : I w -> I (fireDue fuel w).
Proof.
  revert w. induction fuel as [|fuel IH]; intros w H; cbn [fireDue];
    [exact H|].
  destruct (nextDue 0 (clock w) (timers w) None) as [[i d]|]; [|exact H].
  destruct (nth_error (timers w) i) as [t|]; [|exact H].
  apply IH, kept_by_runTimer, I_fired, I_timers, H.
Qed.

Lemma kept_by_serve_all (n : nat) (l : list Arrival) (w : World) :
  incl l (arrivals env n) -> I w -> I (fold_left serve l w).
Proof.
  revert w. induction l as [|a l IH]; intros w Hl H; cbn [fold_left];
    [exact H|].
  apply IH.
  - intros x Hx. apply Hl. right. exact Hx.
  - apply (I_serve n); [apply Hl; left; reflexivity | exact H].
Qed.

Lemma kept_by_suspend (ms : Z) (w : World) :
  I w -> I (snd (suspend env ms w)).
Proof.
  intros H. unfold suspend. cbn [snd].
  apply I_ticks, kept_by_fireDue, I_clock.
  apply (kept_by_serve_all (ticks w)); [apply incl_refl | exact H].
Qed.

End Suspension.

(** *** Rules for an invariant that suspensions keep *)
Section Invariant.
Variable I : World -> Prop.
Variable env : Env.
Hypothesis I_suspend :
  forall ms w, 0 <= ms -> I w -> I (snd (suspend env ms w)).

Lemma stays_ret {A} (a : A) : preserves I (ret a).
Proof. intros w H. exact H. Qed.

Lemma stays_throw {A} (e : Exn) : preserves I (@throw A e).
Proof. intros w H. exact H. Qed.

Lemma stays_starve {A} : preserves I (@starve A).
Proof. intros w H. exact H. Qed.

Lemma stays_gets {A} (f : World -> A) : preserves I (gets f).
Proof. intros w H. exact H. Qed.

Lemma stays_bind {A B} (m : M B) (k : B -> M A) :
  preserves I m -> (forall b, preserves I (k b)) -> preserves I (bind m k).
Proof.
  intros Hm Hk w H. unfold bind. specialize (Hm w H).
  destruct (m w) as [[b|e|] w1]; cbn [snd] in *; try exact Hm.
  apply Hk. exact Hm.
Qed.

Lemma stays_tryCatch {A} (m : M A) (h : Exn -> M A) :
  preserves I m -> (forall e, preserves I (h e)) ->
  preserves I (tryCatch m h).
Proof.
  intros Hm Hh w H. unfold tryCatch. specialize (Hm w H).
  destruct (m w) as [[b|e|] w1]; cbn [snd] in *; try exact Hm.
  apply Hh. exact Hm.
Qed.

Lemma stays_act (f : World -> World) :
  (forall w, I w -> I (f w)) -> preserves I (act f).
Proof. intros Hf w H. cbn. apply Hf, H. Qed.

Lemma stays_suspend (ms : Z) : 0 <= ms -> preserves I (suspend env ms).
Proof. intros Hms w H. apply I_suspend; assumption. Qed.

Lemma stays_await {A} (r : result A) : preserves I (await env r).
Proof.
  unfold await. apply stays_bind; [apply stays_suspend; lia|].
  intros _. destruct r; [apply stays_ret | apply stays_throw].
Qed.

Lemma stays_awaitDb {A} (f : World -> A * World) :
  (forall w, I w -> I (snd (f w))) -> preserves I (awaitDb env f).
Proof.
  intros Hf w H. unfold awaitDb.
  pose proof (I_suspend 0 w (Z.le_refl 0) H) as H1.
  change (suspend env 0 w) with (Ok tt, snd (suspend env 0 w)).
  cbv iota beta. destruct (dbThrows env (ticks w)); [exact H1|].
  specialize (Hf (snd (suspend env 0 w)) H1).
  destruct (f (snd (suspend env 0 w))) as [a w2]. exact Hf.
Qed.

End Invariant.

(** Applies the rule that fits the head of the program; [suspends] is the
    proof that suspensions keep the invariant, and [solver] shows that a
    plain update of the world keeps it. *)
Ltac stay_step suspends solver :=
  cbv beta iota;
  lazymatch goal with
  | |- preserves _ (bind _ _) => apply stays_bind; [|intros ?]
  | |- preserves _ (tryCatch _ _) => apply stays_tryCatch; [|intros ?]
  | |- preserves _ (ret _) => apply stays_ret
  | |- preserves _ (throw _) => apply stays_throw
  | |- preserves _ starve => apply stays_starve
  | |- preserves _ (gets _) => apply stays_gets
  | |- preserves _ (act _) => apply stays_act; solver
  | |- preserves _ (suspend _ _) => apply (stays_suspend _ _ suspends); lia
  | |- preserves _ (await _ _) => apply (stays_await _ _ suspends)
  | |- preserves _ (awaitDb _ _) => apply (stays_awaitDb _ _ suspends); solver
  | |- preserves _ (when ?b _) => unfold when at 1; destruct b
  | |- preserves _ (if ?b then _ else _) => destruct b
  | |- preserves _ (match ?x with _ => _ end) => destruct x
  end.

End InvariantFacts.

(** ** The branch name: what the polls of the wait see *)
Module BranchFacts.
Import Js TaskStore Trigger Orchestrator Spec.
Import RunFacts WaitFacts InvariantFacts.
Local Open Scope pipeline_scope.
Local Open Scope string_scope.
Local Open Scope list_scope.
Local Open Scope Z_scope.

Lemma branchAfter_app (b : option string) (l1 l2 : list Event) :
  branchAfter b (l1 ++ l2) = branchAfter (branchAfter b l1) l2.
Proof. apply fold_left_app. Qed.

(** An event that is a poll lies in the first of two lists when the
    second holds no poll. *)
Lemma poll_in_front (d l pre post : list Event) (x : Event) :
  isPoll x = true -> filter isPoll l = [] ->
  d ++ l = pre ++ x :: post ->
  exists post', d = pre ++ x :: post' /\ post = post' ++ l.
Proof.
  intros Hx Hl. revert pre. induction d as [|e d IH]; intros pre E.
  - cbn [app] in E. subst l. rewrite filter_app in Hl. cbn [filter] in Hl.
    rewrite Hx in Hl. destruct (filter isPoll pre); discriminate Hl.
  - destruct pre as [|e' pre]; cbn [app] in E; injection E as -> E.
    + exists d. split; [reflexivity | symmetry; exact E].
    + destruct (IH pre E) as [post' [-> ->]].
      exists post'. split; reflexivity.
Qed.

Section Row.
Variable env : Env.
Variable tr0 : list Event.
Variable t0 : nat.
Variable b0 : option string.

Local Notation "'Inv'" := (rowInv env tr0 t0 b0).

Lemma pollsSeeRow_later (t1 t2 : nat) (d : list Event) :
  (t1 <= t2)%nat ->
  pollsSeeRow env t0 t1 b0 d -> pollsSeeRow env t0 t2 b0 d.
Proof.
  intros Ht H pre t seen post E.
  destruct (H pre t seen post E) as [n [Hn Hseen]].
  exists n. split; [lia | exact Hseen].
Qed.

Lemma pollsSeeRow_more (t1 : nat) (d l : list Event) :
  pollsSeeRow env t0 t1 b0 d -> filter isPoll l = [] ->
  pollsSeeRow env t0 t1 b0 (d ++ l).
Proof.
  intros H Hl pre t seen post E.
  destruct (poll_in_front d l pre post (EPoll t seen) eq_refl Hl E)
    as [post' [E' _]].
  exact (H pre t seen post' E').
Qed.

Lemma pollsSeeRow_poll (t1 n : nat) (d : list Event) (t : Z)
    (seen : option string) :
  pollsSeeRow env t0 t1 b0 d ->
  (t0 <= n < t1)%nat ->
  seen = (if dbThrows env n then None else named (branchAfter b0 d)) ->
  pollsSeeRow env t0 t1 b0 (d ++ [EPoll t seen]).
Proof.
  intros H Hn Hseen pre t' seen' post E.
  destruct post as [|z post _] using rev_ind.
  - apply app_inj_tail in E. destruct E as [-> E]. injection E as <- <-.
    exists n. split; [exact Hn | exact Hseen].
  - change (pre ++ EPoll t' seen' :: post ++ [z])
      with (pre ++ (EPoll t' seen' :: post) ++ [z]) in E.
    rewrite app_assoc in E. apply app_inj_tail in E. destruct E as [E _].
    exact (H pre t' seen' post E).
Qed.

Lemma rowAt_sync (t1 : nat) (w w' : World) :
  rowAt env tr0 t0 t1 b0 w -> sync w w' -> rowAt env tr0 t0 t1 b0 w'.
Proof.
  intros [d [E [B P]]] [l [E' [B' Hl]]]. exists (d ++ l).
  split; [rewrite E', E, app_assoc; reflexivity|].
  split; [rewrite B', B, branchAfter_app; reflexivity|].
  apply pollsSeeRow_more; assumption.
Qed.

Lemma rowAt_later (t1 t2 : nat) (w : World) :
  (t1 <= t2)%nat ->
  rowAt env tr0 t0 t1 b0 w -> rowAt env tr0 t0 t2 b0 w.
Proof.
  intros Ht [d [E [B P]]]. exists d. split; [exact E|]. split; [exact B|].
  exact (pollsSeeRow_later t1 t2 d Ht P).
Qed.

(** Shows [sync w (f w)] for an update [f] written out. *)
Ltac sync_solve :=
  unfold stopTaskExecution; cbv zeta;
  unfold logger_updateStatus, logger_updateProgress, logger_log;
  first
    [ exists []; cbn; rewrite ?app_nil_r; repeat split; reflexivity
    | eexists; cbn [trace emit withStore withClock withTicks withTimers
                    withRace withSandboxVar];
      rewrite <- ?app_assoc;
      split; [reflexivity|]; split; [|reflexivity];
      cbn; repeat match goal with
                  | |- context [match ?x with _ => _ end] => destruct x
                  end; reflexivity ].

(** Shows that an update written out, which is no suspension, keeps the
    invariant. *)
Ltac row_solve :=
  intros ? [? ?]; cbn [snd fst];
  split; [assumption|]; eapply rowAt_sync; [eassumption | sync_solve].

(** The same between the steps of a suspension. *)
Ltac rowAt_solve :=
  intros ? ?; eapply rowAt_sync; [eassumption | sync_solve].

Lemma rowAt_serve (t1 : nat) (a : Arrival) (w : World) :
  rowAt env tr0 t0 t1 b0 w -> rowAt env tr0 t0 t1 b0 (serve w a).
Proof.
  revert w. destruct a as [|name]; cbn [serve]; [|rowAt_solve].
  intros w H. unfold PATCH_stop.
  destruct (Status_eqb (status (store w)) processing); revert w H;
    rowAt_solve.
Qed.

(** A suspension keeps the agreement and is counted. *)
Lemma rowInv_suspend (ms : Z) (w : World) :
  0 <= ms -> Inv w -> Inv (snd (suspend env ms w)).
Proof.
  intros _ [Ht H].
  split; [change (ticks (snd (suspend env ms w))) with (S (ticks w)); lia|].
  change (ticks (snd (suspend env ms w))) with (S (ticks w)).
  apply (rowAt_later (ticks w)); [lia|].
  revert H. generalize (ticks w) at 1 2. intros t1.
  apply kept_by_suspend.
  - intros n a x _. apply rowAt_serve.
  - intros c. rowAt_solve.
  - intros n. rowAt_solve.
  - intros ts. rowAt_solve.
  - intros r. rowAt_solve.
  - intros i. rowAt_solve.
  - intros o l message. rowAt_solve.
  - rowAt_solve.
Qed.

Ltac row := repeat stay_step rowInv_suspend row_solve.

(** A poll reads the row after the suspension of its read. *)
Lemma rowInv_poll (t : Z) (w : World) :
  Inv w -> Inv (emit (EPoll t (pollResult env w)) (snd (suspend env 0 w))).
Proof.
  intros H. pose proof H as [Ht0 _].
  apply (rowInv_suspend 0 w (Z.le_refl 0)) in H.
  destruct H as [Ht [d [E [B P]]]].
  change (ticks (snd (suspend env 0 w))) with (S (ticks w)) in *.
  split; [exact Ht|].
  change (ticks (emit (EPoll t (pollResult env w)) (snd (suspend env 0 w))))
    with (S (ticks w)).
  exists (d ++ [EPoll t (pollResult env w)]).
  cbn [trace emit store]. split; [rewrite E, app_assoc; reflexivity|].
  split.
  - rewrite branchAfter_app. cbn. exact B.
  - apply (pollsSeeRow_poll _ (ticks w)); [exact P | lia |].
    unfold pollResult. cbv zeta. rewrite B. reflexivity.
Qed.

Lemma rowInv_waitForBranchName_loop (fuel : nat) (startTime maxWaitMs : Z) :
  preserves Inv (waitForBranchName_loop env fuel startTime maxWaitMs).
Proof.
  induction fuel as [|fuel IH]; intros w H;
    rewrite waitForBranchName_loop_unfold;
    destruct (clock w - startTime <? maxWaitMs); try exact H.
  cbv zeta. pose proof (rowInv_poll (clock w - startTime) w H) as H1.
  destruct (pollResult env w) as [name|]; [exact H1|].
  apply IH. apply rowInv_suspend; [lia | exact H1].
Qed.

Lemma rowInv_forEach_onProgress (l : list (Z * string)) :
  preserves Inv (forEach l (fun pm => onProgress env (fst pm) (snd pm))).
Proof.
  induction l as [|pm l IH]; cbn [forEach]; unfold onProgress; row.
  exact IH.
Qed.

(** The row and the trace agree on the branch name throughout a run, and
    every poll of the run saw the row. *)
Lemma rowInv_processTask (a : Args) : preserves Inv (processTask env a).
Proof.
  unfold processTask, start, provision, runAgent, finish, publish,
    loadMcpServers, waitForBranchName, shutdown, isTaskStopped, selectTaskRow,
    logger, updateStatus, updateProgress.
  row;
    try apply rowInv_waitForBranchName_loop;
    try apply rowInv_forEach_onProgress.
Qed.

End Row.

(** A run of [processTask]: every poll among its events read the row at
    one of the run's suspensions and saw what the row held at that
    moment. *)
Lemma processTask_polls (env : Env) (a : Args) (w : World) :
  exists d,
    trace (snd (processTask env a w)) = trace w ++ d
    /\ pollsSeeRow env (ticks w) (ticks (snd (processTask env a w)))
                   (branchName (store w)) d.
Proof.
  assert (H : rowInv env (trace w) (ticks w) (branchName (store w)) w).
  { split; [lia|]. exists []. split; [symmetry; apply app_nil_r|].
    split; [reflexivity|].
    intros [|? ?] ? ? ? E; discriminate E. }
  apply (rowInv_processTask env (trace w) (ticks w) (branchName (store w)) a)
    in H.
  destruct H as [_ [d [E [_ P]]]]. exists d. split; assumption.
Qed.

End BranchFacts.

(** ** Runs that nothing stands in the way of *)
Module CompletionFacts.
Import Js TaskStore Trigger Orchestrator Spec.
Import RunFacts WaitFacts StepFacts InvariantFacts.
Local Open Scope pipeline_scope.
Local Open Scope string_scope.
Local Open Scope list_scope.
Local Open Scope Z_scope.

Section Steady.
Variable env : Env.
Hypothesis nobody_stops : forall n, ~ In StopRequest (arrivals env n).
Hypothesis store_answers : forall n, dbThrows env n = false.

(** Shows that an update written out keeps a world steady. *)
Ltac steady_solve :=
  intros ? [? ?]; cbn [snd fst];
  unfold logger_updateStatus, logger_updateProgress, logger_log;
  split; cbn; first [assumption | discriminate].

Lemma steady_suspend (v : option Sandbox) (ms : Z) (w : World) :
  0 <= ms -> steady v w -> steady v (snd (suspend env ms w)).
Proof.
  intros _. apply kept_by_suspend; clear w.
  - intros n [|name] w Hin; [destruct (nobody_stops n Hin)|].
    clear Hin. revert w. cbn [serve]. steady_solve.
  - intros c. steady_solve.
  - intros n. steady_solve.
  - intros ts. steady_solve.
  - intros r. steady_solve.
  - intros i. steady_solve.
  - intros o l message. steady_solve.
  - steady_solve.
Qed.

Ltac steadily :=
  repeat lazymatch goal with
         | |- preserves (steady ?v) _ =>
             stay_step (steady_suspend v) steady_solve
         end.

Lemma steady_waitForBranchName_loop (v : option Sandbox) (fuel : nat)
    (startTime maxWaitMs : Z) :
  preserves (steady v) (waitForBranchName_loop env fuel startTime maxWaitMs).
Proof.
  induction fuel as [|fuel IH]; cbn [waitForBranchName_loop];
    unfold selectTaskRow; steadily.
  exact IH.
Qed.

Lemma steady_waitForBranchName (v : option Sandbox) (maxWaitMs : Z) :
  preserves (steady v) (waitForBranchName env maxWaitMs).
Proof.
  unfold waitForBranchName. steadily. apply steady_waitForBranchName_loop.
Qed.

Lemma steady_forEach_onProgress (v : option Sandbox) (l : list (Z * string)) :
  preserves (steady v)
            (forEach l (fun pm => onProgress env (fst pm) (snd pm))).
Proof.
  induction l as [|pm l IH]; cbn [forEach]; unfold onProgress; steadily.
  exact IH.
Qed.

Lemma steady_loadMcpServers (v : option Sandbox) (a : Args) :
  preserves (steady v) (loadMcpServers env a).
Proof. unfold loadMcpServers, logger. steadily. Qed.

Lemma steady_shutdown (v : option Sandbox) :
  preserves (steady v) (shutdown env).
Proof. unfold shutdown. steadily. Qed.

Lemma steady_logger (v : option Sandbox) (o : Origin) (l : Level)
    (message : string) :
  preserves (steady v) (logger env o l message).
Proof. unfold logger. steadily. Qed.

Lemma steady_updateProgress (v : option Sandbox) (p : Z) (message : string) :
  preserves (steady v) (updateProgress env p message).
Proof. unfold updateProgress. steadily. Qed.

Lemma steady_completed (v : option Sandbox) (message : string) :
  preserves (steady v) (updateStatus env completed message).
Proof. unfold updateStatus. steadily. Qed.

(** *** Rules for [proceeds] *)

(** A block that keeps the world steady is seen through [emits]. *)
Lemma proceeds_steady {A} (v : option Sandbox) (m : M A)
    (Q : Res A -> list Event -> option Sandbox -> Prop) :
  preserves (steady v) m -> emits m (fun r l => Q r l v) -> proceeds v m Q.
Proof.
  intros Hp He w Hw. destruct (He w) as [d [E HQ]].
  pose proof (Hp w Hw) as H. pose proof H as [Hv _].
  exists d. rewrite Hv. split; [exact E | split; [exact H | exact HQ]].
Qed.

Lemma proceeds_ret {A} (v : option Sandbox) (a : A)
    (Q : Res A -> list Event -> option Sandbox -> Prop) :
  Q (Ok a) [] v -> proceeds v (ret a) Q.
Proof.
  intros H. apply proceeds_steady; [apply stays_ret | apply emits_ret, H].
Qed.

Lemma proceeds_throw {A} (v : option Sandbox) (e : Exn)
    (Q : Res A -> list Event -> option Sandbox -> Prop) :
  Q (Raise e) [] v -> proceeds v (throw e) Q.
Proof.
  intros H. apply proceeds_steady; [apply stays_throw | apply emits_throw, H].
Qed.

Lemma proceeds_gets_sandboxVar (v : option Sandbox)
    (Q : Res (option Sandbox) -> list Event -> option Sandbox -> Prop) :
  Q (Ok v) [] v -> proceeds v (gets sandboxVar) Q.
Proof.
  intros H w Hw. pose proof Hw as [Hv _]. exists []. cbn [gets fst snd].
  rewrite Hv. split; [|split; assumption].
  unfold added. rewrite app_nil_r. reflexivity.
Qed.

Lemma proceeds_withSandboxVar (v s : option Sandbox)
    (Q : Res unit -> list Event -> option Sandbox -> Prop) :
  Q (Ok tt) [] s -> proceeds v (act (withSandboxVar s)) Q.
Proof.
  intros H w [_ Hs]. exists []. cbn [act fst snd sandboxVar withSandboxVar].
  split; [|split; [split; [reflexivity | exact Hs] | exact H]].
  unfold added. cbn. rewrite app_nil_r. reflexivity.
Qed.

Lemma proceeds_bind {A B} (v : option Sandbox) (m : M B) (k : B -> M A)
    (Q : Res A -> list Event -> option Sandbox -> Prop) :
  proceeds v m (fun r l v' =>
                  match r with
                  | Ok b => proceeds v' (k b)
                              (fun r' l' v'' => Q r' (l ++ l') v'')
                  | Raise e => Q (Raise e) l v'
                  | Starved => Q Starved l v'
                  end) ->
  proceeds v (bind m k) Q.
Proof.
  intros H w Hw. destruct (H w Hw) as [d1 [E1 [S1 H1]]]. unfold bind.
  destruct (m w) as [[b|e|] w1]; cbn [fst snd] in *.
  - destruct (H1 w1 S1) as [d2 [E2 [S2 H2]]]. exists (d1 ++ d2).
    split; [|split; [exact S2|]].
    + unfold added in *. rewrite E2, E1, app_assoc. reflexivity.
    + rewrite own_app. exact H2.
  - exists d1. split; [exact E1 | split; [exact S1 | exact H1]].
  - exists d1. split; [exact E1 | split; [exact S1 | exact H1]].
Qed.

Lemma proceeds_tryCatch {A} (v : option Sandbox) (m : M A) (h : Exn -> M A)
    (Q : Res A -> list Event -> option Sandbox -> Prop) :
  proceeds v m (fun r l v' =>
                  match r with
                  | Raise e => proceeds v' (h e)
                                 (fun r' l' v'' => Q r' (l ++ l') v'')
                  | _ => Q r l v'
                  end) ->
  proceeds v (tryCatch m h) Q.
Proof.
  intros H w Hw. destruct (H w Hw) as [d1 [E1 [S1 H1]]]. unfold tryCatch.
  destruct (m w) as [[b|e|] w1]; cbn [fst snd] in *.
  - exists d1. split; [exact E1 | split; [exact S1 | exact H1]].
  - destruct (H1 w1 S1) as [d2 [E2 [S2 H2]]]. exists (d1 ++ d2).
    split; [|split; [exact S2|]].
    + unfold added in *. rewrite E2, E1, app_assoc. reflexivity.
    + rewrite own_app. exact H2.
  - exists d1. split; [exact E1 | split; [exact S1 | exact H1]].
Qed.

Lemma proceeds_weaken {A} (v : option Sandbox) (m : M A)
    (Q Q' : Res A -> list Event -> option Sandbox -> Prop) :
  proceeds v m Q -> (forall r l v', Q r l v' -> Q' r l v') -> proceeds v m Q'.
Proof.
  intros H HQ w Hw. destruct (H w Hw) as [d [E [S HQd]]].
  exists d. split; [exact E | split; [exact S | apply HQ; exact HQd]].
Qed.

(** A store call is answered. *)
Lemma proceeds_awaitDb {A} (v : option Sandbox) (f : World -> A * World)
    (d : list Event) (Q : Res A -> list Event -> option Sandbox -> Prop) :
  (forall w, trace (snd (f w)) = trace w ++ d) ->
  (forall w, steady v w -> steady v (snd (f w))) ->
  (forall x, Q (Ok x) (own d) v) ->
  proceeds v (awaitDb env f) Q.
Proof.
  intros Hf Hs HQ w Hw.
  destruct (ambient_suspend env 0 w) as [dl [E O]].
  pose proof (steady_suspend v 0 w (Z.le_refl 0) Hw) as H1.
  unfold awaitDb.
  change (suspend env 0 w) with (Ok tt, snd (suspend env 0 w)).
  cbv iota beta. rewrite store_answers.
  specialize (Hf (snd (suspend env 0 w))).
  specialize (Hs (snd (suspend env 0 w)) H1).
  destruct (f (snd (suspend env 0 w))) as [x w2]. cbn [fst snd] in *.
  pose proof Hs as [Hv _].
  exists (dl ++ d). rewrite Hv. split; [|split; [exact Hs|]].
  - unfold added in *. rewrite Hf, E, app_assoc. reflexivity.
  - rewrite own_app, O. apply HQ.
Qed.

Lemma proceeds_selectTaskRow (v : option Sandbox)
    (Q : Res Task -> list Event -> option Sandbox -> Prop) :
  (forall t, Q (Ok t) [] v) -> proceeds v (selectTaskRow env) Q.
Proof.
  intros H. unfold selectTaskRow. apply (proceeds_awaitDb v _ []).
  - intros w. cbn. rewrite app_nil_r. reflexivity.
  - intros w Hw. exact Hw.
  - exact H.
Qed.

(** A checkpoint finds that the task is not stopped. *)
Lemma proceeds_isTaskStopped (v : option Sandbox)
    (Q : Res bool -> list Event -> option Sandbox -> Prop) :
  Q (Ok false) [] v -> proceeds v (isTaskStopped env) Q.
Proof.
  intros H w Hw.
  destruct (ambient_suspend env 0 w) as [dl [E O]].
  pose proof (steady_suspend v 0 w (Z.le_refl 0) Hw) as H1.
  unfold isTaskStopped, tryCatch, bind, selectTaskRow, awaitDb.
  change (suspend env 0 w) with (Ok tt, snd (suspend env 0 w)).
  cbv iota beta. rewrite store_answers. cbn [ret fst snd].
  pose proof H1 as [Hv Hs].
  replace (Status_eqb (status (store (snd (suspend env 0 w)))) stopped)
    with false
    by (destruct (status (store (snd (suspend env 0 w))));
        try reflexivity; contradiction Hs; reflexivity).
  exists dl. rewrite Hv, O. split; [exact E | split; [exact H1 | exact H]].
Qed.

(** Applies the rule of [proceeds] that fits the head of the program; a
    step that keeps the world steady is handed to [run_step]. *)
Ltac go_step :=
  cbv beta iota;
  lazymatch goal with
  | |- proceeds _ (bind _ _) _ => apply proceeds_bind
  | |- proceeds _ (tryCatch _ _) _ => apply proceeds_tryCatch
  | |- proceeds _ (ret _) _ => apply proceeds_ret
  | |- proceeds _ (throw _) _ => apply proceeds_throw
  | |- proceeds _ (gets sandboxVar) _ => apply proceeds_gets_sandboxVar
  | |- proceeds _ (act (withSandboxVar _)) _ => apply proceeds_withSandboxVar
  | |- proceeds _ (isTaskStopped _) _ => apply proceeds_isTaskStopped
  | |- proceeds _ (selectTaskRow _) _ =>
      apply proceeds_selectTaskRow; intros ?
  | |- proceeds _ (awaitDb _ _) _ =>
      eapply proceeds_awaitDb;
      [intros ?; reflexivity | steady_solve | intros ?]
  | |- proceeds _ (act (emit _)) _ =>
      apply proceeds_steady; [steadily | run_step]
  | |- proceeds _ (await _ (if ?b then _ else _)) _ => destruct b
  | |- proceeds _ (await _ (Returns _)) _ =>
      apply proceeds_steady; [steadily | apply emits_await; cbv beta iota]
  | |- proceeds _ (await _ (Throws _)) _ =>
      apply proceeds_steady; [steadily | apply emits_await; cbv beta iota]
  | |- proceeds _ (await _ _) _ =>
      apply proceeds_steady; [steadily | run_step]
  | |- proceeds _ (logger _ _ _ _) _ =>
      apply proceeds_steady; [apply steady_logger | run_step]
  | |- proceeds _ (updateStatus _ completed _) _ =>
      apply proceeds_steady; [apply steady_completed | run_step]
  | |- proceeds _ (updateProgress _ _ _) _ =>
      apply proceeds_steady; [apply steady_updateProgress | run_step]
  | |- proceeds _ (shutdown _) _ =>
      apply proceeds_steady; [apply steady_shutdown | run_step]
  | |- proceeds _ (forEach _ (fun pm => onProgress _ _ _)) _ =>
      apply proceeds_steady; [apply steady_forEach_onProgress | run_step]
  | |- proceeds _ (waitForBranchName _ _) _ =>
      apply proceeds_steady;
      [apply steady_waitForBranchName
      | apply emits_waitForBranchName; intros ? ?]
  | |- proceeds _ (when ?b _) _ => unfold when at 1; destruct b eqn:?
  | |- proceeds _ (if ?b then _ else _) _ => destruct b eqn:?
  | |- proceeds _ (match ?x with _ => _ end) _ => destruct x eqn:?
  end.

Ltac go := repeat go_step.

(** *** The run of a task that is not published *)
Section Completion.
Variable a : Args.
Hypothesis standalone : canPublish a = false.
Hypothesis port_detected :
  arg_repoUrl a <> "" -> exists port, detectPortFromRepo env = Returns port.
Variable created : SandboxResult.
Variable sandbox : Sandbox.
Hypothesis sandbox_created : createSandbox env = Returns created.
Hypothesis creation_succeeded : sr_success created = true.
Hypothesis sandbox_given : sr_sandbox created = Some sandbox.
Variable agentResult : AgentResult.
Hypothesis agent_returned : executeAgentInSandbox env = Returns agentResult.
Hypothesis agent_succeeded : ar_success agentResult = true.

(** The block ends normally having taken the milestones [l]. *)
Local Notation "'reaches' l" := (fun r ev (_ : option Sandbox) =>
                                   yields milestone [l] [] r ev)
  (at level 10).

Lemma finish_completes (v : option Sandbox) (s : Sandbox)
    (branch : option string) :
  proceeds v (finish env a s branch agentResult)
           (reaches [AgentDone; Progress100; Wrote completed]).
Proof.
  unfold finish. fold (canPublish a). rewrite standalone.
  go; run; close.
Qed.

(** One step, with what is known of the sandbox and of the agent. *)
Ltac advance_step :=
  cbv beta iota;
  rewrite ?agent_succeeded, ?creation_succeeded, ?sandbox_given;
  cbn [negb];
  lazymatch goal with
  | |- proceeds _ (loadMcpServers _ _) _ =>
      apply proceeds_steady;
      [apply steady_loadMcpServers
      | eapply emits_after_yields;
        [apply loadMcpServers_milestones | intros ? ? ? | intros ? ? ?]]
  | |- _ => go_step
  end.

Ltac advance := repeat advance_step.

(** Continues after a block whose milestones are known. *)
Ltac then_block lemma :=
  cbv beta iota;
  rewrite ?agent_succeeded, ?creation_succeeded, ?sandbox_given;
  cbn [negb];
  eapply proceeds_weaken;
  [apply lemma
  | intros [?|?|] ? ? ?; cbn [yields] in *; try contradiction; try close].

Lemma runAgent_completes (branch : option string) :
  proceeds (Some sandbox) (runAgent env a branch)
           (reaches [AgentDone; Progress100; Wrote completed]).
Proof.
  unfold runAgent. rewrite agent_returned. advance; try close.
  then_block finish_completes.
Qed.

Lemma provision_completes (v : option Sandbox) (aiBranchName : option string) :
  proceeds v (provision env a aiBranchName)
           (reaches [AgentDone; Progress100; Wrote completed]).
Proof.
  unfold provision. rewrite sandbox_created.
  destruct (truthy (arg_repoUrl a)) eqn:Hrepo.
  - destruct port_detected as [port ->].
    { intros E. rewrite E in Hrepo. discriminate Hrepo. }
    advance; try close.
    all: then_block runAgent_completes.
  - advance; try close.
    all: then_block runAgent_completes.
Qed.

(** The first write of the pipeline makes the world steady, whatever the
    row said before. *)
Lemma proceeds_from_processing {A} (v : option Sandbox) (message : string)
    (k : M A) (Q : Res A -> list Event -> Prop) (w : World) :
  proceeds v k
    (fun r l _ => Q r ([EStatus Pipeline processing message] ++ l)) ->
  sandboxVar w = v ->
  exists d,
    added w (snd ((updateStatus env processing message ;;; k) w)) d
    /\ Q (fst ((updateStatus env processing message ;;; k) w)) (own d).
Proof.
  intros H Hv.
  destruct (ambient_suspend env 0 w) as [dl [E O]].
  assert (Hvar : sandboxVar (snd (suspend env 0 w)) = v).
  { apply (kept_by_suspend (fun x => sandboxVar x = v) env); try exact Hv;
      try (intros; assumption).
    - intros n [|name] x _ Hx; cbn [serve]; [|exact Hx].
      unfold PATCH_stop. destruct (Status_eqb _ _); exact Hx. }
  unfold bind at 1, updateStatus at 1, bind at 1, act at 1.
  change (suspend env 0 w) with (Ok tt, snd (suspend env 0 w)).
  cbv beta iota.
  set (w1 := logger_updateStatus Pipeline processing message
               (snd (suspend env 0 w))).
  assert (S1 : steady v w1) by (split; [exact Hvar | discriminate]).
  destruct (H w1 S1) as [d [E1 [_ HQ]]].
  exists (dl ++ [EStatus Pipeline processing message] ++ d). split.
  - unfold added in *. rewrite E1. unfold w1. cbn [logger_updateStatus emit trace].
    cbn [withStore trace]. rewrite E, <- !app_assoc. reflexivity.
  - rewrite !own_app, O. exact HQ.
Qed.

Lemma start_completes (w : World) :
  sandboxVar w = None ->
  exists d,
    added w (snd (start env a w)) d
    /\ yields milestone
         [[Wrote processing; AgentDone; Progress100; Wrote completed]] []
         (fst (start env a w)) (own d).
Proof.
  unfold start. apply proceeds_from_processing.
  advance; try close.
  all: then_block provision_completes.
Qed.

End Completion.
End Steady.

(** A task that is not published, run with nothing in its way: the
    pipeline returns normally and its milestones are [processing], the
    agent's work done, progress 100 and [completed], in that order. *)
Lemma processTask_completes (env : Env) (a : Args) (w : World) :
  canPublish a = false ->
  benign env a ->
  exists d,
    trace (snd (processTask env a w)) = trace w ++ d
    /\ fst (processTask env a w) = Ok tt
    /\ steps milestone d
       = [Wrote processing; AgentDone; Progress100; Wrote completed].
Proof.
  intros Hs [Hstop [Hdb [Hport [[r [s [Hr [Hok Hsb]]]] [ar [Har Hsucc]]]]]].
  assert (Hport' : arg_repoUrl a <> "" ->
                   exists port, detectPortFromRepo env = Returns port).
  { intros Hne. apply Hport. unfold truthy.
    destruct (String.eqb_spec (arg_repoUrl a) ""); [contradiction|reflexivity]. }
  destruct (start_completes env Hstop Hdb a Hs Hport' r s Hr Hok Hsb ar Har
              Hsucc (withSandboxVar None w) eq_refl) as [d [E H]].
  cbv [processTask bind act tryCatch].
  destruct (start env a (withSandboxVar None w)) as [[[]|e|] w1];
    cbn [fst snd yields] in *; try contradiction.
  exists d. split; [exact E|]. split; [reflexivity|].
  destruct H as [H|[]]. rewrite H. symmetry. apply steps_own.
  intros [[]| [] | | | | | | | | | | | | | | |]; try reflexivity;
    discriminate.
Qed.

End CompletionFacts.

(** ** The claims *)
Module Claims.
Import Js Buffer Crypto TaskStore Trigger Orchestrator Spec Scenarios.
Import RunFacts WaitFacts StepFacts RaceFacts BufferFacts CryptoFacts.
Import SanitizeFacts BranchFacts CompletionFacts.
Local Open Scope string_scope.
Local Open Scope list_scope.
Local Open Scope Z_scope.

(** *** Stop requests and the pipeline's writes *)

(** C1.  The stop request is served while the agent call is in flight
    and the call then throws: the catch block of [processTask] writes
    [error] over [stopped] without a check, and the row ends as [error]. *)
Theorem stopped_overwritten_by_catch_block :
  let w := snd (processTaskWithTimeout stopDuringAgent (repoArgs 5)
                  (initial (row (Some "feature/fix-login")))) in
  statusWrites (trace w)
  = [(Pipeline, processing); (StopHandler, stopped); (Pipeline, error)]
  /\ status (store w) = error
  /\ error_ (store w) = Some "Sandbox was terminated".
Proof. vm_compute. repeat split. Qed.

(** *** The sequence of status values *)

(** C2, as stated, fails: the deadline fires during a two-minute agent
    call under a one-minute budget, the handler writes [error], and the
    pipeline, which goes on, later writes [completed] over it. *)
Lemma timeout_error_overwritten_by_completed :
  let w := snd (processTaskWithTimeout slowAgent (repoArgs 1)
                  (initial (row (Some "feature/fix-login")))) in
  statusWrites (trace w)
  = [(Pipeline, processing); (RaceHandler, error); (Pipeline, completed)]
  /\ status (store w) = completed.
Proof. vm_compute. repeat split. Qed.

(** C2 (amended).  In every run of [processTaskWithTimeout] the pipeline
    itself writes [processing] and then at most one terminal status,
    [completed] or [error], and nothing after it; the deadline handler
    writes [error] at most once; and when neither the handler nor a stop
    request writes, the values the status column takes are exactly the
    pipeline's: [processing], then possibly [completed] or [error]. *)
Theorem status_writes_of_a_run (env : Env) (a : Args) (w : World) :
  timers w = [] ->
  exists d,
    trace (snd (processTaskWithTimeout env a w)) = trace w ++ d
    /\ In (statusesBy Pipeline d)
          [[processing]; [processing; completed]; [processing; error]]
    /\ In (statusesBy RaceHandler d) [[]; [error]]
    /\ (statusesBy RaceHandler d = [] -> statusesBy StopHandler d = [] ->
        In (statusHistory d)
           [[processing]; [processing; completed]; [processing; error]]).
Proof.
  intros Ht.
  destruct (processTaskWithTimeout_run env a w Ht)
    as [d [E [_ [Hp [Hs Hr]]]]].
  exists d. split; [exact E|]. split; [exact Hp|].
  assert (Hrace : In (statusesBy RaceHandler d) [[]; [error]]).
  { rewrite statusesBy_RaceHandler_filter.
    destruct Hr as [[_ [_ [_ Hf]]]|[_ [_ [_ Hf]]]]; rewrite Hf.
    - right. left. reflexivity.
    - left. reflexivity. }
  split; [exact Hrace|].
  intros Hnone Hstop.
  rewrite (statusHistory_pipeline_only d Hs Hnone Hstop). exact Hp.
Qed.

Lemma status_writes_of_a_run_witness :
  exists d,
    trace (snd (processTaskWithTimeout calm (repoArgs 5)
                  (initial (row (Some "feature/fix-login")))))
    = trace (initial (row (Some "feature/fix-login"))) ++ d
    /\ In (statusesBy Pipeline d)
          [[processing]; [processing; completed]; [processing; error]]
    /\ In (statusesBy RaceHandler d) [[]; [error]]
    /\ (statusesBy RaceHandler d = [] -> statusesBy StopHandler d = [] ->
        In (statusHistory d)
           [[processing]; [processing; completed]; [processing; error]]).
Proof.
  apply (status_writes_of_a_run calm (repoArgs 5)
           (initial (row (Some "feature/fix-login")))).
  reflexivity.
Defined.

(** *** Timers *)

(** C3.  A run that finishes in a quarter of a second under a
    five-minute budget: the warning timer is cleared, the deadline timer
    is left scheduled, and it fires once the five minutes are over. *)
Theorem deadline_timer_left_scheduled :
  let w := snd (processTaskWithTimeout calm (repoArgs 5)
                  (initial (row (Some "feature/fix-login")))) in
  race w = Settled PipelineFinished
  /\ map tstate (timers w) = [Cleared; Scheduled]
  /\ trace (drain 300000 w) = trace w ++ [ETimerFired 1].
Proof. vm_compute. repeat split. Qed.

(** *** The deadline *)

(** C4.  Whatever the budget, when the deadline timer fires while the
    pipeline is running the catch block of [processTaskWithTimeout]
    writes status [error] with the timeout message, once; that message
    is none of the messages the pipeline's own failures carry. *)
Theorem deadline_writes_timeout_error (env : Env) (a : Args) (w : World) :
  timers w = [] ->
  deadlineFired (snd (processTaskWithTimeout env a w)) = true ->
  exists d,
    trace (snd (processTaskWithTimeout env a w)) = trace w ++ d
    /\ In (EStatus RaceHandler error TIMEOUT_STATUS_MESSAGE) d
    /\ statusesBy RaceHandler d = [error]
    /\ (forall v, errorMessage (JsValue v) <> TIMEOUT_STATUS_MESSAGE)
    /\ ~ In TIMEOUT_STATUS_MESSAGE
            ["Failed to create sandbox";
             "Sandbox is not available for agent execution";
             "Agent execution failed"].
Proof.
  intros Ht Hfired.
  destruct (processTaskWithTimeout_run env a w Ht)
    as [d [E [_ [_ [_ Hr]]]]].
  exists d. split; [exact E|].
  destruct Hr as [[_ [_ [_ Hf]]]|[Hno _]]; [|congruence].
  split.
  - assert (Hin : In timeoutWrite (filter isRaceWrite d))
      by (rewrite Hf; left; reflexivity).
    apply filter_In in Hin. apply Hin.
  - split; [rewrite statusesBy_RaceHandler_filter, Hf; reflexivity|].
    split; [intros v; discriminate|].
    intros [H|[H|[H|[]]]]; discriminate H.
Qed.

Lemma deadline_writes_timeout_error_witness :
  exists d,
    trace (snd (processTaskWithTimeout slowAgent (repoArgs 1)
                  (initial (row (Some "feature/fix-login")))))
    = trace (initial (row (Some "feature/fix-login"))) ++ d
    /\ In (EStatus RaceHandler error TIMEOUT_STATUS_MESSAGE) d
    /\ statusesBy RaceHandler d = [error]
    /\ (forall v, errorMessage (JsValue v) <> TIMEOUT_STATUS_MESSAGE)
    /\ ~ In TIMEOUT_STATUS_MESSAGE
            ["Failed to create sandbox";
             "Sandbox is not available for agent execution";
             "Agent execution failed"].
Proof.
  apply (deadline_writes_timeout_error slowAgent (repoArgs 1)
           (initial (row (Some "feature/fix-login"))));
    vm_compute; reflexivity.
Defined.

(** *** The branch name *)

Lemma found_truthy (maxWaitMs : Z) (ps : list (Z * option string)) :
  forall lo name,
    pollsFrom lo maxWaitMs ps -> found ps = Some name -> truthy name = true.
Proof.
  induction ps as [|[t s] r IH]; intros lo name H F; [discriminate|].
  cbn [pollsFrom found] in *. destruct H as [_ H].
  destruct s as [n|].
  - injection F as <-. apply H.
  - exact (IH _ _ H F).
Qed.


(** A name that reaches the row within the ten seconds but after the
    last poll is not used either. *)
Example name_after_last_poll_missed :
  let w := snd (processTaskWithTimeout nameAfterLastPoll (repoArgs 5)
                  (initial (row None))) in
  steps branchStep (skipn 22 (own (trace w)))
  = [ Polled 9500 None; Created None;
      Persisted (Some "agent/fallback-T2") ].
Proof. vm_compute. reflexivity. Qed.

(** A name that reaches the row two seconds into the wait is seen by
    the next poll, and the sandbox is created with it. *)
Example name_within_wait_used :
  let w := snd (processTaskWithTimeout nameAfterTwoSeconds (repoArgs 5)
                  (initial (row None))) in
  steps branchStep (own (trace w))
  = [ Polled 0 None; Polled 500 None; Polled 1000 None; Polled 1500 None;
      Polled 2000 (Some "feature/fix-login");
      Created (Some "feature/fix-login"); Persisted None ]
  /\ branchName (store w) = Some "feature/fix-login".
Proof. vm_compute. split; reflexivity. Qed.



(** *** The trigger endpoint *)

(** C6.  A start request is accepted, and the callback scheduled, only
    for a task whose status is [pending]: for a task in any other status
    nothing is scheduled, and a request that gets as far as the status
    check (it parses, is authenticated, and is the owner's) is answered
    with 400. *)
Theorem POST_accepts_only_pending (B : Backend) (request : Request) :
  (forall job,
      snd (POST B request) = Some job ->
      selectTask B (params_taskId request) = Returns (Some (job_task job))
      /\ status (job_task job) = pending
      /\ httpStatus (fst (POST B request)) = 200)
  /\ (forall task,
        selectTask B (params_taskId request) = Returns (Some task) ->
        status task <> pending ->
        snd (POST B request) = None
        /\ httpStatus (fst (POST B request)) <> 200
        /\ (reachesStatusCheck B request task = true ->
            httpStatus (fst (POST B request)) = 400)).
Proof.
  unfold POST, reachesStatusCheck. split.
  - intros job.
    destruct (body request) as [b|]; [|discriminate].
    destruct (negb (verifyInternalCall B request)
              && negb (truthy' (body_userId b)))%bool; [discriminate|].
    destruct (selectTask B (params_taskId request)) as [[task|]|e];
      try discriminate.
    destruct (truthy' (body_userId b) && _)%bool; [discriminate|].
    destruct (status task) eqn:Hs; cbn [Status_eqb negb]; try discriminate.
    destruct (getApiKeysByUserId B (TaskStore.userId task));
      [|discriminate].
    destruct (getGitHubTokenByUserId B (TaskStore.userId task));
      [|discriminate].
    destruct (getMaxSandboxDuration B (TaskStore.userId task));
      [|discriminate].
    cbn [snd fst]. intros H. injection H as <-. cbn [job_task].
    repeat split. exact Hs.
  - intros task Hsel Hstatus. rewrite Hsel.
    assert (Hne : negb (Status_eqb (status task) pending) = true)
      by (destruct (status task); try reflexivity; contradiction).
    destruct (body request) as [b|];
      [|split; [reflexivity | split; [discriminate | discriminate]]].
    destruct (verifyInternalCall B request), (body_userId b) as [u|];
      cbn [negb andb orb truthy'];
      try (destruct (truthy u)); cbn [negb andb orb];
      try (destruct (String.eqb (TaskStore.userId task) u));
      cbn [negb andb orb]; rewrite ?Hne; cbn [fst snd httpStatus json];
      repeat split; try discriminate; try reflexivity.
Qed.

Lemma POST_accepts_only_pending_witness :
  snd (POST (backend (setStatus processing (row None)))
            (startRequest "user-1")) = None
  /\ httpStatus (fst (POST (backend (setStatus processing (row None)))
                           (startRequest "user-1"))) <> 200
  /\ (reachesStatusCheck (backend (setStatus processing (row None)))
                         (startRequest "user-1")
                         (setStatus processing (row None)) = true ->
      httpStatus (fst (POST (backend (setStatus processing (row None)))
                            (startRequest "user-1"))) = 400).
Proof.
  apply (proj2 (POST_accepts_only_pending
                  (backend (setStatus processing (row None)))
                  (startRequest "user-1"))
           (setStatus processing (row None))).
  - reflexivity.
  - discriminate.
Defined.

(** A request that does not get as far as the status check is answered
    with 401 whatever the status of the task. *)
Example POST_foreign_user :
  POST (backend (setStatus processing (row None))) (startRequest "user-2")
  = (json 401 (Some "Unauthorized"), None).
Proof. reflexivity. Qed.

Example POST_pending :
  httpStatus (fst (POST (backend (row None)) (startRequest "user-1"))) = 200
  /\ option_map job_args (snd (POST (backend (row None))
                                    (startRequest "user-1")))
     = Some {| taskId := "T2"; arg_prompt := lit "fix the login bug";
               arg_repoUrl := "https://github.com/acme/app";
               arg_maxDuration := 300; arg_selectedAgent := "claude";
               arg_selectedModel := None; arg_installDependencies := false;
               arg_keepAlive := false; arg_apiKeys := noKeys;
               arg_githubToken := Some "ghp_token";
               arg_userId := Some "user-1" |}.
Proof. split; reflexivity. Qed.

(** *** Standalone tasks *)


(** Nothing stands in the way of the sample run. *)
Lemma calm_benign (a : Args) : benign calm a.
Proof.
  split; [intros n H; exact H|]. split; [reflexivity|].
  split; [intros _; exists 3000; reflexivity|].
  split; [exists okSandbox; eexists; repeat split|].
  exists okAgent. split; reflexivity.
Qed.


(** A task without a token on a repository completes as well. *)
Example tokenless_run :
  let a := {| taskId := "T2"; arg_prompt := lit "fix the login bug";
              arg_repoUrl := "https://github.com/acme/app";
              arg_maxDuration := 5; arg_selectedAgent := "claude";
              arg_selectedModel := None; arg_installDependencies := false;
              arg_keepAlive := false; arg_apiKeys := noKeys;
              arg_githubToken := None; arg_userId := Some "user-1" |} in
  steps milestone (trace (snd (processTask calm a (initial (row None)))))
  = [Wrote processing; AgentDone; Progress100; Wrote completed].
Proof. vm_compute. reflexivity. Qed.

(** The standalone task of the sample run ends [completed] at 100. *)
Example standalone_run :
  let w := snd (processTaskWithTimeout calm standaloneArgs
                  (initial (row None))) in
  status (store w) = completed /\ progress (store w) = 100
  /\ steps milestone (trace w)
     = [Wrote processing; AgentDone; Progress100; Wrote completed].
Proof. vm_compute. repeat split. Qed.

(** *** The prompt *)

(** C8.  Whatever the prompt, every prompt the pipeline hands to the
    agent has no backtick, no dollar sign, no backslash, and no line
    that begins with a hyphen. *)
Theorem agent_prompt_safe (env : Env) (a : Args) (w : World) :
  exists d,
    trace (snd (processTask env a w)) = trace w ++ d
    /\ Forall (fun p =>
                 Forall (fun u => u <> BACKTICK) p
                 /\ Forall (fun u => u <> DOLLAR) p
                 /\ Forall (fun u => u <> BACKSLASH) p
                 /\ Forall (fun l => beginsWith HYPHEN l = false) (lines p))
              (steps agentPrompt d).
Proof.
  destruct (processTask_prompt env a w) as [d [E H]].
  exists d. split; [exact E|].
  rewrite steps_own in H.
  2:{ intros [[]| [] | | | | | | | | | | | | | | |]; try reflexivity;
        discriminate. }
  destruct H as [H|[H|[]]]; rewrite <- H; constructor.
  - apply sanitizePrompt_safe.
  - constructor.
Qed.

(** *** Encryption *)

(** C9, as stated, fails: a string that is one unpaired surrogate is not
    empty, and with any correct cipher and valid key it comes back from
    [decrypt (encrypt s)] as U+FFFD. *)
Lemma lone_surrogate_not_restored :
  (forall (C : Cipher) (ENCRYPTION_KEY : option jsstring) (iv : buffer),
      gcmCorrect C -> validKey ENCRYPTION_KEY = true ->
      List.length iv = IV_LENGTH_GCM ->
      exists encrypted,
        encrypt ENCRYPTION_KEY iv [0xD83D%N] = Returns encrypted
        /\ decrypt ENCRYPTION_KEY encrypted = Returns (Some [REPLACEMENT]))
  /\ falsy [0xD83D%N] = false
  /\ [REPLACEMENT] <> [0xD83D%N].
Proof.
  split; [|split; [reflexivity | discriminate]].
  intros C key iv Hgcm Hkey Hiv.
  destruct (@decrypt_encrypt_utf8 C Hgcm key Hkey iv Hiv [0xD83D%N])
    as [c [E D]]; [reflexivity|].
  exists c. split; [exact E|]. rewrite D. reflexivity.
Qed.

(** C9 (amended).  With a correct AES-256-GCM, a key setting that decodes
    to 32 bytes and a 12-byte nonce, [decrypt (encrypt s)] returns [s]
    for every non-empty string [s] without unpaired surrogates. *)
Theorem decrypt_encrypt_roundtrip (C : Cipher)
    (ENCRYPTION_KEY : option jsstring) (iv : buffer) (s : jsstring) :
  gcmCorrect C ->
  validKey ENCRYPTION_KEY = true ->
  List.length iv = IV_LENGTH_GCM ->
  falsy s = false ->
  wellFormed s = true ->
  exists encrypted,
    encrypt ENCRYPTION_KEY iv s = Returns encrypted
    /\ decrypt ENCRYPTION_KEY encrypted = Returns (Some s).
Proof.
  intros Hgcm Hkey Hiv Hne Hwf.
  destruct (@decrypt_encrypt_utf8 C Hgcm ENCRYPTION_KEY Hkey iv Hiv s Hne)
    as [c [E D]].
  exists c. split; [exact E|]. rewrite D, (utf8_roundtrip s Hwf). reflexivity.
Qed.

Lemma decrypt_encrypt_roundtrip_witness :
  exists encrypted,
    @encrypt CaesarCipher sampleKey sampleIv (lit "ghp_secret") = Returns encrypted
    /\ @decrypt CaesarCipher sampleKey encrypted
       = Returns (Some (lit "ghp_secret")).
Proof.
  apply (decrypt_encrypt_roundtrip CaesarCipher sampleKey sampleIv
           (lit "ghp_secret")).
  - apply CaesarCipher_correct.
  - reflexivity.
  - reflexivity.
  - reflexivity.
  - reflexivity.
Defined.

(** The sample secret under the stand-in cipher: the text that is stored,
    and what decrypting it gives. *)
Example encrypt_sample :
  @encrypt CaesarCipher sampleKey sampleIv (lit "hi")
  = Returns (lit "0102030405060708090a0b0c:9293:02")
  /\ @decrypt CaesarCipher sampleKey (lit "0102030405060708090a0b0c:9293:02")
     = Returns (Some (lit "hi")).
Proof. vm_compute. split; reflexivity. Qed.

(** *** The cancellation check *)

(** C10.  When the read of the row inside the cancellation check is
    rejected, [isTaskStopped] returns [false], whatever the row holds,
    and nothing but the suspension of the read has happened. *)
Theorem isTaskStopped_false_when_read_fails (env : Env) (w : World) :
  dbThrows env (ticks w) = true ->
  isTaskStopped env w = (Ok false, snd (suspend env 0 w)).
Proof.
  intros H. unfold isTaskStopped, tryCatch, bind, selectTaskRow, awaitDb.
  change (suspend env 0 w) with (Ok tt, snd (suspend env 0 w)).
  cbv beta iota. rewrite H. reflexivity.
Qed.

Lemma isTaskStopped_false_when_read_fails_witness :
  isTaskStopped stoppedButUnreadable
    (withTicks 5 (initial (setStatus stopped (row None))))
  = (Ok false,
     snd (suspend stoppedButUnreadable 0
            (withTicks 5 (initial (setStatus stopped (row None)))))).
Proof.
  apply (isTaskStopped_false_when_read_fails stoppedButUnreadable
           (withTicks 5 (initial (setStatus stopped (row None))))).
  reflexivity.
Defined.

(** The same check with a read that succeeds sees the stop. *)
Example isTaskStopped_sees_stop :
  fst (isTaskStopped calm (initial (setStatus stopped (row None)))) = Ok true.
Proof. reflexivity. Qed.

(** In a run, the pipeline goes past the checkpoint whose read was
    rejected (it polls for the branch name) although the row is already
    [stopped]; the next checkpoint sees the stop and the run ends there. *)
Example pipeline_continues_past_failed_check :
  let w := snd (processTaskWithTimeout stoppedButUnreadable (repoArgs 5)
                  (initial (row (Some "feature/fix-login")))) in
  own (trace w)
  = [ EStatus Pipeline processing "Task created, preparing to start...";
      EProgress Pipeline 10 "Initializing task execution...";
      EInsertMessage;
      EPoll 0 (Some "feature/fix-login") ]
  /\ statusWrites (trace w) = [(Pipeline, processing); (StopHandler, stopped)]
  /\ status (store w) = stopped.
Proof. vm_compute. repeat split. Qed.

End Claims.

(** ** [lib/crypto.ts]: keys, formats and failures *)
Module CryptoProps.
Import Js Buffer Crypto CryptoSpec BufferFacts CryptoFacts.

Lemma split_length (c : N) (s : jsstring) :
  List.length (split c s) = S (count_occ N.eq_dec s c).
Proof.
  induction s as [|u t IH]; [reflexivity|].
  cbn [split count_occ].
  destruct (N.eqb_spec u c) as [->|Hne].
  - destruct (N.eq_dec c c) as [_|H]; [|contradiction].
    cbn [List.length]. rewrite IH. reflexivity.
  - destruct (N.eq_dec u c) as [H|_]; [contradiction|].
    destruct (split c t) as [|p ps]; [discriminate IH|exact IH].
Qed.

Lemma toHex_lower (b : buffer) :
  Forall (fun u => isLowerHexDigit u = true) (toHex b).
Proof.
  induction b as [|x t IH]; [constructor|].
  pose proof (to_N_lt x) as Hx.
  change (toHex (x :: t))
    with (hexDigit (to_N x / 16) :: hexDigit (to_N x mod 16) :: toHex t).
  assert (Hd : forall n, (n < 16)%N -> isLowerHexDigit (hexDigit n) = true).
  { intros n Hn. unfold isLowerHexDigit, hexDigit.
    destruct (N.ltb_spec n 10).
    - apply orb_true_iff. left. apply andb_true_iff.
      split; apply N.leb_le; lia.
    - apply orb_true_iff. right. apply andb_true_iff.
      split; apply N.leb_le; lia. }
  constructor; [apply Hd; dlia|].
  constructor; [apply Hd; dlia | exact IH].
Qed.

Lemma toHex_length (b : buffer) :
  List.length (toHex b) = (2 * List.length b)%nat.
Proof.
  induction b as [|x t IH]; [reflexivity|].
  change (toHex (x :: t))
    with (hexDigit (to_N x / 16) :: hexDigit (to_N x mod 16) :: toHex t).
  cbn [List.length]. rewrite IH. lia.
Qed.

Lemma getEncryptionKey_malformed (ENCRYPTION_KEY : option jsstring) :
  malformedKey ENCRYPTION_KEY = true ->
  getEncryptionKey ENCRYPTION_KEY = Throws (JsError KEY_MALFORMED).
Proof.
  unfold malformedKey, validKey, getEncryptionKey.
  destruct ENCRYPTION_KEY as [key|]; [|discriminate].
  destruct (falsy key); [discriminate|].
  destruct (Nat.eqb _ 32); [discriminate | reflexivity].
Qed.

(** Unless the key is malformed, [decrypt] returns. *)
Lemma decrypt_returns {C : Cipher} (ENCRYPTION_KEY : option jsstring)
    (text : jsstring) :
  malformedKey ENCRYPTION_KEY = false ->
  exists r, decrypt ENCRYPTION_KEY text = Returns r.
Proof.
  unfold malformedKey, validKey, decrypt, getEncryptionKey.
  destruct (falsy text); [intros _; eexists; reflexivity|].
  destruct ENCRYPTION_KEY as [key|]; [|intros _; eexists; reflexivity].
  destruct (falsy key); [intros _; eexists; reflexivity|].
  destruct (Nat.eqb _ 32); [intros _|discriminate].
  destruct (negb (includesUnit COLON text)); [eexists; reflexivity|].
  destruct (split COLON text) as [|p1 [|p2 [|p3 [|p4 ps]]]];
    try (eexists; reflexivity).
  - destruct (cbcDecrypt _ _ _); eexists; reflexivity.
  - destruct (gcmDecrypt _ _ _ _); eexists; reflexivity.
Qed.

(** X1.  With [ENCRYPTION_KEY] unset or empty, [decrypt] returns [null]
    for every text, and [encrypt] throws for every text but the empty
    one. *)
Theorem without_key_decrypt_null_encrypt_throws {C : Cipher}
    (ENCRYPTION_KEY : option jsstring) (iv : buffer) :
  ENCRYPTION_KEY = None \/ ENCRYPTION_KEY = Some [] ->
  (forall text, decrypt ENCRYPTION_KEY text = Returns None)
  /\ (forall text, falsy text = false ->
        encrypt ENCRYPTION_KEY iv text = Throws (JsError KEY_REQUIRED)).
Proof.
  intros [-> | ->]; split; intros text;
    unfold decrypt, encrypt, getEncryptionKey; cbn [falsy];
    destruct (falsy text); try reflexivity; discriminate.
Qed.

Lemma without_key_decrypt_null_encrypt_throws_witness :
  @decrypt CaesarCipher None (lit "0a:0b:0c") = Returns None
  /\ @encrypt CaesarCipher None Scenarios.sampleIv (lit "token")
     = Throws (JsError KEY_REQUIRED).
Proof.
  destruct (@without_key_decrypt_null_encrypt_throws CaesarCipher None
              Scenarios.sampleIv (or_introl eq_refl)) as [D E].
  split; [apply D | apply E; reflexivity].
Defined.

(** X2.  With [ENCRYPTION_KEY] set to something that does not decode to
    32 bytes, [decrypt] throws, as [encrypt] does, for every text but the
    empty one: the key is read before [decrypt]'s [try] block.  For the
    empty text neither reads the key. *)
Theorem malformed_key_throws {C : Cipher}
    (ENCRYPTION_KEY : option jsstring) (iv : buffer) :
  malformedKey ENCRYPTION_KEY = true ->
  (forall text, falsy text = false ->
     decrypt ENCRYPTION_KEY text = Throws (JsError KEY_MALFORMED)
     /\ encrypt ENCRYPTION_KEY iv text = Throws (JsError KEY_MALFORMED))
  /\ decrypt ENCRYPTION_KEY [] = Returns None
  /\ encrypt ENCRYPTION_KEY iv [] = Returns [].
Proof.
  intros H. apply getEncryptionKey_malformed in H.
  split; [|split; reflexivity].
  intros text Hne. unfold decrypt, encrypt. rewrite Hne, H.
  split; reflexivity.
Qed.

Lemma malformed_key_throws_witness :
  (@decrypt CaesarCipher (Some (lit "00ff")) (lit "token")
   = Throws (JsError KEY_MALFORMED)
   /\ @encrypt CaesarCipher (Some (lit "00ff")) Scenarios.sampleIv
               (lit "token")
      = Throws (JsError KEY_MALFORMED))
  /\ @decrypt CaesarCipher (Some (lit "00ff")) [] = Returns None.
Proof.
  destruct (@malformed_key_throws CaesarCipher (Some (lit "00ff"))
              Scenarios.sampleIv eq_refl) as [T [D _]].
  split; [apply T; reflexivity | exact D].
Defined.

(** A key is judged by the low bytes of its units: sixty-four times
    U+0130 decodes to thirty-two zero bytes and is accepted, and two
    more such units make it thirty-three bytes, which is malformed. *)
Example key_of_wide_units :
  validKey (Some (repeat 0x130%N 64)) = true
  /\ malformedKey (Some (repeat 0x130%N 64)) = false
  /\ malformedKey
       (Some (lit "2a0102030405060708090a0b0c0d0e0f101112131415161718191a1b1c1d1e1f"
              ++ [0x130; 0x130]%N)) = true.
Proof. vm_compute. repeat split. Qed.

(** X3.  With a valid key [decrypt] never throws, and it returns [null]
    for every text that holds no colon or more than two. *)
Theorem decrypt_total_and_rejects_other_formats {C : Cipher}
    (ENCRYPTION_KEY : option jsstring) (text : jsstring) :
  validKey ENCRYPTION_KEY = true ->
  (exists r, decrypt ENCRYPTION_KEY text = Returns r)
  /\ (colons text <> 1%nat -> colons text <> 2%nat ->
      decrypt ENCRYPTION_KEY text = Returns None).
Proof.
  intros Hkey.
  assert (Hk : exists key, getEncryptionKey ENCRYPTION_KEY = Returns (Some key)).
  { unfold validKey in Hkey. unfold getEncryptionKey.
    destruct ENCRYPTION_KEY as [k|]; [|discriminate].
    destruct k as [|u t]; [discriminate|].
    cbn [falsy]. rewrite Hkey. eexists. reflexivity. }
  destruct Hk as [key Hk].
  pose proof (split_length COLON text) as Hlen. fold (colons text) in Hlen.
  unfold decrypt. rewrite Hk.
  destruct (falsy text); [split; [eexists|]; reflexivity|].
  destruct (negb (includesUnit COLON text)); [split; [eexists|]; reflexivity|].
  destruct (split COLON text) as [|p1 [|p2 [|p3 [|p4 ps]]]];
    cbn [List.length] in Hlen.
  - split; [eexists|]; reflexivity.
  - split; [eexists|]; reflexivity.
  - split.
    + destruct (cbcDecrypt _ _ _); eexists; reflexivity.
    + intros H1 _. exfalso. apply H1. congruence.
  - split.
    + destruct (gcmDecrypt _ _ _ _); eexists; reflexivity.
    + intros _ H2. exfalso. apply H2. congruence.
  - split; [eexists|]; reflexivity.
Qed.

Lemma decrypt_total_and_rejects_other_formats_witness :
  (exists r, @decrypt CaesarCipher Scenarios.sampleKey (lit "a:b:c:d")
             = Returns r)
  /\ @decrypt CaesarCipher Scenarios.sampleKey (lit "a:b:c:d") = Returns None.
Proof.
  destruct (@decrypt_total_and_rejects_other_formats CaesarCipher
              Scenarios.sampleKey (lit "a:b:c:d") eq_refl) as [T N].
  split; [exact T | apply N; discriminate].
Defined.



(** X5.  [decrypt] still reads the legacy format: for a valid key, a
    text made of two hexadecimal fields is decoded field by field and
    handed to AES-256-CBC under the same key; the result is the
    plaintext read as UTF-8, or [null] when the cipher rejects it. *)
Theorem decrypt_reads_legacy_format {C : Cipher}
    (ENCRYPTION_KEY : option jsstring) (iv ciphertext : buffer) :
  validKey ENCRYPTION_KEY = true ->
  exists key,
    getEncryptionKey ENCRYPTION_KEY = Returns (Some key)
    /\ decrypt ENCRYPTION_KEY (toHex iv ++ [COLON] ++ toHex ciphertext)
       = Returns (option_map utf8Decode (cbcDecrypt key iv ciphertext)).
Proof.
  intros Hkey.
  assert (Hk : exists key, getEncryptionKey ENCRYPTION_KEY = Returns (Some key)).
  { unfold validKey in Hkey. unfold getEncryptionKey.
    destruct ENCRYPTION_KEY as [k|]; [|discriminate].
    destruct k as [|u t]; [discriminate|].
    cbn [falsy]. rewrite Hkey. eexists. reflexivity. }
  destruct Hk as [key Hk]. exists key. split; [exact Hk|].
  unfold decrypt. rewrite Hk.
  replace (falsy (toHex iv ++ [COLON] ++ toHex ciphertext)) with false
    by (destruct (toHex iv); reflexivity).
  cbn [app]. rewrite includesUnit_app. cbn [negb].
  rewrite split_piece by apply toHex_no_colon.
  rewrite split_last by apply toHex_no_colon.
  rewrite !fromHex_toHex.
  destruct (cbcDecrypt key iv ciphertext); reflexivity.
Qed.

Lemma decrypt_reads_legacy_format_witness :
  exists key,
    getEncryptionKey Scenarios.sampleKey = Returns (Some key)
    /\ @decrypt CaesarCipher Scenarios.sampleKey
         (toHex Scenarios.sampleIv ++ [COLON] ++ toHex [x68; x69])
       = Returns (option_map utf8Decode
                    (@cbcDecrypt CaesarCipher key Scenarios.sampleIv
                                 [x68; x69])).
Proof.
  apply (@decrypt_reads_legacy_format CaesarCipher Scenarios.sampleKey
           Scenarios.sampleIv [x68; x69]).
  reflexivity.
Defined.

End CryptoProps.

(** ** The trigger endpoint: who gets in, and what is answered *)
Module TriggerProps.
Import Js TaskStore Trigger Scenarios.
Local Open Scope string_scope.
Local Open Scope Z_scope.

(** X6.  [POST] answers 200 exactly when it schedules the callback;
    every other answer is 400, 401, 404 or 500. *)
Theorem POST_schedules_exactly_on_200 (B : Backend) (request : Request) :
  (httpStatus (fst (POST B request)) = 200
   <-> snd (POST B request) <> None)
  /\ In (httpStatus (fst (POST B request))) [200; 400; 401; 404; 500].
Proof.
  unfold POST.
  destruct (body request) as [b|];
    [|cbn; split; [split; [discriminate | intros H; contradiction H; reflexivity]
                  | auto 6]].
  destruct (negb (verifyInternalCall B request)
            && negb (truthy' (body_userId b)))%bool;
    [cbn; split; [split; [discriminate | intros H; contradiction H; reflexivity]
                 | auto 6]|].
  destruct (selectTask B (params_taskId request)) as [[task|]|e];
    try (cbn; split;
         [split; [discriminate | intros H; contradiction H; reflexivity]
         | auto 6]).
  destruct (truthy' (body_userId b) && _)%bool;
    [cbn; split; [split; [discriminate | intros H; contradiction H; reflexivity]
                 | auto 6]|].
  destruct (negb (Status_eqb (status task) pending));
    [cbn; split; [split; [discriminate | intros H; contradiction H; reflexivity]
                 | auto 6]|].
  destruct (getApiKeysByUserId B (TaskStore.userId task)),
           (getGitHubTokenByUserId B (TaskStore.userId task)),
           (getMaxSandboxDuration B (TaskStore.userId task));
    cbn; (split; [split; [try discriminate; intros _; discriminate
                         | try reflexivity;
                           intros H; contradiction H; reflexivity]
                 | auto 6]).
Qed.

(** X7.  A request that names no user is answered 401, with nothing
    scheduled and whatever the task, unless it carries an
    [X-Internal-Secret] header that is not empty and equals
    [INTERNAL_API_SECRET]; an unset or empty secret admits no one. *)
Theorem POST_without_user_needs_secret (B : Backend) (request : Request)
    (b : Body) :
  body request = Some b ->
  truthy' (body_userId b) = false ->
  POST B request <> (json 401 (Some "Unauthorized"), None) ->
  exists secret,
    internalSecretHeader request = Some secret
    /\ secret <> ""
    /\ INTERNAL_API_SECRET B = Some secret.
Proof.
  intros Hb Hu Hin. unfold POST in Hin. rewrite Hb, Hu in Hin.
  unfold verifyInternalCall in Hin.
  destruct (internalSecretHeader request) as [s|];
    [|contradiction Hin; reflexivity].
  destruct (truthy s) eqn:Hs; [|contradiction Hin; reflexivity].
  destruct (INTERNAL_API_SECRET B) as [secret|];
    [|contradiction Hin; reflexivity].
  destruct (String.eqb_spec s secret) as [->|Hne];
    [|contradiction Hin; reflexivity].
  exists secret. repeat split.
  intros ->. discriminate Hs.
Qed.

Lemma POST_without_user_needs_secret_witness :
  exists secret,
    internalSecretHeader
      {| internalSecretHeader := Some "s3cret";
         body := Some {| body_userId := None |};
         params_taskId := "T2" |} = Some secret
    /\ secret <> ""
    /\ INTERNAL_API_SECRET (backend (row None)) = Some secret.
Proof.
  apply (POST_without_user_needs_secret (backend (row None))
           {| internalSecretHeader := Some "s3cret";
              body := Some {| body_userId := None |};
              params_taskId := "T2" |}
           {| body_userId := None |}).
  - reflexivity.
  - reflexivity.
  - discriminate.
Defined.

(** X8.  A request that names a user who does not own the task is
    answered 401 and schedules nothing, whatever the status of the task
    and even when it carries the internal secret. *)
Theorem POST_rejects_foreign_user (B : Backend) (request : Request)
    (b : Body) (user : string) (task : Task) :
  body request = Some b ->
  body_userId b = Some user ->
  user <> "" ->
  selectTask B (params_taskId request) = Returns (Some task) ->
  TaskStore.userId task <> user ->
  POST B request = (json 401 (Some "Unauthorized"), None).
Proof.
  intros Hb Hu Hne Hsel Hown. unfold POST. rewrite Hb, Hu, Hsel.
  assert (Ht : truthy user = true).
  { unfold truthy. destruct (String.eqb_spec user ""); [contradiction|].
    reflexivity. }
  cbn [truthy']. rewrite Ht. cbn [negb andb].
  rewrite andb_false_r.
  destruct (String.eqb_spec (TaskStore.userId task) user); [contradiction|].
  reflexivity.
Qed.

Lemma POST_rejects_foreign_user_witness :
  POST (backend (row None))
       {| internalSecretHeader := Some "s3cret";
          body := Some {| body_userId := Some "user-2" |};
          params_taskId := "T2" |}
  = (json 401 (Some "Unauthorized"), None).
Proof.
  apply (POST_rejects_foreign_user (backend (row None))
           {| internalSecretHeader := Some "s3cret";
              body := Some {| body_userId := Some "user-2" |};
              params_taskId := "T2" |}
           {| body_userId := Some "user-2" |} "user-2" (row None)).
  - reflexivity.
  - reflexivity.
  - discriminate.
  - reflexivity.
  - discriminate.
Defined.

End TriggerProps.

(** ** The pipeline: progress, publication, the pushed branch *)
Module PipelineProps.
Import Js TaskStore Trigger Orchestrator Spec PipelineSpec Scenarios.
Import RunFacts WaitFacts StepFacts.
Local Open Scope string_scope.
Local Open Scope list_scope.
Local Open Scope Z_scope.
Local Open Scope pipeline_scope.

(** Settles a leaf whose list of alternatives is long. *)
Ltac close_wide :=
  solve
    [ unfold yields; cbv beta iota;
      rewrite ?steps_app;
      rewrite ?steps_polls_none by (intros; reflexivity);
      repeat match goal with
             | H : In _ (_ :: _) |- _ =>
                 destruct H as [H|H]; [rewrite <- H in * |]
             | H : In _ [] |- _ => destruct H
             end;
      cbn; auto 20 ].

(** *** Status and progress *)
Section Marks.
Variable env : Env.
Variable a : Args.

Local Notation "'marks'" := (yields mark).
Local Notation "'P' n" := (ProgressIs n) (at level 9, n at level 9).

Lemma loadMcpServers_marks : emits (loadMcpServers env a) (marks [[]] []).
Proof. unfold loadMcpServers. run; close_wide. Qed.

Lemma publish_marks (agentResult : AgentResult) (branch : string) :
  emits (publish env a agentResult branch) (marks [[]] [[]]).
Proof. unfold publish. run; close_wide. Qed.

Lemma finish_marks (sandbox : Sandbox) (branch : option string)
    (agentResult : AgentResult) :
  emits (finish env a sandbox branch agentResult)
        (marks [[P 90; P 100; StatusIs completed]] [[P 90]]).
Proof.
  unfold finish. run; try close_wide.
  all: after publish_marks; run; close_wide.
Qed.

Lemma runAgent_marks (branch : option string) :
  emits (runAgent env a branch)
        (marks [[]; [P 50]; [P 50; P 90; P 100; StatusIs completed]]
               [[P 50]; [P 50; P 90]]).
Proof.
  unfold runAgent. run; try close_wide.
  all: after loadMcpServers_marks; run; try close_wide.
  all: after finish_marks; run; close_wide.
Qed.

Lemma provision_marks (aiBranchName : option string) :
  emits (provision env a aiBranchName)
        (marks [[P 15]; [P 15; P 50];
                [P 15; P 50; P 90; P 100; StatusIs completed]]
               [[P 15]; [P 15; P 50]; [P 15; P 50; P 90]]).
Proof.
  unfold provision. run; try close_wide.
  all: after runAgent_marks; run; close_wide.
Qed.

Lemma start_marks :
  emits (start env a)
        (marks [[StatusIs processing; P 10];
                [StatusIs processing; P 10; P 15];
                [StatusIs processing; P 10; P 15; P 50];
                [StatusIs processing; P 10; P 15; P 50; P 90; P 100;
                 StatusIs completed]]
               [[StatusIs processing; P 10; P 15];
                [StatusIs processing; P 10; P 15; P 50];
                [StatusIs processing; P 10; P 15; P 50; P 90]]).
Proof.
  unfold start. run; try close_wide.
  all: apply emits_waitForBranchName; intros ps Hps; run; try close_wide.
  all: after provision_marks; run; close_wide.
Qed.

Lemma processTask_marks :
  emits (processTask env a)
        (fun r l =>
           In (steps mark l)
              [ [StatusIs processing; P 10];
                [StatusIs processing; P 10; P 15];
                [StatusIs processing; P 10; P 15; P 50];
                [StatusIs processing; P 10; P 15; P 50; P 90; P 100;
                 StatusIs completed];
                [StatusIs processing; P 10; P 15; StatusIs error];
                [StatusIs processing; P 10; P 15; P 50; StatusIs error];
                [StatusIs processing; P 10; P 15; P 50; P 90;
                 StatusIs error] ]).
Proof.
  unfold processTask. run.
  after start_marks; run; close_wide.
Qed.

End Marks.

(** *** Publication *)
Section Publication.
Variable env : Env.
Variable a : Args.
Hypothesis withRepo : canPublish a = true.

Local Notation "'reaches'" := (yields milestone).

Lemma loadMcpServers_reaches :
  emits (loadMcpServers env a) (reaches [[]] []).
Proof. unfold loadMcpServers. run; close_wide. Qed.

Lemma publish_reaches (agentResult : AgentResult) (branch : string) :
  emits (publish env a agentResult branch)
        (reaches [[CommitMessage; Push]] [[CommitMessage; Push]]).
Proof. unfold publish. run; close_wide. Qed.

Lemma finish_reaches (sandbox : Sandbox) (branch : option string)
    (agentResult : AgentResult) :
  emits (finish env a sandbox branch agentResult)
        (reaches [[AgentDone; CommitMessage; Push; Progress100;
                   Wrote completed]]
                 [[AgentDone]; [AgentDone; CommitMessage; Push]]).
Proof.
  unfold finish. fold (canPublish a). rewrite withRepo. run; try close_wide.
  all: after publish_reaches; run; close_wide.
Qed.

Lemma runAgent_reaches (branch : option string) :
  emits (runAgent env a branch)
        (reaches [[]; [AgentDone; CommitMessage; Push; Progress100;
                       Wrote completed]]
                 [[]; [AgentDone]; [AgentDone; CommitMessage; Push]]).
Proof.
  unfold runAgent. run; try close_wide.
  all: after loadMcpServers_reaches; run; try close_wide.
  all: after finish_reaches; run; close_wide.
Qed.

Lemma provision_reaches (aiBranchName : option string) :
  emits (provision env a aiBranchName)
        (reaches [[]; [AgentDone; CommitMessage; Push; Progress100;
                       Wrote completed]]
                 [[]; [AgentDone]; [AgentDone; CommitMessage; Push]]).
Proof.
  unfold provision. run; try close_wide.
  all: after runAgent_reaches; run; close_wide.
Qed.

Lemma start_reaches :
  emits (start env a)
        (reaches [[Wrote processing];
                  [Wrote processing; AgentDone; CommitMessage; Push;
                   Progress100; Wrote completed]]
                 [[Wrote processing]; [Wrote processing; AgentDone];
                  [Wrote processing; AgentDone; CommitMessage; Push]]).
Proof.
  unfold start. run; try close_wide.
  all: apply emits_waitForBranchName; intros ps Hps; run; try close_wide.
  all: after provision_reaches; run; close_wide.
Qed.

Lemma processTask_reaches :
  emits (processTask env a)
        (fun r l =>
           In (steps milestone l)
              [ [Wrote processing];
                [Wrote processing; AgentDone; CommitMessage; Push;
                 Progress100; Wrote completed];
                [Wrote processing; Wrote error];
                [Wrote processing; AgentDone; Wrote error];
                [Wrote processing; AgentDone; CommitMessage; Push;
                 Wrote error] ]).
Proof.
  unfold processTask. run.
  after start_reaches; run; close_wide.
Qed.

End Publication.

(** *** The branch that is pushed *)
Section PushedBranch.
Variable env : Env.
Variable a : Args.

Local Notation "'pushes'" := (yields pushedBranch).

Lemma orString_truthy (o : option string) (d : string) :
  truthy d = true -> truthy (orString o d) = true.
Proof.
  intros H. unfold orString. destruct o as [s|]; [|exact H].
  destruct (truthy s) eqn:Hs; [exact Hs | exact H].
Qed.

(** Nothing but the events [l] in the middle can be a push. *)
Ltac named :=
  unfold pushesNamedBranch in *;
  repeat match goal with
         | H : In _ (_ :: _) |- _ => destruct H as [H|H]
         | H : In _ [] |- _ => destruct H
         end;
  rewrite ?steps_app;
  rewrite ?steps_polls_none by (intros; reflexivity);
  repeat match goal with
         | H : _ = steps pushedBranch _ |- _ => rewrite <- H
         end;
  unfold steps in *;
  cbn [flat_map pushedBranch app own filter isOwn];
  rewrite ?app_nil_r;
  first [ assumption | left; reflexivity ].

Lemma loadMcpServers_pushes : emits (loadMcpServers env a) (pushes [[]] []).
Proof. unfold loadMcpServers. run; close_wide. Qed.

Lemma publish_pushes (agentResult : AgentResult) (branch : string) :
  emits (publish env a agentResult branch) (pushes [[branch]] [[branch]]).
Proof. unfold publish. run; close_wide. Qed.

Lemma finish_pushes (sandbox : Sandbox) (branch : option string)
    (agentResult : AgentResult) :
  emits (finish env a sandbox branch agentResult)
        (fun _ l => pushesNamedBranch l).
Proof.
  unfold finish. run; try named.
  all: after publish_pushes; run.
  all: unfold pushesNamedBranch; right; eexists;
       rewrite ?steps_app;
       repeat match goal with
              | H : In _ (_ :: _) |- _ =>
                  destruct H as [H|H]; [rewrite <- H in * |]
              | H : In _ [] |- _ => destruct H
              end;
       (split; [cbn; reflexivity | apply orString_truthy; reflexivity]).
Qed.

Lemma runAgent_pushes (branch : option string) :
  emits (runAgent env a branch) (fun _ l => pushesNamedBranch l).
Proof.
  unfold runAgent. run; try named.
  all: after loadMcpServers_pushes; run; try named.
  all: eapply emits_weaken; [apply finish_pushes|]; intros ? ? ?; named.
Qed.

Lemma provision_pushes (aiBranchName : option string) :
  emits (provision env a aiBranchName) (fun _ l => pushesNamedBranch l).
Proof.
  unfold provision. run; try named.
  all: eapply emits_weaken; [apply runAgent_pushes|]; intros ? ? ?; named.
Qed.

Lemma start_pushes :
  emits (start env a) (fun _ l => pushesNamedBranch l).
Proof.
  unfold start. run; try named.
  all: apply emits_waitForBranchName; intros ps Hps; run; try named.
  all: eapply emits_weaken; [apply provision_pushes|]; intros ? ? ?; named.
Qed.

Lemma processTask_pushes :
  emits (processTask env a) (fun _ l => pushesNamedBranch l).
Proof.
  unfold processTask. run.
  eapply emits_weaken; [apply start_pushes|].
  intros [[]|e|] l H; cbv beta iota; [named | | named].
  run; named.
Qed.

End PushedBranch.

(** X9.  In every run the pipeline writes the status and the progress
    in one of seven orders: [processing], then 10, 15, 50, 90 and 100 in
    that order as far as the run gets, and a terminal status only at the
    end, [completed] right after 100 and [error] never after 100.  (The
    progress reports of the sandbox adapter come in between 15 and 50
    and are not counted here.) *)
Theorem status_and_progress_written_in_order
    (env : Env) (a : Args) (w : World) :
  exists d,
    trace (snd (processTask env a w)) = trace w ++ d
    /\ In (steps mark d)
          [ [StatusIs processing; ProgressIs 10];
            [StatusIs processing; ProgressIs 10; ProgressIs 15];
            [StatusIs processing; ProgressIs 10; ProgressIs 15;
             ProgressIs 50];
            [StatusIs processing; ProgressIs 10; ProgressIs 15;
             ProgressIs 50; ProgressIs 90; ProgressIs 100;
             StatusIs completed];
            [StatusIs processing; ProgressIs 10; ProgressIs 15;
             StatusIs error];
            [StatusIs processing; ProgressIs 10; ProgressIs 15;
             ProgressIs 50; StatusIs error];
            [StatusIs processing; ProgressIs 10; ProgressIs 15;
             ProgressIs 50; ProgressIs 90; StatusIs error] ].
Proof.
  destruct (processTask_marks env a w) as [d [E H]].
  exists d. split; [exact E|].
  rewrite steps_own in H; [exact H|].
  intros [[]| [] | | | | | | | | | | | | | | |]; try reflexivity;
    discriminate.
Qed.

(** X10.  For a task with a repository URL and a token: once the agent
    has done its work the pipeline derives a commit message and pushes,
    once, and then writes progress 100 and [completed] whatever the push
    reports; only a failed read of the row or a push that throws ends
    the run in [error], and the pipeline never writes [completed]
    without having pushed. *)
Theorem publication_precedes_completion
    (env : Env) (a : Args) (w : World) :
  arg_repoUrl a <> "" ->
  truthy' (arg_githubToken a) = true ->
  exists d,
    trace (snd (processTask env a w)) = trace w ++ d
    /\ In (steps milestone d)
          [ [Wrote processing];
            [Wrote processing; AgentDone; CommitMessage; Push;
             Progress100; Wrote completed];
            [Wrote processing; Wrote error];
            [Wrote processing; AgentDone; Wrote error];
            [Wrote processing; AgentDone; CommitMessage; Push;
             Wrote error] ].
Proof.
  intros Hrepo Htoken.
  assert (Hc : canPublish a = true).
  { unfold canPublish, truthy. rewrite Htoken.
    destruct (String.eqb_spec (arg_repoUrl a) ""); [contradiction|].
    reflexivity. }
  destruct (processTask_reaches env a Hc w) as [d [E H]].
  exists d. split; [exact E|].
  rewrite steps_own in H; [exact H|].
  intros [[]| [] | | | | | | | | | | | | | | |]; try reflexivity;
    discriminate.
Qed.

Lemma publication_precedes_completion_witness :
  exists d,
    trace (snd (processTask calm (repoArgs 5)
                  (initial (row (Some "feature/fix-login")))))
    = trace (initial (row (Some "feature/fix-login"))) ++ d
    /\ In (steps milestone d)
          [ [Wrote processing];
            [Wrote processing; AgentDone; CommitMessage; Push;
             Progress100; Wrote completed];
            [Wrote processing; Wrote error];
            [Wrote processing; AgentDone; Wrote error];
            [Wrote processing; AgentDone; CommitMessage; Push;
             Wrote error] ].
Proof.
  apply (publication_precedes_completion calm (repoArgs 5)
           (initial (row (Some "feature/fix-login")))).
  - discriminate.
  - reflexivity.
Defined.

(** X11.  The pipeline pushes at most once, and the branch it hands to
    [pushChangesToBranch] is never the empty string: it is the row's
    branch name, else the adapter's, else [ai-agent-] followed by the
    task id. *)
Theorem pushed_branch_is_named (env : Env) (a : Args) (w : World) :
  exists d,
    trace (snd (processTask env a w)) = trace w ++ d
    /\ (steps pushedBranch d = []
        \/ exists branch, steps pushedBranch d = [branch] /\ branch <> "").
Proof.
  destruct (processTask_pushes env a w) as [d [E H]].
  exists d. split; [exact E|].
  unfold pushesNamedBranch in H.
  rewrite steps_own in H.
  2:{ intros [[]| [] | | | | | | | | | | | | | | |]; try reflexivity;
        discriminate. }
  destruct H as [H|[branch [H Ht]]]; [left; exact H|].
  right. exists branch. split; [exact H|].
  intros ->. discriminate Ht.
Qed.

(** *** How long the branch-name wait lasts *)

Lemma wait_loop_lasts (env : Env) (fuel : nat) (startTime maxWaitMs : Z) :
  forall w,
    fst (waitForBranchName_loop env fuel startTime maxWaitMs w) = Ok None ->
    maxWaitMs
    <= clock (snd (waitForBranchName_loop env fuel startTime maxWaitMs w))
       - startTime.
Proof.
  induction fuel as [|fuel IH]; intros w;
    rewrite waitForBranchName_loop_unfold;
    destruct (Z.ltb_spec (clock w - startTime) maxWaitMs) as [Hlt|Hge];
    cbn [fst snd]; try discriminate; try (intros _; lia).
  cbv zeta. destruct (pollResult env w) as [name|]; [discriminate|].
  apply IH.
Qed.

(** X12.  When the branch-name wait returns without a name, at least
    [maxWaitMs] have passed since it began: a run for which no name
    arrives is held up for the full ten seconds before its sandbox is
    created. *)
Theorem wait_without_name_lasts_full_time
    (env : Env) (maxWaitMs : Z) (w : World) :
  fst (waitForBranchName env maxWaitMs w) = Ok None ->
  clock w + maxWaitMs <= clock (snd (waitForBranchName env maxWaitMs w)).
Proof.
  unfold waitForBranchName, bind, gets. cbv beta iota.
  intros H. pose proof (wait_loop_lasts env _ _ _ w H). lia.
Qed.

Lemma wait_without_name_lasts_full_time_witness :
  clock (initial (row None)) + 10000
  <= clock (snd (waitForBranchName calm 10000 (initial (row None)))).
Proof.
  apply (wait_without_name_lasts_full_time calm 10000 (initial (row None))).
  vm_compute. reflexivity.
Defined.

End PipelineProps.

(** ** The pipeline and its sandbox *)
Module LifecycleProps.
Import Js TaskStore Trigger Orchestrator Spec PipelineSpec Scenarios.
Import RunFacts WaitFacts StepFacts.
Local Open Scope string_scope.
Local Open Scope list_scope.
Local Open Scope Z_scope.
Local Open Scope pipeline_scope.

(** *** Who touches the variable *)

Lemma sandboxVar_clearTimeout (h : nat) (w : World) :
  sandboxVar (clearTimeout h w) = sandboxVar w.
Proof.
  unfold clearTimeout. destruct (nth_error (timers w) h) as [t|]; [|reflexivity].
  destruct (isScheduled t); reflexivity.
Qed.

Lemma sandboxVar_raceCatch (h : nat) (e : Exn) (w : World) :
  sandboxVar (snd (raceCatch h e w)) = sandboxVar w.
Proof.
  unfold raceCatch. destruct e as [m|v]; [|apply sandboxVar_clearTimeout].
  destruct (includes _ m); apply sandboxVar_clearTimeout.
Qed.

Lemma sandboxVar_runTimer (a : TimerAction) (w : World) :
  sandboxVar (runTimer a w) = sandboxVar w.
Proof.
  destruct a as [|m]; [reflexivity|]. cbn [runTimer]. unfold rejectRace.
  destruct (race w) as [|h|o]; try reflexivity.
  pose proof (sandboxVar_raceCatch h (JsError m) w) as H.
  destruct (raceCatch h (JsError m) w) as [o w']. exact H.
Qed.

Lemma sandboxVar_fireDue (fuel : nat) (w : World) :
  sandboxVar (fireDue fuel w) = sandboxVar w.
Proof.
  revert w. induction fuel as [|fuel IH]; intros w; cbn [fireDue];
    [reflexivity|].
  destruct (nextDue 0 (clock w) (timers w) None) as [[i d]|]; [|reflexivity].
  destruct (nth_error (timers w) i) as [t|]; [|reflexivity].
  rewrite IH, sandboxVar_runTimer. reflexivity.
Qed.

Lemma sandboxVar_serve (w : World) (a : Arrival) :
  sandboxVar (serve w a) = sandboxVar w.
Proof.
  destruct a; cbn [serve]; [|reflexivity].
  unfold PATCH_stop. destruct (Status_eqb _ _); reflexivity.
Qed.

Lemma sandboxVar_serve_all (l : list Arrival) (w : World) :
  sandboxVar (fold_left serve l w) = sandboxVar w.
Proof.
  revert w. induction l as [|a l IH]; intros w; cbn [fold_left];
    [reflexivity|].
  rewrite IH. apply sandboxVar_serve.
Qed.

Section Keeps.
Variable env : Env.

Lemma keeps_ret {A} (a : A) : keepsVar (ret a).
Proof. intros w. reflexivity. Qed.

Lemma keeps_throw {A} (e : Exn) : keepsVar (@throw A e).
Proof. intros w. reflexivity. Qed.

Lemma keeps_starve {A} : keepsVar (@starve A).
Proof. intros w. reflexivity. Qed.

Lemma keeps_gets {A} (f : World -> A) : keepsVar (gets f).
Proof. intros w. reflexivity. Qed.

Lemma keeps_bind {A B} (m : M B) (k : B -> M A) :
  keepsVar m -> (forall b, keepsVar (k b)) -> keepsVar (bind m k).
Proof.
  intros Hm Hk w. unfold bind. specialize (Hm w).
  destruct (m w) as [[b|e|] w1]; cbn [snd] in *; try exact Hm.
  rewrite Hk. exact Hm.
Qed.

Lemma keeps_tryCatch {A} (m : M A) (h : Exn -> M A) :
  keepsVar m -> (forall e, keepsVar (h e)) -> keepsVar (tryCatch m h).
Proof.
  intros Hm Hh w. unfold tryCatch. specialize (Hm w).
  destruct (m w) as [[b|e|] w1]; cbn [snd] in *; try exact Hm.
  rewrite Hh. exact Hm.
Qed.

Lemma keeps_act (f : World -> World) :
  (forall w, sandboxVar (f w) = sandboxVar w) -> keepsVar (act f).
Proof. intros H w. apply H. Qed.

Lemma keeps_suspend (ms : Z) : keepsVar (suspend env ms).
Proof.
  intros w. unfold suspend. cbn [snd withTicks sandboxVar].
  rewrite sandboxVar_fireDue. cbn [withClock sandboxVar].
  apply sandboxVar_serve_all.
Qed.

Lemma keeps_await {A} (r : result A) : keepsVar (await env r).
Proof.
  unfold await. apply keeps_bind; [apply keeps_suspend|].
  intros _. destruct r; [apply keeps_ret | apply keeps_throw].
Qed.

Lemma keeps_awaitDb {A} (f : World -> A * World) :
  (forall w, sandboxVar (snd (f w)) = sandboxVar w) ->
  keepsVar (awaitDb env f).
Proof.
  intros Hf w. unfold awaitDb.
  pose proof (keeps_suspend 0 w) as H1.
  change (suspend env 0 w) with (Ok tt, snd (suspend env 0 w)).
  cbv iota beta. destruct (dbThrows env (ticks w)); [exact H1|].
  specialize (Hf (snd (suspend env 0 w))).
  destruct (f (snd (suspend env 0 w))) as [a w2]. cbn [snd] in *.
  congruence.
Qed.

(** Applies the rule of [keepsVar] that fits the head of the program. *)
Ltac keepv_step :=
  cbv beta iota;
  lazymatch goal with
  | |- keepsVar (bind _ _) => apply keeps_bind; [|intros ?]
  | |- keepsVar (tryCatch _ _) => apply keeps_tryCatch; [|intros ?]
  | |- keepsVar (ret _) => apply keeps_ret
  | |- keepsVar (throw _) => apply keeps_throw
  | |- keepsVar starve => apply keeps_starve
  | |- keepsVar (gets _) => apply keeps_gets
  | |- keepsVar (act _) => apply keeps_act; intros ?; reflexivity
  | |- keepsVar (suspend _ _) => apply keeps_suspend
  | |- keepsVar (await _ _) => apply keeps_await
  | |- keepsVar (awaitDb _ _) => apply keeps_awaitDb; intros ?; reflexivity
  | |- keepsVar (when ?b _) => unfold when at 1; destruct b
  | |- keepsVar (if ?b then _ else _) => destruct b
  | |- keepsVar (match ?x with _ => _ end) => destruct x
  end.

Ltac keepv := repeat keepv_step.

Lemma keeps_logger (o : Origin) (l : Level) (msg : string) :
  keepsVar (logger env o l msg).
Proof. unfold logger. keepv. Qed.

Lemma keeps_updateStatus (s : Status) (msg : string) :
  keepsVar (updateStatus env s msg).
Proof. unfold updateStatus. keepv. Qed.

Lemma keeps_updateProgress (p : Z) (msg : string) :
  keepsVar (updateProgress env p msg).
Proof. unfold updateProgress. keepv. Qed.

Lemma keeps_isTaskStopped : keepsVar (isTaskStopped env).
Proof. unfold isTaskStopped, selectTaskRow. keepv. Qed.

Lemma keeps_shutdown : keepsVar (shutdown env).
Proof. unfold shutdown. keepv. Qed.

Lemma keeps_waitForBranchName (maxWaitMs : Z) :
  keepsVar (waitForBranchName env maxWaitMs).
Proof.
  unfold waitForBranchName. keepv.
  generalize dependent b. generalize (rounds maxWaitMs).
  induction n as [|fuel IH]; intros startTime; cbn [waitForBranchName_loop];
    unfold selectTaskRow; keepv.
  apply IH.
Qed.

Lemma keeps_forEach_onProgress (l : list (Z * string)) :
  keepsVar (forEach l (fun pm => onProgress env (fst pm) (snd pm))).
Proof.
  induction l as [|pm l IH]; cbn [forEach]; unfold onProgress; keepv.
  exact IH.
Qed.

Lemma keeps_loadMcpServers (a : Args) : keepsVar (loadMcpServers env a).
Proof. unfold loadMcpServers, logger. keepv. Qed.

Lemma keeps_finish (a : Args) (sandbox : Sandbox) (branch : option string)
    (agentResult : AgentResult) :
  keepsVar (finish env a sandbox branch agentResult).
Proof.
  unfold finish, publish, shutdown, selectTaskRow, logger, updateStatus,
    updateProgress.
  keepv.
Qed.

(** *** Rules for [tracks] *)

Lemma tracks_weaken {A} (v : option Sandbox) (m : M A)
    (Q Q' : Res A -> list Event -> option Sandbox -> Prop) :
  tracks v m Q -> (forall r l v', Q r l v' -> Q' r l v') -> tracks v m Q'.
Proof.
  intros H HQ w Hv. destruct (H w Hv) as [d [E HQd]].
  exists d. split; [exact E | apply HQ; exact HQd].
Qed.

(** A block that leaves the variable alone is seen through [emits]. *)
Lemma tracks_keeps {A} (v : option Sandbox) (m : M A)
    (Q : Res A -> list Event -> option Sandbox -> Prop) :
  keepsVar m -> emits m (fun r l => Q r l v) -> tracks v m Q.
Proof.
  intros Hk H w Hv. destruct (H w) as [d [E HQ]].
  exists d. split; [exact E|]. rewrite Hk, Hv. exact HQ.
Qed.

Lemma tracks_ret {A} (v : option Sandbox) (a : A)
    (Q : Res A -> list Event -> option Sandbox -> Prop) :
  Q (Ok a) [] v -> tracks v (ret a) Q.
Proof.
  intros H. apply tracks_keeps; [apply keeps_ret | apply emits_ret; exact H].
Qed.

Lemma tracks_throw {A} (v : option Sandbox) (e : Exn)
    (Q : Res A -> list Event -> option Sandbox -> Prop) :
  Q (Raise e) [] v -> tracks v (throw e) Q.
Proof.
  intros H. apply tracks_keeps; [apply keeps_throw | apply emits_throw; exact H].
Qed.

(** Reading the variable gives what it holds. *)
Lemma tracks_gets_sandboxVar (v : option Sandbox)
    (Q : Res (option Sandbox) -> list Event -> option Sandbox -> Prop) :
  Q (Ok v) [] v -> tracks v (gets sandboxVar) Q.
Proof.
  intros H w Hv. exists []. split.
  - unfold added. cbn. rewrite app_nil_r. reflexivity.
  - cbn. rewrite Hv. exact H.
Qed.

(** Assigning it. *)
Lemma tracks_withSandboxVar (v s : option Sandbox)
    (Q : Res unit -> list Event -> option Sandbox -> Prop) :
  Q (Ok tt) [] s -> tracks v (act (withSandboxVar s)) Q.
Proof.
  intros H w Hv. exists []. split.
  - unfold added. cbn. rewrite app_nil_r. reflexivity.
  - cbn. exact H.
Qed.

Lemma tracks_bind {A B} (v : option Sandbox) (m : M B) (k : B -> M A)
    (Q : Res A -> list Event -> option Sandbox -> Prop) :
  tracks v m (fun r l v' =>
                match r with
                | Ok b => tracks v' (k b) (fun r' l' v'' => Q r' (l ++ l') v'')
                | Raise e => Q (Raise e) l v'
                | Starved => Q Starved l v'
                end) ->
  tracks v (bind m k) Q.
Proof.
  intros H w Hv. destruct (H w Hv) as [d1 [E1 H1]]. unfold bind.
  destruct (m w) as [[b|e|] w1]; cbn [fst snd] in *.
  - destruct (H1 w1 eq_refl) as [d2 [E2 H2]]. exists (d1 ++ d2). split.
    + unfold added in *. rewrite E2, E1, app_assoc. reflexivity.
    + rewrite own_app. exact H2.
  - exists d1. split; assumption.
  - exists d1. split; assumption.
Qed.

Lemma tracks_tryCatch {A} (v : option Sandbox) (m : M A) (h : Exn -> M A)
    (Q : Res A -> list Event -> option Sandbox -> Prop) :
  tracks v m (fun r l v' =>
                match r with
                | Raise e => tracks v' (h e)
                               (fun r' l' v'' => Q r' (l ++ l') v'')
                | _ => Q r l v'
                end) ->
  tracks v (tryCatch m h) Q.
Proof.
  intros H w Hv. destruct (H w Hv) as [d1 [E1 H1]]. unfold tryCatch.
  destruct (m w) as [[b|e|] w1]; cbn [fst snd] in *.
  - exists d1. split; assumption.
  - destruct (H1 w1 eq_refl) as [d2 [E2 H2]]. exists (d1 ++ d2). split.
    + unfold added in *. rewrite E2, E1, app_assoc. reflexivity.
    + rewrite own_app. exact H2.
  - exists d1. split; assumption.
Qed.

(** Continues after a block whose calls are known. *)
Lemma tracks_after_ends {A} (v : option Sandbox) (m : M A)
    (ok bare held : list (list Call))
    (Q : Res A -> list Event -> option Sandbox -> Prop) :
  tracks v m (ends ok bare held) ->
  (forall b l v', In (steps call l) ok -> Q (Ok b) l v') ->
  (forall e l, In (steps call l) bare -> Q (Raise e) l None) ->
  (forall e l s, In (steps call l) held -> Q (Raise e) l (Some s)) ->
  tracks v m Q.
Proof.
  intros H Hok Hbare Hheld. apply (tracks_weaken _ _ _ _ H).
  intros [b|e|] l [s|]; cbn [ends]; auto; contradiction.
Qed.

(** Applies the rule of [tracks] that fits the head of the program; a
    step that leaves the variable alone is handed to [run_step]. *)
Ltac track_step :=
  cbv beta iota;
  lazymatch goal with
  | |- tracks _ (bind _ _) _ => apply tracks_bind
  | |- tracks _ (tryCatch _ _) _ => apply tracks_tryCatch
  | |- tracks _ (ret _) _ => apply tracks_ret
  | |- tracks _ (throw _) _ => apply tracks_throw
  | |- tracks _ (gets sandboxVar) _ => apply tracks_gets_sandboxVar
  | |- tracks _ (act (withSandboxVar _)) _ => apply tracks_withSandboxVar
  | |- tracks _ (act (emit _)) _ =>
      apply tracks_keeps; [apply keeps_act; intros ?; reflexivity | run_step]
  | |- tracks _ (await _ _) _ =>
      apply tracks_keeps; [apply keeps_await | run_step]
  | |- tracks _ (awaitDb _ _) _ =>
      apply tracks_keeps;
      [apply keeps_awaitDb; intros ?; reflexivity | run_step]
  | |- tracks _ (selectTaskRow _) _ =>
      apply tracks_keeps;
      [unfold selectTaskRow; apply keeps_awaitDb; intros ?; reflexivity
      | run_step]
  | |- tracks _ (logger _ _ _ _) _ =>
      apply tracks_keeps; [apply keeps_logger | run_step]
  | |- tracks _ (updateStatus _ _ _) _ =>
      apply tracks_keeps; [apply keeps_updateStatus | run_step]
  | |- tracks _ (updateProgress _ _ _) _ =>
      apply tracks_keeps; [apply keeps_updateProgress | run_step]
  | |- tracks _ (isTaskStopped _) _ =>
      apply tracks_keeps; [apply keeps_isTaskStopped | run_step]
  | |- tracks _ (shutdown _) _ =>
      apply tracks_keeps; [apply keeps_shutdown | run_step]
  | |- tracks _ (forEach _ (fun pm => onProgress _ _ _)) _ =>
      apply tracks_keeps; [apply keeps_forEach_onProgress | run_step]
  | |- tracks _ (waitForBranchName _ _) _ =>
      apply tracks_keeps;
      [apply keeps_waitForBranchName
      | apply emits_waitForBranchName; intros ? ?]
  | |- tracks _ (when ?b _) _ => unfold when at 1; destruct b eqn:?
  | |- tracks _ (if ?b then _ else _) _ => destruct b eqn:?
  | |- tracks _ (match ?x with _ => _ end) _ => destruct x eqn:?
  end.

Ltac track := repeat track_step.

(** Settles a leaf: the calls among the events gathered on the way. *)
Ltac settle_calls :=
  solve
    [ unfold ends, yields, afterDone in *; cbv beta iota;
      rewrite ?steps_app;
      rewrite ?steps_polls_none by (intros; reflexivity);
      repeat match goal with
             | H : In _ (_ :: _) |- _ =>
                 destruct H as [H|H]; [rewrite <- H in * |]
             | H : In _ [] |- _ => destruct H
             end;
      repeat match goal with
             | H : negb ?x = _ |- _ =>
                 revert H; destruct x; cbn [negb]; intros H;
                 try discriminate H; clear H
             end;
      repeat match goal with
             | |- context [match ?x with _ => _ end] => destruct x
             end;
      cbn; auto 20 ].

Section Calls.
Variable a : Args.

Lemma loadMcpServers_calls :
  emits (loadMcpServers env a) (yields call [[]] []).
Proof. unfold loadMcpServers. run; settle_calls. Qed.

Lemma publish_calls (agentResult : AgentResult) (branch : string) :
  emits (publish env a agentResult branch) (yields call [[]] [[]]).
Proof. unfold publish. run; settle_calls. Qed.

Lemma finish_calls (sandbox : Sandbox) (branch : option string)
    (agentResult : AgentResult) :
  emits (finish env a sandbox branch agentResult)
        (yields call [Done :: afterDone a] [[]]).
Proof.
  unfold finish. run; try settle_calls.
  all: after publish_calls; run; settle_calls.
Qed.

(** From the checkpoint before the agent on: with no sandbox in the
    variable the agent is not called. *)
Lemma runAgent_calls (v : option Sandbox) (branch : option string) :
  tracks v (runAgent env a branch)
         (ends [[]; [Agent]; Agent :: Done :: afterDone a] [[]] [[Agent]]).
Proof.
  unfold runAgent. track; try settle_calls.
  all: apply tracks_keeps; [apply keeps_loadMcpServers|].
  all: after loadMcpServers_calls; track; try settle_calls.
  all: apply tracks_keeps; [apply keeps_finish|].
  all: after finish_calls; run; settle_calls.
Qed.

(** Continues after a block whose calls and variable are known. *)
Ltac after_calls lemma :=
  cbv beta iota;
  eapply tracks_after_ends;
  [apply lemma | intros ? ? ? ? | intros ? ? ? | intros ? ? ? ?].

Lemma provision_calls (aiBranchName : option string) :
  tracks None (provision env a aiBranchName)
         (ends [ [Create]; [Create; Shut]; [Create; Update];
                 [Create; Update; Agent];
                 Create :: Update :: Agent :: Done :: afterDone a ]
               [ []; [Create]; [Create; Update] ]
               [ [Create]; [Create; Update; Agent] ]).
Proof.
  unfold provision. track; try settle_calls.
  all: after_calls runAgent_calls; settle_calls.
Qed.

Lemma start_calls :
  tracks None (start env a)
         (ends [ []; [Create]; [Create; Shut]; [Create; Update];
                 [Create; Update; Agent];
                 Create :: Update :: Agent :: Done :: afterDone a ]
               [ []; [Create]; [Create; Update] ]
               [ [Create]; [Create; Update; Agent] ]).
Proof.
  unfold start. track; try settle_calls.
  all: after_calls provision_calls; settle_calls.
Qed.

Lemma processTask_calls (v : option Sandbox) :
  tracks v (processTask env a)
         (fun _ l _ =>
            In (steps call l)
               [ []; [Create]; [Create; Shut]; [Create; Update];
                 [Create; Update; Agent];
                 Create :: Update :: Agent :: Done :: afterDone a;
                 [Failed]; [Create; Failed]; [Create; Failed; Shut];
                 [Create; Update; Failed];
                 [Create; Update; Agent; Failed; Shut] ]).
Proof.
  unfold processTask. track.
  after_calls start_calls; track; settle_calls.
Qed.

End Calls.
End Keeps.

(** X13.  The pipeline's calls that concern the sandbox, with its
    terminal status write, come in one of the eleven orders listed.  So
    the sandbox is shut down at most once, as the last of them and only
    after [createSandbox] was called; after [completed] it is shut down
    unless the task asks to keep it alive; the agent is called only
    after the row was updated with the sandbox; and at most one terminal
    status is written. *)
Theorem sandbox_calls_in_order (env : Env) (a : Args) (w : World) :
  exists d,
    trace (snd (processTask env a w)) = trace w ++ d
    /\ In (steps call d)
          [ []; [Create]; [Create; Shut]; [Create; Update];
            [Create; Update; Agent];
            Create :: Update :: Agent :: Done
              :: (if arg_keepAlive a then [] else [Shut]);
            [Failed]; [Create; Failed]; [Create; Failed; Shut];
            [Create; Update; Failed];
            [Create; Update; Agent; Failed; Shut] ].
Proof.
  destruct (processTask_calls env a (sandboxVar w) w eq_refl) as [d [E H]].
  exists d. split; [exact E|].
  rewrite steps_own in H; [exact H|].
  intros [[] []| [] | | | | | | | | | | | | | | |]; try reflexivity;
    discriminate.
Qed.

End LifecycleProps.

(** ** The two timers of [processTaskWithTimeout] *)
Module TimerProps.
Import Js TaskStore Trigger Orchestrator Spec TimerSpec Scenarios.
Import RunFacts WaitFacts RaceFacts InvariantFacts.
Local Open Scope pipeline_scope.
Local Open Scope string_scope.
Local Open Scope list_scope.
Local Open Scope Z_scope.

(** *** Steps that leave the timers alone *)

Lemma plain_refl (w : World) : plain w w.
Proof.
  repeat split. exists []. rewrite app_nil_r. repeat split.
Qed.

Lemma plain_trans (a b c : World) : plain a b -> plain b c -> plain a c.
Proof.
  intros [T1 [R1 [C1 [l1 [E1 A1]]]]] [T2 [R2 [C2 [l2 [E2 A2]]]]].
  split; [congruence|]. split; [congruence|]. split; [congruence|].
  exists (l1 ++ l2). rewrite !filter_app, A1, A2.
  split; [|reflexivity]. rewrite E2, E1, app_assoc. reflexivity.
Qed.

Lemma plain_emit (e : Event) (w : World) :
  isWarning e = false -> plain w (emit e w).
Proof.
  intros A. repeat split. exists [e]. cbn. rewrite A. repeat split.
Qed.

Lemma plain_same (w w' : World) :
  timers w' = timers w -> race w' = race w -> clock w' = clock w ->
  trace w' = trace w -> plain w w'.
Proof.
  intros T R C E. repeat split; try assumption.
  exists []. rewrite app_nil_r. repeat split. exact E.
Qed.

Lemma plain_then_emit (e : Event) (w w1 : World) :
  isWarning e = false -> plain w w1 -> plain w (emit e w1).
Proof.
  intros A H. eapply plain_trans; [exact H | apply plain_emit; assumption].
Qed.

Lemma plain_then_same (w w1 w2 : World) :
  timers w2 = timers w1 -> race w2 = race w1 -> clock w2 = clock w1 ->
  trace w2 = trace w1 ->
  plain w w1 -> plain w w2.
Proof.
  intros T R C E H.
  eapply plain_trans; [exact H | apply plain_same; assumption].
Qed.

Lemma plain_serve (w : World) (a : Arrival) : plain w (serve w a).
Proof.
  destruct a as [|name]; cbn [serve].
  - unfold PATCH_stop. destruct (Status_eqb _ _).
    + unfold stopTaskExecution, logger_log.
      apply plain_then_emit; [reflexivity|].
      apply plain_then_emit; [reflexivity|].
      eapply plain_then_same;
        [reflexivity | reflexivity | reflexivity | reflexivity |].
      apply plain_emit; reflexivity.
    + apply plain_emit; reflexivity.
  - apply plain_then_emit; [reflexivity|].
    apply plain_same; reflexivity.
Qed.

Lemma plain_serve_all (l : list Arrival) (w : World) :
  plain w (fold_left serve l w).
Proof.
  revert w. induction l as [|a l IH]; intros w; cbn [fold_left].
  - apply plain_refl.
  - eapply plain_trans; [apply plain_serve | apply IH].
Qed.

(** *** Invariants that such steps and suspensions keep *)
Section Invariant.
Variable I : World -> Prop.
Hypothesis I_plain : forall w w', I w -> plain w w' -> I w'.
Variable env : Env.
Hypothesis I_suspend :
  forall ms w, 0 <= ms -> I w -> I (snd (suspend env ms w)).

(** Settles that a plain update of the world keeps the invariant. *)
Ltac plain_solve :=
  intros ? ?; cbn [snd fst]; eapply I_plain; [eassumption|];
  unfold logger_updateStatus, logger_updateProgress, logger_log;
  repeat (apply plain_then_emit; [reflexivity|]);
  first [ apply plain_refl | apply plain_same; reflexivity ].

Ltac stay := repeat stay_step I_suspend plain_solve.

Lemma stays_waitForBranchName_loop (fuel : nat) (startTime maxWaitMs : Z) :
  preserves I (waitForBranchName_loop env fuel startTime maxWaitMs).
Proof.
  induction fuel as [|fuel IH]; cbn [waitForBranchName_loop];
    unfold selectTaskRow; stay.
  exact IH.
Qed.

Lemma stays_forEach_onProgress (l : list (Z * string)) :
  preserves I (forEach l (fun pm => onProgress env (fst pm) (snd pm))).
Proof.
  induction l as [|pm l IH]; cbn [forEach]; unfold onProgress; stay.
  exact IH.
Qed.

Lemma stays_processTask (a : Args) : preserves I (processTask env a).
Proof.
  unfold processTask, start, provision, runAgent, finish, publish,
    loadMcpServers, waitForBranchName, shutdown, isTaskStopped, selectTaskRow,
    logger, updateStatus, updateProgress.
  stay;
    try apply stays_waitForBranchName_loop;
    try apply stays_forEach_onProgress.
Qed.

End Invariant.

(** *** The invariant of the two timers *)
Section Timers.
Variable tr0 : list Event.
Variable maxDuration : Z.

Lemma timersInv_plain (w w' : World) :
  timersInv tr0 maxDuration w -> plain w w' -> timersInv tr0 maxDuration w'.
Proof.
  intros [d [dw [dd [sw [sd [E [T [S H]]]]]]]] [T' [R' [_ [l [E' A]]]]].
  exists (d ++ l), dw, dd, sw, sd.
  rewrite T', R', E', E, !filter_app, A, S, !app_nil_r, app_assoc.
  split; [reflexivity|]. split; [exact T|]. split; [reflexivity | exact H].
Qed.

(** One timer coming due: the advisory timer logs its line and is then
    marked as fired; the deadline, which can fire only while the race is
    pending, runs the catch block, which clears the advisory timer. *)
Lemma timersInv_fire (w : World) :
  timersInv tr0 maxDuration w ->
  match nextDue 0 (clock w) (timers w) None with
  | None => True
  | Some (i, _) =>
      match nth_error (timers w) i with
      | None => True
      | Some t =>
          timersInv tr0 maxDuration
            (runTimer (action t)
               (emit (ETimerFired i)
                  (withTimers (setState i Fired (timers w)) w)))
      end
  end.
Proof.
  intros [d [dw [dd [sw [sd [E [T [S H]]]]]]]].
  rewrite T. cbn [nextDue isScheduled tstate due].
  assert (Warn_fires : sw = Scheduled ->
    timersInv tr0 maxDuration
      (runTimer Warn
         (emit (ETimerFired 0)
            (withTimers
               (setState 0 Fired
                  [ {| due := dw; action := Warn; tstate := sw |};
                    {| due := dd; action := Reject (timeoutError maxDuration);
                       tstate := sd |} ]) w)))).
  { intros ->.
    exists (d ++ [ETimerFired 0; WARNING_LINE]), dw, dd, Fired, sd.
    cbn. rewrite E, !filter_app, S. cbn.
    split; [rewrite <- ?app_assoc; reflexivity|].
    split; [reflexivity|]. split; [reflexivity|].
    destruct H as [[R [Hs _]]|[_ [_ Hw]]]; [|contradiction Hw; reflexivity].
    left. repeat split; try assumption. discriminate. }
  assert (Deadline_fires : sd = Scheduled ->
    timersInv tr0 maxDuration
      (runTimer (Reject (timeoutError maxDuration))
         (emit (ETimerFired 1)
            (withTimers
               (setState 1 Fired
                  [ {| due := dw; action := Warn; tstate := sw |};
                    {| due := dd; action := Reject (timeoutError maxDuration);
                       tstate := sd |} ]) w)))).
  { intros ->. destruct H as [[R [_ Hw]]|[_ [Hs _]]]; [|discriminate].
    cbn [runTimer]. unfold rejectRace. cbn [race emit withTimers].
    rewrite R. unfold raceCatch. rewrite timeoutError_recognised.
    exists (d ++ [ETimerFired 1;
                  ELog RaceHandler failure "Task execution timed out";
                  timeoutWrite]),
           dw, dd, (match sw with Scheduled => Cleared | s => s end), Fired.
    destruct sw; [| contradiction Hw; reflexivity |];
      cbn; rewrite E, !filter_app, S; cbn;
      (split; [rewrite <- ?app_assoc; reflexivity|]);
      (split; [reflexivity|]);
      (split; [reflexivity|]); right; repeat split; discriminate. }
  destruct sw, sd; cbn [andb isScheduled tstate due];
    destruct (dw <=? clock w), (dd <=? clock w); try destruct (dd <? dw);
    cbn [nth_error action];
    try exact I;
    try (apply Warn_fires; reflexivity);
    try (apply Deadline_fires; reflexivity).
Qed.

Lemma timersInv_fireDue (fuel : nat) (w : World) :
  timersInv tr0 maxDuration w -> timersInv tr0 maxDuration (fireDue fuel w).
Proof.
  revert w. induction fuel as [|fuel IH]; intros w H; cbn [fireDue];
    [exact H|].
  pose proof (timersInv_fire w H) as Hstep.
  destruct (nextDue 0 (clock w) (timers w) None) as [[i due]|]; [|exact H].
  destruct (nth_error (timers w) i) as [t|]; [|exact H].
  apply IH. exact Hstep.
Qed.

(** The invariant does not mention the clock. *)
Lemma timersInv_clock (c : Z) (w : World) :
  timersInv tr0 maxDuration w -> timersInv tr0 maxDuration (withClock c w).
Proof. intros H. exact H. Qed.

Lemma timersInv_ticks (n : nat) (w : World) :
  timersInv tr0 maxDuration w -> timersInv tr0 maxDuration (withTicks n w).
Proof. intros H. exact H. Qed.

Lemma timersInv_suspend (env : Env) (ms : Z) (w : World) :
  0 <= ms ->
  timersInv tr0 maxDuration w ->
  timersInv tr0 maxDuration (snd (suspend env ms w)).
Proof.
  intros _ H. unfold suspend. cbn [snd].
  apply timersInv_ticks, timersInv_fireDue, timersInv_clock.
  eapply timersInv_plain; [exact H | apply plain_serve_all].
Qed.

End Timers.

(** *** The deadline timer is due when the budget ends *)
Section Deadline.
Variable start timeout : Z.

Lemma deadlineInv_same (w w' : World) :
  timers w' = timers w -> clock w <= clock w' ->
  deadlineInv start timeout w -> deadlineInv start timeout w'.
Proof.
  intros T C [adv [m [sd [E [A H]]]]]. exists adv, m, sd.
  rewrite T. split; [exact E|]. split; [exact A|].
  intros F. specialize (H F). lia.
Qed.

Lemma deadlineInv_plain (w w' : World) :
  deadlineInv start timeout w -> plain w w' -> deadlineInv start timeout w'.
Proof.
  intros H [T [_ [C _]]]. apply (deadlineInv_same w); [exact T | lia | exact H].
Qed.

Lemma deadlineInv_clearTimeout (h : nat) (w : World) :
  deadlineInv start timeout w -> deadlineInv start timeout (clearTimeout h w).
Proof.
  intros [adv [m [sd [E [A H]]]]]. unfold clearTimeout. rewrite E.
  destruct h as [|[|h]]; cbn [nth_error].
  - destruct (isScheduled adv); [|exists adv, m, sd; auto].
    eexists _, m, sd. cbn [setState timers withTimers clock].
    split; [reflexivity|]. split; [exact A | exact H].
  - unfold isScheduled. cbn [tstate].
    destruct sd; try (exists adv, m; eexists; split; [exact E|]; auto; fail).
    exists adv, m, Cleared. cbn [setState timers withTimers clock due action].
    split; [reflexivity|]. split; [exact A | discriminate].
  - destruct h; cbn [nth_error]; exists adv, m, sd; auto.
Qed.

Lemma deadlineInv_runTimer (a : TimerAction) (w : World) :
  deadlineInv start timeout w -> deadlineInv start timeout (runTimer a w).
Proof.
  intros H. destruct a as [|message]; cbn [runTimer].
  - apply (deadlineInv_same w); [reflexivity | cbn; lia | exact H].
  - unfold rejectRace. destruct (race w) as [|h|o]; [exact H | | exact H].
    unfold raceCatch.
    destruct (includes "timed out after" message);
      (eapply deadlineInv_same;
       [| | apply (deadlineInv_clearTimeout h); exact H]);
      try reflexivity; cbn; lia.
Qed.

Lemma deadlineInv_fire (w : World) :
  deadlineInv start timeout w ->
  match nextDue 0 (clock w) (timers w) None with
  | None => True
  | Some (i, _) =>
      match nth_error (timers w) i with
      | None => True
      | Some t =>
          deadlineInv start timeout
            (runTimer (action t)
               (emit (ETimerFired i)
                  (withTimers (setState i Fired (timers w)) w)))
      end
  end.
Proof.
  intros [adv [m [sd [E [A H]]]]]. rewrite E.
  assert (First :
    deadlineInv start timeout
      (runTimer (action adv)
         (emit (ETimerFired 0)
            (withTimers
               (setState 0 Fired
                  [ adv; {| due := start + nodeDelay timeout;
                            action := Reject m; tstate := sd |} ]) w)))).
  { apply deadlineInv_runTimer. eexists _, m, sd.
    cbn [setState timers withTimers emit clock action].
    split; [reflexivity|]. split; [exact A | exact H]. }
  assert (Second : start + nodeDelay timeout <= clock w ->
    deadlineInv start timeout
      (runTimer (Reject m)
         (emit (ETimerFired 1)
            (withTimers
               (setState 1 Fired
                  [ adv; {| due := start + nodeDelay timeout;
                            action := Reject m; tstate := sd |} ]) w)))).
  { intros Hdue. apply deadlineInv_runTimer. exists adv, m, Fired.
    cbn [setState timers withTimers emit clock action due].
    split; [reflexivity|]. split; [exact A|]. intros _. exact Hdue. }
  cbn [nextDue]. set (b := isScheduled adv && (due adv <=? clock w)).
  unfold isScheduled. cbn [tstate due].
  destruct b, sd; cbn [andb];
    try destruct (start + nodeDelay timeout <=? clock w) eqn:Hd;
    try destruct (start + nodeDelay timeout <? due adv);
    cbn [nth_error action];
    try exact I; try exact First;
    apply Second; lia.
Qed.

Lemma deadlineInv_fireDue (fuel : nat) (w : World) :
  deadlineInv start timeout w -> deadlineInv start timeout (fireDue fuel w).
Proof.
  revert w. induction fuel as [|fuel IH]; intros w H; cbn [fireDue];
    [exact H|].
  pose proof (deadlineInv_fire w H) as Hstep.
  destruct (nextDue 0 (clock w) (timers w) None) as [[i due]|]; [|exact H].
  destruct (nth_error (timers w) i) as [t|]; [|exact H].
  apply IH. exact Hstep.
Qed.

Lemma deadlineInv_suspend (env : Env) (ms : Z) (w : World) :
  0 <= ms ->
  deadlineInv start timeout w ->
  deadlineInv start timeout (snd (suspend env ms w)).
Proof.
  intros Hms H. unfold suspend. cbn [snd].
  eapply deadlineInv_same;
    [| | apply deadlineInv_fireDue; eapply deadlineInv_same;
         [| | eapply deadlineInv_plain; [exact H | apply plain_serve_all]]];
    try reflexivity; cbn [clock withClock withTicks]; lia.
Qed.

End Deadline.

(** When a run of [processTaskWithTimeout] that began with no timers set
    has ended with the deadline timer fired, the budget, as Node counts
    it, has passed since the run began. *)
Lemma processTaskWithTimeout_deadline (env : Env) (a : Args) (w : World) :
  timers w = [] ->
  deadlineFired (snd (processTaskWithTimeout env a w)) = true ->
  clock w + nodeDelay (arg_maxDuration a * 60 * 1000)
  <= clock (snd (processTaskWithTimeout env a w)).
Proof.
  intros Ht. rewrite (processTaskWithTimeout_unfold env a w Ht).
  assert (H3 : deadlineInv (clock w) (arg_maxDuration a * 60 * 1000)
                 (armed a w)).
  { unfold deadlineInv, armed. do 3 eexists.
    cbn [timers withRace withTimers clock].
    split; [reflexivity|]. split; [reflexivity | discriminate]. }
  pose proof (stays_processTask
                (deadlineInv (clock w) (arg_maxDuration a * 60 * 1000))
                (deadlineInv_plain (clock w) (arg_maxDuration a * 60 * 1000))
                env
                (deadlineInv_suspend (clock w)
                   (arg_maxDuration a * 60 * 1000) env) a
                (armed a w) H3) as H'.
  destruct (processTask_run env a (armed a w)) as [d0 [_ [R _]]].
  destruct (processTask env a (armed a w)) as [r w'].
  cbn [fst snd] in *. subst r.
  assert (H4 : deadlineInv (clock w) (arg_maxDuration a * 60 * 1000)
                 (snd (settleByPipeline 0 (Ok tt) w'))).
  { unfold settleByPipeline. destruct (race w') as [|h|[| |e]]; cbn [snd];
      try exact H'.
    eapply deadlineInv_same; [| | apply (deadlineInv_clearTimeout _ _ 0 w' H')];
      [reflexivity | cbn; lia]. }
  destruct H4 as [adv [m [sd [E [A H]]]]].
  unfold deadlineFired. rewrite E. cbn [existsb action tstate]. rewrite A.
  cbn [orb]. destruct sd; try discriminate. intros _. apply H. reflexivity.
Qed.

(** The two timers when a run of [processTaskWithTimeout] that began with
    no timers set has ended: the race is settled, the advisory timer is
    cleared or has fired, and it has logged its line exactly if it has
    fired. *)
Lemma processTaskWithTimeout_timers (env : Env) (a : Args) (w : World) :
  timers w = [] ->
  exists d dw dd sw sd o,
    trace (snd (processTaskWithTimeout env a w)) = trace w ++ d
    /\ timers (snd (processTaskWithTimeout env a w))
       = [ {| due := dw; action := Warn; tstate := sw |};
           {| due := dd; action := Reject (timeoutError (arg_maxDuration a));
              tstate := sd |} ]
    /\ race (snd (processTaskWithTimeout env a w)) = Settled o
    /\ sw <> Scheduled
    /\ filter isWarning d = warningsFor sw.
Proof.
  intros Ht. rewrite (processTaskWithTimeout_unfold env a w Ht).
  assert (H3 : timersInv (trace w) (arg_maxDuration a) (armed a w)).
  { unfold timersInv. do 5 eexists.
    split; [symmetry; apply app_nil_r|].
    split; [reflexivity|]. split; [reflexivity|].
    left. repeat split. discriminate. }
  pose proof (stays_processTask (timersInv (trace w) (arg_maxDuration a))
                (timersInv_plain (trace w) (arg_maxDuration a)) env
                (timersInv_suspend (trace w) (arg_maxDuration a) env) a
                (armed a w) H3) as H'.
  destruct (processTask_run env a (armed a w)) as [d0 [_ [R _]]].
  destruct (processTask env a (armed a w)) as [r w'].
  cbn [fst snd] in *. subst r.
  destruct H' as [d [dw [dd [sw [sd [E [T [W Hrace]]]]]]]].
  unfold settleByPipeline.
  destruct Hrace as [[Hr [-> Hw]]|[Hr [-> Hw]]]; rewrite Hr.
  - (* the pipeline came first: line 261 clears the advisory timer *)
    cbn [fst snd]. unfold clearTimeout. rewrite T. cbn [nth_error].
    destruct sw; [|contradiction Hw; reflexivity|]; cbn.
    + exists d, dw, dd, Cleared, Scheduled, PipelineFinished.
      repeat split; try assumption. discriminate.
    + exists d, dw, dd, Fired, Scheduled, PipelineFinished.
      rewrite T. repeat split; try assumption. discriminate.
  - (* the deadline came first *)
    cbn [fst snd].
    exists d, dw, dd, sw, Fired, DeadlineFired.
    repeat split; assumption.
Qed.

(** Once the race is settled and the advisory timer is no longer
    scheduled, time passing changes nothing but the state of the
    deadline timer. *)
Lemma drain_settled (w : World) (ms dw dd : Z) (sw sd : TimerState)
    (message : string) (o : RaceOutcome) :
  timers w = [ {| due := dw; action := Warn; tstate := sw |};
               {| due := dd; action := Reject message; tstate := sd |} ] ->
  race w = Settled o ->
  sw <> Scheduled ->
  store (drain ms w) = store w
  /\ race (drain ms w) = race w
  /\ In (trace (drain ms w)) [trace w; trace w ++ [ETimerFired 1]].
Proof.
  intros T R Hsw. unfold drain. cbv zeta.
  cbn [withClock timers clock]. rewrite T. cbn [List.length fireDue].
  cbn [withClock timers clock]. rewrite T.
  destruct sw; [contradiction Hsw; reflexivity | |];
    destruct sd; cbn [nextDue isScheduled tstate due andb];
    try (cbn [store race trace withClock]; split; [|split];
         [reflexivity | reflexivity | left; reflexivity]);
    (destruct (dd <=? clock w + Z.max 0 ms);
     [|cbn [store race trace withClock]; split; [|split];
       [reflexivity | reflexivity | left; reflexivity]]);
    cbn [nth_error withTimers timers action runTimer setState];
    unfold rejectRace; cbn [emit race withTimers withClock]; rewrite R;
    cbn [timers clock setState nextDue isScheduled tstate due andb
         store race trace withClock withTimers emit];
    (split; [|split]; [reflexivity | exact R | right; left; reflexivity]).
Qed.

(** X14.  The advisory timer is never left scheduled: when a run of
    [processTaskWithTimeout] ends, either the timer has been cleared and
    its line was not logged, or it has fired and its line was logged
    exactly once. *)
Theorem advisory_timer_cleared_or_fired (env : Env) (a : Args) (w : World) :
  timers w = [] ->
  exists d deadline,
    trace (snd (processTaskWithTimeout env a w)) = trace w ++ d
    /\ ((map tstate (timers (snd (processTaskWithTimeout env a w)))
         = [Cleared; deadline]
         /\ filter isWarning d = [])
        \/ (map tstate (timers (snd (processTaskWithTimeout env a w)))
            = [Fired; deadline]
            /\ filter isWarning d = [WARNING_LINE])).
Proof.
  intros Ht.
  destruct (processTaskWithTimeout_timers env a w Ht)
    as [d [dw [dd [sw [sd [o [E [T [_ [Hsw Hlog]]]]]]]]]].
  exists d, sd. split; [exact E|]. rewrite T. cbn [map tstate].
  destruct sw; [contradiction Hsw; reflexivity | left | right];
    split; try reflexivity; exact Hlog.
Qed.

Lemma advisory_timer_cleared_or_fired_witness :
  exists d deadline,
    trace (snd (processTaskWithTimeout slowAgent (repoArgs 1)
                  (initial (row (Some "feature/fix-login")))))
    = trace (initial (row (Some "feature/fix-login"))) ++ d
    /\ ((map tstate
           (timers (snd (processTaskWithTimeout slowAgent (repoArgs 1)
                           (initial (row (Some "feature/fix-login"))))))
         = [Cleared; deadline]
         /\ filter isWarning d = [])
        \/ (map tstate
              (timers (snd (processTaskWithTimeout slowAgent (repoArgs 1)
                              (initial (row (Some "feature/fix-login"))))))
            = [Fired; deadline]
            /\ filter isWarning d = [WARNING_LINE])).
Proof.
  apply (advisory_timer_cleared_or_fired slowAgent (repoArgs 1)
           (initial (row (Some "feature/fix-login")))).
  reflexivity.
Defined.

(** X15.  Whatever timer is still scheduled when a run of
    [processTaskWithTimeout] has ended does nothing when it comes due
    later: the row and the outcome of the race stay as they are, no line
    is logged, and at most the firing of the deadline timer (handle 1),
    whose rejection the settled race ignores, is added to the trace. *)
Theorem timers_left_behind_write_nothing
    (env : Env) (a : Args) (w : World) (ms : Z) :
  timers w = [] ->
  store (drain ms (snd (processTaskWithTimeout env a w)))
  = store (snd (processTaskWithTimeout env a w))
  /\ race (drain ms (snd (processTaskWithTimeout env a w)))
     = race (snd (processTaskWithTimeout env a w))
  /\ In (trace (drain ms (snd (processTaskWithTimeout env a w))))
        [ trace (snd (processTaskWithTimeout env a w));
          trace (snd (processTaskWithTimeout env a w)) ++ [ETimerFired 1] ].
Proof.
  intros Ht.
  destruct (processTaskWithTimeout_timers env a w Ht)
    as [d [dw [dd [sw [sd [o [_ [T [R [Hsw _]]]]]]]]]].
  exact (drain_settled _ ms dw dd sw sd _ o T R Hsw).
Qed.

Lemma timers_left_behind_write_nothing_witness :
  store (drain 300000
           (snd (processTaskWithTimeout calm (repoArgs 5)
                   (initial (row (Some "feature/fix-login"))))))
  = store (snd (processTaskWithTimeout calm (repoArgs 5)
                  (initial (row (Some "feature/fix-login")))))
  /\ race (drain 300000
             (snd (processTaskWithTimeout calm (repoArgs 5)
                     (initial (row (Some "feature/fix-login"))))))
     = race (snd (processTaskWithTimeout calm (repoArgs 5)
                    (initial (row (Some "feature/fix-login")))))
  /\ In (trace (drain 300000
                  (snd (processTaskWithTimeout calm (repoArgs 5)
                          (initial (row (Some "feature/fix-login")))))))
        [ trace (snd (processTaskWithTimeout calm (repoArgs 5)
                        (initial (row (Some "feature/fix-login")))));
          trace (snd (processTaskWithTimeout calm (repoArgs 5)
                        (initial (row (Some "feature/fix-login")))))
            ++ [ETimerFired 1] ].
Proof.
  apply (timers_left_behind_write_nothing calm (repoArgs 5)
           (initial (row (Some "feature/fix-login"))) 300000).
  reflexivity.
Defined.

(** X16.  A run is not failed for timing out before its time: with a
    budget of [maxDuration] minutes that Node's timers can hold (at least
    a millisecond and at most 2^31-1 ms), the handler's timeout error is
    in the trace of a run of [processTaskWithTimeout] only if, when the
    run ended, [maxDuration * 60 * 1000] milliseconds had passed since it
    began. *)
Theorem timeout_error_not_before_budget (env : Env) (a : Args) (w : World) :
  timers w = [] ->
  1 <= arg_maxDuration a * 60 * 1000 <= TIMEOUT_MAX ->
  exists d,
    trace (snd (processTaskWithTimeout env a w)) = trace w ++ d
    /\ (In (EStatus RaceHandler error TIMEOUT_STATUS_MESSAGE) d ->
        clock w + arg_maxDuration a * 60 * 1000
        <= clock (snd (processTaskWithTimeout env a w))).
Proof.
  intros Ht Hb.
  destruct (processTaskWithTimeout_run env a w Ht)
    as [d [E [_ [_ [_ Hr]]]]].
  exists d. split; [exact E|]. intros Hin.
  assert (Hf : deadlineFired (snd (processTaskWithTimeout env a w)) = true).
  { destruct Hr as [[Hf _]|[_ [_ [_ Hno]]]]; [exact Hf|].
    assert (Hin' : In (EStatus RaceHandler error TIMEOUT_STATUS_MESSAGE)
                      (filter isRaceWrite d))
      by (apply filter_In; split; [exact Hin | reflexivity]).
    rewrite Hno in Hin'. destruct Hin'. }
  pose proof (processTaskWithTimeout_deadline env a w Ht Hf) as H.
  unfold nodeDelay in H.
  replace ((1 <=? arg_maxDuration a * 60 * 1000)
           && (arg_maxDuration a * 60 * 1000 <=? TIMEOUT_MAX)) with true in H
    by (symmetry; apply andb_true_intro; split; apply Z.leb_le; lia).
  exact H.
Qed.

Lemma timeout_error_not_before_budget_witness :
  exists d,
    trace (snd (processTaskWithTimeout slowAgent (repoArgs 1)
                  (initial (row (Some "feature/fix-login")))))
    = trace (initial (row (Some "feature/fix-login"))) ++ d
    /\ (In (EStatus RaceHandler error TIMEOUT_STATUS_MESSAGE) d ->
        clock (initial (row (Some "feature/fix-login")))
        + arg_maxDuration (repoArgs 1) * 60 * 1000
        <= clock (snd (processTaskWithTimeout slowAgent (repoArgs 1)
                         (initial (row (Some "feature/fix-login")))))).
Proof.
  apply (timeout_error_not_before_budget slowAgent (repoArgs 1)
           (initial (row (Some "feature/fix-login")))).
  - reflexivity.
  - vm_compute. split; discriminate.
Defined.

End TimerProps.

(** ** The daily limit *)
Module RateLimitProps.
Import Js RateLimit.
Local Open Scope string_scope.
Local Open Scope list_scope.
Local Open Scope Z_scope.

Lemma checkRateLimit_returns (S : Surroundings) (db : Db)
    (user : RateLimitUser) (r : RateLimit) :
  checkRateLimit S db user = Returns r ->
  exists maxMessagesPerDay,
    r = {| allowed := count_total db (user_id user) (setUTCHours0 (now S))
                      <? maxMessagesPerDay;
           remaining := Z.max 0 (maxMessagesPerDay
                                 - count_total db (user_id user)
                                     (setUTCHours0 (now S)));
           total := maxMessagesPerDay;
           resetAt := setUTCDateNext (setUTCHours0 (now S)) |}.
Proof.
  unfold checkRateLimit. intros H.
  destruct (if isAdminUser S user then _ else _) as [m|e]; [|discriminate].
  destruct (taskQueryThrows S); [discriminate|].
  destruct (messageQueryThrows S); [discriminate|].
  injection H as <-. exists m. reflexivity.
Qed.

Lemma count_total_nonneg (db : Db) (id : string) (today : Z) :
  0 <= count_total db id today.
Proof. unfold count_total, countTasks, countMessages. lia. Qed.

(** X17.  Whenever [checkRateLimit] returns, [allowed] holds exactly
    when [remaining] is positive; [remaining] is never negative and
    never above [total]; and what is used and what remains add up to
    [total] as long as the limit is not exceeded. *)
Theorem allowed_iff_remaining (S : Surroundings) (db : Db)
    (user : RateLimitUser) (r : RateLimit) :
  checkRateLimit S db user = Returns r ->
  (allowed r = true <-> 0 < remaining r)
  /\ 0 <= remaining r
  /\ (0 <= total r -> remaining r <= total r)
  /\ (allowed r = true ->
      count_total db (user_id user) (setUTCHours0 (now S)) + remaining r
      = total r).
Proof.
  intros H. destruct (checkRateLimit_returns S db user r H) as [m ->].
  cbn [allowed remaining total].
  pose proof (count_total_nonneg db (user_id user) (setUTCHours0 (now S))).
  rewrite Z.ltb_lt. repeat split; lia.
Qed.

Lemma allowed_iff_remaining_witness :
  (allowed {| allowed := true; remaining := 3; total := 5;
              resetAt := 1772409600000 |} = true
   <-> 0 < remaining {| allowed := true; remaining := 3; total := 5;
                        resetAt := 1772409600000 |})
  /\ 0 <= remaining {| allowed := true; remaining := 3; total := 5;
                       resetAt := 1772409600000 |}.
Proof.
  destruct (allowed_iff_remaining sampleSurroundings sampleDb sampleUser
              {| allowed := true; remaining := 3; total := 5;
                 resetAt := 1772409600000 |} eq_refl) as [A [B _]].
  split; [exact A | exact B].
Defined.

(** X18.  [resetAt] is the next midnight UTC: a multiple of a day that
    lies after the moment of the call and at most a day after it; and
    the day that counts begins at the midnight before, at most a day
    back. *)
Theorem resetAt_is_next_midnight (S : Surroundings) (db : Db)
    (user : RateLimitUser) (r : RateLimit) :
  checkRateLimit S db user = Returns r ->
  resetAt r mod msPerDay = 0
  /\ now S < resetAt r <= now S + msPerDay
  /\ resetAt r - msPerDay = setUTCHours0 (now S).
Proof.
  intros H. destruct (checkRateLimit_returns S db user r H) as [m ->].
  cbn [resetAt]. unfold setUTCDateNext, setUTCHours0, msPerDay.
  pose proof (Z.div_mod (now S) 86400000).
  pose proof (Z.mod_pos_bound (now S) 86400000).
  split; [|lia].
  replace (now S / 86400000 * 86400000 + 86400000)
    with ((now S / 86400000 + 1) * 86400000) by lia.
  apply Z.mod_mul. lia.
Qed.

Lemma resetAt_is_next_midnight_witness :
  1772409600000 mod msPerDay = 0
  /\ now sampleSurroundings < 1772409600000
     <= now sampleSurroundings + msPerDay
  /\ 1772409600000 - msPerDay = setUTCHours0 (now sampleSurroundings).
Proof.
  apply (resetAt_is_next_midnight sampleSurroundings sampleDb sampleUser
           {| allowed := true; remaining := 3; total := 5;
              resetAt := 1772409600000 |}).
  reflexivity.
Defined.

Lemma filter_filter {A : Type} (f g : A -> bool) (l : list A) :
  filter f (filter g l) = filter (fun x => g x && f x) l.
Proof.
  induction l as [|x l IH]; [reflexivity|].
  cbn [filter]. destruct (g x); cbn [filter andb]; rewrite IH; reflexivity.
Qed.

Lemma count_total_ownLive (db : Db) (id : string) (today : Z) :
  count_total (ownLive id db) id today = count_total db id today.
Proof.
  unfold count_total, countTasks, countMessages, ownLive.
  cbn [tasks taskMessages]. f_equal; do 2 f_equal.
  - rewrite filter_filter. apply filter_ext. intros t.
    destruct (String.eqb (task_userId t) id), (today <=? task_createdAt t),
      (isNull (task_deletedAt t)); reflexivity.
  - apply flat_map_ext. intros m.
    rewrite filter_filter. apply filter_ext. intros t.
    destruct (String.eqb (message_taskId m) (task_id t)),
      (String.eqb (task_userId t) id), (String.eqb (message_role m) "user"),
      (today <=? message_createdAt m), (isNull (task_deletedAt t));
      reflexivity.
Qed.


(** X20.  A new task of the user counts once, and the user message
    that carries its prompt counts once more: with both inserted today,
    two units of the daily limit are used. *)
Theorem task_with_its_message_counts_twice (db : Db) (id : string)
    (today : Z) (t : TaskRow) (m : MessageRow) :
  (forall t', In t' (tasks db) -> task_id t' <> task_id t) ->
  (forall m', In m' (taskMessages db) -> message_taskId m' <> task_id t) ->
  task_userId t = id ->
  task_deletedAt t = None ->
  today <= task_createdAt t ->
  message_taskId m = task_id t ->
  message_role m = "user" ->
  today <= message_createdAt m ->
  count_total (withTaskAndMessage t m db) id today
  = count_total db id today + 2.
Proof.
  intros Hfresh Hnone Hu Hd Hc Hm Hr Hmc.
  unfold count_total, countTasks, countMessages, withTaskAndMessage.
  cbn [tasks taskMessages].
  rewrite filter_app, length_app.
  rewrite flat_map_app, length_app.
  cbn [filter flat_map].
  rewrite Hu, Hd, String.eqb_refl. cbn [isNull andb].
  destruct (Z.leb_spec today (task_createdAt t)) as [_|]; [|lia].
  cbn [List.length].
  rewrite app_nil_r, filter_app, length_app. cbn [filter].
  rewrite Hm, Hr, !String.eqb_refl. cbn [andb].
  destruct (Z.leb_spec today (message_createdAt m)) as [_|]; [|lia].
  cbn [List.length].
  assert (Hold : forall ms,
            (forall m', In m' ms -> message_taskId m' <> task_id t) ->
            flat_map
              (fun m0 =>
                 filter (fun t0 => String.eqb (message_taskId m0) (task_id t0)
                                   && String.eqb (task_userId t0) id
                                   && String.eqb (message_role m0) "user"
                                   && (today <=? message_createdAt m0)
                                   && isNull (task_deletedAt t0))
                        (tasks db ++ [t])) ms
            = flat_map
                (fun m0 =>
                   filter (fun t0 => String.eqb (message_taskId m0) (task_id t0)
                                     && String.eqb (task_userId t0) id
                                     && String.eqb (message_role m0) "user"
                                     && (today <=? message_createdAt m0)
                                     && isNull (task_deletedAt t0))
                          (tasks db)) ms).
  { intros ms Hms. induction ms as [|m0 ms IH]; [reflexivity|].
    cbn [flat_map]. rewrite IH by (intros m' Hin; apply Hms; right; exact Hin).
    f_equal. rewrite filter_app. cbn [filter].
    destruct (String.eqb_spec (message_taskId m0) (task_id t)) as [E|_];
      [contradiction (Hms m0 (or_introl eq_refl) E)|].
    cbn [andb]. apply app_nil_r. }
  rewrite (Hold _ Hnone).
  assert (Hnew : filter
                   (fun t0 => String.eqb (task_id t) (task_id t0)
                              && String.eqb (task_userId t0) id && true && true
                              && isNull (task_deletedAt t0)) (tasks db) = []).
  { clear - Hfresh. induction (tasks db) as [|t0 l IH]; [reflexivity|].
    cbn [filter].
    destruct (String.eqb_spec (task_id t) (task_id t0)) as [E|_].
    - exfalso. apply (Hfresh t0); [left; reflexivity | symmetry; exact E].
    - cbn [andb]. apply IH. intros t' Hin. apply Hfresh. right. exact Hin. }
  rewrite Hnew, Hu, Hd, String.eqb_refl. cbn [List.length app andb isNull].
  lia.
Qed.

Lemma task_with_its_message_counts_twice_witness :
  count_total
    (withTaskAndMessage
       {| task_id := "T2"; task_userId := "user-1";
          task_createdAt := 1772323200000 + 120000; task_deletedAt := None |}
       {| message_taskId := "T2"; message_role := "user";
          message_createdAt := 1772323200000 + 121000 |}
       sampleDb)
    "user-1" 1772323200000
  = count_total sampleDb "user-1" 1772323200000 + 2.
Proof.
  apply (task_with_its_message_counts_twice sampleDb "user-1" 1772323200000
           {| task_id := "T2"; task_userId := "user-1";
              task_createdAt := 1772323200000 + 120000;
              task_deletedAt := None |}
           {| message_taskId := "T2"; message_role := "user";
              message_createdAt := 1772323200000 + 121000 |}).
  - intros t' [<-|[]]. discriminate.
  - intros m' [<-|[]]. discriminate.
  - reflexivity.
  - reflexivity.
  - cbn. lia.
  - reflexivity.
  - reflexivity.
  - cbn. lia.
Defined.

End RateLimitProps.

(** ** Keys and tokens of a user *)
Module UserKeysProps.
Import Js Buffer Crypto CryptoSpec UserKeys BufferFacts CryptoFacts CryptoProps.
Local Open Scope string_scope.
Local Open Scope list_scope.

(** What the [switch] does to the field of a provider. *)
Lemma field_assign (provider p : string) (value : option jsstring)
    (apiKeys : ApiKeys) (current : option jsstring) :
  field provider apiKeys = Some current ->
  field provider (assign p value apiKeys)
  = Some (if String.eqb p provider then value else current).
Proof.
  unfold field, assign.
  destruct (String.eqb_spec provider "openai") as [->|N1];
    [|destruct (String.eqb_spec provider "gemini") as [->|N2];
      [|destruct (String.eqb_spec provider "cursor") as [->|N3];
        [|destruct (String.eqb_spec provider "anthropic") as [->|N4];
          [|destruct (String.eqb_spec provider "aigateway") as [->|N5];
            [|destruct (String.eqb_spec provider "github") as [->|N6];
              [|discriminate]]]]]];
    intros H; injection H as <-;
    destruct (String.eqb_spec p "openai") as [->|];
    try reflexivity;
    destruct (String.eqb_spec p "gemini") as [->|];
    try reflexivity;
    destruct (String.eqb_spec p "cursor") as [->|];
    try reflexivity;
    destruct (String.eqb_spec p "anthropic") as [->|];
    try reflexivity;
    destruct (String.eqb_spec p "aigateway") as [->|];
    try reflexivity;
    destruct (String.eqb_spec p "github") as [->|];
    try reflexivity;
    cbn [OPENAI_API_KEY GEMINI_API_KEY CURSOR_API_KEY ANTHROPIC_API_KEY
         AI_GATEWAY_API_KEY GITHUB_TOKEN];
    match goal with
    | |- Some _ = Some (if String.eqb ?a ?b then _ else _) =>
        destruct (String.eqb_spec a b); [congruence | reflexivity]
    end.
Qed.

Section Keys.
Context {C : Cipher}.
Variable ENCRYPTION_KEY : option jsstring.
Hypothesis key_ok : malformedKey ENCRYPTION_KEY = false.

Lemma decryptOrNull_decrypt (value : jsstring) :
  decrypt ENCRYPTION_KEY value = Returns (decryptOrNull ENCRYPTION_KEY value).
Proof.
  unfold decryptOrNull.
  destruct (decrypt_returns ENCRYPTION_KEY value key_ok) as [r ->].
  reflexivity.
Qed.

Lemma forEachKey_field (provider : string) (rows : list KeyRow) :
  forall (apiKeys : ApiKeys) (current : option jsstring),
    field provider apiKeys = Some current ->
    field provider (forEachKey ENCRYPTION_KEY rows apiKeys)
    = Some (match lastOf provider rows with
            | Some value => decryptOrNull ENCRYPTION_KEY value
            | None => current
            end).
Proof.
  induction rows as [|key rest IH]; intros apiKeys current H; [exact H|].
  cbn [forEachKey lastOf]. rewrite decryptOrNull_decrypt.
  rewrite (IH _ _ (field_assign provider (keys_provider key) _ _ _ H)).
  destruct (lastOf provider rest); [reflexivity|].
  destruct (String.eqb (keys_provider key) provider); reflexivity.
Qed.

End Keys.

(** X21.  Unless [ENCRYPTION_KEY] is malformed, each of the six keys
    [getApiKeysByUserId] returns is what [decrypt] makes of the user's
    last row for that provider, also when that is [null], and the system
    key (for GitHub: nothing) only when the user has no such row: a
    stored key that cannot be decrypted is not replaced by the system
    key. *)
Theorem user_key_overrides_system_key {C : Cipher}
    (ENCRYPTION_KEY e1 e2 e3 e4 e5 : option jsstring) (db : Store)
    (userId provider : string) (systemKey : option jsstring) :
  malformedKey ENCRYPTION_KEY = false ->
  keysQueryThrows db = false ->
  field provider (systemKeys e1 e2 e3 e4 e5) = Some systemKey ->
  field provider (getApiKeysByUserId ENCRYPTION_KEY e1 e2 e3 e4 e5 db userId)
  = Some (match lastValue db userId provider with
          | Some value => decryptOrNull ENCRYPTION_KEY value
          | None => systemKey
          end).
Proof.
  intros Hkey Hq Hf. unfold getApiKeysByUserId, lastValue. rewrite Hq.
  apply forEachKey_field; assumption.
Qed.

Lemma user_key_overrides_system_key_witness :
  field "openai"
    (@getApiKeysByUserId CaesarCipher Scenarios.sampleKey
       (Some (lit "sk-system")) None None None None
       (sampleStore "openai" (lit "not encrypted")) "user-1")
  = Some None.
Proof.
  apply (@user_key_overrides_system_key CaesarCipher Scenarios.sampleKey
           (Some (lit "sk-system")) None None None None
           (sampleStore "openai" (lit "not encrypted")) "user-1" "openai"
           (Some (lit "sk-system"))); reflexivity.
Defined.

(** X22.  A token stored for the user under provider [github] with
    [encrypt] is what [getGitHubTokenByUserId] returns, whatever the
    connected accounts and the user's own row hold: the stored personal
    token comes first. *)
Theorem stored_github_token_is_returned {C : Cipher}
    (ENCRYPTION_KEY : option jsstring) (iv : buffer) (token : jsstring)
    (db : Store) (userId : string) (row : KeyRow) :
  gcmCorrect C ->
  validKey ENCRYPTION_KEY = true ->
  List.length iv = IV_LENGTH_GCM ->
  falsy token = false ->
  wellFormed token = true ->
  keysQueryThrows db = false ->
  hd_error (filter (fun k => String.eqb (keys_userId k) userId
                             && String.eqb (keys_provider k) "github")
                   (keys db)) = Some row ->
  encrypt ENCRYPTION_KEY iv token = Returns (keys_value row) ->
  getGitHubTokenByUserId ENCRYPTION_KEY db userId = Some token.
Proof.
  intros Hgcm Hkey Hiv Hne Hwf Hq Hrow Henc.
  destruct (@decrypt_encrypt_utf8 C Hgcm ENCRYPTION_KEY Hkey iv Hiv token Hne)
    as [encrypted [E D]].
  rewrite E in Henc. injection Henc as Henc.
  unfold getGitHubTokenByUserId. rewrite Hq, Hrow. cbn [option_map].
  rewrite <- Henc.
  assert (Hfilled : exists u t, encrypted = u :: t).
  { unfold encrypt in E. rewrite Hne in E.
    destruct (getEncryptionKey ENCRYPTION_KEY) as [[k|]|]; try discriminate.
    destruct (gcmEncrypt k iv (utf8Encode token)) as [enc tag].
    injection E as <-.
    destruct iv as [|b iv']; [discriminate Hiv|].
    cbn. eexists. eexists. reflexivity. }
  destruct Hfilled as [u [t ->]]. cbn [nonEmpty].
  unfold decryptOrNull. rewrite D. f_equal.
  apply utf8_roundtrip. exact Hwf.
Qed.

Lemma stored_github_token_is_returned_witness :
  @getGitHubTokenByUserId CaesarCipher Scenarios.sampleKey
    (sampleStore "github" (lit "0102030405060708090a0b0c:9293:02"))
    "user-1"
  = Some (lit "hi").
Proof.
  apply (@stored_github_token_is_returned CaesarCipher Scenarios.sampleKey
           Scenarios.sampleIv (lit "hi")
           (sampleStore "github" (lit "0102030405060708090a0b0c:9293:02"))
           "user-1"
           {| keys_userId := "user-1"; keys_provider := "github";
              keys_value := lit "0102030405060708090a0b0c:9293:02" |}).
  - apply CaesarCipher_correct.
  - reflexivity.
  - reflexivity.
  - reflexivity.
  - reflexivity.
  - reflexivity.
  - reflexivity.
  - reflexivity.
Defined.

End UserKeysProps.

(** ** The task route *)
Module TaskRouteProps.
Import Js TaskStore TaskRoute.
Local Open Scope string_scope.
Local Open Scope list_scope.
Local Open Scope Z_scope.

Lemma reachable_markDeleted (S : Surroundings) (rows : list Row)
    (taskId userId : string) :
  reachable (map (markDeleted S taskId userId) rows) taskId userId = [].
Proof.
  unfold reachable. induction rows as [|r rows IH]; [reflexivity|].
  cbn [map filter]. unfold markDeleted at 1 2 3.
  destruct (String.eqb (row_id r) taskId) eqn:Hi;
    destruct (String.eqb (row_userId r) userId) eqn:Hu;
    cbn [andb row_id row_userId isLive row_deletedAt];
    rewrite ?Hi, ?Hu; cbn [andb]; exact IH.
Qed.

(** X23.  A task that the caller does not own, or that is deleted, does
    not exist for the caller: when no row with the id is the caller's and
    live, [GET], [PATCH] and [DELETE] answer 404 and the table is left as
    it is. *)
Theorem foreign_or_deleted_task_is_not_found (S : Surroundings)
    (rows : list Row) (user : string) :
  getAuthFromRequest S = Returns (Some user) ->
  user <> "" ->
  selectThrows S = false ->
  reachable rows (params_taskId S) user = [] ->
  GET S rows = jsonError "Task not found" 404
  /\ PATCH S rows = (jsonError "Task not found" 404, rows)
  /\ DELETE S rows = (jsonError "Task not found" 404, rows).
Proof.
  intros Hauth Hne Hsel Hnone.
  assert (Hu : getAuthenticatedUser S = Returns (Some user)).
  { unfold getAuthenticatedUser. rewrite Hauth. unfold truthy.
    destruct (String.eqb_spec user ""); [contradiction | reflexivity]. }
  assert (Ht : getUserTask S rows (params_taskId S) user = Returns None).
  { unfold getUserTask. rewrite Hsel. fold (reachable rows (params_taskId S) user).
    rewrite Hnone. reflexivity. }
  unfold GET, PATCH, DELETE. rewrite Hu, Ht. repeat split.
Qed.

Lemma foreign_or_deleted_task_is_not_found_witness :
  GET (sampleRequest "user-2" None) (sampleRows processing)
  = jsonError "Task not found" 404
  /\ PATCH (sampleRequest "user-2" (Some "stop")) (sampleRows processing)
     = (jsonError "Task not found" 404, sampleRows processing)
  /\ DELETE (sampleRequest "user-2" None) (sampleRows processing)
     = (jsonError "Task not found" 404, sampleRows processing).
Proof.
  destruct (foreign_or_deleted_task_is_not_found
              (sampleRequest "user-2" None) (sampleRows processing) "user-2"
              eq_refl) as [G [_ D]]; try reflexivity; try discriminate.
  destruct (foreign_or_deleted_task_is_not_found
              (sampleRequest "user-2" (Some "stop")) (sampleRows processing)
              "user-2" eq_refl) as [_ [P _]];
    try reflexivity; try discriminate.
  split; [exact G | split; [exact P | exact D]].
Defined.

(** X24.  Deletion is soft and final for the caller: when [DELETE]
    answers 200 the table keeps all its rows, with the same ids, owners
    and statuses, and from then on the same caller gets 404 from [GET],
    from [PATCH] and from a second [DELETE]. *)
Theorem deleted_task_is_gone_for_its_owner (S : Surroundings)
    (rows : list Row) :
  httpStatus (fst (DELETE S rows)) = 200 ->
  map row_id (snd (DELETE S rows)) = map row_id rows
  /\ map row_userId (snd (DELETE S rows)) = map row_userId rows
  /\ map row_status (snd (DELETE S rows)) = map row_status rows
  /\ GET S (snd (DELETE S rows)) = jsonError "Task not found" 404
  /\ fst (PATCH S (snd (DELETE S rows))) = jsonError "Task not found" 404
  /\ fst (DELETE S (snd (DELETE S rows))) = jsonError "Task not found" 404.
Proof.
  intros H200.
  assert (Hd : exists user,
            getAuthenticatedUser S = Returns (Some user)
            /\ selectThrows S = false
            /\ snd (DELETE S rows)
               = map (markDeleted S (params_taskId S) user) rows).
  { unfold DELETE in *.
    destruct (getAuthenticatedUser S) as [[user|]|e] eqn:Hu;
      try (cbn in H200; discriminate).
    destruct (getUserTask S rows (params_taskId S) user) as [[task|]|e] eqn:Ht;
      try (cbn in H200; discriminate).
    destruct (updateThrows S) eqn:Hup; [cbn in H200; discriminate|].
    exists user. split; [reflexivity|]. split; [|reflexivity].
    unfold getUserTask in Ht. destruct (selectThrows S); [discriminate|].
    reflexivity. }
  destruct Hd as [user [Hu [Hsel Hd]]]. rewrite Hd.
  assert (Hgone : getUserTask S (map (markDeleted S (params_taskId S) user) rows)
                    (params_taskId S) user = Returns None).
  { unfold getUserTask. rewrite Hsel.
    fold (reachable (map (markDeleted S (params_taskId S) user) rows)
                    (params_taskId S) user).
    rewrite reachable_markDeleted. reflexivity. }
  assert (Hcols : forall (A : Type) (f : Row -> A),
            (forall r, f (markDeleted S (params_taskId S) user r) = f r) ->
            map f (map (markDeleted S (params_taskId S) user) rows)
            = map f rows).
  { intros A f Hf. rewrite map_map. apply map_ext. exact Hf. }
  split; [apply Hcols; intros r; unfold markDeleted;
          destruct (_ && _); reflexivity|].
  split; [apply Hcols; intros r; unfold markDeleted;
          destruct (_ && _); reflexivity|].
  split; [apply Hcols; intros r; unfold markDeleted;
          destruct (_ && _); reflexivity|].
  unfold GET, PATCH, DELETE. rewrite Hu, Hgone.
  cbn [fst snd]. repeat split; reflexivity.
Qed.

Lemma deleted_task_is_gone_for_its_owner_witness :
  map row_id (snd (DELETE (sampleRequest "user-1" None) (sampleRows completed)))
  = map row_id (sampleRows completed)
  /\ GET (sampleRequest "user-1" None)
         (snd (DELETE (sampleRequest "user-1" None) (sampleRows completed)))
     = jsonError "Task not found" 404.
Proof.
  destruct (deleted_task_is_gone_for_its_owner
              (sampleRequest "user-1" None) (sampleRows completed) eq_refl)
    as [I [_ [_ [G _]]]].
  split; [exact I | exact G].
Defined.

(** X25.  [PATCH] writes only when it stops a task: whenever its answer
    is not 200 the table is left as it is; and when it is 200 the body
    asked for [stop], the caller's task was [processing], and every row
    with the id now has status [stopped] and the error [Task was stopped
    by user]. *)
Theorem PATCH_writes_only_to_stop (S : Surroundings) (rows : list Row) :
  (httpStatus (fst (PATCH S rows)) <> 200 -> snd (PATCH S rows) = rows)
  /\ (httpStatus (fst (PATCH S rows)) = 200 ->
      request_json_action S = Returns (Some "stop")
      /\ (exists user task,
            getAuthenticatedUser S = Returns (Some user)
            /\ hd_error (reachable rows (params_taskId S) user) = Some task
            /\ row_status task = processing)
      /\ snd (PATCH S rows) = map (markStopped S (params_taskId S)) rows
      /\ Forall (fun r => row_id r = params_taskId S ->
                          row_status r = stopped
                          /\ row_error r = Some "Task was stopped by user")
                (snd (PATCH S rows))).
Proof.
  unfold PATCH.
  destruct (getAuthenticatedUser S) as [[user|]|e] eqn:Hu;
    try (cbn; split; [reflexivity | discriminate]).
  destruct (getUserTask S rows (params_taskId S) user) as [[task|]|e] eqn:Ht;
    try (cbn; split; [reflexivity | discriminate]).
  destruct (request_json_action S) as [action|e] eqn:Ha;
    try (cbn; split; [reflexivity | discriminate]).
  destruct action as [act|]; cbn [negb];
    try (cbn; split; [reflexivity | discriminate]).
  destruct (String.eqb_spec act "stop") as [->|Hne]; cbn [negb];
    try (cbn; split; [reflexivity | discriminate]).
  destruct (Status_eqb (row_status task) processing) eqn:Hs; cbn [negb];
    try (cbn; split; [reflexivity | discriminate]).
  unfold stopTaskExecution.
  destruct (updateThrows S); cbn [negb stop_success stop_rows stop_task];
    try (cbn; split; [reflexivity | discriminate]).
  cbn [fst snd httpStatus]. split; [intros H; contradiction H; reflexivity|].
  intros _. split; [reflexivity|]. split.
  { exists user, task. split; [reflexivity|].
    unfold getUserTask in Ht. destruct (selectThrows S); [discriminate|].
    injection Ht as Ht. split; [exact Ht|].
    destruct (row_status task); try discriminate Hs. reflexivity. }
  split; [reflexivity|].
  apply Forall_forall. intros r Hin. apply in_map_iff in Hin.
  destruct Hin as [r0 [<- _]]. unfold markStopped.
  destruct (String.eqb_spec (row_id r0) (params_taskId S)) as [E|N].
  - intros _. split; reflexivity.
  - intros E. contradiction.
Qed.

Lemma PATCH_writes_only_to_stop_witness :
  snd (PATCH (sampleRequest "user-1" (Some "stop")) (sampleRows processing))
  = map (markStopped (sampleRequest "user-1" (Some "stop")) "T2")
        (sampleRows processing)
  /\ snd (PATCH (sampleRequest "user-1" (Some "stop")) (sampleRows completed))
     = sampleRows completed.
Proof.
  split.
  - apply (proj2 (PATCH_writes_only_to_stop
                    (sampleRequest "user-1" (Some "stop"))
                    (sampleRows processing)) eq_refl).
  - apply (proj1 (PATCH_writes_only_to_stop
                    (sampleRequest "user-1" (Some "stop"))
                    (sampleRows completed))).
    discriminate.
Defined.

End TaskRouteProps.

(** ** [parseGitHubUrl] and the errors of the GitHub client *)
Module GitHubProps.
Import Js Regex GitHubClient.
Local Open Scope string_scope.
Local Open Scope list_scope.

(** *** The matcher *)

Lemma stripPrefix_inv (p s s' : jsstring) :
  stripPrefix p s = Some s' -> s = p ++ s'.
Proof.
  revert s. induction p as [|a p IH]; intros s H.
  - cbn in H. injection H as ->. reflexivity.
  - destruct s as [|b s]; [discriminate|]. cbn [stripPrefix] in H.
    destruct (N.eqb_spec a b) as [->|]; [|discriminate].
    rewrite (IH _ H). reflexivity.
Qed.

Lemma stripPrefix_app (p s : jsstring) : stripPrefix p (p ++ s) = Some s.
Proof.
  induction p as [|a p IH]; [reflexivity|].
  cbn [stripPrefix app]. rewrite N.eqb_refl. exact IH.
Qed.

Section Plus.
Context {A : Type}.
Variable p : N -> bool.

Lemma plusGreedy_inv (s : jsstring) (k : jsstring -> option A) (r : A) :
  plusGreedy p s k = Some r ->
  exists a s', s = a ++ s' /\ a <> [] /\ forallb p a = true /\ k s' = Some r.
Proof.
  induction s as [|c t IH]; [discriminate|]. cbn [plusGreedy].
  destruct (p c) eqn:Hc; [|discriminate].
  destruct (plusGreedy p t k) as [r'|] eqn:Hg.
  - intros H. injection H as ->.
    destruct (IH eq_refl) as [a [s' [-> [_ [Ha Hk]]]]].
    exists (c :: a), s'. cbn [forallb app]. rewrite Hc, Ha.
    repeat split; [discriminate | exact Hk].
  - intros H. exists [c], t. cbn [forallb app]. rewrite Hc.
    repeat split; [discriminate | exact H].
Qed.

Lemma plusLazy_inv (s : jsstring) (k : jsstring -> option A) (r : A) :
  plusLazy p s k = Some r ->
  exists a s', s = a ++ s' /\ a <> [] /\ forallb p a = true /\ k s' = Some r.
Proof.
  induction s as [|c t IH]; [discriminate|]. cbn [plusLazy].
  destruct (p c) eqn:Hc; [|discriminate].
  destruct (k t) as [r'|] eqn:Hk.
  - intros H. injection H as ->. exists [c], t. cbn [forallb app].
    rewrite Hc. repeat split; [discriminate | exact Hk].
  - intros H. destruct (IH H) as [a [s' [-> [_ [Ha Hk']]]]].
    exists (c :: a), s'. cbn [forallb app]. rewrite Hc, Ha.
    repeat split; [discriminate | exact Hk'].
Qed.

(** A run of [p] that cannot be made longer is what the greedy
    quantifier takes when the continuation accepts what follows. *)
Lemma plusGreedy_longest (a s' : jsstring) (k : jsstring -> option A) (r : A) :
  a <> [] -> forallb p a = true ->
  match s' with [] => True | c :: _ => p c = false end ->
  k s' = Some r ->
  plusGreedy p (a ++ s') k = Some r.
Proof.
  intros Hne Ha Hs Hk. induction a as [|c a IH]; [contradiction Hne; reflexivity|].
  cbn [forallb] in Ha. apply andb_true_iff in Ha. destruct Ha as [Hc Ha].
  cbn [app plusGreedy]. rewrite Hc.
  destruct a as [|c' a'].
  - cbn [app]. destruct s' as [|d t]; cbn [plusGreedy]; [exact Hk|].
    rewrite Hs. exact Hk.
  - rewrite IH; [reflexivity | discriminate | exact Ha].
Qed.

(** The lazy quantifier takes the whole of a run when the continuation
    rejects every shorter choice. *)
Lemma plusLazy_whole (a s' : jsstring) (k : jsstring -> option A) (r : A) :
  a <> [] -> forallb p a = true ->
  (forall c t, p c = true -> k (c :: t) = None) ->
  k s' = Some r ->
  plusLazy p (a ++ s') k = Some r.
Proof.
  intros Hne Ha Hrej Hk. induction a as [|c a IH]; [contradiction Hne; reflexivity|].
  cbn [forallb] in Ha. apply andb_true_iff in Ha. destruct Ha as [Hc Ha].
  cbn [app plusLazy]. rewrite Hc.
  destruct a as [|c' a'].
  - cbn [app]. rewrite Hk. reflexivity.
  - cbn [forallb] in Ha. apply andb_true_iff in Ha. destruct Ha as [Hc' Ha'].
    cbn [app]. rewrite (Hrej c' (a' ++ s') Hc').
    apply IH; [discriminate|]. cbn [forallb]. rewrite Hc', Ha'. reflexivity.
Qed.

End Plus.

Lemma exec_inv (r : Re) (s : jsstring) (caps : Captures) :
  exec r s = Some caps ->
  exists pre rest,
    s = pre ++ rest
    /\ matchRe r rest noCaptures (fun _ c => Some c) = Some caps.
Proof.
  induction s as [|c t IH]; cbn [exec].
  - destruct (matchRe r [] noCaptures _) as [c|] eqn:Hm; [|discriminate].
    intros H. injection H as ->. exists [], []. split; [reflexivity | exact Hm].
  - destruct (matchRe r (c :: t) noCaptures _) as [c'|] eqn:Hm.
    + intros H. injection H as ->. exists [], (c :: t).
      split; [reflexivity | exact Hm].
    + intros H. destruct (IH H) as [pre [rest [-> Hr]]].
      exists (c :: pre), rest. split; [reflexivity | exact Hr].
Qed.

Lemma exec_finds (r : Re) (pre rest : jsstring) (caps : Captures) :
  matchRe r rest noCaptures (fun _ c => Some c) = Some caps ->
  exists caps', exec r (pre ++ rest) = Some caps'.
Proof.
  intros Hm. induction pre as [|c pre IH].
  - cbn [app]. destruct rest as [|d t]; cbn [exec]; rewrite Hm;
      eexists; reflexivity.
  - cbn [app exec].
    destruct (matchRe r (c :: pre ++ rest) noCaptures _) as [c'|];
      [eexists; reflexivity | exact IH].
Qed.

(** *** Splitting at the last delimiter *)

Lemma split_at_last_unique (D : N -> bool) :
  forall (x x' : jsstring) (c c' : N) (y y' : jsstring),
    D c = true -> D c' = true ->
    forallb (fun u => negb (D u)) y = true ->
    forallb (fun u => negb (D u)) y' = true ->
    x ++ c :: y = x' ++ c' :: y' ->
    x = x' /\ c = c' /\ y = y'.
Proof.
  induction x as [|a x IH]; intros x' c c' y y' Hc Hc' Hy Hy' E.
  - destruct x' as [|a' x'].
    + cbn in E. injection E as -> ->. repeat split.
    + cbn in E. injection E as -> E. exfalso.
      rewrite E, forallb_app in Hy. apply andb_true_iff in Hy.
      destruct Hy as [_ Hy]. cbn in Hy. rewrite Hc' in Hy. discriminate.
  - destruct x' as [|a' x'].
    + cbn in E. injection E as -> E. exfalso.
      rewrite <- E, forallb_app in Hy'. apply andb_true_iff in Hy'.
      destruct Hy' as [_ Hy']. cbn in Hy'. rewrite Hc in Hy'. discriminate.
    + cbn in E. injection E as -> E.
      destruct (IH _ _ _ _ _ Hc Hc' Hy Hy' E) as [-> [-> ->]].
      repeat split.
Qed.

(** *** The pattern of [parseGitHubUrl] *)

Lemma firstn_consumed (a b : jsstring) :
  firstn (List.length (a ++ b) - List.length b) (a ++ b) = a.
Proof.
  rewrite length_app.
  replace (List.length a + List.length b - List.length b)%nat
    with (List.length a + 0)%nat by lia.
  rewrite firstn_app_2. cbn. apply app_nil_r.
Qed.

(** What follows the repository name in the pattern: [(\.git)?$]. *)
Local Notation "'TAIL'" := (Seq (Opt (Group 3 (Lit (lit ".git")))) EndOfInput).

Lemma tail_inv (s : jsstring) (caps caps' : Captures) :
  matchRe TAIL s caps (fun _ c => Some c) = Some caps' ->
  (s = [] \/ s = lit ".git")
  /\ caps' 1%nat = caps 1%nat /\ caps' 2%nat = caps 2%nat.
Proof.
  cbn [matchRe].
  destruct (stripPrefix (lit ".git") s) as [s6|] eqn:Hp.
  - apply stripPrefix_inv in Hp. subst s.
    destruct s6 as [|c t].
    + intros H. injection H as <-. split; [right; reflexivity|].
      split; reflexivity.
    + cbn. discriminate.
  - destruct s as [|c t]; [|discriminate].
    intros H. injection H as <-. split; [left; reflexivity|].
    split; reflexivity.
Qed.

Lemma tail_rejects (c : N) (t : jsstring) (caps : Captures) :
  wordOrHyphen c = true ->
  matchRe TAIL (c :: t) caps (fun _ c => Some c) = None.
Proof.
  intros Hc. cbn [matchRe].
  assert (Hdot : stripPrefix (lit ".git") (c :: t) = None).
  { replace (lit ".git") with (46%N :: lit "git") by reflexivity.
    cbn [stripPrefix].
    destruct (N.eqb_spec 46 c) as [<-|]; [discriminate Hc | reflexivity]. }
  rewrite Hdot. reflexivity.
Qed.

Lemma tail_accepts (suffix : jsstring) (caps : Captures) :
  suffix = [] \/ suffix = lit ".git" ->
  exists caps',
    matchRe TAIL suffix caps (fun _ c => Some c) = Some caps'
    /\ caps' 1%nat = caps 1%nat /\ caps' 2%nat = caps 2%nat.
Proof.
  intros [->| ->]; eexists; (split; [reflexivity|]); split; reflexivity.
Qed.

(** A match of the pattern at the head of [rest]. *)
Lemma GITHUB_URL_inv (rest : jsstring) (caps : Captures) :
  matchRe GITHUB_URL rest noCaptures (fun _ c => Some c) = Some caps ->
  exists sep o r suffix,
    rest = lit "github.com" ++ sep :: o ++ lit "/" ++ r ++ suffix
    /\ slashOrColon sep = true
    /\ plainName o = true /\ plainName r = true
    /\ (suffix = [] \/ suffix = lit ".git")
    /\ caps 1%nat = Some o /\ caps 2%nat = Some r.
Proof.
  unfold GITHUB_URL.
  set (T := Seq (Opt (Group 3 (Lit (lit ".git")))) EndOfInput).
  cbn [matchRe].
  destruct (stripPrefix (lit "github.com") rest) as [s1|] eqn:H1;
    [|discriminate].
  apply stripPrefix_inv in H1. subst rest.
  destruct s1 as [|sep s2]; [discriminate|].
  destruct (slashOrColon sep) eqn:Hsep; [|discriminate].
  intros H. apply plusGreedy_inv in H.
  destruct H as [o [s3 [-> [Ho [Hoc H]]]]].
  rewrite firstn_consumed in H.
  destruct (stripPrefix (lit "/") s3) as [s4|] eqn:H3; [|discriminate].
  apply stripPrefix_inv in H3. subst s3.
  apply plusLazy_inv in H.
  destruct H as [r [s5 [-> [Hr [Hrc H]]]]].
  rewrite firstn_consumed in H. unfold T in H.
  apply tail_inv in H. destruct H as [Hs [C1 C2]].
  exists sep, o, r, s5. split; [reflexivity|]. split; [exact Hsep|].
  unfold plainName.
  split; [destruct o; [contradiction Ho; reflexivity|]; cbn [falsy negb];
          exact Hoc|].
  split; [destruct r; [contradiction Hr; reflexivity|]; cbn [falsy negb];
          exact Hrc|].
  split; [exact Hs|]. rewrite C1, C2. split; reflexivity.
Qed.

Lemma plainName_inv (s : jsstring) :
  plainName s = true -> s <> [] /\ forallb wordOrHyphen s = true.
Proof.
  unfold plainName. destruct s; [discriminate|]. cbn [falsy negb andb].
  intros H. split; [discriminate | exact H].
Qed.

(** The pattern matches at the head of a URL of its form, and captures
    the two names. *)
Lemma GITHUB_URL_matches (sep : N) (o r suffix : jsstring) :
  slashOrColon sep = true ->
  plainName o = true -> plainName r = true ->
  suffix = [] \/ suffix = lit ".git" ->
  exists caps,
    matchRe GITHUB_URL (lit "github.com" ++ sep :: o ++ lit "/" ++ r ++ suffix)
            noCaptures (fun _ c => Some c) = Some caps
    /\ caps 1%nat = Some o /\ caps 2%nat = Some r.
Proof.
  intros Hsep Ho Hr Hs.
  apply plainName_inv in Ho. destruct Ho as [Ho Hoc].
  apply plainName_inv in Hr. destruct Hr as [Hr Hrc].
  destruct (tail_accepts suffix
              (setCapture 2 r (setCapture 1 o noCaptures)) Hs)
    as [caps [Ht [C1 C2]]].
  exists caps. split; [|split; [rewrite C1 | rewrite C2]; reflexivity].
  unfold GITHUB_URL.
  set (T := Seq (Opt (Group 3 (Lit (lit ".git")))) EndOfInput).
  cbn [matchRe]. unfold T.
  rewrite stripPrefix_app. rewrite Hsep.
  apply plusGreedy_longest; [exact Ho | exact Hoc | reflexivity |].
  rewrite firstn_consumed. rewrite stripPrefix_app.
  apply plusLazy_whole; [exact Hr | exact Hrc | |].
  - intros c t Hc. rewrite tail_rejects by exact Hc. reflexivity.
  - rewrite firstn_consumed. exact Ht.
Qed.

Lemma plain_has_no_slash (s : jsstring) :
  forallb wordOrHyphen s = true ->
  forallb (fun u => negb (N.eqb u 47)) s = true.
Proof.
  intros H. rewrite forallb_forall in *. intros u Hu. specialize (H u Hu).
  destruct (N.eqb_spec u 47) as [->|]; [discriminate H | reflexivity].
Qed.

Lemma plain_not_dotted (r : jsstring) :
  forallb wordOrHyphen (r ++ lit ".git") = false.
Proof.
  rewrite forallb_app. apply andb_false_iff. right. reflexivity.
Qed.

Lemma separator_not_plain (sep : N) :
  slashOrColon sep = true -> negb (wordOrHyphen sep) = true.
Proof.
  unfold slashOrColon. intros H. apply orb_true_iff in H.
  destruct H as [H|H]; apply N.eqb_eq in H; subst sep; reflexivity.
Qed.

(** Two readings of one URL by the pattern give the same names. *)
Lemma readings_agree (pre pre' : jsstring) (sep sep' : N)
    (o o' r r' suffix suffix' : jsstring) :
  slashOrColon sep = true -> slashOrColon sep' = true ->
  plainName o = true -> plainName o' = true ->
  plainName r = true -> plainName r' = true ->
  suffix = [] \/ suffix = lit ".git" ->
  suffix' = [] \/ suffix' = lit ".git" ->
  pre ++ lit "github.com" ++ sep :: o ++ lit "/" ++ r ++ suffix
  = pre' ++ lit "github.com" ++ sep' :: o' ++ lit "/" ++ r' ++ suffix' ->
  o = o' /\ r = r'.
Proof.
  intros Hsep Hsep' Ho Ho' Hr Hr' Hs Hs' E.
  apply plainName_inv in Ho, Ho', Hr, Hr'.
  destruct Ho as [_ Ho], Ho' as [_ Ho'], Hr as [_ Hr], Hr' as [_ Hr'].
  assert (Hy : forall x suf, forallb wordOrHyphen x = true ->
                 suf = [] \/ suf = lit ".git" ->
                 forallb (fun u => negb (N.eqb u 47)) (x ++ suf) = true).
  { intros x suf Hx [->| ->]; rewrite forallb_app, (plain_has_no_slash x Hx);
      reflexivity. }
  change (lit "/") with [47%N] in E.
  assert (E1 : (pre ++ lit "github.com" ++ sep :: o) ++ 47%N :: (r ++ suffix)
               = (pre' ++ lit "github.com" ++ sep' :: o')
                   ++ 47%N :: (r' ++ suffix')).
  { repeat rewrite <- app_assoc. cbn [app] in *.
    repeat rewrite <- app_assoc in E. exact E. }
  destruct (split_at_last_unique (fun u => N.eqb u 47)
              (pre ++ lit "github.com" ++ sep :: o)
              (pre' ++ lit "github.com" ++ sep' :: o') 47%N 47%N
              (r ++ suffix) (r' ++ suffix')
              eq_refl eq_refl (Hy r suffix Hr Hs) (Hy r' suffix' Hr' Hs') E1)
    as [EX [_ EY]].
  assert (Hrr : r = r').
  { destruct Hs as [->| ->], Hs' as [->| ->].
    - rewrite !app_nil_r in EY. exact EY.
    - rewrite app_nil_r in EY. subst r.
      rewrite plain_not_dotted in Hr. discriminate.
    - rewrite app_nil_r in EY. subst r'.
      rewrite plain_not_dotted in Hr'. discriminate.
    - apply app_inv_tail in EY. exact EY. }
  split; [|exact Hrr].
  assert (E2 : (pre ++ lit "github.com") ++ sep :: o
               = (pre' ++ lit "github.com") ++ sep' :: o').
  { repeat rewrite <- app_assoc. exact EX. }
  assert (Hplain : forall x, forallb wordOrHyphen x = true ->
             forallb (fun u => negb (negb (wordOrHyphen u))) x = true).
  { intros x Hx. rewrite forallb_forall in *. intros u Hu.
    rewrite negb_involutive. apply Hx, Hu. }
  destruct (split_at_last_unique (fun u => negb (wordOrHyphen u))
              (pre ++ lit "github.com") (pre' ++ lit "github.com")
              sep sep' o o'
              (separator_not_plain _ Hsep) (separator_not_plain _ Hsep')
              (Hplain o Ho) (Hplain o' Ho') E2)
    as [_ [_ EO]].
  exact EO.
Qed.

(** X26.  Whatever [parseGitHubUrl] returns was read off the end of the
    URL: the URL ends with [github.com], a slash or a colon, the owner,
    a slash, the repository and possibly [.git]; and both names are not
    empty and made of letters, digits, underscores and hyphens only. *)
Theorem parsed_names_are_plain (repoUrl : jsstring) (parsed : OwnerRepo) :
  parseGitHubUrl repoUrl = Some parsed ->
  exists pre sep o r suffix,
    repoUrl = pre ++ lit "github.com" ++ sep :: o ++ lit "/" ++ r ++ suffix
    /\ slashOrColon sep = true
    /\ (suffix = [] \/ suffix = lit ".git")
    /\ owner parsed = Some o /\ repo parsed = Some r
    /\ plainName o = true /\ plainName r = true.
Proof.
  unfold parseGitHubUrl.
  destruct (exec GITHUB_URL repoUrl) as [caps|] eqn:He; [|discriminate].
  intros H. injection H as <-.
  destruct (exec_inv _ _ _ He) as [pre [rest [-> Hm]]].
  destruct (GITHUB_URL_inv _ _ Hm)
    as [sep [o [r [suffix [-> [Hsep [Ho [Hr [Hs [C1 C2]]]]]]]]]].
  exists pre, sep, o, r, suffix. cbn [owner repo].
  repeat split; assumption.
Qed.

Lemma parsed_names_are_plain_witness :
  exists pre sep o r suffix,
    lit "git@github.com:acme/web-app.git"
    = pre ++ lit "github.com" ++ sep :: o ++ lit "/" ++ r ++ suffix
    /\ slashOrColon sep = true
    /\ (suffix = [] \/ suffix = lit ".git")
    /\ owner {| owner := Some (lit "acme"); repo := Some (lit "web-app") |}
       = Some o
    /\ repo {| owner := Some (lit "acme"); repo := Some (lit "web-app") |}
       = Some r
    /\ plainName o = true /\ plainName r = true.
Proof.
  apply (parsed_names_are_plain (lit "git@github.com:acme/web-app.git")
           {| owner := Some (lit "acme"); repo := Some (lit "web-app") |}).
  vm_compute. reflexivity.
Defined.

(** X27.  Every URL that ends with [github.com], a slash or a colon, an
    owner, a slash, a repository and possibly [.git], the two names not
    empty and made of letters, digits, underscores and hyphens, is
    parsed to that owner and that repository, whatever comes before
    [github.com]: the HTTPS and the SSH forms, and also a host that
    merely ends in [github.com]. *)
Theorem urls_of_the_form_are_parsed (pre : jsstring) (sep : N)
    (o r suffix : jsstring) :
  slashOrColon sep = true ->
  plainName o = true -> plainName r = true ->
  suffix = [] \/ suffix = lit ".git" ->
  parseGitHubUrl (pre ++ lit "github.com" ++ sep :: o ++ lit "/" ++ r ++ suffix)
  = Some {| owner := Some o; repo := Some r |}.
Proof.
  intros Hsep Ho Hr Hs.
  destruct (GITHUB_URL_matches sep o r suffix Hsep Ho Hr Hs) as [c [Hm _]].
  destruct (exec_finds GITHUB_URL pre _ c Hm) as [caps He].
  unfold parseGitHubUrl. rewrite He.
  destruct (exec_inv _ _ _ He) as [pre' [rest [E Hm']]].
  destruct (GITHUB_URL_inv _ _ Hm')
    as [sep' [o' [r' [suffix' [-> [Hsep' [Ho' [Hr' [Hs' [C1 C2]]]]]]]]]].
  destruct (readings_agree _ _ _ _ _ _ _ _ _ _
              Hsep Hsep' Ho Ho' Hr Hr' Hs Hs' E) as [-> ->].
  rewrite C1, C2. reflexivity.
Qed.

Lemma urls_of_the_form_are_parsed_witness :
  parseGitHubUrl (lit "https://" ++ lit "github.com" ++ 47%N :: lit "acme"
                    ++ lit "/" ++ lit "web-app" ++ [])
  = Some {| owner := Some (lit "acme"); repo := Some (lit "web-app") |}.
Proof.
  apply (urls_of_the_form_are_parsed (lit "https://") 47 (lit "acme")
           (lit "web-app") []).
  - reflexivity.
  - reflexivity.
  - reflexivity.
  - left. reflexivity.
Defined.

(** *** Errors *)

(** X28.  When one of the three operations on pull requests fails, its
    error message is never empty and never [Pull request not found]:
    the contexts they pass are not [pr], so a 404 from the API is always
    reported as [Repository not found or no access]. *)
Theorem pull_request_errors (S : Surroundings) (repoUrl : jsstring)
    (e : GitHubErrorResult) :
  failure (createPullRequest S repoUrl) = Some e
  \/ failure (mergePullRequest S repoUrl) = Some e
  \/ failure (getPullRequestStatus S repoUrl) = Some e ->
  success e = false
  /\ error e <> ""
  /\ error e <> "Pull request not found".
Proof.
  assert (Hmsg : forall status context,
            context = "create pull request" \/ context = "merge pull request"
            \/ context = "get pull request status" ->
            getErrorMessageFromStatus status context <> ""
            /\ getErrorMessageFromStatus status context
               <> "Pull request not found").
  { intros status context Hc. unfold getErrorMessageFromStatus.
    destruct (Z.eqb status 403); [split; discriminate|].
    destruct (Z.eqb status 404).
    { destruct Hc as [->|[->| ->]]; split; discriminate. }
    destruct (Z.eqb status 405); [split; discriminate|].
    destruct (Z.eqb status 409); [split; discriminate|].
    destruct (Z.eqb status 422); [split; discriminate|].
    split; discriminate. }
  assert (Hh : forall thrown context,
            context = "create pull request" \/ context = "merge pull request"
            \/ context = "get pull request status" ->
            success (handleGitHubError thrown context) = false
            /\ error (handleGitHubError thrown context) <> ""
            /\ error (handleGitHubError thrown context)
               <> "Pull request not found").
  { intros [status|] context Hc; cbn [handleGitHubError createErrorResult
                                      success error].
    - split; [reflexivity | apply Hmsg; exact Hc].
    - split; [reflexivity|]. split; discriminate. }
  unfold createPullRequest, mergePullRequest, getPullRequestStatus, failure.
  intros [H|[H|H]];
    destruct (getOctokit S) as [octokit|thrown];
    try (injection H as <-; apply Hh; auto);
    destruct (negb (auth octokit));
    try (injection H as <-; cbn; repeat split; discriminate);
    destruct (parseGitHubUrl repoUrl) as [parsed|];
    try (injection H as <-; cbn; repeat split; discriminate).
  - destruct (pulls_create S parsed) as [data|thrown]; [discriminate|].
    injection H as <-. apply Hh. auto.
  - destruct (pulls_merge S parsed) as [data|thrown]; [discriminate|].
    injection H as <-. apply Hh. auto.
  - destruct (pulls_get S parsed) as [data|thrown]; [discriminate|].
    injection H as <-. apply Hh. auto.
Qed.

Lemma pull_request_errors_witness :
  success (createErrorResult "Repository not found or no access") = false
  /\ error (createErrorResult "Repository not found or no access") <> ""
  /\ error (createErrorResult "Repository not found or no access")
     <> "Pull request not found".
Proof.
  apply (pull_request_errors (rejecting 404)
           (lit "https://github.com/acme/web-app")
           (createErrorResult "Repository not found or no access")).
  right. right. vm_compute. reflexivity.
Defined.

End GitHubProps.

(** ** Arguments of commands run in the sandbox *)
Module CommandsProps.
Import Js Commands.
Local Open Scope string_scope.
Local Open Scope list_scope.
Local Open Scope N_scope.

(** Between quotes, the replacement of an argument reads as the
    argument. *)
Lemma shWords_quoted (arg : jsstring) :
  forall (w rest : jsstring),
    shWords true (Some w)
      (replaceAll QUOTE [QUOTE; BACKSLASH; QUOTE; QUOTE] arg ++ rest)
    = shWords true (Some (w ++ arg)) rest.
Proof.
  induction arg as [|c arg IH]; intros w rest.
  - cbn [replaceAll flat_map app]. rewrite app_nil_r. reflexivity.
  - unfold replaceAll in *. cbn [flat_map].
    destruct (N.eqb_spec c QUOTE) as [->|Hne].
    + cbn [app shWords]. cbn [N.eqb QUOTE BACKSLASH Pos.eqb extend].
      rewrite IH. rewrite <- app_assoc. reflexivity.
    + cbn [app shWords].
      destruct (N.eqb_spec c QUOTE) as [|_]; [contradiction|].
      cbn [extend]. rewrite IH, <- app_assoc. reflexivity.
Qed.

(** An escaped argument that follows a blank or begins the line is read
    as one word, the argument. *)
Lemma shWords_escapeArg (arg rest : jsstring) :
  shWords false None (escapeArg arg ++ rest)
  = shWords false (Some arg) rest.
Proof.
  unfold escapeArg. rewrite <- !app_assoc. cbn [app shWords].
  cbn [N.eqb QUOTE Pos.eqb].
  rewrite shWords_quoted. cbn [app shWords]. cbn [N.eqb QUOTE Pos.eqb].
  reflexivity.
Qed.

Lemma shWords_arguments (args : list jsstring) :
  shWords false None (join [SPACE] (map escapeArg args)) = Some args.
Proof.
  induction args as [|a args IH]; [reflexivity|].
  destruct args as [|b args].
  - cbn [map join]. rewrite <- (app_nil_r (escapeArg a)), shWords_escapeArg.
    reflexivity.
  - change (join [SPACE] (map escapeArg (a :: b :: args)))
      with (escapeArg a ++ [SPACE]
              ++ join [SPACE] (map escapeArg (b :: args))).
    rewrite shWords_escapeArg.
    cbn [app shWords]. cbn [N.eqb SPACE QUOTE BACKSLASH Pos.eqb isBlank orb].
    rewrite IH. reflexivity.
Qed.

Lemma shWords_plain (command : jsstring) :
  forall (w : option jsstring) (rest : jsstring),
    forallb isPlain command = true ->
    shWords false w (command ++ rest)
    = shWords false (match command, w with
                     | [], _ => w
                     | _ :: _, Some x => Some (x ++ command)
                     | _ :: _, None => Some command
                     end) rest.
Proof.
  induction command as [|c command IH]; intros w rest H; [reflexivity|].
  cbn [forallb] in H. apply andb_true_iff in H. destruct H as [Hc H].
  cbn [app shWords].
  assert (Hq : (c =? QUOTE) = false).
  { destruct (N.eqb_spec c QUOTE) as [->|]; [discriminate Hc | reflexivity]. }
  assert (Hb : (c =? BACKSLASH) = false).
  { destruct (N.eqb_spec c BACKSLASH) as [->|]; [discriminate Hc | reflexivity]. }
  assert (Hs : isBlank c = false).
  { unfold isBlank.
    destruct (N.eqb_spec c 32) as [->|]; [discriminate Hc|].
    destruct (N.eqb_spec c 9) as [->|]; [discriminate Hc|].
    destruct (N.eqb_spec c 10) as [->|]; [discriminate Hc|]. reflexivity. }
  rewrite Hq, Hb, Hs, Hc. rewrite (IH _ _ H).
  destruct command as [|d command]; destruct w as [x|]; cbn [extend];
    rewrite <- ?app_assoc; reflexivity.
Qed.

(** X29.  The arguments [runInProject] puts on its command line reach
    the shell as they are: read by the shell's quoting rules, the line
    made of a plain command name and the escaped arguments gives back
    the command name and exactly the arguments, whatever quotes, blanks,
    dollar signs or other units they hold, and empty arguments
    included. *)
Theorem escaped_arguments_reach_the_shell (command : jsstring)
    (args : list jsstring) :
  plainWord command = true ->
  shWords false None (fullCommand command args) = Some (command :: args).
Proof.
  unfold plainWord. intros H. apply andb_true_iff in H.
  destruct H as [Hne Hp]. destruct command as [|c command]; [discriminate|].
  unfold fullCommand. destruct args as [|a args].
  - pose proof (shWords_plain (c :: command) None [] Hp) as H.
    rewrite app_nil_r in H. rewrite H. reflexivity.
  - rewrite (shWords_plain _ _ _ Hp).
    cbn [app shWords]. cbn [N.eqb SPACE QUOTE BACKSLASH Pos.eqb isBlank orb].
    rewrite shWords_arguments. reflexivity.
Qed.

Lemma escaped_arguments_reach_the_shell_witness :
  shWords false None
    (fullCommand (lit "git") [lit "commit"; lit "-m"; lit "it's $HOME"; []])
  = Some [lit "git"; lit "commit"; lit "-m"; lit "it's $HOME"; []].
Proof.
  apply (escaped_arguments_reach_the_shell (lit "git")
           [lit "commit"; lit "-m"; lit "it's $HOME"; []]).
  reflexivity.
Defined.

End CommandsProps.

(** ** Paging through a user's repositories *)
Module UserReposProps.
Import Js UserRepos.
Local Open Scope string_scope.
Local Open Scope list_scope.
Local Open Scope Z_scope.

(** [slice] between two indices in order, none negative. *)
Lemma slice_between {A : Type} (l : list A) (a b : Z) :
  0 <= a <= b ->
  slice l (Some a) (Some b)
  = firstn (Z.to_nat (b - a)) (skipn (Z.to_nat a) l).
Proof.
  intros H. unfold slice, toInteger.
  destruct (Z.ltb_spec a 0) as [|_]; [lia|].
  destruct (Z.ltb_spec b 0) as [|_]; [lia|].
  set (len := Z.of_nat (List.length l)).
  destruct (Z.le_gt_cases len a) as [Hge|Hlt].
  - rewrite Z.min_r by lia.
    rewrite !skipn_all2 by lia. rewrite !firstn_nil. reflexivity.
  - rewrite (Z.min_l a) by lia.
    destruct (Z.le_gt_cases b len) as [Hb|Hb].
    + rewrite Z.min_l by lia. reflexivity.
    + rewrite Z.min_r by lia.
      rewrite !firstn_all2; [reflexivity | |]; rewrite length_skipn; lia.
Qed.

Lemma skipn_firstn_within {A : Type} (l : list A) (off n total : nat) :
  (off + n <= total)%nat ->
  firstn n (skipn off (firstn total l)) = firstn n (skipn off l).
Proof.
  intros H. rewrite skipn_firstn_comm, firstn_firstn.
  f_equal. lia.
Qed.

(** Where the slice lies when [perPage] divides 100. *)
Lemma slice_position (p n : Z) :
  1 <= p -> 1 <= n -> 100 mod n = 0 ->
  exists q off,
    ceilDiv (p * n) 100 = q + 1
    /\ remainder ((p - 1) * n) 100 = off
    /\ 0 <= q /\ 0 <= off /\ off + n <= 100
    /\ (p - 1) * n = 100 * q + off.
Proof.
  intros Hp Hn Hd.
  assert (Hk : 100 = n * (100 / n)).
  { pose proof (Z.div_mod 100 n). lia. }
  set (k := 100 / n) in *.
  assert (Hkpos : 1 <= k) by nia.
  pose proof (Z.div_mod (p - 1) k) as Hdm.
  pose proof (Z.mod_pos_bound (p - 1) k) as Hmb.
  pose proof (Z.div_pos (p - 1) k) as Hq.
  set (q := (p - 1) / k) in *. set (m := (p - 1) mod k) in *.
  exists q, (n * m).
  assert (Hpos : (p - 1) * n = 100 * q + n * m) by nia.
  split.
  { unfold ceilDiv.
    assert (E : - (p * n) / 100 = - (q + 1)).
    { symmetry. apply (Z.div_unique _ _ _ (100 - n * (m + 1))); nia. }
    rewrite E. lia. }
  split.
  { unfold remainder. rewrite Z.rem_mod_nonneg by nia.
    symmetry. apply (Z.mod_unique _ _ q); nia. }
  repeat split; nia.
Qed.

(** X30.  When GitHub serves the user's repositories in pages of 100 and
    [per_page] divides 100, the handler answers page [page] with exactly
    the items from [(page - 1) * per_page] up to [page * per_page] of the
    listing, and [has_more] is true whenever the listing goes on after
    them. *)
Theorem repositories_are_paged_exactly (S : Surroundings)
    (all : list GitHubRepo) (token username : string) (p n : Z) :
  getUserGitHubToken S = Resolved (Some token) ->
  token <> "" ->
  searching S = false ->
  fetchUser S = Resolved (Some username) ->
  servesInPages S all ->
  page S = Some p -> perPage S = Some n ->
  1 <= p -> 1 <= n -> 100 mod n = 0 ->
  exists has_more,
    GET S = Repos (pageOf all p n) (Some p) (Some n) has_more None username
    /\ (p * n < Z.of_nat (List.length all) -> has_more = true).
Proof.
  intros Ht Hne Hs Hu Hserve Hpage Hper Hp Hn Hd.
  destruct (slice_position p n Hp Hn Hd)
    as [q [off [Hg [Ho [Hq [Hoff [Hfit Hpos]]]]]]].
  unfold GET. rewrite Ht, Hs, Hu.
  destruct token as [|c token]; [contradiction Hne; reflexivity|].
  unfold githubPage, offsetInGithubPage, githubPerPage. rewrite Hpage, Hper.
  cbn [lift2 option_map]. rewrite Hg, Ho.
  rewrite (Hserve (q + 1)) by lia.
  replace (100 * (q + 1 - 1)) with (100 * q) by lia.
  rewrite slice_between by lia.
  replace (off + n - off) with n by lia.
  assert (Hslice :
    firstn (Z.to_nat n)
      (skipn (Z.to_nat off)
         (firstn 100 (skipn (Z.to_nat (100 * q)) all)))
    = pageOf all p n).
  { rewrite skipn_firstn_within by lia.
    rewrite skipn_skipn. unfold pageOf. do 2 f_equal. lia. }
  rewrite Hslice.
  eexists. split; [reflexivity|].
  intros Hmore. apply orb_true_iff. right.
  unfold strictEq. apply Z.eqb_eq.
  unfold pageOf. rewrite length_firstn, length_skipn. lia.
Qed.

Lemma repositories_are_paged_exactly_witness :
  exists has_more,
    GET (sampleQuery 5 25)
    = Repos (pageOf (numbered 230) 5 25) (Some 5) (Some 25) has_more None
            "acme"
    /\ (5 * 25 < Z.of_nat (List.length (numbered 230)) -> has_more = true).
Proof.
  apply (repositories_are_paged_exactly (sampleQuery 5 25) (numbered 230)
           "ghp_token" "acme" 5 25); try reflexivity; try lia.
  - discriminate.
  - intros g Hg. reflexivity.
Defined.

End UserReposProps.
